(** * GQCP: Fock-space addressing, DOCI Hamiltonian builder, Davidson solver

    A shallow embedding of the parts of the GQCP library that the
    specification talks about, and the theorems that relate the two.

    Conventions of the embedding.
    - [size_t] values that can be large (ONV representations, addresses,
      vertex weights, dimensions) are integers in [Z]; every arithmetic
      operation of the source on them is followed by [wrap64].
    - Orbital and electron counts and loop indices are natural numbers.
    - C++ exceptions are values of [exception]; a function that can throw
      returns a [result].
    - [double] is IEEE binary64 ([spec_float] with precision 53) where the
      source converts between floating point and integers, and an
      arbitrary commutative ring (or the reals) where the source only adds
      and multiplies matrix elements. *)

From Stdlib Require Import String Ascii.
From Stdlib Require Import Reals Lra.
From Stdlib Require Import ZArith List Lia Bool Arith.
From Stdlib Require Import Ring ZArithRing.
From Stdlib Require Import SpecFloat.
Import ListNotations.

Local Open Scope Z_scope.

(** ** Exceptions of the C++ standard library *)

Module Cpp.

Inductive exception : Type :=
  | std_logic_error
  | std_invalid_argument
  | std_domain_error
  | std_runtime_error
  | std_overflow_error.

(** The classes derived from [std::logic_error] (including itself). *)
Definition is_logic_error (e : exception) : bool :=
  match e with
  | std_logic_error | std_invalid_argument | std_domain_error => true
  | std_runtime_error | std_overflow_error => false
  end.

(** The classes derived from [std::runtime_error] (including itself). *)
Definition is_runtime_error (e : exception) : bool :=
  match e with
  | std_runtime_error | std_overflow_error => true
  | std_logic_error | std_invalid_argument | std_domain_error => false
  end.

Inductive result (A : Type) : Type :=
  | Ok (a : A)
  | Throw (e : exception).

Arguments Ok {A} a.
Arguments Throw {A} e.

Definition bind {A B : Type} (r : result A) (k : A -> result B) : result B :=
  match r with
  | Ok a => k a
  | Throw e => Throw e
  end.

End Cpp.

Import Cpp.

Notation "x <- r ;; k" := (bind r (fun x => k))
  (at level 61, r at next level, right associativity).

(** ** Machine integers *)

Definition wrap64 (z : Z) : Z := z mod 2 ^ 64.
Definition wrap32 (z : Z) : Z := z mod 2 ^ 32.

(** [static_cast<unsigned>(k)] for a [size_t] k. *)
Definition to_unsigned (k : nat) : Z := wrap32 (Z.of_nat k).

(** The value of a 32-bit pattern read as an [int]. *)
Definition signed32 (z : Z) : Z :=
  let w := wrap32 z in if w <? 2 ^ 31 then w else w - 2 ^ 32.

(** [(1) << c] where the literal is an [int]: the shift is done in 32 bits.
    For c = 31 the result is INT_MIN.  A count of 32 or more is undefined in
    C++; the count is reduced modulo 32 here, as the x86 shift does. *)
Definition int_one_shl (c : nat) : Z :=
  signed32 (Z.shiftl 1 (Z.of_nat c mod 32)).

(** Conversion of an [int] to [size_t] (sign extension). *)
Definition size_t_of_int (i : Z) : Z := wrap64 i.

Fixpoint ctz_positive (p : positive) : nat :=
  match p with
  | xO q => S (ctz_positive q)
  | _ => O
  end.

(** [__builtin_ctzl]; the result for 0 is undefined in the source. *)
Definition builtin_ctzl (x : Z) : nat :=
  match x with
  | Zpos p => ctz_positive p
  | _ => O
  end.

(** [~t] on 64 bits. *)
Definition not64 (t : Z) : Z := wrap64 (Z.lnot t).

(** ** Binary64 and the two Boost functions used by [calculateDimension] *)

Module Double.

Definition double := spec_float.

Definition prec : Z := 53.
Definition emax : Z := 1024.

Definition of_Z (z : Z) : double := binary_normalize prec emax z 0 false.
Definition div (x y : double) : double := SFdiv prec emax x y.
Definition sub (x y : double) : double := SFsub prec emax x y.
Definition leb (x y : double) : bool := SFleb x y.

Definition half : double := S754_finite false 1 (-1).

(** [std::ceil] *)
Definition ceil (x : double) : double :=
  match x with
  | S754_finite s m e =>
      if 0 <=? e then x
      else
        let z := if s then Zneg m else Zpos m in
        binary_normalize prec emax (- ((- z) / 2 ^ (- e))) 0 s
  | _ => x
  end.

(** Truncation of a double towards zero, as an integer. *)
Definition trunc_to_Z (x : double) : Z :=
  match x with
  | S754_finite s m e =>
      let a := if 0 <=? e then Zpos m * 2 ^ e else Zpos m / 2 ^ (- e) in
      if s then - a else a
  | _ => 0
  end.

Fixpoint fact (n : nat) : Z :=
  match n with
  | O => 1
  | S k => Z.of_nat n * fact k
  end.

(** [boost::math::unchecked_factorial<double>]: a table of the factorials
    rounded to the nearest double. *)
Definition unchecked_factorial (n : nat) : double := of_Z (fact n).

(** [boost::math::max_factorial<double>::value] *)
Definition max_factorial : nat := 170.

(** [boost::math::binomial_coefficient<double>(n, k)] (Boost.Math, not part
    of this repository).  For k > n the default policy throws
    [std::domain_error].  Up to [max_factorial] the quotient of the tabulated
    factorials is rounded to the nearest integer.  Beyond it Boost goes
    through the beta function; that branch is idealised here as the correctly
    rounded quotient, and no theorem below depends on it. *)
Definition binomial_coefficient (n k : Z) : result double :=
  if n <? k then Throw std_domain_error
  else if (k =? 0) || (k =? n) then Ok (of_Z 1)
  else if (k =? 1) || (k =? n - 1) then Ok (of_Z n)
  else if n <=? Z.of_nat max_factorial then
    let r := unchecked_factorial (Z.to_nat n) in
    let r := div r (unchecked_factorial (Z.to_nat (n - k))) in
    let r := div r (unchecked_factorial (Z.to_nat k)) in
    Ok (ceil (sub r half))
  else
    Ok (of_Z (fact (Z.to_nat n)
              / (fact (Z.to_nat (n - k)) * fact (Z.to_nat k)))).

(** [boost::numeric::converter<size_t, double>::convert]: the range check
    throws [negative_overflow] for s <= -1 and [positive_overflow] for
    s >= 2^64, both derived from [bad_numeric_cast]; otherwise the value is
    truncated.  [None] stands for [bad_numeric_cast]. *)
Definition convert_size_t (s : double) : option Z :=
  if leb s (of_Z (-1)) then None
  else if leb (of_Z (2 ^ 64)) s then None
  else Some (trunc_to_Z s).

End Double.


(** ** Binomial coefficients *)

(** The binomial coefficient by Pascal's rule: the number of ways to choose
    k of n. *)
Fixpoint choose (n k : nat) : Z :=
  match n, k with
  | _, O => 1
  | O, S _ => 0
  | S n', S k' => choose n' k' + choose n' k
  end.

(** ** Loops and containers *)

(** [for (i = lo; i < hi; i++) body] over a state of type [S]. *)
Definition for_range {S : Type} (lo hi : nat) (body : nat -> S -> S) (s : S) : S :=
  fold_left (fun acc i => body i acc) (seq lo (hi - lo)) s.

(** [v[i] = x] on a [std::vector]; an index past the end is undefined in the
    source and leaves the vector unchanged here. *)
Fixpoint vector_set {A : Type} (i : nat) (x : A) (v : list A) : list A :=
  match v, i with
  | [], _ => []
  | _ :: t, O => x :: t
  | h :: t, S j => h :: vector_set j x t
  end.

(** ** ONV *)

Module ONV.

Record ONV : Type := Build {
  K : nat;
  N : nat;
  unsigned_representation : Z;
  occupation_indices : list nat
}.

(** Modelled from the spec: [ONV::updateOccupationIndices] (ONV.cpp is not
    part of the sources at hand) "recomputes the ordered occupied-index list
    from the raw bit pattern": the indices of the set bits, ascending. *)
Definition updateOccupationIndices (representation : Z) : list nat :=
  filter (fun p => Z.testbit representation (Z.of_nat p)) (seq 0 64).

(** Modelled from the spec: an ONV is "constructed from (K, N,
    representation)" and its index list is kept in step with the bits. *)
Definition make (K N : nat) (representation : Z) : ONV :=
  Build K N representation (updateOccupationIndices representation).

(** Modelled from the spec: [set_representation] "set to a new
    representation and calls updateOccupationIndices" (ONV.hpp). *)
Definition set_representation (onv : ONV) (representation : Z) : ONV :=
  Build (K onv) (N onv) representation (updateOccupationIndices representation).

(** [get_occupation_index(e)]; an electron index past the end is undefined in
    the source and reads 0 here. *)
Definition get_occupation_index (onv : ONV) (e : nat) : nat :=
  nth e (occupation_indices onv) O.

End ONV.

(** ** FockSpace *)

Module FockSpace.

Definition Vectoru := list Z.
Definition Matrixu := list Vectoru.

Record t : Type := Build {
  K : nat;
  dim : Z;
  N : nat;
  vertex_weights : Matrixu
}.

Definition get_dimension (fs : t) : Z := dim fs.
Definition get_K (fs : t) : nat := K fs.
Definition get_N (fs : t) : nat := N fs.

(** [vertex_weights[p][m]]; reads outside the table are undefined in the
    source and give 0 here. *)
Definition Matrixu_get (W : Matrixu) (p m : nat) : Z := nth m (nth p W []) 0.

Definition Matrixu_set (W : Matrixu) (p m : nat) (x : Z) : Matrixu :=
  vector_set p (vector_set m x (nth p W [])) W.

Definition get_vertex_weights (fs : t) (p m : nat) : Z :=
  Matrixu_get (vertex_weights fs) p m.

(** [FockSpace::calculateDimension] *)
Definition calculateDimension (K N : nat) : result Z :=
  dim_double <- Double.binomial_coefficient (to_unsigned K) (to_unsigned N) ;;
  match Double.convert_size_t dim_double with
  | Some d => Ok d
  | None => Throw std_overflow_error
  end.

(** The body of the constructor: the table of vertex weights. *)
Definition fill_vertex_weights (K N : nat) : Matrixu :=
  let W := repeat (repeat 0 (N + 1)) (K + 1) in
  let first := Z.to_nat (wrap64 (wrap64 (Z.of_nat K - Z.of_nat N) + 1)) in
  let W := for_range 0 first (fun p W => Matrixu_set W p 0 1) W in
  for_range 1 (N + 1) (fun m W =>
    let last :=
      Z.to_nat (wrap64 (wrap64 (wrap64 (Z.of_nat K - Z.of_nat N) + Z.of_nat m) + 1)) in
    for_range m last (fun p W =>
      Matrixu_set W p m
        (wrap64 (Matrixu_get W (p - 1) m + Matrixu_get W (p - 1) (m - 1)))) W) W.

(** [FockSpace::FockSpace(K, N)]: the base-class initialiser evaluates
    [calculateDimension] first, so its exception leaves the constructor. *)
Definition FockSpace (K N : nat) : result t :=
  d <- calculateDimension K N ;;
  Ok (Build K d N (fill_vertex_weights K N)).

(** [FockSpace::ulongNextPermutation] *)
Definition ulongNextPermutation (representation : Z) : Z :=
  let t := Z.lor representation (wrap64 (representation - 1)) in
  Z.lor (wrap64 (t + 1))
        (Z.shiftr (wrap64 (Z.land (not64 t) (wrap64 (t + 1)) - 1))
                  (Z.of_nat (builtin_ctzl representation) + 1)).

(** The [while] loop of [getAddress]; every turn clears one bit of a 64-bit
    word, so 64 turns are enough. *)
Fixpoint getAddress_loop (fuel : nat) (fs : t) (unsigned_onv address : Z)
    (electron_count : nat) : Z :=
  match fuel with
  | O => address
  | S fuel' =>
      if unsigned_onv =? 0 then address
      else
        let p := builtin_ctzl unsigned_onv in
        let electron_count := S electron_count in
        let address := wrap64 (address + get_vertex_weights fs p electron_count) in
        let unsigned_onv :=
          Z.lxor unsigned_onv (Z.land unsigned_onv (wrap64 (- unsigned_onv))) in
        getAddress_loop fuel' fs unsigned_onv address electron_count
  end.

(** [FockSpace::getAddress] *)
Definition getAddress (fs : t) (unsigned_onv : Z) : Z :=
  getAddress_loop 64 fs unsigned_onv 0 O.

(** The [for (p = K; p > 0; p--)] loop of [calculateRepresentation]. *)
Fixpoint calculateRepresentation_loop (p : nat) (fs : t)
    (address representation : Z) (m : nat) : Z :=
  match p with
  | O => representation
  | S p' =>
      let weight := get_vertex_weights fs p' m in
      if weight <=? address then
        let address := wrap64 (address - weight) in
        let representation :=
          Z.lor representation (size_t_of_int (int_one_shl p')) in
        let m := (m - 1)%nat in
        if (m =? 0)%nat then representation
        else calculateRepresentation_loop p' fs address representation m
      else calculateRepresentation_loop p' fs address representation m
  end.

(** [FockSpace::calculateRepresentation] *)
Definition calculateRepresentation (fs : t) (address : Z) : Z :=
  if (N fs =? 0)%nat then 0
  else calculateRepresentation_loop (K fs) fs address 0 (N fs).

(** Modelled from the spec: [FockPermutator::makeONV] (FockPermutator.hpp is
    not part of the sources at hand) gives "the ONV of address" I: the ONV of
    this Fock space whose representation is [calculateRepresentation]. *)
Definition makeONV (fs : t) (address : Z) : ONV.ONV :=
  ONV.make (K fs) (N fs) (calculateRepresentation fs address).

(** Modelled from the spec: [FockPermutator::setNextONV] "advance[s] to the
    next ONV via ulongNextPermutation". *)
Definition setNextONV (fs : t) (onv : ONV.ONV) : ONV.ONV :=
  ONV.set_representation onv
    (ulongNextPermutation (ONV.unsigned_representation onv)).

(** [shiftUntilNextUnoccupiedOrbital<T>] without sign; the loop ends at the
    latest when [e] reaches [N]. *)
Fixpoint shiftUntilNextUnoccupiedOrbital_loop (fuel : nat) (T : nat) (fs : t)
    (onv : ONV.ONV) (address : Z) (q e : nat) : Z * nat * nat :=
  match fuel with
  | O => (address, q, e)
  | S fuel' =>
      if (e <? N fs)%nat && (q =? ONV.get_occupation_index onv e)%nat then
        let address :=
          wrap64 (address
                  + wrap64 (get_vertex_weights fs q (e + 1 - T)
                            - get_vertex_weights fs q (e + 1))) in
        shiftUntilNextUnoccupiedOrbital_loop fuel' T fs onv address (S q) (S e)
      else (address, q, e)
  end.

Definition shiftUntilNextUnoccupiedOrbital (T : nat) (fs : t) (onv : ONV.ONV)
    (address : Z) (q e : nat) : Z * nat * nat :=
  shiftUntilNextUnoccupiedOrbital_loop (N fs - e) T fs onv address q e.

End FockSpace.

(** ** SelectedFockSpace *)

Module SelectedFockSpace.

Record Configuration : Type := BuildConfiguration {
  onv_alpha : ONV.ONV;
  onv_beta : ONV.ONV
}.

Record t : Type := Build {
  K : nat;
  dim : Z;
  N_alpha : nat;
  N_beta : nat;
  configurations : list Configuration
}.

(** [SelectedFockSpace(K, N_alpha, N_beta)]: "a constructor with initial Fock
    space dimension of 0". *)
Definition SelectedFockSpace (K N_alpha N_beta : nat) : t :=
  Build K 0 N_alpha N_beta [].

(** [boost::dynamic_bitset<>(std::string)]: the bits of the string, the last
    character being bit 0; a character other than '0' and '1' throws
    [std::invalid_argument]. *)
Fixpoint dynamic_bitset_chars (s : string) : result (list bool) :=
  match s with
  | EmptyString => Ok []
  | String c rest =>
      bits <- dynamic_bitset_chars rest ;;
      if Ascii.eqb c "0"%char then Ok (bits ++ [false])
      else if Ascii.eqb c "1"%char then Ok (bits ++ [true])
      else Throw std_invalid_argument
  end.

Definition dynamic_bitset (s : string) : result (list bool) :=
  dynamic_bitset_chars s.

Definition bitset_size (b : list bool) : nat := length b.
Definition bitset_count (b : list bool) : nat := length (filter (fun x => x) b).

Fixpoint bitset_value (b : list bool) : Z :=
  match b with
  | [] => 0
  | x :: rest => Z.b2z x + 2 * bitset_value rest
  end.

(** [to_ulong] throws [std::overflow_error] when the value does not fit. *)
Definition to_ulong (b : list bool) : result Z :=
  let v := bitset_value b in
  if v <? 2 ^ 64 then Ok v else Throw std_overflow_error.

(** [SelectedFockSpace::makeConfiguration] *)
Definition makeConfiguration (fs : t) (onv1 onv2 : string) : result Configuration :=
  alpha_transfer <- dynamic_bitset onv1 ;;
  beta_transfer <- dynamic_bitset onv2 ;;
  if negb (bitset_size alpha_transfer =? K fs)%nat
     || negb (bitset_size beta_transfer =? K fs)%nat
  then Throw std_invalid_argument
  else if negb (bitset_count alpha_transfer =? N_alpha fs)%nat
          || negb (bitset_count beta_transfer =? N_beta fs)%nat
  then Throw std_invalid_argument
  else
    alpha_s <- to_ulong alpha_transfer ;;
    beta_s <- to_ulong beta_transfer ;;
    let alpha := ONV.make (K fs) (N_alpha fs) alpha_s in
    let beta := ONV.make (K fs) (N_beta fs) beta_s in
    Ok (BuildConfiguration alpha beta).

(** [SelectedFockSpace::addConfiguration(onv1, onv2)].  The method mutates
    the object, so the object after the call is returned together with the
    outcome, also when the call throws. *)
Definition addConfiguration (fs : t) (onv1 onv2 : string) : t * result unit :=
  let fs := Build (K fs) (wrap64 (dim fs + 1)) (N_alpha fs) (N_beta fs)
                  (configurations fs) in
  match makeConfiguration fs onv1 onv2 with
  | Ok configuration =>
      (Build (K fs) (dim fs) (N_alpha fs) (N_beta fs)
             (configurations fs ++ [configuration]), Ok tt)
  | Throw e => (fs, Throw e)
  end.

End SelectedFockSpace.

(** ** DavidsonSolver *)

Module Davidson.

Local Open Scope R_scope.

Definition VectorX := list R.

Record MatrixX : Type := BuildMatrixX {
  rows : nat;
  cols : nat;
  coefficient : nat -> nat -> R
}.

Definition VectorFunction := VectorX -> VectorX.

Record Eigenpair : Type := BuildEigenpair {
  eigenvalue : R;
  eigenvector : VectorX
}.

(** The members of [DavidsonSolver] and of its base class. *)
Record DavidsonSolver : Type := Build {
  dim : nat;
  number_of_requested_eigenpairs : nat;
  _is_solved : bool;
  eigenpairs : list Eigenpair;
  matrixVectorProduct : VectorFunction;
  diagonal : VectorX;
  V_0 : MatrixX;
  convergence_threshold : R;
  correction_threshold : R;
  maximum_subspace_dimension : nat;
  collapsed_subspace_dimension : nat;
  maximum_number_of_iterations : nat;
  number_of_iterations : nat
}.

(** [DavidsonSolver::DavidsonSolver(matrixVectorProduct, diagonal, V_0, ...)].
    The base-class initialiser stores the dimension and the number of
    requested eigenpairs; a new solver is not solved and has done no
    iteration. *)
Definition make (matrixVectorProduct : VectorFunction) (diagonal : VectorX)
    (V_0 : MatrixX) (number_of_requested_eigenpairs : nat)
    (convergence_threshold correction_threshold : R)
    (maximum_subspace_dimension collapsed_subspace_dimension
       maximum_number_of_iterations : nat) : result DavidsonSolver :=
  if (cols V_0 <? number_of_requested_eigenpairs)%nat then
    Throw std_invalid_argument
  else if (collapsed_subspace_dimension <? number_of_requested_eigenpairs)%nat then
    Throw std_invalid_argument
  else if (maximum_subspace_dimension <=? collapsed_subspace_dimension)%nat then
    Throw std_invalid_argument
  else
    Ok (Build (rows V_0) number_of_requested_eigenpairs false []
              matrixVectorProduct diagonal V_0
              convergence_threshold correction_threshold
              maximum_subspace_dimension collapsed_subspace_dimension
              maximum_number_of_iterations O).

(** [DavidsonSolver::get_number_of_iterations] *)
Definition get_number_of_iterations (s : DavidsonSolver) : result nat :=
  if _is_solved s then Ok (number_of_iterations s)
  else Throw std_invalid_argument.

(** *** The correction vectors of one iteration *)

(** [diagonal - VectorX::Constant(dim, Lambda(column_index))] *)
Definition denominator (diagonal : VectorX) (dim : nat) (Lambda_i : R) : VectorX :=
  map (fun '(d, c) => d - c) (combine diagonal (repeat Lambda_i dim)).

(** [(denominator.array().abs() > correction_threshold).select(
       R.col(i).array() / denominator.array().abs(),
       R.col(i) / correction_threshold)] *)
Definition select_correction (R_col denominator : VectorX)
    (correction_threshold : R) : VectorX :=
  map (fun '(r, d) =>
         if Rlt_dec correction_threshold (Rabs d) then r / Rabs d
         else r / correction_threshold)
      (combine R_col denominator).

Definition squaredNorm (v : VectorX) : R :=
  fold_right (fun x acc => x * x + acc) 0 v.

Definition norm (v : VectorX) : R := sqrt (squaredNorm v).

(** [Eigen::MatrixBase::normalize] (Eigen, not part of this repository):
    divides the vector by its norm; a vector of norm zero is left as it is. *)
Definition normalize (v : VectorX) : VectorX :=
  let z := squaredNorm v in
  if Rlt_dec 0 z then map (fun x => x / sqrt z) v else v.

(** The column [Delta.col(column_index)] before [normalize()]. *)
Definition correction_vector (R_col diagonal : VectorX) (dim : nat)
    (Lambda_i correction_threshold : R) : VectorX :=
  select_correction R_col (denominator diagonal dim Lambda_i) correction_threshold.

(** The column [Delta.col(column_index)] as the loop body leaves it. *)
Definition Delta_col (R_col diagonal : VectorX) (dim : nat)
    (Lambda_i correction_threshold : R) : VectorX :=
  normalize (correction_vector R_col diagonal dim Lambda_i correction_threshold).

(** *** The control flow of [solve]

    The linear algebra of an iteration (diagonalising the subspace matrix,
    the residuals, the new subspace vectors) is kept abstract: an iteration
    works on a subspace, either finds all residual norms below the threshold
    and then knows the Ritz pairs, or enlarges the subspace. *)
Section Solve.

Variable Subspace : Type.
Variable initial_subspace : DavidsonSolver -> Subspace.
Variable residuals_converged : Subspace -> bool.
Variable ritz_pairs : Subspace -> list Eigenpair.
Variable enlarge : Subspace -> Subspace.

Definition set_solved (s : DavidsonSolver) (pairs : list Eigenpair) : DavidsonSolver :=
  Build (dim s) (number_of_requested_eigenpairs s) true (eigenpairs s ++ pairs)
        (matrixVectorProduct s) (diagonal s) (V_0 s)
        (convergence_threshold s) (correction_threshold s)
        (maximum_subspace_dimension s) (collapsed_subspace_dimension s)
        (maximum_number_of_iterations s) (number_of_iterations s).

Definition count_iteration (s : DavidsonSolver) : DavidsonSolver :=
  Build (dim s) (number_of_requested_eigenpairs s) (_is_solved s) (eigenpairs s)
        (matrixVectorProduct s) (diagonal s) (V_0 s)
        (convergence_threshold s) (correction_threshold s)
        (maximum_subspace_dimension s) (collapsed_subspace_dimension s)
        (maximum_number_of_iterations s) (S (number_of_iterations s)).

(** The [while (!_is_solved)] loop; [None] when the fuel runs out. *)
Fixpoint solve_loop (fuel : nat) (s : DavidsonSolver) (sub : Subspace)
    : option (DavidsonSolver * result unit) :=
  match fuel with
  | O => None
  | S fuel' =>
      if _is_solved s then Some (s, Ok tt)
      else if residuals_converged sub then
        Some (set_solved s (ritz_pairs sub), Ok tt)
      else
        let s := count_iteration s in
        if (maximum_number_of_iterations s <=? number_of_iterations s)%nat then
          Some (s, Throw std_runtime_error)
        else solve_loop fuel' s (enlarge sub)
  end.

(** [DavidsonSolver::solve]: the solver after the call and the outcome. *)
Definition solve (s : DavidsonSolver) : option (DavidsonSolver * result unit) :=
  solve_loop (S (maximum_number_of_iterations s - number_of_iterations s)) s
             (initial_subspace s).

End Solve.

End Davidson.

(** ** DOCINewtonOrbitalOptimizer *)

Module DOCINewtonOrbitalOptimizer.

Record t : Type := Build {
  is_converged : bool;
  eigenpairs : list Davidson.Eigenpair
}.

(** [DOCINewtonOrbitalOptimizer::get_eigenpairs] *)
Definition get_eigenpairs (o : t) : result (list Davidson.Eigenpair) :=
  if is_converged o then Ok (eigenpairs o) else Throw std_logic_error.

(** [DOCINewtonOrbitalOptimizer::get_eigenpair(index)]; an index past the end
    of the vector is undefined in the source and is [None] here. *)
Definition get_eigenpair (o : t) (index : nat) : result (option Davidson.Eigenpair) :=
  if is_converged o then Ok (nth_error (eigenpairs o) index)
  else Throw std_logic_error.

(** *** The control flow of [solve]

    What an iteration computes is kept abstract: the CI solver gives the
    eigenpairs or throws, the gradient norm is below the threshold or not,
    the lowest Hessian eigenvalue is negative or not, and rotating the
    Hamiltonian parameters succeeds or throws. *)
Record iteration : Type := BuildIteration {
  ci_solve : result (list Davidson.Eigenpair);
  gradient_below_threshold : bool;
  hessian_has_negative_eigenvalue : bool;
  rotate : result unit
}.

Section Solve.

Variable iterations : nat -> iteration.
Variable maximum_number_of_iterations : nat.

Fixpoint solve_loop (fuel : nat) (k : nat) (o : t) (oo_iterations : nat)
    : option (t * result unit) :=
  match fuel with
  | O => None
  | S fuel' =>
      if is_converged o then Some (o, Ok tt)
      else
        let it := iterations k in
        match ci_solve it with
        | Throw e => Some (o, Throw e)
        | Ok pairs =>
            if gradient_below_threshold it
               && negb (hessian_has_negative_eigenvalue it)
            then Some (Build true pairs, Ok tt)
            else
              let oo_iterations :=
                if gradient_below_threshold it then oo_iterations
                else S oo_iterations in
              if negb (gradient_below_threshold it)
                 && (maximum_number_of_iterations <=? oo_iterations)%nat
              then Some (o, Throw std_runtime_error)
              else
                match rotate it with
                | Throw e => Some (o, Throw e)
                | Ok _ => solve_loop fuel' (S k) o oo_iterations
                end
        end
  end.

(** [DOCINewtonOrbitalOptimizer::solve]: [is_converged] is reset first.  The
    loop does not count the iterations that continue along a negative
    Hessian eigenvalue, so it has no bound of its own. *)
Definition solve (fuel : nat) (o : t) : option (t * result unit) :=
  solve_loop fuel O (Build false (eigenpairs o)) O.

End Solve.

End DOCINewtonOrbitalOptimizer.

(** ** Scalars, vectors, matrices and integrals *)

(** The operations on matrix elements that the Hamiltonian builders use. *)
Class Scalar (T : Type) : Type := {
  zero : T;
  one : T;
  add : T -> T -> T;
  mul : T -> T -> T;
  sub : T -> T -> T;
  opp : T -> T;
  div : T -> T -> T
}.

Declare Scope scalar_scope.
Delimit Scope scalar_scope with scalar.
Notation "x + y" := (add x y) : scalar_scope.
Notation "x * y" := (mul x y) : scalar_scope.
Notation "x - y" := (sub x y) : scalar_scope.
Notation "x / y" := (div x y) : scalar_scope.

Definition two {T : Type} `{Scalar T} : T := add one one.

Module Linalg.

Section Types.

Context {T : Type} `{Scalar T}.

(** [VectorX<double>]: the length and the coefficients. *)
Record VectorX : Type := BuildVectorX {
  size : Z;
  coeff : Z -> T
}.

(** [SquareMatrix<double>] *)
Record SquareMatrix : Type := BuildSquareMatrix {
  dim : Z;
  entry : Z -> Z -> T
}.

(** [OneElectronOperator<double>] *)
Record OneElectronOperator : Type := BuildOneElectronOperator {
  one_dim : nat;
  one_entry : nat -> nat -> T
}.

(** [TwoElectronOperator<double>] *)
Record TwoElectronOperator : Type := BuildTwoElectronOperator {
  two_dim : nat;
  two_entry : nat -> nat -> nat -> nat -> T
}.

(** [HamiltonianParameters<double>] *)
Record HamiltonianParameters : Type := BuildHamiltonianParameters {
  get_S : OneElectronOperator;
  get_h : OneElectronOperator;
  get_g : TwoElectronOperator;
  get_T_total : OneElectronOperator
}.

Definition get_K (ham_par : HamiltonianParameters) : nat := one_dim (get_h ham_par).

Definition VectorX_Zero (n : Z) : VectorX := BuildVectorX n (fun _ => zero).
Definition VectorX_Ones (n : Z) : VectorX := BuildVectorX n (fun _ => one).
Definition SquareMatrix_Zero (n : Z) : SquareMatrix :=
  BuildSquareMatrix n (fun _ _ => zero).

(** [v(I) += x] *)
Definition VectorX_add_at (v : VectorX) (I : Z) (x : T) : VectorX :=
  BuildVectorX (size v)
    (fun i => if i =? I then add (coeff v i) x else coeff v i).

(** [M(I, J) += x] *)
Definition SquareMatrix_add_at (M : SquareMatrix) (I J : Z) (x : T) : SquareMatrix :=
  BuildSquareMatrix (dim M)
    (fun i j => if (i =? I) && (j =? J) then add (entry M i j) x else entry M i j).

(** [a.cwiseProduct(b)] *)
Definition cwiseProduct (a b : VectorX) : VectorX :=
  BuildVectorX (size a) (fun i => mul (coeff a i) (coeff b i)).

(** [a + b] on vectors *)
Definition VectorX_add (a b : VectorX) : VectorX :=
  BuildVectorX (size a) (fun i => add (coeff a i) (coeff b i)).

(** [c * v] *)
Definition VectorX_scale (c : T) (v : VectorX) : VectorX :=
  BuildVectorX (size v) (fun i => mul c (coeff v i)).

(** [M += d.asDiagonal()] *)
Definition add_asDiagonal (M : SquareMatrix) (d : VectorX) : SquareMatrix :=
  BuildSquareMatrix (dim M)
    (fun i j => if i =? j then add (entry M i j) (coeff d i) else entry M i j).

(** The sum of [f 0], ..., [f (n - 1)], added from the left. *)
Definition sum_upto (n : nat) (f : Z -> T) : T :=
  fold_left (fun acc i => add acc (f (Z.of_nat i))) (seq 0 n) zero.

(** [M * x] *)
Definition SquareMatrix_mul_vector (M : SquareMatrix) (x : VectorX) : VectorX :=
  BuildVectorX (dim M)
    (fun i => sum_upto (Z.to_nat (dim M)) (fun j => mul (entry M i j) (coeff x j))).

(** [M.block(X, X, n, n)] *)
Definition block (M : OneElectronOperator) (X n : nat) : OneElectronOperator :=
  BuildOneElectronOperator n (fun i j => one_entry M (X + i) (X + j)).

(** [h(i, j) += x] *)
Definition one_add_at (M : OneElectronOperator) (i j : nat) (x : T) : OneElectronOperator :=
  BuildOneElectronOperator (one_dim M)
    (fun a b => if (a =? i)%nat && (b =? j)%nat then add (one_entry M a b) x
                else one_entry M a b).

(** Modelled from the spec: [TwoElectronOperator::FromBlock(g, X, X, X, X)]
    (TwoElectronOperator.hpp is not part of the sources at hand) restricts
    the integrals "to an active subspace", the orbitals from X on. *)
Definition FromBlock (g : TwoElectronOperator) (X : nat) : TwoElectronOperator :=
  BuildTwoElectronOperator (two_dim g - X)
    (fun p q r s => two_entry g (X + p) (X + q) (X + r) (X + s)).

End Types.

Arguments VectorX T : clear implicits.
Arguments SquareMatrix T : clear implicits.
Arguments OneElectronOperator T : clear implicits.
Arguments TwoElectronOperator T : clear implicits.
Arguments HamiltonianParameters T : clear implicits.

End Linalg.

(** ** DOCI *)

Module DOCI.

Import Linalg.

Section Builder.

Context {T : Type} `{Scalar T}.

Local Open Scope scalar_scope.

(** The inner [while (q < K)] loop of [constructHamiltonian]; [q] grows in
    every turn, so [K - q] turns are enough. *)
Fixpoint constructHamiltonian_creation (fuel : nat) (fs : FockSpace.t)
    (hamiltonian_parameters : HamiltonianParameters T) (K : nat)
    (onv : ONV.ONV) (I : Z) (p : nat) (address : Z) (q e2 : nat)
    (result_matrix : SquareMatrix T) : SquareMatrix T :=
  match fuel with
  | O => result_matrix
  | S fuel' =>
      if (q <? K)%nat then
        let J := wrap64 (address + FockSpace.get_vertex_weights fs q e2) in
        let g := two_entry (get_g hamiltonian_parameters) in
        let result_matrix := SquareMatrix_add_at result_matrix I J (g p q p q) in
        let result_matrix := SquareMatrix_add_at result_matrix J I (g p q p q) in
        let q := S q in
        let '(address, q, e2) :=
          FockSpace.shiftUntilNextUnoccupiedOrbital 1 fs onv address q e2 in
        constructHamiltonian_creation fuel' fs hamiltonian_parameters K onv I p
          address q e2 result_matrix
      else result_matrix
  end.

(** The inner [while (q < K)] loop of [matrixVectorProduct]; the state is
    [double_I] and [matvec]. *)
Fixpoint matrixVectorProduct_creation (fuel : nat) (fs : FockSpace.t)
    (hamiltonian_parameters : HamiltonianParameters T) (K : nat)
    (onv : ONV.ONV) (x : VectorX T) (double_J : T) (p : nat) (address : Z)
    (q e2 : nat) (st : T * VectorX T) : T * VectorX T :=
  match fuel with
  | O => st
  | S fuel' =>
      if (q <? K)%nat then
        let '(double_I, matvec) := st in
        let J := wrap64 (address + FockSpace.get_vertex_weights fs q e2) in
        let g := two_entry (get_g hamiltonian_parameters) in
        let double_I := double_I + g p q p q * coeff x J in
        let matvec := VectorX_add_at matvec J (g p q p q * double_J) in
        let q := S q in
        let '(address, q, e2) :=
          FockSpace.shiftUntilNextUnoccupiedOrbital 1 fs onv address q e2 in
        matrixVectorProduct_creation fuel' fs hamiltonian_parameters K onv x
          double_J p address q e2 (double_I, matvec)
      else st
  end.

(** [DOCI::calculateDiagonal] *)
Definition calculateDiagonal (fs : FockSpace.t)
    (hamiltonian_parameters : HamiltonianParameters T) : result (VectorX T) :=
  let K := one_dim (get_h hamiltonian_parameters) in
  if negb (K =? FockSpace.get_K fs)%nat then Throw std_invalid_argument
  else
    let dim := FockSpace.get_dimension fs in
    let diagonal := VectorX_Zero dim in
    let onv := FockSpace.makeONV fs 0 in
    let h := one_entry (get_h hamiltonian_parameters) in
    let g := two_entry (get_g hamiltonian_parameters) in
    let '(diagonal, _) :=
      for_range 0 (Z.to_nat dim) (fun i '(diagonal, onv) =>
        let I := Z.of_nat i in
        let double_I :=
          for_range 0 (FockSpace.get_N fs) (fun e1 double_I =>
            let p := ONV.get_occupation_index onv e1 in
            let double_I := double_I + (two * h p p + g p p p p) in
            for_range 0 e1 (fun e2 double_I =>
              let q := ONV.get_occupation_index onv e2 in
              double_I + two * (two * g p p q q - g p q q p)) double_I) zero in
        let diagonal := VectorX_add_at diagonal I double_I in
        let onv :=
          if I <? wrap64 (dim - 1) then FockSpace.setNextONV fs onv else onv in
        (diagonal, onv)) (diagonal, onv) in
    Ok diagonal.

(** [DOCI::constructHamiltonian] *)
Definition constructHamiltonian (fs : FockSpace.t)
    (hamiltonian_parameters : HamiltonianParameters T) : result (SquareMatrix T) :=
  let K := one_dim (get_h hamiltonian_parameters) in
  if negb (K =? FockSpace.get_K fs)%nat then Throw std_invalid_argument
  else
    let dim := FockSpace.get_dimension fs in
    diagonal <- calculateDiagonal fs hamiltonian_parameters ;;
    let result_matrix := SquareMatrix_Zero dim in
    let N := FockSpace.get_N fs in
    let onv := FockSpace.makeONV fs 0 in
    let '(result_matrix, _) :=
      for_range 0 (Z.to_nat dim) (fun i '(result_matrix, onv) =>
        let I := Z.of_nat i in
        let result_matrix := SquareMatrix_add_at result_matrix I I (coeff diagonal I) in
        let result_matrix :=
          for_range 0 N (fun e1 result_matrix =>
            let p := ONV.get_occupation_index onv e1 in
            let address := wrap64 (I - FockSpace.get_vertex_weights fs p (e1 + 1)) in
            let e2 := (e1 + 1)%nat in
            let q := (p + 1)%nat in
            let '(address, q, e2) :=
              FockSpace.shiftUntilNextUnoccupiedOrbital 1 fs onv address q e2 in
            constructHamiltonian_creation (K - q) fs hamiltonian_parameters K
              onv I p address q e2 result_matrix) result_matrix in
        let onv :=
          if I <? wrap64 (dim - 1) then FockSpace.setNextONV fs onv else onv in
        (result_matrix, onv)) (result_matrix, onv) in
    Ok result_matrix.

(** [DOCI::matrixVectorProduct] *)
Definition matrixVectorProduct (fs : FockSpace.t)
    (hamiltonian_parameters : HamiltonianParameters T) (x diagonal : VectorX T)
    : result (VectorX T) :=
  let K := one_dim (get_h hamiltonian_parameters) in
  if negb (K =? FockSpace.get_K fs)%nat then Throw std_invalid_argument
  else
    let dim := FockSpace.get_dimension fs in
    let onv := FockSpace.makeONV fs 0 in
    let N := FockSpace.get_N fs in
    let matvec := cwiseProduct diagonal x in
    let '(matvec, _) :=
      for_range 0 (Z.to_nat dim) (fun i '(matvec, onv) =>
        let I := Z.of_nat i in
        let double_I := zero in
        let double_J := coeff x I in
        let '(double_I, matvec) :=
          for_range 0 N (fun e1 st =>
            let p := ONV.get_occupation_index onv e1 in
            let address := wrap64 (I - FockSpace.get_vertex_weights fs p (e1 + 1)) in
            let e2 := (e1 + 1)%nat in
            let q := (p + 1)%nat in
            let '(address, q, e2) :=
              FockSpace.shiftUntilNextUnoccupiedOrbital 1 fs onv address q e2 in
            matrixVectorProduct_creation (K - q) fs hamiltonian_parameters K
              onv x double_J p address q e2 st) (double_I, matvec) in
        let onv :=
          if I <? wrap64 (dim - 1) then FockSpace.setNextONV fs onv else onv in
        let matvec := VectorX_add_at matvec I double_I in
        (matvec, onv)) (matvec, onv) in
    Ok matvec.

End Builder.

End DOCI.

(** ** FrozenCoreCI *)

Module FrozenCoreCI.

Import Linalg.

Section Builder.

Context {T : Type} `{Scalar T}.

Local Open Scope scalar_scope.

(** The wrapped builder [active_hamiltonian_builder] (an abstract
    [HamiltonianBuilder]) and the dimension of its Fock space. *)
Variable active_constructHamiltonian :
  HamiltonianParameters T -> result (SquareMatrix T).
Variable fock_space_dimension : Z.

(** [FrozenCoreCI::freezeHamiltonianParameters] *)
Definition freezeHamiltonianParameters (ham_par : HamiltonianParameters T)
    (X : nat) : HamiltonianParameters T :=
  let K := get_K ham_par in
  let K_active := Z.to_nat (wrap64 (Z.of_nat K - Z.of_nat X)) in
  let S := block (get_S ham_par) X K_active in
  let h := block (get_h ham_par) X K_active in
  let g := two_entry (get_g ham_par) in
  let h :=
    for_range 0 K_active (fun i h =>
      let q := (i + X)%nat in
      let h :=
        for_range 0 X (fun l h =>
          one_add_at h i i
            (g q q l l + g l l q q - g q l l q / two - g l q q l / two)) h in
      for_range (i + 1) K_active (fun j h =>
        let p := (j + X)%nat in
        for_range 0 X (fun l h =>
          let h :=
            one_add_at h i j
              (g q p l l + g l l q p - g q l l p / two - g l p q l / two) in
          one_add_at h j i
            (g p q l l + g l l p q - g p l l q / two - g l q p l / two)) h) h) h in
  let g_new := FromBlock (get_g ham_par) X in
  let T_block := block (get_T_total ham_par) X K_active in
  BuildHamiltonianParameters S h g_new T_block.

(** The local [value] of [calculateFrozenCoreDiagonal]. *)
Definition frozen_core_value (ham_par : HamiltonianParameters T) (X : nat) : T :=
  let g := two_entry (get_g ham_par) in
  let h := one_entry (get_h ham_par) in
  for_range 0 X (fun i value =>
    let value := value + (two * h i i + g i i i i) in
    for_range (i + 1) X (fun j value =>
      value + (two * g i i j j + two * g j j i i - g j i i j - g i j j i))
      value) zero.

(** [FrozenCoreCI::calculateFrozenCoreDiagonal] *)
Definition calculateFrozenCoreDiagonal (ham_par : HamiltonianParameters T)
    (X : nat) : VectorX T :=
  let value := frozen_core_value ham_par X in
  let diagonal := VectorX_Ones fock_space_dimension in
  VectorX_scale value diagonal.

(** [FrozenCoreCI::constructHamiltonian] *)
Definition constructHamiltonian (X : nat) (ham_par : HamiltonianParameters T)
    : result (SquareMatrix T) :=
  let frozen_ham_par := freezeHamiltonianParameters ham_par X in
  total_hamiltonian <- active_constructHamiltonian frozen_ham_par ;;
  let frozen_core_diagonal := calculateFrozenCoreDiagonal ham_par X in
  Ok (add_asDiagonal total_hamiltonian frozen_core_diagonal).

End Builder.

End FrozenCoreCI.

(** The integers as scalars, for evaluating the builders on examples that
    do not divide: [div] is the quotient of the integers, not the division of
    [double]. *)
#[export] Instance Scalar_Z : Scalar Z :=
  {| zero := 0; one := 1; add := Z.add; mul := Z.mul; sub := Z.sub;
     opp := Z.opp; div := Z.div |}.

(** The real numbers as scalars, for the examples of the frozen-core
    transformation, which halves integrals. *)
#[export] Instance Scalar_R : Scalar R :=
  {| zero := 0%R; one := 1%R; add := Rplus; mul := Rmult; sub := Rminus;
     opp := Ropp; div := Rdiv |}.

(** * Definitions for the statements

    What the theorems below speak about: binomial tables, occupation
    lists with their addresses, and the loops of the builders turn by
    turn. *)

(** Whether [calculateDimension] gives the binomial coefficient for every
    electron count up to K. *)
Definition dimension_exact_upto (K : nat) : bool :=
  forallb (fun N =>
    match FockSpace.calculateDimension K N with
    | Ok d => d =? Double.fact K / (Double.fact N * Double.fact (K - N))
    | Throw _ => false
    end) (seq 0 (K + 1)).

(** The vertex weight that the constructor stores at row p, column m. *)
Definition weight (K N p m : nat) : Z :=
  if (m <=? p)%nat && (p <=? K - N + m)%nat then choose p m else 0.

Definition table_shape (rows columns : nat) (W : list (list Z)) : Prop :=
  length W = rows /\ forall p, (p < rows)%nat -> length (nth p W []) = columns.

Definition column_filled (K N c : nat) (W : list (list Z)) : Prop :=
  table_shape (K + 1) (N + 1) W
  /\ forall p m, (p <= K)%nat -> (m <= N)%nat ->
       FockSpace.Matrixu_get W p m = if (m <? c)%nat then weight K N p m else 0.

(** The representation in which exactly the orbitals of l are occupied. *)
Fixpoint representation_of (l : list nat) : Z :=
  match l with
  | [] => 0
  | p :: l' => 2 ^ Z.of_nat p + representation_of l'
  end.

(** l is strictly increasing and starts at lo or above. *)
Fixpoint increasing_from (lo : nat) (l : list nat) : Prop :=
  match l with
  | [] => True
  | p :: l' => (lo <= p)%nat /\ increasing_from (S p) l'
  end.

Definition below (K : nat) (l : list nat) : Prop := Forall (fun p => (p < K)%nat) l.

(** The sum of the vertex weights of the electrons of l, the first of which
    is electron number e + 1: the address of l when e is 0. *)
Fixpoint rank (e : nat) (l : list nat) : Z :=
  match l with
  | [] => 0
  | p :: l' => choose p (S e) + rank (S e) l'
  end.

(** The list of occupied orbitals after [setNextONV]. *)
Definition next_occupation (c n : nat) (rest : list nat) : list nat :=
  seq 0 (n - 1) ++ (c + n)%nat :: rest.

(** A Fock space as the constructor builds it, small enough for the
    dimension to be exact, for the weights to fit in 64 bits and for
    [calculateRepresentation] to set the bits of address 0 correctly. *)
Definition well_formed (fs : FockSpace.t) : Prop :=
  (FockSpace.N fs <= FockSpace.K fs)%nat
  /\ (FockSpace.K fs <= 63)%nat
  /\ (FockSpace.N fs <= 31)%nat
  /\ FockSpace.dim fs = choose (FockSpace.K fs) (FockSpace.N fs)
  /\ FockSpace.vertex_weights fs
     = FockSpace.fill_vertex_weights (FockSpace.K fs) (FockSpace.N fs).

(** The occupation lists of a Fock space: N orbitals below K, ascending. *)
Definition occupation (fs : FockSpace.t) (l : list nat) : Prop :=
  increasing_from 0 l /\ below (FockSpace.K fs) l /\ length l = FockSpace.N fs.

(** The ONV of a Fock space with the orbitals of l occupied. *)
Definition onv_of (fs : FockSpace.t) (l : list nat) : ONV.ONV :=
  ONV.Build (FockSpace.K fs) (FockSpace.N fs) (representation_of l) l.

(** The couplings that the creation loop of the DOCI builders visits from a
    given state on: the address J and the orbital q of each. *)
Fixpoint creation_couplings (fuel : nat) (fs : FockSpace.t) (K : nat)
    (onv : ONV.ONV) (address : Z) (q e2 : nat) : list (Z * nat) :=
  match fuel with
  | O => []
  | S fuel' =>
      if (q <? K)%nat then
        let J := wrap64 (address + FockSpace.get_vertex_weights fs q e2) in
        let '(address', q', e2') :=
          FockSpace.shiftUntilNextUnoccupiedOrbital 1 fs onv address (S q) e2 in
        (J, q) :: creation_couplings fuel' fs K onv address' q' e2'
      else []
  end.

(** The couplings (J, p, q) of the ONV at address I for the electron e1. *)
Definition electron_couplings (fs : FockSpace.t) (K : nat) (onv : ONV.ONV)
    (I : Z) (e1 : nat) : list (Z * nat * nat) :=
  let p := ONV.get_occupation_index onv e1 in
  let address := wrap64 (I - FockSpace.get_vertex_weights fs p (e1 + 1)) in
  let '(address, q, e2) :=
    FockSpace.shiftUntilNextUnoccupiedOrbital 1 fs onv address (p + 1) (e1 + 1) in
  map (fun '(J, q) => (J, p, q))
      (creation_couplings (K - q) fs K onv address q e2).

(** All couplings of the ONV at address I. *)
Definition onv_couplings (fs : FockSpace.t) (K : nat) (onv : ONV.ONV) (I : Z)
    : list (Z * nat * nat) :=
  flat_map (electron_couplings fs K onv I) (seq 0 (FockSpace.get_N fs)).

(** The state of the creation loop that runs after the electron at p has
    been annihilated, A being the orbitals of l below p and T those above:
    the orbitals B between p and q that the cursor has passed, the orbitals
    C from q on, and the running address. *)
Definition cursor (l A : list nat) (p : nat) (T B C : list nat) (q : nat)
    (address : Z) : Prop :=
  T = B ++ C
  /\ below q (A ++ p :: B)
  /\ increasing_from q C
  /\ address = wrap64 (rank 0 l - choose p (S (length A))
                       - rank (S (length A)) B + rank (length A) B).

(** The ONV after turn i of an address loop. *)
Definition next_onv (fs : FockSpace.t) (i : nat) (onv : ONV.ONV) : ONV.ONV :=
  if Z.of_nat i <? wrap64 (FockSpace.get_dimension fs - 1)
  then FockSpace.setNextONV fs onv else onv.

Section LoopSteps.

Import Linalg.

Context {T : Type} {ST : Scalar T}.

Local Open Scope scalar_scope.

(** What [constructHamiltonian] does with one coupling. *)
Definition add_coupling (hamiltonian_parameters : HamiltonianParameters T)
    (I : Z) (M : SquareMatrix T) (c : Z * nat * nat) : SquareMatrix T :=
  let '(J, p, q) := c in
  let g := two_entry (get_g hamiltonian_parameters) in
  SquareMatrix_add_at (SquareMatrix_add_at M I J (g p q p q)) J I (g p q p q).

(** What [matrixVectorProduct] does with one coupling. *)
Definition accumulate_coupling (hamiltonian_parameters : HamiltonianParameters T)
    (x : VectorX T) (double_J : T) (st : T * VectorX T) (c : Z * nat * nat)
    : T * VectorX T :=
  let '(J, p, q) := c in
  let '(double_I, matvec) := st in
  let g := two_entry (get_g hamiltonian_parameters) in
  (double_I + g p q p q * coeff x J,
   VectorX_add_at matvec J (g p q p q * double_J)).

(** One turn of the address loop of [constructHamiltonian]. *)
Definition hamiltonian_step (fs : FockSpace.t) (ham : HamiltonianParameters T)
    (diagonal : VectorX T) (i : nat) (st : SquareMatrix T * ONV.ONV)
    : SquareMatrix T * ONV.ONV :=
  let I := Z.of_nat i in
  (fold_left (add_coupling ham I)
     (onv_couplings fs (one_dim (get_h ham)) (snd st) I)
     (SquareMatrix_add_at (fst st) I I (coeff diagonal I)),
   next_onv fs i (snd st)).

(** One turn of the address loop of [matrixVectorProduct]. *)
Definition product_step (fs : FockSpace.t) (ham : HamiltonianParameters T)
    (x : VectorX T) (i : nat) (st : VectorX T * ONV.ONV)
    : VectorX T * ONV.ONV :=
  let I := Z.of_nat i in
  let r := fold_left (accumulate_coupling ham x (coeff x I))
             (onv_couplings fs (one_dim (get_h ham)) (snd st) I)
             (zero, fst st) in
  (VectorX_add_at (snd r) I (fst r), next_onv fs i (snd st)).

(** One turn of the address loop of [calculateDiagonal]. *)
Definition diagonal_step (fs : FockSpace.t) (ham : HamiltonianParameters T)
    (i : nat) (st : VectorX T * ONV.ONV) : VectorX T * ONV.ONV :=
  let I := Z.of_nat i in
  let h := one_entry (get_h ham) in
  let g := two_entry (get_g ham) in
  let double_I :=
    for_range 0 (FockSpace.get_N fs) (fun e1 double_I =>
      let p := ONV.get_occupation_index (snd st) e1 in
      let double_I := double_I + (two * h p p + g p p p p) in
      for_range 0 e1 (fun e2 double_I =>
        let q := ONV.get_occupation_index (snd st) e2 in
        double_I + two * (two * g p p q q - g p q q p)) double_I) zero in
  (VectorX_add_at (fst st) I double_I, next_onv fs i (snd st)).

Definition diagonal_of (fs : FockSpace.t) (ham : HamiltonianParameters T)
    : VectorX T :=
  fst (for_range 0 (Z.to_nat (FockSpace.get_dimension fs)) (diagonal_step fs ham)
         (VectorX_Zero (FockSpace.get_dimension fs), FockSpace.makeONV fs 0)).

(** Row [a] of [M * x]. *)
Definition row_sum (M : SquareMatrix T) (x : VectorX T) (a : Z) : T :=
  coeff (SquareMatrix_mul_vector M x) a.

End LoopSteps.

(** An example: four orbitals, integrals with integer values. *)
Definition example_one_electron : Linalg.OneElectronOperator Z :=
  Linalg.BuildOneElectronOperator 4 (fun p q => Z.of_nat (p + q + 1)).

Definition example_two_electron : Linalg.TwoElectronOperator Z :=
  Linalg.BuildTwoElectronOperator 4
    (fun p q r s => Z.of_nat (1 + p + 10 * q + 100 * r + 1000 * s)).

Definition example_parameters : Linalg.HamiltonianParameters Z :=
  Linalg.BuildHamiltonianParameters example_one_electron example_one_electron
    example_two_electron example_one_electron.

Definition example_fock_space (K N : nat) : FockSpace.t :=
  match FockSpace.FockSpace K N with
  | Ok fs => fs
  | Throw _ => FockSpace.Build K 0 N []
  end.

(** A coefficient vector for the six ONVs of four orbitals and two
    electrons. *)
Definition example_vector : Linalg.VectorX Z :=
  Linalg.BuildVectorX 6 (fun I => I * I - 3).

(** The same integrals as real numbers, and a coefficient vector for the
    three ONVs of three orbitals and one electron. *)
Definition example_real_one_electron : Linalg.OneElectronOperator R :=
  Linalg.BuildOneElectronOperator 4 (fun p q => IZR (Z.of_nat (p + q + 1))).

Definition example_real_two_electron : Linalg.TwoElectronOperator R :=
  Linalg.BuildTwoElectronOperator 4
    (fun p q r s => IZR (Z.of_nat (1 + p + 10 * q + 100 * r + 1000 * s))).

Definition example_real_parameters : Linalg.HamiltonianParameters R :=
  Linalg.BuildHamiltonianParameters example_real_one_electron
    example_real_one_electron example_real_two_electron example_real_one_electron.

Definition example_real_vector : Linalg.VectorX R :=
  Linalg.BuildVectorX 3 (fun I => IZR (I * I - 3)).

Definition example_active_hamiltonian : Linalg.SquareMatrix R :=
  match DOCI.constructHamiltonian (example_fock_space 3 1)
          (FrozenCoreCI.freezeHamiltonianParameters example_real_parameters 1) with
  | Ok M => M
  | Throw _ => Linalg.SquareMatrix_Zero 0
  end.





(** ** Definitions for the further properties *)

(** A Fock space as the constructor fills it, with weights that fit in 64
    bits. *)
Definition addressable (fs : FockSpace.t) : Prop :=
  (FockSpace.N fs <= FockSpace.K fs)%nat
  /\ (FockSpace.K fs <= 63)%nat
  /\ FockSpace.dim fs = choose (FockSpace.K fs) (FockSpace.N fs)
  /\ FockSpace.vertex_weights fs
     = FockSpace.fill_vertex_weights (FockSpace.K fs) (FockSpace.N fs).

(** Whether orbital q is one of the orbitals of l. *)
Definition occupied (l : list nat) (q : nat) : bool := existsb (Nat.eqb q) l.

(** The orbitals from q up to K - 1 that are not in l, ascending. *)
Definition virtuals_from (K : nat) (l : list nat) (q : nat) : list nat :=
  filter (fun x => negb (occupied l x)) (seq q (K - q)).

(** The moves of one electron of l to a higher orbital that is empty: the
    orbital p it leaves and the orbital q it reaches. *)
Definition excitations (K : nat) (l : list nat) : list (nat * nat) :=
  flat_map (fun p => map (pair p) (virtuals_from K l (S p))) l.

(** The occupation list after the electron in p has moved to q. *)
Definition excite (l : list nat) (p q : nat) : list nat :=
  filter (fun x => (x <? q)%nat && negb (x =? p)%nat) l
  ++ q :: filter (fun x => (q <? x)%nat) l.

Section Elements.

Import Linalg.

Context {T : Type} {ST : Scalar T}.

Local Open Scope scalar_scope.

(** What the couplings of one row add to the entry in column J. *)
Definition row_value (ham : HamiltonianParameters T)
    (cs : list (Z * nat * nat)) (J : Z) (start : T) : T :=
  fold_left (fun acc c =>
               if fst (fst c) =? J
               then acc + two_entry (get_g ham) (snd (fst c)) (snd c) (snd (fst c)) (snd c)
               else acc) cs start.

(** The diagonal element of the ONV with the occupation list l, as
    [calculateDiagonal] adds it up. *)
Definition diagonal_value (ham : HamiltonianParameters T) (l : list nat) : T :=
  let h := one_entry (get_h ham) in
  let g := two_entry (get_g ham) in
  for_range 0 (length l) (fun e1 double_I =>
    let p := nth e1 l O in
    let double_I := double_I + (two * h p p + g p p p p) in
    for_range 0 e1 (fun e2 double_I =>
      let q := nth e2 l O in
      double_I + two * (two * g p p q q - g p q q p)) double_I) zero.

End Elements.

(** The occupation lists that one move of an electron of l to a higher empty
    orbital gives. *)
Definition moves (K : nat) (l : list nat) : list (list nat) :=
  map (fun pq => excite l (fst pq) (snd pq)) (excitations K l).

(** ** FockSpace: the counting methods *)

Module FockSpaceCounts.

Import FockSpace.

(** [FockSpace::countOneElectronCouplings] *)
Definition countOneElectronCouplings (fs : t) (onv : ONV.ONV) : Z :=
  let V := wrap64 (Z.of_nat (K fs) - Z.of_nat (N fs)) in
  let coupling_count := 0 in
  for_range 0 (N fs) (fun e1 coupling_count =>
    let p := ONV.get_occupation_index onv e1 in
    wrap64 (coupling_count + wrap64 (wrap64 (V + Z.of_nat e1) - Z.of_nat p)))
    coupling_count.

(** [FockSpace::countTotalOneElectronCouplings] *)
Definition countTotalOneElectronCouplings (fs : t) : Z :=
  wrap64 (wrap64 (wrap64 (Z.of_nat (K fs) - Z.of_nat (N fs)) * Z.of_nat (N fs))
          * dim fs).

End FockSpaceCounts.

(** The occupation lists of N orbitals below K, in the order of their
    addresses: first those without orbital K - 1, then those with it. *)
Fixpoint subsets (K N : nat) : list (list nat) :=
  match K with
  | O => match N with O => [[]] | S _ => [] end
  | S K' =>
      subsets K' N
      ++ match N with
         | O => []
         | S N' => map (fun l => l ++ [K']) (subsets K' N')
         end
  end.

(** The sum of the values of f over a list. *)
Fixpoint sum_over {A : Type} (f : A -> Z) (l : list A) : Z :=
  match l with
  | [] => 0
  | x :: l' => f x + sum_over f l'
  end.

(** [gray_code(S)]: [S ^ (S >> 1)].  S is a [size_t]; on 0 <= S < 2^64 neither
    operation leaves that range, so nothing wraps. *)
Definition gray_code (S : Z) : Z := Z.lxor S (Z.shiftr S 1).

(** ** FockSpace: the shift with a sign *)

Module FockSpaceShifts.

Import FockSpace.

(** [shiftUntilNextUnoccupiedOrbital<T>] with a sign: the loop of the
    overload without sign, and [sign *= -1] in every turn ([sign] is an
    [int]). *)
Fixpoint shiftUntilNextUnoccupiedOrbital_sign_loop (fuel : nat) (T : nat) (fs : t)
    (onv : ONV.ONV) (address : Z) (q e : nat) (sign : Z) : Z * nat * nat * Z :=
  match fuel with
  | O => (address, q, e, sign)
  | S fuel' =>
      if (e <? N fs)%nat && (q =? ONV.get_occupation_index onv e)%nat then
        let address :=
          wrap64 (address
                  + wrap64 (get_vertex_weights fs q (e + 1 - T)
                            - get_vertex_weights fs q (e + 1))) in
        shiftUntilNextUnoccupiedOrbital_sign_loop fuel' T fs onv address (S q) (S e)
          (signed32 (sign * -1))
      else (address, q, e, sign)
  end.

Definition shiftUntilNextUnoccupiedOrbital_sign (T : nat) (fs : t) (onv : ONV.ONV)
    (address : Z) (q e : nat) (sign : Z) : Z * nat * nat * Z :=
  shiftUntilNextUnoccupiedOrbital_sign_loop (N fs - e) T fs onv address q e sign.

End FockSpaceShifts.

(** ** SelectedFockSpace: adding many configurations, construction from a
    Fock space *)

Module SelectedFockSpaceMethods.

Import SelectedFockSpace.

(** [SelectedFockSpace::addConfiguration(onv1s, onv2s)] on two vectors of
    strings: the object after the call and the outcome.  Once a call of
    [addConfiguration] has thrown, the loop is left. *)
Definition addConfigurations (fs : t) (onv1s onv2s : list string) : t * result unit :=
  if negb (length onv1s =? length onv2s)%nat then (fs, Throw std_invalid_argument)
  else
    for_range 0 (length onv1s) (fun i state =>
      match snd state with
      | Ok _ =>
          addConfiguration (fst state) (nth i onv1s EmptyString)
                           (nth i onv2s EmptyString)
      | Throw e => state
      end) (fs, Ok tt).

(** [SelectedFockSpace::SelectedFockSpace(const FockSpace&)]: every ONV of
    the Fock space as a doubly occupied configuration. *)
Definition SelectedFockSpace_from_FockSpace (fock_space : FockSpace.t) : t :=
  let base := SelectedFockSpace (FockSpace.get_K fock_space)
                (FockSpace.get_N fock_space) (FockSpace.get_N fock_space) in
  let dim := FockSpace.get_dimension fock_space in
  let onv := FockSpace.makeONV fock_space 0 in
  let '(configurations, _) :=
    for_range 0 (Z.to_nat dim) (fun i '(configurations, onv) =>
      let I := Z.of_nat i in
      let configurations := configurations ++ [BuildConfiguration onv onv] in
      let onv :=
        if I <? wrap64 (dim - 1) then FockSpace.setNextONV fock_space onv else onv in
      (configurations, onv)) ([], onv) in
  Build (K base) dim (N_alpha base) (N_beta base) configurations.

End SelectedFockSpaceMethods.

(** ** FrozenCoreCI: the matrix-vector product and the diagonal *)

Module FrozenCoreCIMethods.

Import Linalg.

Section Builder.

Context {T : Type} `{Scalar T}.

(** The methods of the wrapped builder [active_hamiltonian_builder] and the
    dimension of its Fock space. *)
Variable active_matrixVectorProduct :
  HamiltonianParameters T -> VectorX T -> VectorX T -> result (VectorX T).
Variable active_calculateDiagonal : HamiltonianParameters T -> result (VectorX T).
Variable fock_space_dimension : Z.

(** [FrozenCoreCI::matrixVectorProduct] *)
Definition matrixVectorProduct (X : nat) (ham_par : HamiltonianParameters T)
    (x diagonal : VectorX T) : result (VectorX T) :=
  let frozen_ham_par := FrozenCoreCI.freezeHamiltonianParameters ham_par X in
  active_matrixVectorProduct frozen_ham_par x diagonal.

(** [FrozenCoreCI::calculateDiagonal] *)
Definition calculateDiagonal (X : nat) (ham_par : HamiltonianParameters T)
    : result (VectorX T) :=
  let frozen_ham_par := FrozenCoreCI.freezeHamiltonianParameters ham_par X in
  diagonal <- active_calculateDiagonal frozen_ham_par ;;
  let frozen_core_diagonal :=
    FrozenCoreCI.calculateFrozenCoreDiagonal fock_space_dimension ham_par X in
  Ok (VectorX_add diagonal frozen_core_diagonal).

End Builder.

End FrozenCoreCIMethods.

Section FrozenTerms.

Import Linalg.

Context {T : Type} {ST : Scalar T}.

Local Open Scope scalar_scope.

(** What the frozen orbital l adds to the one-electron integral of the
    orbitals r and c in [freezeHamiltonianParameters]. *)
Definition frozen_term (g : nat -> nat -> nat -> nat -> T) (r c l : nat) : T :=
  g r c l l + g l l r c - g r l l c / two - g l c r l / two.

(** The terms [f 0], ..., [f (n - 1)] added one after the other. *)
Definition sum_terms (n : nat) (f : nat -> T) : T :=
  for_range 0 n (fun l acc => acc + f l) zero.

(** The frozen-core energy in closed form, after the spec's words ("the
    closed-form frozen-core energy"): the energy of X doubly occupied
    orbitals, twice the one-electron integral of every frozen orbital and,
    for every pair of frozen orbitals, twice the Coulomb integral g(i,i,j,j)
    less the exchange integral g(i,j,j,i). *)
Definition frozen_core_energy (ham_par : HamiltonianParameters T) (X : nat) : T :=
  let h := one_entry (get_h ham_par) in
  let g := two_entry (get_g ham_par) in
  sum_terms X (fun i => two * h i i)
  + sum_terms X (fun i => sum_terms X (fun j => two * g i i j j - g i j j i)).

End FrozenTerms.

Section BitSets.

Import SelectedFockSpace.

(** The string of a bit set, the highest bit first (as [to_string] of
    [boost::dynamic_bitset] writes it); the list has bit 0 first. *)
Fixpoint bitset_string (b : list bool) : string :=
  match b with
  | [] => EmptyString
  | x :: rest =>
      (bitset_string rest ++ String (if x then "1"%char else "0"%char) EmptyString)%string
  end.

(** Whether two bit sets fit a selected Fock space. *)
Definition fits (fs : t) (a b : list bool) : bool :=
  ((length a =? K fs)%nat && (length b =? K fs)%nat)
  && ((bitset_count a =? N_alpha fs)%nat && (bitset_count b =? N_beta fs)%nat).

(** The configuration of two bit sets. *)
Definition configuration_of (fs : t) (a b : list bool) : Configuration :=
  BuildConfiguration (ONV.make (K fs) (N_alpha fs) (bitset_value a))
                     (ONV.make (K fs) (N_beta fs) (bitset_value b)).

Definition after_adding (fs : t) (added : list (list bool * list bool)) : t :=
  Build (K fs) (dim fs + Z.of_nat (length added)) (N_alpha fs) (N_beta fs)
        (configurations fs
         ++ map (fun ab => configuration_of fs (fst ab) (snd ab)) added).

(** The doubly occupied configuration of an occupation list. *)
Definition doubly_occupied (fs : FockSpace.t) (l : list nat) : Configuration :=
  BuildConfiguration (onv_of fs l) (onv_of fs l).

End BitSets.

(** * Theorems *)

(** ** Binomial coefficients and factorials *)

Lemma fact_pos : forall n, 0 < Double.fact n.
Proof.
  induction n as [|n IH]; [reflexivity|].
  change (Double.fact (S n)) with (Z.of_nat (S n) * Double.fact n). nia.
Qed.

Lemma choose_n_0 : forall n, choose n 0 = 1.
Proof. destruct n; reflexivity. Qed.

Lemma choose_S_S : forall n k, choose (S n) (S k) = choose n k + choose n (S k).
Proof. reflexivity. Qed.

Lemma choose_above : forall n k, (n < k)%nat -> choose n k = 0.
Proof.
  induction n as [|n IH]; intros k Hk.
  - destruct k; [lia|reflexivity].
  - destruct k as [|k]; [lia|].
    rewrite choose_S_S, !IH by lia. reflexivity.
Qed.

Lemma choose_nonneg : forall n k, 0 <= choose n k.
Proof.
  induction n as [|n IH]; intros [|k]; cbn [choose]; try lia.
  specialize (IH k) as H1. specialize (IH (S k)) as H2. lia.
Qed.

Lemma choose_diag : forall n, choose n n = 1.
Proof.
  induction n as [|n IH]; [reflexivity|].
  rewrite choose_S_S, IH, choose_above by lia. reflexivity.
Qed.

Lemma choose_pos : forall n k, (k <= n)%nat -> 0 < choose n k.
Proof.
  induction n as [|n IH]; intros k Hk.
  - assert (k = O) by lia. subst. reflexivity.
  - destruct k as [|k]; [reflexivity|].
    rewrite choose_S_S.
    specialize (IH k ltac:(lia)). pose proof (choose_nonneg n (S k)). lia.
Qed.

Lemma choose_fact : forall n k, (k <= n)%nat ->
  choose n k * (Double.fact k * Double.fact (n - k)) = Double.fact n.
Proof.
  induction n as [|n IH]; intros k Hk.
  - assert (k = O) by lia. subst. reflexivity.
  - destruct k as [|k].
    + rewrite choose_n_0, Nat.sub_0_r. cbn [Double.fact]. lia.
    + rewrite choose_S_S.
      replace (S n - S k)%nat with (n - k)%nat by lia.
      destruct (Nat.eq_dec k n) as [->|Hne].
      * rewrite choose_diag, choose_above, Nat.sub_diag by lia.
        cbn [Double.fact]. lia.
      * pose proof (IH k ltac:(lia)) as H1.
        pose proof (IH (S k) ltac:(lia)) as H2.
        replace (n - k)%nat with (S (n - S k)) in * by lia.
        change (Double.fact (S n)) with (Z.of_nat (S n) * Double.fact n).
        change (Double.fact (S k)) with (Z.of_nat (S k) * Double.fact k) in *.
        change (Double.fact (S (n - S k)))
          with (Z.of_nat (S (n - S k)) * Double.fact (n - S k)) in *.
        replace (Z.of_nat (S n)) with (Z.of_nat (S k) + Z.of_nat (S (n - S k))) by lia.
        nia.
Qed.

Lemma choose_as_quotient : forall n k, (k <= n)%nat ->
  choose n k = Double.fact n / (Double.fact k * Double.fact (n - k)).
Proof.
  intros n k Hk. rewrite <- (choose_fact n k Hk).
  pose proof (fact_pos k). pose proof (fact_pos (n - k)).
  rewrite Z.div_mul by nia. reflexivity.
Qed.

(** ** Fock-space dimension *)

Lemma dimension_exact_table :
  forallb dimension_exact_upto (seq 0 55) = true.
Proof. vm_compute. reflexivity. Qed.

(** Up to 54 orbitals the rounding of the floating-point quotient is
    harmless: [calculateDimension] returns the binomial coefficient. *)
Lemma calculateDimension_exact : forall K N,
  (N <= K)%nat -> (K <= 54)%nat ->
  FockSpace.calculateDimension K N = Ok (choose K N).
Proof.
  intros K N HN HK.
  pose proof dimension_exact_table as Htab.
  rewrite forallb_forall in Htab.
  specialize (Htab K). rewrite in_seq in Htab. specialize (Htab ltac:(lia)).
  unfold dimension_exact_upto in Htab. rewrite forallb_forall in Htab.
  specialize (Htab N). rewrite in_seq in Htab. specialize (Htab ltac:(lia)).
  destruct (FockSpace.calculateDimension K N) as [d|e]; [|discriminate].
  apply Z.eqb_eq in Htab. rewrite choose_as_quotient by assumption.
  congruence.
Qed.

Lemma calculateDimension_N_above_K : forall K N,
  (K < N)%nat -> Z.of_nat N < 2 ^ 32 ->
  FockSpace.calculateDimension K N = Throw std_domain_error.
Proof.
  intros K N HKN HN. unfold FockSpace.calculateDimension, Double.binomial_coefficient.
  unfold to_unsigned, wrap32. rewrite !Z.mod_small by lia.
  destruct (Z.ltb_spec (Z.of_nat K) (Z.of_nat N)); [reflexivity|lia].
Qed.

(** C4 (the code at the failing input).  For 57 orbitals and 25 electrons the
    binomial coefficient is 9929472283517787, an odd number above 2^53, which
    fits the 64-bit address type but is not a double.  [calculateDimension]
    throws nothing and returns 9929472283517786. *)
Theorem C4_calculateDimension_57_25_is_off_by_one :
  choose 57 25 = 9929472283517787
  /\ choose 57 25 < 2 ^ 64
  /\ FockSpace.calculateDimension 57 25 = Ok 9929472283517786
  /\ FockSpace.calculateDimension 57 25 <> Ok (choose 57 25).
Proof.
  assert (Hc : choose 57 25 = 9929472283517787).
  { rewrite choose_as_quotient by lia. vm_compute. reflexivity. }
  assert (Hd : FockSpace.calculateDimension 57 25 = Ok 9929472283517786).
  { vm_compute. reflexivity. }
  rewrite Hc, Hd. repeat split; try lia. discriminate.
Qed.

(** ** The scenario with four orbitals and two electrons *)

(** C9.  For K = 4 and N = 2 the dimension is 6, address 0 has the
    representation 0b0011 = 3 with orbitals 0 and 1 occupied, the address of
    0b0011 is 0, and the permutation after 0b0011 is 0b0101 = 5. *)
Theorem C9_four_orbitals_two_electrons :
  FockSpace.calculateDimension 4 2 = Ok 6
  /\ exists fs, FockSpace.FockSpace 4 2 = Ok fs
       /\ FockSpace.get_dimension fs = 6
       /\ FockSpace.calculateRepresentation fs 0 = 3
       /\ ONV.occupation_indices (FockSpace.makeONV fs 0) = [0%nat; 1%nat]
       /\ FockSpace.getAddress fs 3 = 0
       /\ FockSpace.ulongNextPermutation 3 = 5.
Proof.
  split; [vm_compute; reflexivity|].
  eexists. split; [vm_compute; reflexivity|].
  repeat split; vm_compute; reflexivity.
Qed.

(** ** The round trip between representations and addresses *)

(** C1 (the code at the failing input).  In the Fock space of 32 orbitals and
    one electron the representation 2^31 (orbital 31 occupied) has address
    31, and [calculateRepresentation] maps address 31 to 2^64 - 2^31: the bit
    is set through the [int] expression [(1) << 31], which is negative and
    sign-extends over bits 31 to 63. *)
Theorem C1_round_trip_fails_at_K32 :
  exists fs, FockSpace.FockSpace 32 1 = Ok fs
    /\ ONV.updateOccupationIndices (2 ^ 31) = [31%nat]
    /\ FockSpace.getAddress fs (2 ^ 31) = 31
    /\ FockSpace.calculateRepresentation fs 31 = 2 ^ 64 - 2 ^ 31
    /\ FockSpace.calculateRepresentation fs (FockSpace.getAddress fs (2 ^ 31))
       <> 2 ^ 31.
Proof.
  eexists. split; [vm_compute; reflexivity|].
  repeat split; try (vm_compute; reflexivity).
  vm_compute. discriminate.
Qed.

(** ** Adding a configuration to a selected Fock space *)

(** C10 (the code at the failing input).  Adding the strings "0011" and "001"
    to an empty selected Fock space of three orbitals throws, because the
    first string has four characters; the configuration list is unchanged
    but the dimension has become 1. *)
Theorem C10_addConfiguration_changes_dim_on_error :
  let fs := SelectedFockSpace.SelectedFockSpace 3 1 1 in
  let '(fs', outcome) := SelectedFockSpace.addConfiguration fs "0011" "001" in
  outcome = Throw std_invalid_argument
  /\ SelectedFockSpace.configurations fs' = SelectedFockSpace.configurations fs
  /\ SelectedFockSpace.dim fs = 0
  /\ SelectedFockSpace.dim fs' = 1.
Proof. vm_compute. repeat split; reflexivity. Qed.

(** Whenever [addConfiguration] throws, the dimension has been incremented
    and the configurations are the old ones. *)
Lemma addConfiguration_throw_state : forall fs onv1 onv2 fs' e,
  SelectedFockSpace.addConfiguration fs onv1 onv2 = (fs', Throw e) ->
  SelectedFockSpace.dim fs' = wrap64 (SelectedFockSpace.dim fs + 1)
  /\ SelectedFockSpace.configurations fs' = SelectedFockSpace.configurations fs.
Proof.
  intros fs onv1 onv2 fs' e. unfold SelectedFockSpace.addConfiguration.
  destruct (SelectedFockSpace.makeConfiguration _ onv1 onv2);
    intros Heq; inversion Heq; subst; cbn; auto.
Qed.

(** ** The Davidson solver: construction and result accessors *)

Section DavidsonContract.

Import Davidson.

(** C6.  The constructor throws [std::invalid_argument] when more
    eigenpairs are requested than there are initial guesses or than the
    collapsed subspace holds, or when the collapsed subspace is not smaller
    than the maximum subspace; otherwise it gives a solver that has not been
    solved and has done no iteration. *)
Theorem C6_constructor_contract :
  forall (mvp : VectorFunction) (diag : VectorX) (V0 : MatrixX)
         (requested : nat) (conv corr : R) (max_sub collapsed max_it : nat),
    ((cols V0 < requested)%nat \/ (collapsed < requested)%nat
     \/ (max_sub <= collapsed)%nat ->
     make mvp diag V0 requested conv corr max_sub collapsed max_it
     = Throw std_invalid_argument)
    /\ ((requested <= cols V0)%nat /\ (requested <= collapsed)%nat
        /\ (collapsed < max_sub)%nat ->
        exists s,
          make mvp diag V0 requested conv corr max_sub collapsed max_it = Ok s
          /\ _is_solved s = false
          /\ number_of_iterations s = O
          /\ eigenpairs s = []).
Proof.
  intros. unfold make.
  destruct (Nat.ltb_spec (cols V0) requested);
    destruct (Nat.ltb_spec collapsed requested);
    destruct (Nat.leb_spec max_sub collapsed);
    split; intros Hc; try reflexivity; try lia.
  eexists. repeat split.
Qed.

Lemma C6_constructor_contract_witness :
  make (fun v => v) [1%R; 2%R] (BuildMatrixX 2 1 (fun _ _ => 1%R)) 2
       1%R 1%R 5 3 10 = Throw std_invalid_argument
  /\ exists s,
       make (fun v => v) [1%R; 2%R] (BuildMatrixX 2 1 (fun _ _ => 1%R)) 1
            1%R 1%R 5 3 10 = Ok s
       /\ _is_solved s = false /\ number_of_iterations s = O
       /\ eigenpairs s = [].
Proof.
  split.
  - apply (C6_constructor_contract (fun v => v) [1%R; 2%R]
             (BuildMatrixX 2 1 (fun _ _ => 1%R)) 2 1%R 1%R 5 3 10).
    left. simpl. lia.
  - apply (C6_constructor_contract (fun v => v) [1%R; 2%R]
             (BuildMatrixX 2 1 (fun _ _ => 1%R)) 1 1%R 1%R 5 3 10).
    simpl. lia.
Defined.

Section SolveFlow.

Variable Subspace : Type.
Variable initial_subspace : DavidsonSolver -> Subspace.
Variable residuals_converged : Subspace -> bool.
Variable ritz_pairs : Subspace -> list Eigenpair.
Variable enlarge : Subspace -> Subspace.

Local Abbreviation loop := (solve_loop Subspace residuals_converged ritz_pairs enlarge).

Lemma solve_loop_outcome : forall fuel s sub s' r,
  loop fuel s sub = Some (s', r) ->
  (r = Ok tt /\ _is_solved s' = true)
  \/ (r = Throw std_runtime_error /\ _is_solved s' = false).
Proof.
  induction fuel as [|fuel IH]; intros s sub s' r; cbn; [discriminate|].
  destruct (_is_solved s) eqn:Hs.
  - intros [= <- <-]. auto.
  - destruct (residuals_converged sub).
    + intros [= <- <-]. auto.
    + destruct (_ <=? _)%nat.
      * intros [= <- <-]. right. cbn. auto.
      * apply IH.
Qed.

Lemma solve_loop_enough_fuel : forall fuel s sub,
  (maximum_number_of_iterations s - number_of_iterations s < fuel)%nat ->
  loop fuel s sub <> None.
Proof.
  induction fuel as [|fuel IH]; intros s sub Hf; [lia|]. cbn.
  destruct (_is_solved s); [discriminate|].
  destruct (residuals_converged sub); [discriminate|].
  destruct (Nat.leb_spec (maximum_number_of_iterations s)
                         (S (number_of_iterations s)));
    [discriminate|].
  apply IH. cbn in *. lia.
Qed.

Lemma solve_returns : forall s,
  exists s' r,
    solve Subspace initial_subspace residuals_converged ritz_pairs enlarge s
    = Some (s', r).
Proof.
  intros s. unfold solve.
  destruct (solve_loop _ _ _ _ _ s (initial_subspace s)) as [[s' r]|] eqn:E.
  - eauto.
  - exfalso. revert E. apply solve_loop_enough_fuel. lia.
Qed.

Lemma solve_outcome : forall s s' r,
  solve Subspace initial_subspace residuals_converged ritz_pairs enlarge s
  = Some (s', r) ->
  (r = Ok tt /\ get_number_of_iterations s' = Ok (number_of_iterations s'))
  \/ (r = Throw std_runtime_error
      /\ get_number_of_iterations s' = Throw std_invalid_argument).
Proof.
  intros s s' r Hs. apply solve_loop_outcome in Hs.
  unfold get_number_of_iterations.
  destruct Hs as [[-> ->]|[-> ->]]; auto.
Qed.

End SolveFlow.

End DavidsonContract.

Section OptimizerFlow.

Import DOCINewtonOrbitalOptimizer.

Variable iterations : nat -> iteration.
Variable maximum_number_of_iterations : nat.

Lemma optimizer_solve_loop_outcome : forall fuel k o n o' r,
  solve_loop iterations maximum_number_of_iterations fuel k o n = Some (o', r) ->
  match r with
  | Ok _ => is_converged o' = true
  | Throw _ => is_converged o' = false
  end.
Proof.
  induction fuel as [|fuel IH]; intros k o n o' r; cbn; [discriminate|].
  destruct (is_converged o) eqn:Ho.
  - intros [= <- <-]. exact Ho.
  - destruct (ci_solve (iterations k)) as [pairs|e].
    + destruct (gradient_below_threshold (iterations k)
                && negb (hessian_has_negative_eigenvalue (iterations k))).
      * intros [= <- <-]. reflexivity.
      * destruct (negb _ && _).
        -- intros [= <- <-]. exact Ho.
        -- destruct (rotate (iterations k)).
           ++ apply IH.
           ++ intros [= <- <-]. exact Ho.
    + intros [= <- <-]. exact Ho.
Qed.

End OptimizerFlow.

(** C7.  A result accessor called on a solver that is not solved (or an
    optimizer that is not converged) throws an exception of the
    [std::logic_error] family, which is not of the [std::runtime_error]
    family that [solve] uses for non-convergence.  [solve] of the Davidson
    solver always returns; it ends either normally, and then the accessor
    returns the stored number, or with [std::runtime_error], and then the
    accessor still throws.  After a normal end of the optimizer's [solve]
    the accessors return the stored eigenpairs, after an exception they
    throw. *)
Theorem C7_result_accessors :
  (forall s, Davidson._is_solved s = false ->
     exists e, Davidson.get_number_of_iterations s = Throw e
       /\ is_logic_error e = true /\ is_runtime_error e = false)
  /\ (forall o index, DOCINewtonOrbitalOptimizer.is_converged o = false ->
     exists e, DOCINewtonOrbitalOptimizer.get_eigenpairs o = Throw e
       /\ DOCINewtonOrbitalOptimizer.get_eigenpair o index = Throw e
       /\ is_logic_error e = true /\ is_runtime_error e = false)
  /\ (forall mvp diag V0 requested conv corr max_sub collapsed max_it s,
     Davidson.make mvp diag V0 requested conv corr max_sub collapsed max_it = Ok s ->
     Davidson.get_number_of_iterations s = Throw std_invalid_argument)
  /\ (forall Subspace initial converged ritz enlarge s,
     exists s' r,
       Davidson.solve Subspace initial converged ritz enlarge s = Some (s', r)
       /\ ((r = Ok tt
            /\ Davidson.get_number_of_iterations s'
               = Ok (Davidson.number_of_iterations s'))
           \/ (r = Throw std_runtime_error
               /\ is_runtime_error std_runtime_error = true
               /\ Davidson.get_number_of_iterations s'
                  = Throw std_invalid_argument)))
  /\ (forall iterations max_it fuel o o' r,
     DOCINewtonOrbitalOptimizer.solve iterations max_it fuel o = Some (o', r) ->
     match r with
     | Ok _ =>
         DOCINewtonOrbitalOptimizer.get_eigenpairs o'
         = Ok (DOCINewtonOrbitalOptimizer.eigenpairs o')
         /\ forall index,
              DOCINewtonOrbitalOptimizer.get_eigenpair o' index
              = Ok (nth_error (DOCINewtonOrbitalOptimizer.eigenpairs o') index)
     | Throw _ =>
         DOCINewtonOrbitalOptimizer.get_eigenpairs o' = Throw std_logic_error
         /\ forall index,
              DOCINewtonOrbitalOptimizer.get_eigenpair o' index
              = Throw std_logic_error
     end).
Proof.
  repeat split.
  - intros s Hs. exists std_invalid_argument.
    unfold Davidson.get_number_of_iterations. rewrite Hs. auto.
  - intros o index Ho. exists std_logic_error.
    unfold DOCINewtonOrbitalOptimizer.get_eigenpairs,
      DOCINewtonOrbitalOptimizer.get_eigenpair. rewrite Ho. auto.
  - intros mvp diag V0 requested conv corr max_sub collapsed max_it s.
    unfold Davidson.make.
    repeat match goal with |- context [if ?b then _ else _] => destruct b end;
      try discriminate.
    intros [= <-]. reflexivity.
  - intros Subspace initial converged ritz enlarge s.
    destruct (solve_returns Subspace initial converged ritz enlarge s)
      as (s' & r & Hs).
    exists s', r. split; [exact Hs|].
    apply solve_outcome in Hs. destruct Hs as [[-> ?]|[-> ?]]; auto.
  - intros iterations max_it fuel o o' r Hs.
    apply optimizer_solve_loop_outcome in Hs.
    unfold DOCINewtonOrbitalOptimizer.get_eigenpairs,
      DOCINewtonOrbitalOptimizer.get_eigenpair.
    destruct r; rewrite Hs; auto.
Qed.

Lemma C7_result_accessors_witness :
  let unsolved :=
    Davidson.Build 2 1 false [] (fun v => v) [1%R; 2%R]
      (Davidson.BuildMatrixX 2 1 (fun _ _ => 1%R)) 1%R 1%R 5 3 10 0 in
  exists e, Davidson.get_number_of_iterations unsolved = Throw e
    /\ is_logic_error e = true /\ is_runtime_error e = false.
Proof.
  intros unsolved. apply (proj1 C7_result_accessors). reflexivity.
Defined.

(** ** The Davidson correction vectors *)

Section DavidsonCorrection.

Import Davidson.

Local Open Scope R_scope.

Lemma select_correction_length : forall R_col den t,
  length (select_correction R_col den t) = Nat.min (length R_col) (length den).
Proof.
  intros. unfold select_correction. rewrite length_map, length_combine.
  reflexivity.
Qed.

Lemma denominator_length : forall diagonal dim lambda,
  length (denominator diagonal dim lambda) = Nat.min (length diagonal) dim.
Proof.
  intros. unfold denominator.
  rewrite length_map, length_combine, repeat_length. reflexivity.
Qed.

Lemma nth_map_combine : forall (A B C : Type) (f : A * B -> C)
    (l1 : list A) (l2 : list B) (j : nat) (da : A) (db : B) (dc : C),
  (j < length l1)%nat -> (j < length l2)%nat ->
  nth j (map f (combine l1 l2)) dc = f (nth j l1 da, nth j l2 db).
Proof.
  induction l1 as [|a l1 IH]; intros [|b l2] j da db dc H1 H2;
    cbn in *; try lia.
  destruct j as [|j]; [reflexivity|]. apply IH; lia.
Qed.

Lemma nth_repeat_lt : forall (A : Type) (x d : A) (n j : nat),
  (j < n)%nat -> nth j (repeat x n) d = x.
Proof.
  induction n as [|n IH]; intros j Hj; [lia|].
  destruct j; cbn; [reflexivity|]. apply IH. lia.
Qed.

Lemma denominator_nth : forall diagonal dim lambda j,
  (j < length diagonal)%nat -> (j < dim)%nat ->
  nth j (denominator diagonal dim lambda) 0 = nth j diagonal 0 - lambda.
Proof.
  intros diagonal dim lambda j Hd Hj. unfold denominator.
  rewrite (nth_map_combine _ _ _ _ _ _ _ 0 lambda)
    by (rewrite ?repeat_length; assumption).
  rewrite nth_repeat_lt by assumption. reflexivity.
Qed.

Lemma squaredNorm_nonneg : forall v, 0 <= squaredNorm v.
Proof.
  induction v as [|x v IH]; [cbn; lra|].
  change (squaredNorm (x :: v)) with (x * x + squaredNorm v). nra.
Qed.

Lemma squaredNorm_scaled : forall c v,
  c <> 0 -> squaredNorm (map (fun x => x / c) v) = squaredNorm v / (c * c).
Proof.
  intros c v Hc. induction v as [|x v IH].
  - cbn. field. exact Hc.
  - change (squaredNorm (map (fun y => y / c) (x :: v)))
      with (x / c * (x / c) + squaredNorm (map (fun y => y / c) v)).
    change (squaredNorm (x :: v)) with (x * x + squaredNorm v).
    rewrite IH. field. exact Hc.
Qed.

Lemma norm_normalize : forall v,
  squaredNorm v <> 0 -> norm (normalize v) = 1.
Proof.
  intros v Hv. pose proof (squaredNorm_nonneg v) as Hn.
  assert (Hpos : 0 < squaredNorm v) by lra.
  unfold norm, normalize.
  destruct (Rlt_dec 0 (squaredNorm v)) as [_|Hno]; [|contradiction].
  assert (Hs : sqrt (squaredNorm v) <> 0).
  { pose proof (sqrt_lt_R0 _ Hpos). lra. }
  rewrite squaredNorm_scaled by exact Hs.
  rewrite sqrt_sqrt by lra.
  replace (squaredNorm v / squaredNorm v) with 1 by (field; lra).
  apply sqrt_1.
Qed.

Lemma normalize_zero : forall v, squaredNorm v = 0 -> normalize v = v.
Proof.
  intros v Hv. unfold normalize. rewrite Hv.
  destruct (Rlt_dec 0 0); [lra|reflexivity].
Qed.

(** C5 (amended).  Before normalisation the correction vector is,
    coefficient by coefficient, the residual divided by the larger of
    |diagonal - Lambda_i| and the correction threshold.  [normalize] then
    gives a column of norm one when the correction vector is not zero, and
    leaves a zero column as it is. *)
Theorem C5_correction_vector :
  forall (R_col diagonal : VectorX) (dim : nat) (Lambda_i threshold : R),
    length R_col = dim -> length diagonal = dim ->
    let Delta := correction_vector R_col diagonal dim Lambda_i threshold in
    length Delta = dim
    /\ (forall j, (j < dim)%nat ->
          nth j Delta 0
          = nth j R_col 0 / Rmax (Rabs (nth j diagonal 0 - Lambda_i)) threshold)
    /\ (squaredNorm Delta <> 0 ->
          norm (Delta_col R_col diagonal dim Lambda_i threshold) = 1)
    /\ (squaredNorm Delta = 0 ->
          Delta_col R_col diagonal dim Lambda_i threshold = Delta).
Proof.
  intros R_col diagonal dim Lambda_i threshold HR Hd Delta.
  repeat split.
  - unfold Delta, correction_vector.
    rewrite select_correction_length, denominator_length. lia.
  - intros j Hj. unfold Delta, correction_vector, select_correction.
    rewrite (nth_map_combine _ _ _ _ _ _ _ 0 0)
      by (rewrite ?denominator_length; lia).
    rewrite denominator_nth by lia.
    set (d := Rabs (nth j diagonal 0 - Lambda_i)).
    unfold Rmax.
    destruct (Rlt_dec threshold d) as [Hlt|Hge];
      destruct (Rle_dec d threshold) as [Hle|Hgt]; try reflexivity; lra.
  - apply norm_normalize.
  - apply normalize_zero.
Qed.

Lemma C5_correction_vector_witness :
  let Delta := correction_vector [3; 4] [2; 5] 2 1 (1 / 2) in
  length Delta = 2%nat
  /\ (forall j, (j < 2)%nat ->
        nth j Delta 0
        = nth j [3; 4] 0 / Rmax (Rabs (nth j [2; 5] 0 - 1)) (1 / 2))
  /\ (squaredNorm Delta <> 0 -> norm (Delta_col [3; 4] [2; 5] 2 1 (1 / 2)) = 1)
  /\ (squaredNorm Delta = 0 -> Delta_col [3; 4] [2; 5] 2 1 (1 / 2) = Delta).
Proof.
  apply (C5_correction_vector [3; 4] [2; 5] 2 1 (1 / 2)); reflexivity.
Defined.

(** C5 (counterexample).  A residual column that is zero gives a zero
    correction vector, and the normalised column has norm 0, not 1. *)
Lemma C5_zero_residual_has_no_unit_norm :
  Delta_col [0] [1] 1 0 (1 / 2) = [0]
  /\ norm (Delta_col [0] [1] 1 0 (1 / 2)) <> 1.
Proof.
  assert (H : Delta_col [0] [1] 1 0 (1 / 2) = [0]).
  { unfold Delta_col, correction_vector, denominator, select_correction. cbn.
    replace (1 - 0) with 1 by lra. rewrite Rabs_R1.
    destruct (Rlt_dec (1 / 2) 1) as [_|Hn]; [|lra].
    replace (0 / 1) with 0 by lra.
    apply normalize_zero. cbn. lra. }
  split; [exact H|].
  rewrite H. unfold norm. cbn.
  replace (0 * 0 + 0) with 0 by lra. rewrite sqrt_0. lra.
Qed.

End DavidsonCorrection.

(** ** Loops *)

Lemma for_range_invariant : forall (S : Type) (P : S -> Prop) (lo hi : nat)
    (body : nat -> S -> S) (s : S),
  P s ->
  (forall i s', (lo <= i < hi)%nat -> P s' -> P (body i s')) ->
  P (for_range lo hi body s).
Proof.
  intros S P lo hi body s Hs Hbody. unfold for_range.
  assert (Hin : forall i, In i (seq lo (hi - lo)) -> (lo <= i < hi)%nat).
  { intros i Hi. apply in_seq in Hi. lia. }
  revert s Hs. induction (seq lo (hi - lo)) as [|i l IH]; intros s Hs; cbn.
  - exact Hs.
  - apply IH.
    + intros j Hj. apply Hin. right. exact Hj.
    + apply Hbody; [apply Hin; left; reflexivity|exact Hs].
Qed.

(** ** The frozen-core Hamiltonian *)

Section FrozenCore.

Import Linalg FrozenCoreCI.

Context {T : Type} {ST : Scalar T}.

Hypothesis Tring : ring_theory zero one add mul sub opp (@eq T).

Add Ring scalar_ring_frozen : Tring.

Local Open Scope scalar_scope.

Lemma freeze_orbital_count : forall (ham_par : HamiltonianParameters T) X,
  get_K (freezeHamiltonianParameters ham_par X)
  = Z.to_nat (wrap64 (Z.of_nat (get_K ham_par) - Z.of_nat X)).
Proof.
  intros ham_par X. unfold freezeHamiltonianParameters, get_K. cbn.
  set (Ka := Z.to_nat (wrap64 (Z.of_nat (one_dim (get_h ham_par)) - Z.of_nat X))).
  apply (for_range_invariant _ (fun h => one_dim h = Ka)); [reflexivity|].
  intros i h _ Hh.
  apply (for_range_invariant _ (fun h => one_dim h = Ka)).
  - apply (for_range_invariant _ (fun h => one_dim h = Ka)); [exact Hh|].
    intros l h' _ Hh'. exact Hh'.
  - intros j h' _ Hh'.
    apply (for_range_invariant _ (fun h => one_dim h = Ka)); [exact Hh'|].
    intros l h'' _ Hh''. exact Hh''.
Qed.

Lemma sum_terms_S : forall n (f : nat -> T),
  sum_terms (S n) f = sum_terms n f + f n.
Proof.
  intros n f. unfold sum_terms, for_range. rewrite !Nat.sub_0_r.
  rewrite seq_S, fold_left_app. reflexivity.
Qed.

Lemma sum_terms_pointwise : forall n (f f' : nat -> T),
  (forall i, (i < n)%nat -> f i = f' i) -> sum_terms n f = sum_terms n f'.
Proof.
  induction n as [|n IH]; intros f f' Hf; [reflexivity|].
  rewrite !sum_terms_S, (IH f f'), (Hf n) by auto with arith. reflexivity.
Qed.

Lemma sum_terms_plus : forall n (f f' : nat -> T),
  sum_terms n (fun i => f i + f' i) = sum_terms n f + sum_terms n f'.
Proof.
  induction n as [|n IH]; intros f f'.
  - unfold sum_terms, for_range. cbn [Nat.sub seq fold_left]. ring.
  - rewrite !sum_terms_S, IH. ring.
Qed.

(** A loop that adds terms to a running value, from lo up to hi. *)
Lemma for_range_sum_last : forall lo hi (f : nat -> T) (v : T),
  (lo <= hi)%nat ->
  for_range lo (S hi) (fun j acc => acc + f j) v
  = for_range lo hi (fun j acc => acc + f j) v + f hi.
Proof.
  intros lo hi f v Hle. unfold for_range.
  replace (S hi - lo)%nat with (S (hi - lo)) by lia.
  rewrite seq_S, fold_left_app. cbn [fold_left].
  replace (lo + (hi - lo))%nat with hi by lia. reflexivity.
Qed.

Lemma for_range_sum_start : forall lo hi (f : nat -> T) (v : T),
  for_range lo hi (fun j acc => acc + f j) v
  = v + for_range lo hi (fun j acc => acc + f j) zero.
Proof.
  intros lo hi f v. unfold for_range.
  generalize (seq lo (hi - lo)). intros l. revert v.
  induction l as [|j l IH] using rev_ind; intros v.
  - cbn [fold_left]. ring.
  - rewrite !fold_left_app. cbn [fold_left]. rewrite IH. ring.
Qed.

Lemma for_range_empty : forall (S : Type) lo (body : nat -> S -> S) (s : S),
  for_range lo lo body s = s.
Proof. intros S lo body s. unfold for_range. rewrite Nat.sub_diag. reflexivity. Qed.

(** The loops of [calculateFrozenCoreDiagonal] as a sum over the frozen
    orbitals of the terms each adds. *)
Lemma frozen_core_value_rows : forall (ham_par : HamiltonianParameters T) X,
  let h := one_entry (get_h ham_par) in
  let g := two_entry (get_g ham_par) in
  frozen_core_value ham_par X
  = sum_terms X (fun i =>
      (two * h i i + g i i i i)
      + for_range (i + 1) X (fun j acc =>
          acc + (two * g i i j j + two * g j j i i - g j i i j - g i j j i)) zero).
Proof.
  intros ham_par X h g. unfold frozen_core_value. fold h. fold g.
  generalize X at 1 3. intros n.
  induction n as [|n IH].
  - reflexivity.
  - rewrite sum_terms_S, <- IH.
    unfold for_range at 1. rewrite Nat.sub_0_r, seq_S, fold_left_app.
    cbn [fold_left Nat.add].
    rewrite for_range_sum_start.
    unfold for_range at 3. rewrite Nat.sub_0_r. ring.
Qed.

(** The value that [calculateFrozenCoreDiagonal] computes is the frozen-core
    energy in closed form. *)
Lemma frozen_core_value_closed_form : forall (ham_par : HamiltonianParameters T) X,
  frozen_core_value ham_par X = frozen_core_energy ham_par X.
Proof.
  intros ham_par X. rewrite frozen_core_value_rows. unfold frozen_core_energy.
  set (h := one_entry (get_h ham_par)). set (g := two_entry (get_g ham_par)).
  cbv zeta.
  induction X as [|X IH].
  - unfold sum_terms, for_range. cbn [Nat.sub seq fold_left]. ring.
  - rewrite !sum_terms_S.
    rewrite (sum_terms_pointwise X
               (fun i => two * h i i + g i i i i
                         + for_range (i + 1) (S X)
                             (fun j acc => acc + (two * g i i j j + two * g j j i i
                                                  - g j i i j - g i j j i)) zero)
               (fun i => (two * h i i + g i i i i
                          + for_range (i + 1) X
                              (fun j acc => acc + (two * g i i j j + two * g j j i i
                                                   - g j i i j - g i j j i)) zero)
                         + (two * g i i X X + two * g X X i i
                            - g X i i X - g i X X i))).
    2:{ intros i Hi. rewrite for_range_sum_last by lia. ring. }
    rewrite sum_terms_plus, IH.
    replace (X + 1)%nat with (S X) by lia. rewrite for_range_empty.
    rewrite (sum_terms_pointwise X
               (fun i => sum_terms (S X) (fun j => two * g i i j j - g i j j i))
               (fun i => sum_terms X (fun j => two * g i i j j - g i j j i)
                         + (two * g i i X X - g i X X i))).
    2:{ intros i Hi. apply sum_terms_S. }
    rewrite sum_terms_plus.
    assert (Hsplit : sum_terms X (fun i => two * g i i X X + two * g X X i i
                                           - g X i i X - g i X X i)
                     = sum_terms X (fun i => two * g i i X X - g i X X i)
                       + sum_terms X (fun j => two * g X X j j - g X j j X)).
    { rewrite <- sum_terms_plus. apply sum_terms_pointwise. intros i _. ring. }
    rewrite Hsplit. clearbody h g. unfold two. ring.
Qed.

(** C8.  The frozen-core Hamiltonian is the Hamiltonian of the wrapped
    builder for the frozen parameters, which have K - X orbitals, with one
    and the same value added to every diagonal element; this value, which
    [calculateFrozenCoreDiagonal] adds up in its loops, is the frozen-core
    energy in closed form [frozen_core_energy], a sum of integrals over the
    frozen orbitals only. *)
Theorem C8_frozen_core_hamiltonian :
  forall (active : HamiltonianParameters T -> result (SquareMatrix T))
         (dimension : Z) (X : nat) (ham_par : HamiltonianParameters T)
         (H_active : SquareMatrix T),
    (X <= get_K ham_par)%nat -> (Z.of_nat (get_K ham_par) < 2 ^ 64)%Z ->
    active (freezeHamiltonianParameters ham_par X) = Ok H_active ->
    get_K (freezeHamiltonianParameters ham_par X) = (get_K ham_par - X)%nat
    /\ frozen_core_value ham_par X = frozen_core_energy ham_par X
    /\ exists H_frozen,
         constructHamiltonian active dimension X ham_par = Ok H_frozen
         /\ dim H_frozen = dim H_active
         /\ (forall I, entry H_frozen I I
                       = entry H_active I I + frozen_core_energy ham_par X)
         /\ (forall I J, I <> J -> entry H_frozen I J = entry H_active I J).
Proof.
  intros active dimension X ham_par H_active HX HK Hact. split; [|split].
  - rewrite freeze_orbital_count. unfold wrap64.
    rewrite Z.mod_small by lia. lia.
  - apply frozen_core_value_closed_form.
  - rewrite <- frozen_core_value_closed_form.
    unfold constructHamiltonian. rewrite Hact. cbn.
    eexists. split; [reflexivity|]. cbn. repeat split.
    + intros I. rewrite Z.eqb_refl. ring.
    + intros I J HIJ. destruct (Z.eqb_spec I J); [contradiction|reflexivity].
Qed.

End FrozenCore.

Lemma C8_frozen_core_hamiltonian_witness :
  (1 <= Linalg.get_K example_real_parameters)%nat
  /\ Z.of_nat (Linalg.get_K example_real_parameters) < 2 ^ 64
  /\ DOCI.constructHamiltonian (example_fock_space 3 1)
       (FrozenCoreCI.freezeHamiltonianParameters example_real_parameters 1)
     = Ok example_active_hamiltonian
  /\ Linalg.get_K (FrozenCoreCI.freezeHamiltonianParameters example_real_parameters 1)
     = (Linalg.get_K example_real_parameters - 1)%nat
  /\ FrozenCoreCI.frozen_core_value example_real_parameters 1
     = frozen_core_energy example_real_parameters 1
  /\ exists H_frozen,
       FrozenCoreCI.constructHamiltonian
         (DOCI.constructHamiltonian (example_fock_space 3 1)) 3 1
         example_real_parameters = Ok H_frozen
       /\ Linalg.dim H_frozen = Linalg.dim example_active_hamiltonian
       /\ (forall I, Linalg.entry H_frozen I I
                     = (Linalg.entry example_active_hamiltonian I I
                        + frozen_core_energy example_real_parameters 1)%R)
       /\ (forall I J, I <> J ->
             Linalg.entry H_frozen I J
             = Linalg.entry example_active_hamiltonian I J).
Proof.
  split; [vm_compute; lia|]. split; [vm_compute; reflexivity|].
  split; [vm_compute; reflexivity|].
  apply (C8_frozen_core_hamiltonian (T:=R) (ST:=Scalar_R) RTheory
           (DOCI.constructHamiltonian (example_fock_space 3 1)) 3 1
           example_real_parameters example_active_hamiltonian).
  - vm_compute. lia.
  - vm_compute. reflexivity.
  - vm_compute. reflexivity.
Defined.

(** ** The table of vertex weights *)

Lemma choose_le_pow2 : forall n k, choose n k <= 2 ^ Z.of_nat n.
Proof.
  induction n as [|n IH]; intros [|k]; try (cbn; lia).
  rewrite choose_S_S, Nat2Z.inj_succ, Z.pow_succ_r by lia.
  pose proof (IH k). pose proof (IH (S k)). lia.
Qed.

Lemma choose_lt_2_64 : forall n k, (n <= 63)%nat -> 0 <= choose n k < 2 ^ 64.
Proof.
  intros n k Hn. split; [apply choose_nonneg|].
  pose proof (choose_le_pow2 n k).
  assert (2 ^ Z.of_nat n <= 2 ^ 63) by (apply Z.pow_le_mono_r; lia).
  lia.
Qed.

Lemma choose_mono_n : forall n k, choose n k <= choose (S n) k.
Proof.
  intros n [|k]; [rewrite !choose_n_0; lia|].
  rewrite choose_S_S. pose proof (choose_nonneg n k). lia.
Qed.

Lemma choose_mono : forall n n' k, (n <= n')%nat -> choose n k <= choose n' k.
Proof.
  intros n n' k Hle. induction Hle as [|n' _ IH]; [lia|].
  pose proof (choose_mono_n n' k). lia.
Qed.

Lemma fold_seq_ind : forall (S : Type) (P : nat -> S -> Prop)
    (body : nat -> S -> S) (n lo : nat) (s : S),
  P lo s ->
  (forall i s', (lo <= i < lo + n)%nat -> P i s' -> P (Datatypes.S i) (body i s')) ->
  P (lo + n)%nat (fold_left (fun acc i => body i acc) (seq lo n) s).
Proof.
  intros S P body. induction n as [|n IH]; intros lo s Hs Hbody; cbn.
  - rewrite Nat.add_0_r. exact Hs.
  - replace (lo + Datatypes.S n)%nat with (Datatypes.S lo + n)%nat by lia.
    apply IH.
    + apply Hbody; [lia|exact Hs].
    + intros i s' Hi. apply Hbody. lia.
Qed.

Lemma for_range_ind : forall (S : Type) (P : nat -> S -> Prop) (lo hi : nat)
    (body : nat -> S -> S) (s : S),
  (lo <= hi)%nat ->
  P lo s ->
  (forall i s', (lo <= i < hi)%nat -> P i s' -> P (Datatypes.S i) (body i s')) ->
  P hi (for_range lo hi body s).
Proof.
  intros S P lo hi body s Hle Hs Hbody. unfold for_range.
  replace hi with (lo + (hi - lo))%nat at 1 by lia.
  apply fold_seq_ind; [exact Hs|].
  intros i s' Hi. apply Hbody. lia.
Qed.

(** Vectors and the weight table: reading after writing. *)

Lemma vector_set_length : forall (A : Type) (i : nat) (x : A) (v : list A),
  length (vector_set i x v) = length v.
Proof.
  intros A i x v. revert i. induction v as [|h t IH]; intros [|i]; cbn; auto.
Qed.

Lemma nth_vector_set : forall (A : Type) (i j : nat) (x d : A) (v : list A),
  (i < length v)%nat ->
  nth j (vector_set i x v) d = if (j =? i)%nat then x else nth j v d.
Proof.
  intros A i j x d v. revert i j.
  induction v as [|h t IH]; intros [|i] [|j] Hi; cbn in *; try lia; auto.
  apply IH. lia.
Qed.

Lemma Matrixu_set_shape : forall rows columns W p m x,
  table_shape rows columns W ->
  table_shape rows columns (FockSpace.Matrixu_set W p m x).
Proof.
  intros rows columns W p m x [Hl Hr]. unfold FockSpace.Matrixu_set.
  unfold FockSpace.Matrixu, FockSpace.Vectoru in *. split.
  - rewrite vector_set_length. exact Hl.
  - intros p' Hp'. destruct (Nat.lt_ge_cases p (length W)) as [Hp|Hp].
    + rewrite nth_vector_set by exact Hp.
      destruct (Nat.eqb_spec p' p) as [->|_].
      * rewrite vector_set_length. apply Hr. lia.
      * apply Hr. exact Hp'.
    + assert (Hid : forall (A : Type) (i : nat) (y : A) (v : list A),
                 (length v <= i)%nat -> vector_set i y v = v).
      { intros A i y v. revert i.
        induction v as [|h t IH]; intros [|i] Hi; cbn in *; try lia; auto.
        f_equal. apply IH. lia. }
      rewrite Hid by exact Hp. apply Hr. exact Hp'.
Qed.

Lemma Matrixu_get_set : forall rows columns W p m x p' m',
  table_shape rows columns W -> (p < rows)%nat -> (m < columns)%nat ->
  FockSpace.Matrixu_get (FockSpace.Matrixu_set W p m x) p' m'
  = if (p' =? p)%nat && (m' =? m)%nat then x else FockSpace.Matrixu_get W p' m'.
Proof.
  intros rows columns W p m x p' m' [Hl Hr] Hp Hm.
  unfold FockSpace.Matrixu_get, FockSpace.Matrixu_set.
  unfold FockSpace.Matrixu, FockSpace.Vectoru in *.
  rewrite nth_vector_set by lia.
  destruct (Nat.eqb_spec p' p) as [->|_]; cbn [andb]; [|reflexivity].
  rewrite nth_vector_set by (rewrite Hr; lia). reflexivity.
Qed.

Lemma repeat_table_shape : forall rows columns,
  table_shape rows columns (repeat (repeat 0 columns) rows).
Proof.
  intros rows columns. split; [apply repeat_length|].
  intros p Hp.
  assert (Hn : forall (A : Type) (x d : A) (n j : nat),
             (j < n)%nat -> nth j (repeat x n) d = x).
  { induction n as [|n IH]; intros j Hj; [lia|].
    destruct j; cbn; [reflexivity|]. apply IH. lia. }
  rewrite Hn by exact Hp. apply repeat_length.
Qed.

Lemma repeat_table_get : forall rows columns p m,
  FockSpace.Matrixu_get (repeat (repeat 0 columns) rows) p m = 0.
Proof.
  intros rows columns p m. unfold FockSpace.Matrixu_get.
  assert (Hz : forall n j, nth j (repeat 0 n) 0 = 0).
  { induction n as [|n IH]; intros [|j]; cbn; auto. }
  destruct (Nat.lt_ge_cases p rows) as [Hp|Hp].
  - assert (Hn : forall (A : Type) (x d : A) (n j : nat),
               (j < n)%nat -> nth j (repeat x n) d = x).
    { induction n as [|n IH]; intros j Hj; [lia|].
      destruct j; cbn; [reflexivity|]. apply IH. lia. }
    rewrite Hn by exact Hp. apply Hz.
  - rewrite (nth_overflow (repeat (repeat 0 columns) rows))
      by (rewrite repeat_length; exact Hp).
    destruct m; reflexivity.
Qed.

Lemma wrap64_small : forall z, 0 <= z < 2 ^ 64 -> wrap64 z = z.
Proof. intros z Hz. apply Z.mod_small. exact Hz. Qed.

Lemma weight_pascal : forall K N p m,
  (1 <= m)%nat -> (m <= p)%nat -> (p <= K - N + m)%nat ->
  weight K N p m = weight K N (p - 1) m + weight K N (p - 1) (m - 1).
Proof.
  intros K N p m Hm Hp Hr. unfold weight.
  destruct p as [|p]; [lia|]. destruct m as [|m]; [lia|].
  replace (S p - 1)%nat with p by lia. replace (S m - 1)%nat with m by lia.
  repeat match goal with
         | |- context [(?a <=? ?b)%nat] => destruct (Nat.leb_spec a b)
         end; cbn [andb]; try lia; rewrite choose_S_S; try lia.
  rewrite (choose_above p (S m)) by lia. lia.
Qed.

Lemma fill_first_column : forall K N,
  (N <= K)%nat ->
  column_filled K N 1
    (for_range 0 (K - N + 1) (fun p W => FockSpace.Matrixu_set W p 0 1)
       (repeat (repeat 0 (N + 1)) (K + 1))).
Proof.
  intros K N HN.
  assert (G : table_shape (K + 1) (N + 1)
                (for_range 0 (K - N + 1) (fun p W => FockSpace.Matrixu_set W p 0 1)
                   (repeat (repeat 0 (N + 1)) (K + 1)))
              /\ forall p m, (p <= K)%nat -> (m <= N)%nat ->
                   FockSpace.Matrixu_get
                     (for_range 0 (K - N + 1)
                        (fun p W => FockSpace.Matrixu_set W p 0 1)
                        (repeat (repeat 0 (N + 1)) (K + 1))) p m
                   = if (m =? 0)%nat && (p <? K - N + 1)%nat then 1 else 0).
  { apply (for_range_ind _ (fun i W =>
             table_shape (K + 1) (N + 1) W
             /\ forall p m, (p <= K)%nat -> (m <= N)%nat ->
                  FockSpace.Matrixu_get W p m
                  = if (m =? 0)%nat && (p <? i)%nat then 1 else 0)); [lia| |].
    - split; [apply repeat_table_shape|].
      intros p m _ _. rewrite repeat_table_get.
      rewrite andb_false_r. reflexivity.
    - intros i W Hi [Hs Hg]. split; [apply Matrixu_set_shape; exact Hs|].
      intros p m Hp Hm.
      rewrite (Matrixu_get_set _ _ _ _ _ _ _ _ Hs) by lia.
      rewrite Hg by assumption.
      destruct (Nat.eqb_spec p i); destruct (Nat.eqb_spec m 0);
        destruct (Nat.ltb_spec p i); destruct (Nat.ltb_spec p (S i));
        cbn; try reflexivity; lia. }
  destruct G as [Gs Gg]. split; [exact Gs|].
  intros p m Hp Hm. rewrite Gg by assumption. unfold weight.
  destruct (Nat.ltb_spec m 1); destruct (Nat.eqb_spec m 0); try lia;
    cbn [andb]; [|reflexivity].
  subst m. rewrite choose_n_0.
  destruct (Nat.ltb_spec p (K - N + 1)); destruct (Nat.leb_spec p (K - N + 0));
    cbn; try reflexivity; lia.
Qed.

Lemma fill_next_column : forall K N c W,
  (N <= K)%nat -> (K <= 63)%nat -> (1 <= c <= N)%nat ->
  column_filled K N c W ->
  column_filled K N (S c)
    (for_range c (K - N + c + 1) (fun p W0 =>
       FockSpace.Matrixu_set W0 p c
         (wrap64 (FockSpace.Matrixu_get W0 (p - 1) c
                  + FockSpace.Matrixu_get W0 (p - 1) (c - 1)))) W).
Proof.
  intros K N c W HN HK Hc [Hs Hg].
  assert (G : table_shape (K + 1) (N + 1)
                (for_range c (K - N + c + 1) (fun p W0 =>
                   FockSpace.Matrixu_set W0 p c
                     (wrap64 (FockSpace.Matrixu_get W0 (p - 1) c
                              + FockSpace.Matrixu_get W0 (p - 1) (c - 1)))) W)
              /\ forall p m, (p <= K)%nat -> (m <= N)%nat ->
                   FockSpace.Matrixu_get
                     (for_range c (K - N + c + 1) (fun p W0 =>
                        FockSpace.Matrixu_set W0 p c
                          (wrap64 (FockSpace.Matrixu_get W0 (p - 1) c
                                   + FockSpace.Matrixu_get W0 (p - 1) (c - 1)))) W)
                     p m
                   = if (m <? c)%nat then weight K N p m
                     else if (m =? c)%nat && (p <? K - N + c + 1)%nat
                          then weight K N p m else 0).
  { apply (for_range_ind _ (fun r W' =>
             table_shape (K + 1) (N + 1) W'
             /\ forall p m, (p <= K)%nat -> (m <= N)%nat ->
                  FockSpace.Matrixu_get W' p m
                  = if (m <? c)%nat then weight K N p m
                    else if (m =? c)%nat && (p <? r)%nat
                         then weight K N p m else 0)); [lia| |].
    - split; [exact Hs|]. intros p m Hp Hm. rewrite Hg by assumption.
      destruct (Nat.ltb_spec m c); [reflexivity|].
      destruct (Nat.eqb_spec m c); cbn [andb]; [|reflexivity].
      destruct (Nat.ltb_spec p c); [|reflexivity].
      unfold weight. subst m.
      destruct (Nat.leb_spec c p); [lia|reflexivity].
    - intros r W' Hr [Hs' Hg']. split; [apply Matrixu_set_shape; exact Hs'|].
      intros p m Hp Hm.
      rewrite (Matrixu_get_set _ _ _ _ _ _ _ _ Hs') by lia.
      destruct (Nat.eqb_spec p r) as [->|Hpr];
        destruct (Nat.eqb_spec m c) as [->|Hmc]; cbn [andb].
      + rewrite !Hg' by lia.
        rewrite Nat.ltb_irrefl, Nat.eqb_refl. cbn [andb].
        destruct (Nat.ltb_spec (c - 1) c); [|lia].
        destruct (Nat.ltb_spec (r - 1) r); [|lia].
        destruct (Nat.ltb_spec r (S r)); [|lia].
        rewrite <- weight_pascal by lia.
        apply wrap64_small. unfold weight.
        destruct (_ && _); [apply choose_lt_2_64; lia|lia].
      + rewrite Hg' by assumption.
        destruct (Nat.ltb_spec m c); [reflexivity|].
        destruct (Nat.eqb_spec m c); [contradiction|reflexivity].
      + rewrite Hg' by assumption.
        rewrite Nat.ltb_irrefl, Nat.eqb_refl. cbn [andb].
        destruct (Nat.ltb_spec p r); destruct (Nat.ltb_spec p (S r));
          try reflexivity; lia.
      + rewrite Hg' by assumption.
        destruct (Nat.ltb_spec m c); [reflexivity|].
        destruct (Nat.eqb_spec m c); [contradiction|reflexivity]. }
  destruct G as [Gs Gg]. split; [exact Gs|].
  intros p m Hp Hm. rewrite Gg by assumption.
  destruct (Nat.ltb_spec m c); destruct (Nat.ltb_spec m (S c));
    try reflexivity; try lia.
  - assert (m = c) by lia. subst m. rewrite Nat.eqb_refl. cbn [andb].
    destruct (Nat.ltb_spec p (K - N + c + 1)); [reflexivity|].
    unfold weight.
    destruct (Nat.leb_spec p (K - N + c)); [lia|].
    rewrite andb_false_r. reflexivity.
  - destruct (Nat.eqb_spec m c); [lia|reflexivity].
Qed.

Lemma fill_vertex_weights_spec : forall K N,
  (N <= K)%nat -> (K <= 63)%nat ->
  forall p m, (p <= K)%nat -> (m <= N)%nat ->
    FockSpace.Matrixu_get (FockSpace.fill_vertex_weights K N) p m = weight K N p m.
Proof.
  intros K N HN HK. unfold FockSpace.fill_vertex_weights.
  assert (Hfirst : Z.to_nat (wrap64 (wrap64 (Z.of_nat K - Z.of_nat N) + 1))
                   = (K - N + 1)%nat).
  { rewrite (wrap64_small (Z.of_nat K - Z.of_nat N)) by lia.
    rewrite wrap64_small by lia. lia. }
  rewrite Hfirst.
  pose proof (fill_first_column K N HN) as H1.
  revert H1. generalize (for_range 0 (K - N + 1)
                           (fun p W => FockSpace.Matrixu_set W p 0 1)
                           (repeat (repeat 0 (N + 1)) (K + 1))).
  intros W1 H1.
  enough (G : column_filled K N (N + 1)
                (for_range 1 (N + 1) (fun m W =>
                   for_range m
                     (Z.to_nat (wrap64 (wrap64 (wrap64 (Z.of_nat K - Z.of_nat N)
                                                + Z.of_nat m) + 1)))
                     (fun p W0 => FockSpace.Matrixu_set W0 p m
                        (wrap64 (FockSpace.Matrixu_get W0 (p - 1) m
                                 + FockSpace.Matrixu_get W0 (p - 1) (m - 1)))) W) W1)).
  { destruct G as [_ Gg]. intros p m Hp Hm. rewrite Gg by assumption.
    destruct (Nat.ltb_spec m (N + 1)); [reflexivity|lia]. }
  apply (for_range_ind _ (column_filled K N)); [lia|exact H1|].
  intros c W Hc HW.
  assert (Hlast : Z.to_nat (wrap64 (wrap64 (wrap64 (Z.of_nat K - Z.of_nat N)
                                            + Z.of_nat c) + 1))
                  = (K - N + c + 1)%nat).
  { rewrite (wrap64_small (Z.of_nat K - Z.of_nat N)) by lia.
    rewrite (wrap64_small (Z.of_nat K - Z.of_nat N + Z.of_nat c)) by lia.
    rewrite wrap64_small by lia. lia. }
  rewrite Hlast. apply fill_next_column; try assumption. lia.
Qed.

(** ** Occupation lists and their representations *)

Lemma testbit_split : forall u k v i,
  0 <= u < 2 ^ k -> 0 <= k -> 0 <= i ->
  Z.testbit (u + 2 ^ k * v) i
  = if i <? k then Z.testbit u i else Z.testbit v (i - k).
Proof.
  intros u k v i Hu Hk Hi. destruct (Z.ltb_spec i k) as [Hlt|Hge].
  - rewrite <- (Z.mod_pow2_bits_low (u + 2 ^ k * v) k i) by lia.
    rewrite Z.mul_comm, Z_mod_plus_full, Z.mod_small by lia. reflexivity.
  - replace i with ((i - k) + k) at 1 by lia.
    rewrite <- Z.div_pow2_bits by lia.
    rewrite Z.mul_comm, Z.div_add by lia.
    rewrite Z.div_small by lia. reflexivity.
Qed.

Lemma testbit_pow2_mul : forall k v i,
  0 <= k -> 0 <= i ->
  Z.testbit (2 ^ k * v) i = if i <? k then false else Z.testbit v (i - k).
Proof.
  intros k v i Hk Hi.
  assert (Hpos : 0 < 2 ^ k) by (apply Z.pow_pos_nonneg; lia).
  replace (2 ^ k * v) with (0 + 2 ^ k * v) by lia.
  rewrite testbit_split by lia. rewrite Z.testbit_0_l. reflexivity.
Qed.

Lemma increasing_from_weaken : forall l lo lo',
  (lo' <= lo)%nat -> increasing_from lo l -> increasing_from lo' l.
Proof.
  intros [|p l] lo lo' Hle; cbn; [auto|]. intros [H1 H2]. split; [lia|exact H2].
Qed.

Lemma representation_of_multiple : forall l lo,
  increasing_from lo l ->
  exists h, 0 <= h /\ representation_of l = 2 ^ Z.of_nat lo * h.
Proof.
  induction l as [|p l IH]; intros lo Hl; cbn in *.
  - exists 0. lia.
  - destruct Hl as [Hp Hl]. destruct (IH (S p) Hl) as (h & Hh & Eh).
    rewrite Eh. exists (2 ^ Z.of_nat (p - lo) * (1 + 2 * h)). split.
    + assert (0 < 2 ^ Z.of_nat (p - lo)) by (apply Z.pow_pos_nonneg; lia). nia.
    + replace (Z.of_nat (S p)) with (Z.of_nat p + 1) by lia.
      replace (Z.of_nat p) with (Z.of_nat lo + Z.of_nat (p - lo)) by lia.
      rewrite !Z.pow_add_r by lia. ring.
Qed.

Lemma representation_of_range : forall l lo K,
  increasing_from lo l -> below K l ->
  0 <= representation_of l < 2 ^ Z.of_nat K.
Proof.
  induction l as [|p l IH]; intros lo K Hl Hb; cbn in *.
  - assert (0 < 2 ^ Z.of_nat K) by (apply Z.pow_pos_nonneg; lia). lia.
  - destruct Hl as [Hp Hl]. inversion Hb as [|? ? HpK Hb']; subst.
    destruct (representation_of_multiple l (S p) Hl) as (h & Hh & Eh).
    pose proof (IH (S p) K Hl Hb') as Hr. rewrite Eh in *.
    assert (Hpos : 0 < 2 ^ Z.of_nat p) by (apply Z.pow_pos_nonneg; lia).
    assert (Hq : 0 < 2 ^ Z.of_nat (K - p - 1)) by (apply Z.pow_pos_nonneg; lia).
    assert (E1 : 2 ^ Z.of_nat (S p) = 2 * 2 ^ Z.of_nat p).
    { rewrite Nat2Z.inj_succ, Z.pow_succ_r by lia. reflexivity. }
    assert (E2 : 2 ^ Z.of_nat K = 2 * 2 ^ Z.of_nat p * 2 ^ Z.of_nat (K - p - 1)).
    { rewrite <- E1, <- Z.pow_add_r by lia. f_equal. lia. }
    rewrite E1, E2 in *.
    set (A := 2 ^ Z.of_nat p) in *. set (Q := 2 ^ Z.of_nat (K - p - 1)) in *.
    assert (h < Q) by nia. nia.
Qed.

Lemma testbit_representation_of : forall l lo i,
  increasing_from lo l ->
  Z.testbit (representation_of l) (Z.of_nat i) = existsb (Nat.eqb i) l.
Proof.
  induction l as [|p l IH]; intros lo i Hl; cbn in *.
  - apply Z.testbit_0_l.
  - destruct Hl as [Hp Hl].
    destruct (representation_of_multiple l (S p) Hl) as (h & Hh & Eh).
    rewrite <- (IH (S p) i Hl). rewrite Eh.
    assert (Hpos : 0 < 2 ^ Z.of_nat p) by (apply Z.pow_pos_nonneg; lia).
    rewrite testbit_split; try lia.
    2:{ replace (Z.of_nat (S p)) with (Z.of_nat p + 1) by lia.
        rewrite Z.pow_add_r by lia. lia. }
    rewrite testbit_pow2_mul by lia.
    destruct (Z.ltb_spec (Z.of_nat i) (Z.of_nat (S p))) as [Hlt|Hge].
    + rewrite Z.pow2_bits_eqb by lia.
      destruct (Nat.eqb_spec i p); destruct (Z.eqb_spec (Z.of_nat p) (Z.of_nat i));
        try lia; reflexivity.
    + destruct (Nat.eqb_spec i p); [lia|]. reflexivity.
Qed.

Lemma existsb_eqb_below : forall l lo i,
  increasing_from lo l -> (i < lo)%nat -> existsb (Nat.eqb i) l = false.
Proof.
  induction l as [|p l IH]; intros lo i Hl Hi; cbn in *; [reflexivity|].
  destruct Hl as [Hp Hl]. destruct (Nat.eqb_spec i p); [lia|].
  apply (IH (S p)); [exact Hl|lia].
Qed.

Lemma filter_member_seq : forall l lo n,
  increasing_from lo l -> below (lo + n) l ->
  filter (fun i => existsb (Nat.eqb i) l) (seq lo n) = l.
Proof.
  induction l as [|p l IH]; intros lo n Hl Hb.
  - cbn. induction (seq lo n); cbn; auto.
  - cbn in Hl. destruct Hl as [Hp Hl]. inversion Hb as [|? ? HpK Hb']; subst.
    replace n with ((p - lo) + S (lo + n - p - 1))%nat by lia.
    rewrite seq_app, filter_app.
    replace (lo + (p - lo))%nat with p by lia. cbn [seq filter existsb].
    rewrite Nat.eqb_refl. cbn [orb].
    assert (G : forall k lo', (lo' + k <= p)%nat ->
               filter (fun i => existsb (Nat.eqb i) (p :: l)) (seq lo' k) = []).
    { induction k as [|k IHk]; intros lo' Hle; cbn [seq filter]; [reflexivity|].
      cbn [existsb]. destruct (Nat.eqb_spec lo' p); [lia|]. cbn [orb].
      rewrite (existsb_eqb_below l (S p) lo' Hl) by lia.
      apply IHk. lia. }
    rewrite G by lia. cbn [app]. f_equal.
    transitivity (filter (fun i => existsb (Nat.eqb i) l)
                         (seq (S p) (lo + n - p - 1))).
    + apply filter_ext_in. intros i Hi. apply in_seq in Hi.
      destruct (Nat.eqb_spec i p); [lia|reflexivity].
    + apply IH; [exact Hl|].
      replace (S p + (lo + n - p - 1))%nat with (lo + n)%nat by lia. exact Hb'.
Qed.

(** The occupied orbitals of a representation built from a list are the
    list. *)
Lemma updateOccupationIndices_representation_of : forall l,
  increasing_from 0 l -> below 64 l ->
  ONV.updateOccupationIndices (representation_of l) = l.
Proof.
  intros l Hl Hb. unfold ONV.updateOccupationIndices.
  transitivity (filter (fun i => existsb (Nat.eqb i) l) (seq 0 64)).
  - apply filter_ext. intros i. apply (testbit_representation_of l 0 i Hl).
  - apply (filter_member_seq l 0 64 Hl Hb).
Qed.

Lemma representation_of_app : forall l1 l2,
  representation_of (l1 ++ l2) = representation_of l1 + representation_of l2.
Proof.
  induction l1 as [|p l1 IH]; intros l2; cbn; [reflexivity|].
  rewrite IH. ring.
Qed.

Lemma representation_of_seq : forall n c,
  representation_of (seq c n) = 2 ^ Z.of_nat c * Z.ones (Z.of_nat n).
Proof.
  induction n as [|n IH]; intros c; cbn [seq representation_of].
  - cbn. ring.
  - rewrite IH. rewrite !Z.ones_equiv.
    rewrite !Nat2Z.inj_succ, !Z.pow_succ_r by lia. unfold Z.pred. ring.
Qed.

(** ** The next permutation of a bit pattern *)

Ltac split_comparisons :=
  repeat match goal with
         | |- context [?a <? ?b] => destruct (Z.ltb_spec a b)
         | |- context [?a =? ?b] => destruct (Z.eqb_spec a b)
         end.

Lemma pow2_pos : forall k, 0 <= k -> 0 < 2 ^ k.
Proof. intros k Hk. apply Z.pow_pos_nonneg; lia. Qed.

Lemma ones_range : forall n, 0 <= n -> 0 <= Z.ones n < 2 ^ n.
Proof.
  intros n Hn. rewrite Z.ones_equiv. pose proof (pow2_pos n Hn). lia.
Qed.

Lemma pow2_split : forall a b, 0 <= a -> 0 <= b -> 2 ^ (a + b) = 2 ^ a * 2 ^ b.
Proof. intros. apply Z.pow_add_r; assumption. Qed.

(** A block of n ones from bit c on. *)
Lemma testbit_block : forall c n i,
  0 <= c -> 0 <= n -> 0 <= i ->
  Z.testbit (2 ^ c * Z.ones n) i = (c <=? i) && (i <? c + n).
Proof.
  intros c n i Hc Hn Hi. rewrite testbit_pow2_mul by lia.
  destruct (Z.ltb_spec i c); destruct (Z.leb_spec c i); try lia; cbn [andb];
    try reflexivity.
  rewrite Z.testbit_ones_nonneg by lia.
  destruct (Z.ltb_spec (i - c) n); destruct (Z.ltb_spec i (c + n)); try lia;
    reflexivity.
Qed.

Section NextPermutation.

Variables c n h : Z.
Hypothesis Hc : 0 <= c.
Hypothesis Hn : 1 <= n.
Hypothesis Hh : 0 <= h.

Let k := c + n.
Let x := 2 ^ c * Z.ones n + 2 ^ (k + 1) * h.

Lemma block_range : 0 <= 2 ^ c * Z.ones n < 2 ^ (k + 1).
Proof.
  unfold k. pose proof (ones_range n ltac:(lia)). pose proof (pow2_pos c Hc).
  replace (c + n + 1) with (c + (n + 1)) by lia.
  rewrite (pow2_split c (n + 1)) by lia.
  rewrite (pow2_split n 1) by lia. change (2 ^ 1) with 2. nia.
Qed.

Lemma testbit_x : forall i, 0 <= i ->
  Z.testbit x i
  = if i <? k + 1 then (c <=? i) && (i <? k) else Z.testbit h (i - (k + 1)).
Proof.
  intros i Hi. unfold x. rewrite testbit_split by (try apply block_range; unfold k; lia).
  rewrite testbit_block by lia. reflexivity.
Qed.

Lemma x_pred : x - 1 = (Z.ones c + 2 ^ (c + 1) * Z.ones (n - 1)) + 2 ^ (k + 1) * h.
Proof.
  unfold x. rewrite !Z.ones_equiv. unfold Z.pred.
  replace n with (1 + (n - 1)) at 1 by lia.
  rewrite (pow2_split 1 (n - 1)), (pow2_split c 1) by lia.
  change (2 ^ 1) with 2. ring.
Qed.

Lemma pred_block_range :
  0 <= Z.ones c + 2 ^ (c + 1) * Z.ones (n - 1) < 2 ^ (k + 1).
Proof.
  pose proof block_range as Hb. pose proof x_pred as Hx. unfold x in Hx.
  pose proof (ones_range c Hc). pose proof (ones_range (n - 1) ltac:(lia)).
  pose proof (pow2_pos (c + 1) ltac:(lia)).
  split; [nia|]. lia.
Qed.

Lemma testbit_x_pred : forall i, 0 <= i ->
  Z.testbit (x - 1) i
  = if i <? k + 1 then (i <? c) || ((c + 1 <=? i) && (i <? k))
    else Z.testbit h (i - (k + 1)).
Proof.
  intros i Hi. rewrite x_pred.
  rewrite testbit_split by (try apply pred_block_range; unfold k; lia).
  destruct (Z.ltb_spec i (k + 1)); [|reflexivity].
  assert (Hoc : 0 <= Z.ones c < 2 ^ (c + 1)).
  { pose proof (ones_range c Hc). rewrite (pow2_split c 1) by lia.
    change (2 ^ 1) with 2. lia. }
  rewrite testbit_split by lia.
  destruct (Z.ltb_spec i (c + 1)).
  - rewrite Z.testbit_ones_nonneg by lia.
    destruct (Z.ltb_spec i c); destruct (Z.leb_spec (c + 1) i); try lia;
      cbn; reflexivity.
  - rewrite Z.testbit_ones_nonneg by lia.
    destruct (Z.ltb_spec i c); destruct (Z.leb_spec (c + 1) i); try lia;
      cbn [orb andb]; unfold k in *;
      destruct (Z.ltb_spec (i - (c + 1)) (n - 1)); destruct (Z.ltb_spec i (c + n));
      try lia; reflexivity.
Qed.

Let t := Z.ones k + 2 ^ (k + 1) * h.

Lemma testbit_t : forall i, 0 <= i ->
  Z.testbit t i = if i <? k + 1 then i <? k else Z.testbit h (i - (k + 1)).
Proof.
  intros i Hi. unfold t.
  assert (Hk : 0 <= k) by (unfold k; lia).
  pose proof (ones_range k Hk). pose proof (pow2_pos k Hk).
  rewrite testbit_split; try lia.
  2:{ rewrite (pow2_split k 1) by lia. change (2 ^ 1) with 2. lia. }
  destruct (Z.ltb_spec i (k + 1)); [|reflexivity].
  apply Z.testbit_ones_nonneg; lia.
Qed.

Lemma lor_x_pred : Z.lor x (x - 1) = t.
Proof.
  apply Z.bits_inj'. intros i Hi.
  rewrite Z.lor_spec, testbit_x, testbit_x_pred, testbit_t by lia.
  destruct (Z.ltb_spec i (k + 1)); [|apply orb_diag].
  destruct (Z.leb_spec c i); destruct (Z.ltb_spec i k); destruct (Z.ltb_spec i c);
    destruct (Z.leb_spec (c + 1) i); try lia; try reflexivity;
    unfold k in *; lia.
Qed.

Lemma t_succ : t + 1 = 2 ^ k * (1 + 2 * h).
Proof.
  unfold t. rewrite Z.ones_equiv. unfold Z.pred.
  assert (Hk : 0 <= k) by (unfold k; lia).
  rewrite (pow2_split k 1) by lia. change (2 ^ 1) with 2. ring.
Qed.

Lemma testbit_t_succ : forall i, 0 <= i ->
  Z.testbit (t + 1) i
  = if i <? k + 1 then k =? i else Z.testbit h (i - (k + 1)).
Proof.
  intros i Hi.
  assert (Hk : 0 <= k) by (unfold k; lia).
  replace (t + 1) with (2 ^ k + 2 ^ (k + 1) * h).
  2:{ rewrite t_succ. rewrite (pow2_split k 1) by lia. change (2 ^ 1) with 2. ring. }
  pose proof (pow2_pos k Hk).
  rewrite testbit_split; try lia.
  2:{ rewrite (pow2_split k 1) by lia. change (2 ^ 1) with 2. lia. }
  destruct (Z.ltb_spec i (k + 1)); [|reflexivity].
  apply Z.pow2_bits_eqb. lia.
Qed.

Hypothesis Hk64 : k < 64.

Lemma testbit_not64 : forall a i, 0 <= i ->
  Z.testbit (not64 a) i = (i <? 64) && negb (Z.testbit a i).
Proof.
  intros a i Hi. unfold not64, wrap64.
  destruct (Z.ltb_spec i 64).
  - rewrite Z.mod_pow2_bits_low by lia. rewrite Z.lnot_spec by lia. reflexivity.
  - rewrite Z.mod_pow2_bits_high by lia. reflexivity.
Qed.

Lemma land_not_t : Z.land (not64 t) (t + 1) = 2 ^ k.
Proof.
  assert (Hk : 0 <= k) by (unfold k; lia).
  apply Z.bits_inj'. intros i Hi.
  rewrite Z.land_spec, testbit_not64, testbit_t, testbit_t_succ by lia.
  rewrite Z.pow2_bits_eqb by lia.
  destruct (Z.ltb_spec i 64); destruct (Z.ltb_spec i (k + 1));
    destruct (Z.ltb_spec i k); destruct (Z.eqb_spec k i); cbn; try lia;
    try reflexivity; destruct (Z.testbit h (i - (k + 1))); reflexivity.
Qed.

Lemma shiftr_ones : Z.shiftr (Z.ones k) (c + 1) = Z.ones (n - 1).
Proof.
  assert (Hk : 0 <= k) by (unfold k; lia).
  apply Z.bits_inj'. intros i Hi.
  rewrite Z.shiftr_spec by lia. rewrite !Z.testbit_ones_nonneg by lia.
  unfold k. destruct (Z.ltb_spec (i + (c + 1)) (c + n));
    destruct (Z.ltb_spec i (n - 1)); try lia; reflexivity.
Qed.

Lemma lor_next : Z.lor (t + 1) (Z.ones (n - 1)) = Z.ones (n - 1) + 2 ^ k * (1 + 2 * h).
Proof.
  assert (Hk : 0 <= k) by (unfold k; lia).
  apply Z.bits_inj'. intros i Hi.
  pose proof (ones_range (n - 1) ltac:(lia)).
  assert (2 ^ (n - 1) <= 2 ^ k) by (apply Z.pow_le_mono_r; unfold k; lia).
  rewrite Z.lor_spec, t_succ, testbit_split by lia.
  rewrite testbit_pow2_mul by lia. rewrite Z.testbit_ones_nonneg by lia.
  destruct (Z.ltb_spec i k); destruct (Z.ltb_spec i (n - 1)); try reflexivity.
  - unfold k in *. lia.
  - apply orb_false_r.
Qed.

Hypothesis Hx64 : 2 ^ k * (1 + 2 * h) < 2 ^ 64.

Lemma next_closed_form :
  builtin_ctzl x = Z.to_nat c ->
  FockSpace.ulongNextPermutation x
  = Z.ones (n - 1) + 2 ^ k * (1 + 2 * h).
Proof.
  intros Hctz. unfold FockSpace.ulongNextPermutation.
  assert (Hk : 0 <= k) by (unfold k; lia).
  pose proof (pow2_pos k Hk) as Hpk.
  pose proof (pow2_pos c Hc) as Hpc.
  pose proof (pow2_pos (k + 1) ltac:(lia)) as Hpk1.
  assert (Hblock : 2 ^ c * Z.ones n = 2 ^ k - 2 ^ c).
  { unfold k. rewrite Z.ones_equiv, (pow2_split c n) by lia. unfold Z.pred. ring. }
  assert (Hn2 : 2 <= 2 ^ n).
  { assert (2 ^ 1 <= 2 ^ n) by (apply Z.pow_le_mono_r; lia).
    change (2 ^ 1) with 2 in *. lia. }
  assert (Hkc : 2 * 2 ^ c <= 2 ^ k).
  { unfold k. rewrite (pow2_split c n) by lia. nia. }
  assert (Hx1 : 1 <= x) by (unfold x; rewrite Hblock; nia).
  assert (Hxt : x < t + 1).
  { unfold x, t. rewrite Hblock, Z.ones_equiv. unfold Z.pred. lia. }
  assert (Ht64 : 0 <= t + 1 < 2 ^ 64) by (rewrite t_succ; split; [nia|exact Hx64]).
  rewrite (wrap64_small (x - 1)) by lia.
  rewrite lor_x_pred.
  rewrite (wrap64_small (t + 1)) by lia.
  rewrite land_not_t.
  rewrite (wrap64_small (2 ^ k - 1)).
  2:{ assert (2 ^ k <= 2 ^ 63) by (apply Z.pow_le_mono_r; lia). lia. }
  replace (2 ^ k - 1) with (Z.ones k) by (rewrite Z.ones_equiv; reflexivity).
  rewrite Hctz, Z2Nat.id by lia.
  rewrite shiftr_ones. apply lor_next.
Qed.

End NextPermutation.

(** ** The next permutation on occupation lists *)

Lemma builtin_ctzl_double : forall z, 0 < z -> builtin_ctzl (2 * z) = S (builtin_ctzl z).
Proof. intros [|q|q] Hz; try lia. reflexivity. Qed.

Lemma builtin_ctzl_odd_multiple : forall (c : nat) (m : Z),
  0 <= m -> builtin_ctzl (2 ^ Z.of_nat c * (1 + 2 * m)) = c.
Proof.
  induction c as [|c IH]; intros m Hm.
  - change (2 ^ Z.of_nat 0) with 1. rewrite Z.mul_1_l.
    destruct m as [|q|q]; try lia; reflexivity.
  - rewrite Nat2Z.inj_succ, Z.pow_succ_r by lia.
    rewrite <- Z.mul_assoc, builtin_ctzl_double.
    + rewrite IH by exact Hm. reflexivity.
    + pose proof (pow2_pos (Z.of_nat c) ltac:(lia)). nia.
Qed.

Lemma increasing_from_seq : forall n c lo,
  (lo <= c)%nat -> increasing_from lo (seq c n).
Proof.
  induction n as [|n IH]; intros c lo Hlo; cbn; [exact I|].
  split; [exact Hlo|]. apply IH. lia.
Qed.

Lemma increasing_from_app : forall l1 l2 lo mid,
  increasing_from lo l1 -> below mid l1 -> (lo <= mid)%nat ->
  increasing_from mid l2 ->
  increasing_from lo (l1 ++ l2).
Proof.
  induction l1 as [|p l1 IH]; intros l2 lo mid H1 Hb Hle H2; cbn in *.
  - apply (increasing_from_weaken l2 mid lo Hle H2).
  - destruct H1 as [Hp H1]. inversion Hb as [|? ? Hpm Hb']; subst.
    split; [exact Hp|]. apply (IH l2 (S p) mid); auto.
Qed.

Lemma below_seq : forall n c K, (c + n <= K)%nat -> below K (seq c n).
Proof.
  intros n c K H. apply Forall_forall. intros p Hp. apply in_seq in Hp. lia.
Qed.

Lemma below_app : forall K l1 l2, below K l1 -> below K l2 -> below K (l1 ++ l2).
Proof. intros K l1 l2 H1 H2. apply Forall_app. split; assumption. Qed.

Lemma below_weaken : forall K K' l, (K <= K')%nat -> below K l -> below K' l.
Proof.
  intros K K' l Hle Hb. eapply Forall_impl; [|exact Hb]. cbn. intros. lia.
Qed.

(** The bit trick of [ulongNextPermutation] on lists of occupied orbitals:
    the lowest run of n occupied orbitals, from c on, is replaced by the
    orbitals 0 .. n-2 and the orbital c+n. *)
Lemma ulongNextPermutation_representation_of : forall c n rest,
  (1 <= n)%nat -> (c + n < 64)%nat ->
  increasing_from (c + n + 1) rest -> below 64 rest ->
  FockSpace.ulongNextPermutation (representation_of (seq c n ++ rest))
  = representation_of (seq 0 (n - 1) ++ (c + n)%nat :: rest).
Proof.
  intros c n rest Hn Hcn Hrest Hb.
  destruct (representation_of_multiple rest (c + n + 1) Hrest) as (h & Hh & Eh).
  assert (Hr : 0 <= representation_of ((c + n)%nat :: rest) < 2 ^ Z.of_nat 64).
  { apply (representation_of_range _ (c + n)).
    - cbn. split; [lia|]. replace (S (c + n)) with (c + n + 1)%nat by lia. exact Hrest.
    - constructor; [lia|exact Hb]. }
  rewrite !representation_of_app, !representation_of_seq.
  cbn [representation_of] in *. rewrite Eh in *.
  replace (Z.of_nat (c + n + 1)) with (Z.of_nat c + Z.of_nat n + 1) in * by lia.
  replace (Z.of_nat (c + n)) with (Z.of_nat c + Z.of_nat n) in * by lia.
  replace (Z.of_nat (n - 1)) with (Z.of_nat n - 1) by lia.
  assert (E : 2 ^ (Z.of_nat c + Z.of_nat n) + 2 ^ (Z.of_nat c + Z.of_nat n + 1) * h
              = 2 ^ (Z.of_nat c + Z.of_nat n) * (1 + 2 * h)).
  { rewrite (pow2_split (Z.of_nat c + Z.of_nat n) 1) by lia. change (2 ^ 1) with 2. ring. }
  assert (Hctz : builtin_ctzl (2 ^ Z.of_nat c * Z.ones (Z.of_nat n)
                              + 2 ^ (Z.of_nat c + Z.of_nat n + 1) * h)
                 = Z.to_nat (Z.of_nat c)).
  { rewrite Nat2Z.id.
    replace (2 ^ Z.of_nat c * Z.ones (Z.of_nat n)
             + 2 ^ (Z.of_nat c + Z.of_nat n + 1) * h)
      with (2 ^ Z.of_nat c
            * (1 + 2 * (Z.ones (Z.of_nat n - 1) + 2 ^ Z.of_nat n * h))).
    + apply builtin_ctzl_odd_multiple.
      pose proof (ones_range (Z.of_nat n - 1) ltac:(lia)).
      pose proof (pow2_pos (Z.of_nat n) ltac:(lia)). nia.
    + assert (En : 2 ^ Z.of_nat n = 2 * 2 ^ (Z.of_nat n - 1)).
      { rewrite <- Z.pow_succ_r by lia. f_equal. lia. }
      assert (Ek : 2 ^ (Z.of_nat c + Z.of_nat n + 1)
                   = 2 ^ Z.of_nat c * (2 * 2 ^ Z.of_nat n)).
      { rewrite <- Z.pow_succ_r, <- Z.pow_add_r by lia. f_equal. lia. }
      rewrite !Z.ones_equiv, Ek. unfold Z.pred. rewrite En. ring. }
  assert (Hx64 : 2 ^ (Z.of_nat c + Z.of_nat n) * (1 + 2 * h) < 2 ^ 64).
  { rewrite <- E. change (Z.of_nat 64) with 64 in Hr. lia. }
  rewrite (next_closed_form (Z.of_nat c) (Z.of_nat n) h
             ltac:(lia) ltac:(lia) Hh ltac:(lia) Hx64 Hctz).
  change (2 ^ Z.of_nat 0) with 1. rewrite E. ring.
Qed.

Lemma lor_disjoint : forall u k v,
  0 <= u < 2 ^ k -> 0 <= k ->
  Z.lor u (2 ^ k * v) = u + 2 ^ k * v.
Proof.
  intros u k v Hu Hk. apply Z.bits_inj'. intros i Hi.
  rewrite Z.lor_spec, testbit_split, testbit_pow2_mul by lia.
  destruct (Z.ltb_spec i k); [apply orb_false_r|].
  rewrite <- (Z.mod_small u (2 ^ k)) by lia.
  rewrite Z.mod_pow2_bits_high by lia. reflexivity.
Qed.

Lemma int_one_shl_small : forall c,
  (c <= 30)%nat -> size_t_of_int (int_one_shl c) = 2 ^ Z.of_nat c.
Proof.
  intros c Hc. unfold size_t_of_int, int_one_shl, signed32, wrap32.
  rewrite (Z.mod_small (Z.of_nat c)) by lia.
  rewrite Z.shiftl_1_l.
  assert (H1 : 0 < 2 ^ Z.of_nat c) by (apply pow2_pos; lia).
  assert (H2 : 2 ^ Z.of_nat c <= 2 ^ 30) by (apply Z.pow_le_mono_r; lia).
  rewrite (Z.mod_small (2 ^ Z.of_nat c)) by lia.
  destruct (Z.ltb_spec (2 ^ Z.of_nat c) (2 ^ 31)); [|lia].
  apply wrap64_small. lia.
Qed.

(** ** Addresses of occupation lists *)

Lemma rank_nonneg : forall l e, 0 <= rank e l.
Proof.
  induction l as [|p l IH]; intros e; cbn; [lia|].
  pose proof (choose_nonneg p (S e)). pose proof (IH (S e)). lia.
Qed.

Lemma rank_app : forall l1 l2 e,
  rank e (l1 ++ l2) = rank e l1 + rank (e + length l1) l2.
Proof.
  induction l1 as [|p l1 IH]; intros l2 e; cbn.
  - rewrite Nat.add_0_r. reflexivity.
  - rewrite IH. replace (S e + length l1)%nat with (e + S (length l1))%nat by lia.
    ring.
Qed.

Lemma rank_seq : forall n c e,
  rank e (seq c n) = choose (c + n) (e + n) - choose c e.
Proof.
  induction n as [|n IH]; intros c e; cbn [seq rank].
  - rewrite !Nat.add_0_r. ring.
  - rewrite IH, choose_S_S.
    replace (S c + n)%nat with (c + S n)%nat by lia.
    replace (S e + n)%nat with (e + S n)%nat by lia. ring.
Qed.

(** The weights of electrons above e that sit below orbital K add up to less
    than the weight of orbital K: the key to the addressing scheme. *)
Lemma rank_bound : forall l e lo X K,
  increasing_from lo l -> below K l -> (lo <= K)%nat ->
  X <= choose lo e - 1 ->
  X + rank e l <= choose K (e + length l) - 1.
Proof.
  induction l as [|p l IH]; intros e lo X K Hl Hb HK HX; cbn [rank length].
  - rewrite Nat.add_0_r. pose proof (choose_mono lo K e HK). lia.
  - cbn in Hl. destruct Hl as [Hp Hl]. inversion Hb as [|? ? HpK Hb']; subst.
    replace (e + S (length l))%nat with (S e + length l)%nat by lia.
    rewrite Z.add_assoc. apply (IH (S e) (S p)); try assumption; try lia.
    rewrite choose_S_S. pose proof (choose_mono lo p e Hp). lia.
Qed.

Lemma rank_lt_choose : forall l e K,
  increasing_from e l -> below K l -> (e <= K)%nat ->
  rank e l < choose K (e + length l).
Proof.
  intros l e K Hl Hb HK.
  pose proof (rank_bound l e e 0 K Hl Hb HK) as H.
  rewrite choose_diag in H. lia.
Qed.

(** Every non-empty occupation list starts with a run of consecutive
    orbitals, followed by a gap. *)
Lemma lowest_run : forall l lo,
  l <> [] -> increasing_from lo l ->
  exists c n rest,
    l = seq c n ++ rest /\ (1 <= n)%nat /\ (lo <= c)%nat
    /\ increasing_from (c + n + 1) rest.
Proof.
  induction l as [|p l IH]; intros lo Hne Hl; [contradiction|].
  cbn in Hl. destruct Hl as [Hp Hl].
  destruct l as [|q l'].
  - exists p, 1%nat, []. split; [reflexivity|]. split; [lia|]. split; [exact Hp|].
    exact I.
  - destruct (Nat.eq_dec q (S p)) as [Hq|Hq].
    + destruct (IH (S p) ltac:(discriminate) Hl) as (c & n & rest & E & Hn & Hc & Hr).
      assert (c = S p).
      { destruct n as [|n]; [lia|]. cbn in E. inversion E. lia. }
      subst c. exists p, (S n), rest. cbn [seq app]. rewrite E.
      split; [reflexivity|]. split; [lia|]. split; [exact Hp|].
      replace (p + S n + 1)%nat with (S p + n + 1)%nat by lia. exact Hr.
    + exists p, 1%nat, (q :: l'). cbn [seq app].
      split; [reflexivity|]. split; [lia|]. split; [exact Hp|].
      cbn in Hl. destruct Hl as [Hq' Hl]. cbn. split; [lia|exact Hl].
Qed.

Lemma rank_next_occupation : forall c n rest,
  (1 <= n)%nat ->
  rank 0 (next_occupation c n rest) = rank 0 (seq c n ++ rest) + 1.
Proof.
  intros c n rest Hn. unfold next_occupation.
  rewrite !rank_app, !rank_seq, !length_seq. cbn [rank Nat.add].
  replace (S (n - 1)) with n by lia.
  rewrite !choose_n_0, choose_diag. ring.
Qed.

Lemma next_occupation_increasing : forall c n rest,
  (1 <= n)%nat -> increasing_from (c + n + 1) rest ->
  increasing_from 0 (next_occupation c n rest).
Proof.
  intros c n rest Hn Hr. unfold next_occupation.
  apply (increasing_from_app _ _ 0 (n - 1)).
  - apply increasing_from_seq. lia.
  - apply below_seq. lia.
  - lia.
  - cbn. split; [lia|]. replace (S (c + n)) with (c + n + 1)%nat by lia. exact Hr.
Qed.

Lemma below_app_inv : forall K l1 l2, below K (l1 ++ l2) -> below K l1 /\ below K l2.
Proof. intros K l1 l2 H. apply Forall_app in H. exact H. Qed.

Lemma increasing_from_hd_bound : forall l lo K,
  increasing_from lo l -> below K l -> l <> [] -> (lo < K)%nat.
Proof.
  intros [|p l] lo K Hl Hb Hne; [contradiction|].
  cbn in Hl. inversion Hb; subst. lia.
Qed.

(** Unless the address is the last one, the run found by [lowest_run] does
    not touch the top orbital. *)
Lemma not_last_has_room : forall c n rest K,
  (1 <= n)%nat -> increasing_from (c + n + 1) rest ->
  below K (seq c n ++ rest) ->
  rank 0 (seq c n ++ rest) < choose K (length (seq c n ++ rest)) - 1 ->
  (c + n < K)%nat.
Proof.
  intros c n rest K Hn Hr Hb Hrank.
  destruct (below_app_inv _ _ _ Hb) as [Hb1 Hb2].
  destruct rest as [|q rest'].
  - rewrite app_nil_r in *. rewrite rank_seq, length_seq in Hrank.
    rewrite Nat.add_0_l, choose_n_0 in Hrank.
    assert (c + n <= K)%nat.
    { assert (Hin : In (c + n - 1)%nat (seq c n)) by (apply in_seq; lia).
      unfold below in Hb1. rewrite Forall_forall in Hb1.
      specialize (Hb1 _ Hin). lia. }
    destruct (Nat.eq_dec (c + n) K) as [E|E]; [|lia].
    pose proof (choose_mono (c + n) K n ltac:(lia)).
    subst K. lia.
  - pose proof (increasing_from_hd_bound _ _ _ Hr Hb2 ltac:(discriminate)). lia.
Qed.

Lemma next_occupation_below : forall c n rest K,
  (1 <= n)%nat -> (c + n < K)%nat -> below K (seq c n ++ rest) ->
  below K (next_occupation c n rest).
Proof.
  intros c n rest K Hn HK Hb. destruct (below_app_inv _ _ _ Hb) as [Hb1 Hb2].
  unfold next_occupation. apply below_app.
  - apply below_seq. lia.
  - constructor; [exact HK|exact Hb2].
Qed.

Lemma next_occupation_length : forall c n rest,
  (1 <= n)%nat -> length (next_occupation c n rest) = length (seq c n ++ rest).
Proof.
  intros c n rest Hn. unfold next_occupation.
  rewrite !length_app, !length_seq. cbn [length]. lia.
Qed.

(** ** ONVs of a constructed Fock space *)

Lemma constructed_well_formed : forall K N fs,
  (N <= K)%nat -> (K <= 54)%nat -> (N <= 31)%nat ->
  FockSpace.FockSpace K N = Ok fs ->
  well_formed fs /\ FockSpace.K fs = K /\ FockSpace.N fs = N.
Proof.
  intros K N fs HN HK HN31. unfold FockSpace.FockSpace.
  rewrite (calculateDimension_exact K N HN HK). cbn [bind].
  intros [= <-]. unfold well_formed.
  cbn [FockSpace.K FockSpace.N FockSpace.dim FockSpace.vertex_weights].
  repeat split; lia || reflexivity.
Qed.

Lemma get_vertex_weights_choose : forall fs p m,
  well_formed fs ->
  (p <= FockSpace.K fs)%nat -> (m <= FockSpace.N fs)%nat ->
  (p <= FockSpace.K fs - FockSpace.N fs + m)%nat ->
  FockSpace.get_vertex_weights fs p m = choose p m.
Proof.
  intros fs p m (HN & HK & _ & _ & HW) Hp Hm Hr.
  unfold FockSpace.get_vertex_weights. rewrite HW.
  rewrite fill_vertex_weights_spec by assumption. unfold weight.
  destruct (Nat.leb_spec m p); destruct (Nat.leb_spec p (FockSpace.K fs - FockSpace.N fs + m));
    cbn [andb]; try lia; try reflexivity.
  symmetry. apply choose_above. lia.
Qed.

Lemma increasing_from_room : forall l lo K,
  increasing_from lo l -> below K l -> l <> [] -> (lo + length l <= K)%nat.
Proof.
  induction l as [|p l IH]; intros lo K Hl Hb Hne; [contradiction|].
  cbn in Hl. destruct Hl as [Hp Hl]. inversion Hb as [|? ? HpK Hb']; subst.
  cbn [length]. destruct l as [|q l'].
  - cbn. lia.
  - specialize (IH (S p) K Hl Hb' ltac:(discriminate)). lia.
Qed.

(** Address 0: the loop of [calculateRepresentation] first passes the
    orbitals from K - 1 down to N, whose weights are positive. *)
Lemma calculateRepresentation_skip : forall fs d,
  well_formed fs -> (1 <= FockSpace.N fs)%nat ->
  (FockSpace.N fs + d <= FockSpace.K fs)%nat ->
  FockSpace.calculateRepresentation_loop (FockSpace.N fs + d) fs 0 0 (FockSpace.N fs)
  = FockSpace.calculateRepresentation_loop (FockSpace.N fs) fs 0 0 (FockSpace.N fs).
Proof.
  intros fs d Hwf HN1. induction d as [|d IH]; intros Hd.
  - rewrite Nat.add_0_r. reflexivity.
  - rewrite Nat.add_succ_r. cbn [FockSpace.calculateRepresentation_loop].
    rewrite get_vertex_weights_choose by (try assumption; lia).
    pose proof (choose_pos (FockSpace.N fs + d) (FockSpace.N fs) ltac:(lia)).
    destruct (Z.leb_spec (choose (FockSpace.N fs + d) (FockSpace.N fs)) 0); [lia|].
    apply IH. lia.
Qed.

(** Then it occupies the orbitals N - 1 down to 0, whose weights are 0. *)
Lemma calculateRepresentation_fill : forall fs m v,
  well_formed fs -> (1 <= m <= FockSpace.N fs)%nat -> 0 <= v ->
  FockSpace.calculateRepresentation_loop m fs 0 (2 ^ Z.of_nat m * v) m
  = 2 ^ Z.of_nat m * v + Z.ones (Z.of_nat m).
Proof.
  intros fs m v Hwf. revert v. induction m as [|m IH]; intros v Hm Hv; [lia|].
  destruct Hwf as (HN & HK & HN31 & Hdim & HW).
  cbn [FockSpace.calculateRepresentation_loop].
  rewrite get_vertex_weights_choose by (unfold well_formed; auto; lia).
  rewrite choose_above by lia.
  change (0 <=? 0) with true. cbv iota.
  change (wrap64 (0 - 0)) with 0.
  rewrite int_one_shl_small by lia.
  replace (S m - 1)%nat with m by lia.
  assert (Hpm : 0 < 2 ^ Z.of_nat m) by (apply pow2_pos; lia).
  assert (E : Z.lor (2 ^ Z.of_nat (S m) * v) (2 ^ Z.of_nat m)
              = 2 ^ Z.of_nat m * (1 + 2 * v)).
  { rewrite Z.lor_comm, lor_disjoint.
    - rewrite Nat2Z.inj_succ, Z.pow_succ_r by lia. ring.
    - rewrite Nat2Z.inj_succ, Z.pow_succ_r by lia. lia.
    - lia. }
  rewrite E.
  assert (Eo : Z.ones (Z.of_nat (S m)) = 2 ^ Z.of_nat m + Z.ones (Z.of_nat m)).
  { rewrite !Z.ones_equiv, Nat2Z.inj_succ, Z.pow_succ_r by lia. lia. }
  destruct (Nat.eqb_spec m 0) as [->|Hm0].
  - change (2 ^ Z.of_nat 0) with 1. change (Z.of_nat 1) with 1.
    change (Z.ones 1) with 1. change (2 ^ 1) with 2. lia.
  - rewrite IH by (try lia).
    rewrite Eo, Nat2Z.inj_succ, Z.pow_succ_r by lia. ring.
Qed.

Lemma calculateRepresentation_0 : forall fs,
  well_formed fs ->
  FockSpace.calculateRepresentation fs 0
  = representation_of (seq 0 (FockSpace.N fs)).
Proof.
  intros fs Hwf. unfold FockSpace.calculateRepresentation.
  rewrite representation_of_seq. change (2 ^ Z.of_nat 0) with 1.
  destruct (Nat.eqb_spec (FockSpace.N fs) 0) as [E|E].
  - rewrite E. reflexivity.
  - pose proof Hwf as (HN & _).
    replace (FockSpace.K fs)
      with (FockSpace.N fs + (FockSpace.K fs - FockSpace.N fs))%nat at 1 by lia.
    rewrite calculateRepresentation_skip by (try assumption; lia).
    pose proof (calculateRepresentation_fill fs (FockSpace.N fs) 0 Hwf
                  ltac:(lia) ltac:(lia)) as H.
    rewrite Z.mul_0_r in H. rewrite H. lia.
Qed.

Lemma first_occupation : forall fs,
  well_formed fs -> occupation fs (seq 0 (FockSpace.N fs)).
Proof.
  intros fs (HN & _). repeat split.
  - apply increasing_from_seq. lia.
  - apply below_seq. lia.
  - apply length_seq.
Qed.

Lemma occupation_below_64 : forall fs l,
  well_formed fs -> occupation fs l -> below 64 l.
Proof.
  intros fs l (_ & HK & _) (_ & Hb & _).
  apply (below_weaken (FockSpace.K fs)); [lia|exact Hb].
Qed.

(** [makeONV(0)] is the ONV with the N lowest orbitals occupied. *)
Lemma makeONV_0 : forall fs,
  well_formed fs ->
  FockSpace.makeONV fs 0 = onv_of fs (seq 0 (FockSpace.N fs)).
Proof.
  intros fs Hwf. unfold FockSpace.makeONV, ONV.make, onv_of.
  rewrite calculateRepresentation_0 by exact Hwf.
  rewrite updateOccupationIndices_representation_of.
  - reflexivity.
  - apply first_occupation. exact Hwf.
  - apply (occupation_below_64 fs); [exact Hwf|apply first_occupation; exact Hwf].
Qed.

(** [setNextONV] moves from an occupation list to the next one. *)
Lemma setNextONV_onv_of : forall fs c n rest,
  well_formed fs -> (1 <= n)%nat -> (c + n < FockSpace.K fs)%nat ->
  increasing_from (c + n + 1) rest ->
  occupation fs (seq c n ++ rest) ->
  FockSpace.setNextONV fs (onv_of fs (seq c n ++ rest))
  = onv_of fs (next_occupation c n rest)
  /\ occupation fs (next_occupation c n rest).
Proof.
  intros fs c n rest Hwf Hn Hcn Hrest Hocc.
  pose proof Hwf as (HN & HK & _).
  pose proof Hocc as (Hinc & Hb & Hlen).
  assert (Hocc' : occupation fs (next_occupation c n rest)).
  { repeat split.
    - apply next_occupation_increasing; assumption.
    - apply next_occupation_below; assumption.
    - rewrite next_occupation_length by exact Hn. exact Hlen. }
  split; [|exact Hocc'].
  unfold FockSpace.setNextONV, ONV.set_representation, onv_of.
  cbn [ONV.unsigned_representation ONV.K ONV.N].
  destruct (below_app_inv _ _ _ (occupation_below_64 fs _ Hwf Hocc)) as [_ Hb64].
  rewrite ulongNextPermutation_representation_of by (try assumption; lia).
  fold (next_occupation c n rest).
  rewrite updateOccupationIndices_representation_of.
  - reflexivity.
  - apply Hocc'.
  - apply (occupation_below_64 fs); assumption.
Qed.

(** ** The couplings of an ONV *)

Lemma wrap64_add_l : forall a b, wrap64 (wrap64 a + b) = wrap64 (a + b).
Proof. intros a b. unfold wrap64. apply Z.add_mod_idemp_l. lia. Qed.

Lemma wrap64_add_r : forall a b, wrap64 (a + wrap64 b) = wrap64 (a + b).
Proof. intros a b. unfold wrap64. apply Z.add_mod_idemp_r. lia. Qed.

Lemma increasing_from_prefix : forall l1 l2 lo,
  increasing_from lo (l1 ++ l2) -> increasing_from lo l1.
Proof.
  induction l1 as [|a l1 IH]; intros l2 lo H; cbn in *; [exact I|].
  destruct H as [Ha H]. split; [exact Ha|]. apply (IH l2). exact H.
Qed.

Lemma increasing_from_suffix : forall l1 l2 lo,
  increasing_from lo (l1 ++ l2) -> increasing_from (lo + length l1) l2.
Proof.
  induction l1 as [|a l1 IH]; intros l2 lo H; cbn in *.
  - rewrite Nat.add_0_r. exact H.
  - destruct H as [Ha H]. apply IH in H.
    apply (increasing_from_weaken l2 (S a + length l1)); [lia|exact H].
Qed.

Lemma increasing_from_remove : forall l1 p l2 lo,
  increasing_from lo (l1 ++ p :: l2) -> increasing_from lo (l1 ++ l2).
Proof.
  induction l1 as [|a l1 IH]; intros p l2 lo H; cbn in *.
  - destruct H as [Hp H]. apply (increasing_from_weaken l2 (S p)); [lia|exact H].
  - destruct H as [Ha H]. split; [exact Ha|]. apply (IH p). exact H.
Qed.

Lemma increasing_from_middle : forall l1 p l2 lo,
  increasing_from lo (l1 ++ p :: l2) -> (lo <= p)%nat /\ below p l1.
Proof.
  induction l1 as [|a l1 IH]; intros p l2 lo H; cbn in *.
  - destruct H as [Hp _]. split; [exact Hp|constructor].
  - destruct H as [Ha H]. destruct (IH p l2 (S a) H) as [Hap Hb].
    split; [lia|]. constructor; [lia|exact Hb].
Qed.

Lemma nth_split_at : forall (l : list nat) e,
  (e < length l)%nat ->
  l = firstn e l ++ nth e l O :: skipn (S e) l /\ length (firstn e l) = e.
Proof.
  induction l as [|a l IH]; intros e He; cbn in He; [lia|].
  destruct e as [|e]; cbn.
  - split; reflexivity.
  - destruct (IH e ltac:(lia)) as [E1 E2]. split; [f_equal; exact E1|].
    f_equal. exact E2.
Qed.

Section Couplings.

Variable fs : FockSpace.t.
Hypothesis Hwf : well_formed fs.

Variable l : list nat.
Hypothesis Hocc : occupation fs l.

(** The electron that is annihilated: the orbitals A below it, its orbital
    p, the orbitals T above it. *)
Variables (A : list nat) (p : nat) (T : list nat).
Hypothesis Hsplit : l = A ++ p :: T.

Local Abbreviation K := (FockSpace.K fs).
Local Abbreviation N := (FockSpace.N fs).
Local Abbreviation e1 := (length A).
Local Abbreviation I := (rank 0 l).
Local Abbreviation onv := (onv_of fs l).

Lemma length_split : forall B C, T = B ++ C ->
  N = (S (e1 + length B) + length C)%nat.
Proof.
  intros B C HT. destruct Hocc as (_ & _ & Hlen). rewrite <- Hlen, Hsplit, HT.
  rewrite length_app. cbn [length]. rewrite length_app. lia.
Qed.

Lemma occupied_at : forall B C, T = B ++ C ->
  ONV.get_occupation_index onv (S (e1 + length B)) = hd O C.
Proof.
  intros B C HT. unfold ONV.get_occupation_index, onv_of. cbn [ONV.occupation_indices].
  rewrite Hsplit, HT.
  replace (A ++ p :: B ++ C) with ((A ++ p :: B) ++ C)
    by (rewrite <- app_assoc; reflexivity).
  rewrite app_nth2 by (rewrite length_app; cbn [length]; lia).
  replace (S (e1 + length B) - length (A ++ p :: B))%nat with O
    by (rewrite length_app; cbn [length]; lia).
  destruct C; reflexivity.
Qed.

Lemma upper_part : forall B C, T = B ++ C ->
  increasing_from 0 (A ++ p :: B) /\ below K C /\ below K (A ++ p :: B).
Proof.
  intros B C HT. destruct Hocc as (Hinc & Hb & _).
  rewrite Hsplit, HT in Hinc, Hb.
  replace (A ++ p :: B ++ C) with ((A ++ p :: B) ++ C) in *
    by (rewrite <- app_assoc; reflexivity).
  split; [apply (increasing_from_prefix _ C); exact Hinc|].
  apply below_app_inv in Hb. destruct Hb as [Hb1 Hb2]. split; assumption.
Qed.

(** The weight of a cursor position is a binomial coefficient. *)
Lemma cursor_weight : forall B C q m,
  T = B ++ C -> (q + length C <= K)%nat ->
  (S (e1 + length B) <= m <= N)%nat ->
  FockSpace.get_vertex_weights fs q m = choose q m.
Proof.
  intros B C q m HT Hq Hm. pose proof (length_split B C HT) as HN.
  apply get_vertex_weights_choose; [exact Hwf|lia|lia|lia].
Qed.

Lemma shift_spec : forall C B q address,
  cursor l A p T B C q address ->
  exists B' C' q' address',
    FockSpace.shiftUntilNextUnoccupiedOrbital_loop (length C) 1 fs onv
      address q (S (e1 + length B))
    = (address', q', S (e1 + length B'))
    /\ cursor l A p T B' C' q' address'
    /\ increasing_from (S q') C'
    /\ (q <= q')%nat.
Proof.
  induction C as [|c0 C IH]; intros B q address Hcur.
  - exists B, [], q, address. cbn. repeat split; auto; apply Hcur.
  - pose proof Hcur as (HT & Hbq & Hinc & Hadr).
    pose proof (length_split B (c0 :: C) HT) as HN. cbn [length] in HN.
    cbn [FockSpace.shiftUntilNextUnoccupiedOrbital_loop length].
    rewrite (occupied_at B (c0 :: C) HT). cbn [hd].
    destruct (Nat.ltb_spec (S (e1 + length B)) N) as [_|Hge]; [|lia].
    cbn [andb]. cbn in Hinc. destruct Hinc as [Hqc Hinc].
    destruct (Nat.eqb_spec q c0) as [<-|Hne].
    + destruct (upper_part B (q :: C) HT) as (Hpre & HbC & HbP).
      assert (Hroom : (q + length (q :: C) <= K)%nat).
      { apply increasing_from_room; [|exact HbC|discriminate].
        cbn. split; [lia|exact Hinc]. }
      cbn [length] in Hroom.
      replace (S (e1 + length B) + 1 - 1)%nat with (S (e1 + length B)) by lia.
      rewrite (cursor_weight B (q :: C) q (S (e1 + length B)) HT)
        by (cbn [length]; lia).
      rewrite (cursor_weight B (q :: C) q (S (e1 + length B) + 1) HT)
        by (cbn [length]; lia).
      assert (Hcur' : cursor l A p T (B ++ [q]) C (S q)
                (wrap64 (address
                         + wrap64 (choose q (S (e1 + length B))
                                   - choose q (S (e1 + length B) + 1))))).
      { unfold cursor. repeat split.
        - rewrite HT, <- app_assoc. reflexivity.
        - replace (A ++ p :: B ++ [q]) with ((A ++ p :: B) ++ [q])
            by (rewrite <- app_assoc; reflexivity).
          apply below_app; [|constructor; [lia|constructor]].
          apply (below_weaken q); [lia|exact Hbq].
        - exact Hinc.
        - rewrite Hadr, wrap64_add_r, wrap64_add_l. f_equal.
          rewrite !rank_app. cbn [rank].
          replace (S (S e1 + length B)) with (S (e1 + length B) + 1)%nat by lia.
          replace (S (e1 + length B)) with (S (e1 + length B))%nat by lia.
          ring. }
      destruct (IH (B ++ [q]) (S q) _ Hcur') as (B' & C' & q' & a' & E & Hc' & Hi' & Hq').
      exists B', C', q', a'.
      rewrite length_app in E. cbn [length] in E.
      replace (S (e1 + (length B + 1))) with (S (S (e1 + length B))) in E by lia.
      split; [exact E|]. split; [exact Hc'|]. split; [exact Hi'|lia].
    + exists B, (c0 :: C), q, address. split; [reflexivity|].
      split; [exact Hcur|]. split; [|lia]. cbn. split; [lia|exact Hinc].
Qed.

(** The address that a creation at the cursor reaches is above I and below
    the dimension. *)
Lemma cursor_target : forall B C q address,
  cursor l A p T B C q address -> increasing_from (S q) C -> (q < K)%nat ->
  rank 0 l < wrap64 (address + FockSpace.get_vertex_weights fs q (S (e1 + length B)))
  < choose K N.
Proof.
  intros B C q address (HT & Hbq & Hinc & Hadr) HincS HqK.
  destruct (upper_part B C HT) as (Hpre & HbC & HbP).
  pose proof (length_split B C HT) as HN.
  assert (Hroom : (q + length C <= K)%nat).
  { destruct C as [|c0 C']; [cbn; lia|].
    pose proof (increasing_from_room (c0 :: C') (S q) K HincS HbC ltac:(discriminate)).
    lia. }
  rewrite (cursor_weight B C q (S (e1 + length B)) HT) by lia.
  rewrite Hadr, wrap64_add_l.
  (* the occupation list after the excitation *)
  set (l' := (A ++ B) ++ q :: C).
  assert (Hinc' : increasing_from 0 l').
  { apply (increasing_from_app _ _ 0 q).
    - apply (increasing_from_remove A p B). exact Hpre.
    - apply below_app_inv in Hbq. destruct Hbq as [H1 H2].
      inversion H2; subst. apply below_app; assumption.
    - lia.
    - cbn. split; [lia|exact HincS]. }
  assert (Hb' : below K l').
  { apply below_app_inv in HbP. destruct HbP as [H1 H2]. inversion H2; subst.
    apply below_app; [apply below_app; assumption|].
    constructor; [exact HqK|exact HbC]. }
  assert (Hlen' : length l' = N).
  { unfold l'. rewrite !length_app. cbn [length]. lia. }
  assert (Erank' : rank 0 l'
                   = rank 0 A + rank e1 B + choose q (S (e1 + length B))
                     + rank (S (e1 + length B)) C).
  { unfold l'. rewrite !rank_app. cbn [rank Nat.add].
    rewrite length_app. ring. }
  assert (Erank : rank 0 l
                  = rank 0 A + choose p (S e1) + rank (S e1) B
                    + rank (S (e1 + length B)) C).
  { rewrite Hsplit, HT. rewrite rank_app. cbn [rank Nat.add].
    rewrite rank_app. replace (S e1 + length B)%nat with (S (e1 + length B)) by lia.
    ring. }
  assert (Hlow : choose p (S e1) + rank (S e1) B <= choose q (S (e1 + length B)) - 1).
  { pose proof (rank_bound (p :: B) e1 e1 0 q) as H.
    cbn [rank length] in H. rewrite choose_diag in H.
    replace (e1 + S (length B))%nat with (S (e1 + length B)) in H by lia.
    apply below_app_inv in Hbq. destruct Hbq as [H1 H2].
    assert (Hi : increasing_from e1 (p :: B)).
    { apply increasing_from_suffix in Hpre. exact Hpre. }
    pose proof Hi as Hi2. cbn in Hi2. inversion H2; subst.
    specialize (H Hi H2 ltac:(lia) ltac:(lia)). lia. }
  pose proof (rank_lt_choose l' 0 K Hinc' Hb' ltac:(lia)) as Hup.
  rewrite Hlen' in Hup. cbn [Nat.add] in Hup.
  pose proof (rank_nonneg A 0). pose proof (rank_nonneg B e1).
  pose proof (rank_nonneg C (S (e1 + length B))).
  pose proof (rank_nonneg B (S e1)). pose proof (choose_nonneg p (S e1)).
  pose proof (choose_lt_2_64 K N ltac:(destruct Hwf as (_ & ? & _); lia)).
  rewrite wrap64_small; lia.
Qed.

Lemma creation_in_range : forall fuel B C q address,
  cursor l A p T B C q address -> increasing_from (S q) C -> (K - q <= fuel)%nat ->
  forall J q0,
    In (J, q0) (creation_couplings fuel fs K onv address q (S (e1 + length B))) ->
    rank 0 l < J < choose K N.
Proof.
  induction fuel as [|fuel IH]; intros B C q address Hcur HincS Hfuel J q0 Hin;
    cbn [creation_couplings] in Hin; [contradiction|].
  destruct (Nat.ltb_spec q K) as [HqK|HqK]; [|contradiction].
  pose proof Hcur as (HT & Hbq & Hinc & Hadr).
  assert (Hcur1 : cursor l A p T B C (S q) address).
  { unfold cursor. repeat split; try assumption.
    apply (below_weaken q); [lia|exact Hbq]. }
  destruct (shift_spec C B (S q) address Hcur1)
    as (B' & C' & q' & a' & E & Hc' & Hi' & Hq').
  unfold FockSpace.shiftUntilNextUnoccupiedOrbital in Hin.
  replace (N - S (e1 + length B))%nat with (length C) in Hin
    by (pose proof (length_split B C HT); lia).
  rewrite E in Hin. destruct Hin as [Hhd|Htl].
  - injection Hhd as HJ Hq0. rewrite <- HJ.
    apply (cursor_target B C q address); assumption.
  - apply (IH B' C' q' a' Hc' Hi' ltac:(lia) J q0 Htl).
Qed.

End Couplings.

(** Every coupling of the ONV at address I leads to an address strictly
    between I and the dimension. *)
Lemma onv_couplings_in_range : forall fs l J p q,
  well_formed fs -> occupation fs l ->
  In (J, p, q) (onv_couplings fs (FockSpace.K fs) (onv_of fs l) (rank 0 l)) ->
  rank 0 l < J < FockSpace.dim fs.
Proof.
  intros fs l J p q Hwf Hocc Hin.
  pose proof Hwf as (HN & HK & HN31 & Hdim & HW). rewrite Hdim.
  unfold onv_couplings in Hin. apply in_flat_map in Hin.
  destruct Hin as (e1 & He1 & Hin). apply in_seq in He1.
  unfold FockSpace.get_N in He1.
  pose proof Hocc as (Hinc & Hb & Hlen).
  destruct (nth_split_at l e1 ltac:(lia)) as [Hsplit HlenA].
  unfold electron_couplings in Hin.
  assert (Ep : ONV.get_occupation_index (onv_of fs l) e1 = nth e1 l O) by reflexivity.
  rewrite Ep in Hin. clear Ep.
  remember (firstn e1 l) as A eqn:HeqA. remember (nth e1 l O) as p0 eqn:Heqp0.
  remember (skipn (S e1) l) as T eqn:HeqT. clear HeqA Heqp0 HeqT.
  assert (Hmid : (0 <= p0)%nat /\ below p0 A).
  { apply (increasing_from_middle A p0 T). rewrite <- Hsplit. exact Hinc. }
  assert (HincT : increasing_from (S p0) T).
  { rewrite Hsplit in Hinc. apply increasing_from_suffix in Hinc.
    cbn in Hinc. apply Hinc. }
  assert (HbT : below (FockSpace.K fs) (p0 :: T)).
  { rewrite Hsplit in Hb. apply below_app_inv in Hb. apply Hb. }
  assert (Hroom : (p0 + length (p0 :: T) <= FockSpace.K fs)%nat).
  { apply increasing_from_room; [|exact HbT|discriminate].
    cbn. split; [lia|exact HincT]. }
  assert (HlenT : length l = (e1 + S (length T))%nat).
  { rewrite Hsplit at 1. rewrite length_app. cbn [length]. lia. }
  cbn [length] in Hroom.
  replace (e1 + 1)%nat with (S e1) in Hin by lia.
  replace (p0 + 1)%nat with (S p0) in Hin by lia.
  rewrite get_vertex_weights_choose in Hin by (try assumption; lia).
  assert (Hcur : cursor l A p0 T [] T (S p0)
                   (wrap64 (rank 0 l - choose p0 (S e1)))).
  { unfold cursor. repeat split.
    - apply below_app; [|constructor; [lia|constructor]].
      apply (below_weaken p0); [lia|apply Hmid].
    - exact HincT.
    - rewrite HlenA. cbn [rank]. f_equal. ring. }
  destruct (shift_spec fs Hwf l Hocc A p0 T Hsplit T [] (S p0) _ Hcur)
    as (B' & C' & q' & a' & E & Hc' & Hi' & Hq').
  unfold FockSpace.shiftUntilNextUnoccupiedOrbital in Hin.
  replace (FockSpace.N fs - S e1)%nat with (length T) in Hin by lia.
  cbn [length] in E. rewrite HlenA, Nat.add_0_r in E.
  rewrite E in Hin. apply in_map_iff in Hin.
  destruct Hin as ([J0 q0] & Heq & Hin). inversion Heq; subst J0 p q0. clear Heq.
  rewrite <- HlenA in Hin.
  apply (creation_in_range fs Hwf l Hocc A p0 T Hsplit _ B' C' q' a' Hc' Hi'
           (Nat.le_refl _) J q Hin).
Qed.

(** ** The loops of the DOCI builders *)

Section CouplingUpdates.

Import Linalg.

Context {T : Type} {ST : Scalar T}.

Local Open Scope scalar_scope.

Lemma constructHamiltonian_creation_fold :
  forall fuel fs ham K onv I p address q e2 (M : SquareMatrix T),
    DOCI.constructHamiltonian_creation fuel fs ham K onv I p address q e2 M
    = fold_left (add_coupling ham I)
        (map (fun '(J, q0) => (J, p, q0))
             (creation_couplings fuel fs K onv address q e2)) M.
Proof.
  induction fuel as [|fuel IH]; intros; cbn [DOCI.constructHamiltonian_creation
    creation_couplings]; [reflexivity|].
  destruct (q <? K)%nat; [|reflexivity].
  destruct (FockSpace.shiftUntilNextUnoccupiedOrbital 1 fs onv address (S q) e2)
    as [[a q'] e2'].
  cbn [map fold_left add_coupling]. apply IH.
Qed.

Lemma matrixVectorProduct_creation_fold :
  forall fuel fs ham K onv x double_J p address q e2 (st : T * VectorX T),
    DOCI.matrixVectorProduct_creation fuel fs ham K onv x double_J p address q e2 st
    = fold_left (accumulate_coupling ham x double_J)
        (map (fun '(J, q0) => (J, p, q0))
             (creation_couplings fuel fs K onv address q e2)) st.
Proof.
  induction fuel as [|fuel IH]; intros; cbn [DOCI.matrixVectorProduct_creation
    creation_couplings]; [reflexivity|].
  destruct (q <? K)%nat; [|reflexivity].
  destruct st as [double_I matvec].
  destruct (FockSpace.shiftUntilNextUnoccupiedOrbital 1 fs onv address (S q) e2)
    as [[a q'] e2'].
  cbn [map fold_left accumulate_coupling]. apply IH.
Qed.

Lemma for_range_flat_map : forall (S E : Type) (f : S -> E -> S)
    (g : nat -> list E) (body : nat -> S -> S) (lo hi : nat) (s : S),
  (forall e s', body e s' = fold_left f (g e) s') ->
  for_range lo hi body s = fold_left f (flat_map g (seq lo (hi - lo))) s.
Proof.
  intros S E f g body lo hi s Hbody. unfold for_range.
  revert s. induction (seq lo (hi - lo)) as [|e es IH]; intros s; cbn.
  - reflexivity.
  - rewrite fold_left_app, <- Hbody. apply IH.
Qed.

Lemma constructHamiltonian_electrons_fold :
  forall fs ham K onv I (M : SquareMatrix T),
    for_range 0 (FockSpace.get_N fs) (fun e1 result_matrix =>
      let p := ONV.get_occupation_index onv e1 in
      let address := wrap64 (I - FockSpace.get_vertex_weights fs p (e1 + 1)) in
      let e2 := (e1 + 1)%nat in
      let q := (p + 1)%nat in
      let '(address, q, e2) :=
        FockSpace.shiftUntilNextUnoccupiedOrbital 1 fs onv address q e2 in
      DOCI.constructHamiltonian_creation (K - q) fs ham K onv I p address q e2
        result_matrix) M
    = fold_left (add_coupling ham I) (onv_couplings fs K onv I) M.
Proof.
  intros. unfold onv_couplings.
  replace (FockSpace.get_N fs) with (FockSpace.get_N fs - 0)%nat at 2 by lia.
  apply for_range_flat_map. intros e s'. unfold electron_couplings.
  cbv zeta.
  destruct (FockSpace.shiftUntilNextUnoccupiedOrbital 1 fs onv _ _ _) as [[a q'] e2'].
  apply constructHamiltonian_creation_fold.
Qed.

Lemma matrixVectorProduct_electrons_fold :
  forall fs ham K onv x double_J I (st : T * VectorX T),
    for_range 0 (FockSpace.get_N fs) (fun e1 st =>
      let p := ONV.get_occupation_index onv e1 in
      let address := wrap64 (I - FockSpace.get_vertex_weights fs p (e1 + 1)) in
      let e2 := (e1 + 1)%nat in
      let q := (p + 1)%nat in
      let '(address, q, e2) :=
        FockSpace.shiftUntilNextUnoccupiedOrbital 1 fs onv address q e2 in
      DOCI.matrixVectorProduct_creation (K - q) fs ham K onv x double_J p
        address q e2 st) st
    = fold_left (accumulate_coupling ham x double_J) (onv_couplings fs K onv I) st.
Proof.
  intros. unfold onv_couplings.
  replace (FockSpace.get_N fs) with (FockSpace.get_N fs - 0)%nat at 2 by lia.
  apply for_range_flat_map. intros e s'. unfold electron_couplings.
  cbv zeta.
  destruct (FockSpace.shiftUntilNextUnoccupiedOrbital 1 fs onv _ _ _) as [[a q'] e2'].
  apply matrixVectorProduct_creation_fold.
Qed.

End CouplingUpdates.

(** The loop over the addresses: the ONV of the i-th turn has address i. *)
Section Traversal.

Variable fs : FockSpace.t.
Hypothesis Hwf : well_formed fs.

Lemma dimension_range : 1 <= FockSpace.get_dimension fs < 2 ^ 64.
Proof.
  destruct Hwf as (HN & HK & _ & Hdim & _). unfold FockSpace.get_dimension.
  rewrite Hdim. pose proof (choose_pos _ _ HN).
  pose proof (choose_lt_2_64 (FockSpace.K fs) (FockSpace.N fs) HK). lia.
Qed.

Lemma next_onv_occupation : forall i l,
  occupation fs l -> rank 0 l = Z.of_nat i ->
  Z.of_nat (S i) < FockSpace.get_dimension fs ->
  exists l', next_onv fs i (onv_of fs l) = onv_of fs l'
             /\ occupation fs l' /\ rank 0 l' = Z.of_nat (S i).
Proof.
  intros i l Hocc Hrank Hi. pose proof dimension_range as Hd.
  unfold next_onv. rewrite wrap64_small by lia.
  destruct (Z.ltb_spec (Z.of_nat i) (FockSpace.get_dimension fs - 1)); [|lia].
  pose proof Hwf as (HN & HK & _ & Hdim & _).
  pose proof Hocc as (Hinc & Hb & Hlen).
  unfold FockSpace.get_dimension in *.
  assert (Hne : l <> []).
  { intros ->. cbn in Hlen. rewrite <- Hlen in Hdim. cbn in Hdim.
    rewrite choose_n_0 in Hdim. lia. }
  destruct (lowest_run l 0 Hne Hinc) as (c & n & rest & E & Hn & _ & Hrest).
  subst l.
  assert (Hroom : (c + n < FockSpace.K fs)%nat).
  { apply (not_last_has_room c n rest); try assumption.
    rewrite Hlen, <- Hdim. lia. }
  destruct (setNextONV_onv_of fs c n rest Hwf Hn Hroom Hrest Hocc) as [E' Hocc'].
  exists (next_occupation c n rest). split; [exact E'|]. split; [exact Hocc'|].
  rewrite rank_next_occupation by exact Hn. lia.
Qed.

Lemma traversal_ind2 : forall (S1 S2 : Type)
    (f : nat -> S1 * ONV.ONV -> S1 * ONV.ONV)
    (g : nat -> S2 * ONV.ONV -> S2 * ONV.ONV)
    (Q : nat -> S1 -> S2 -> Prop) (a0 : S1) (b0 : S2),
  (forall i a onv, snd (f i (a, onv)) = next_onv fs i onv) ->
  (forall i b onv, snd (g i (b, onv)) = next_onv fs i onv) ->
  Q O a0 b0 ->
  (forall i l a b,
     Z.of_nat i < FockSpace.get_dimension fs ->
     occupation fs l -> rank 0 l = Z.of_nat i ->
     Q i a b ->
     Q (S i) (fst (f i (a, onv_of fs l))) (fst (g i (b, onv_of fs l)))) ->
  Q (Z.to_nat (FockSpace.get_dimension fs))
    (fst (for_range 0 (Z.to_nat (FockSpace.get_dimension fs)) f
            (a0, FockSpace.makeONV fs 0)))
    (fst (for_range 0 (Z.to_nat (FockSpace.get_dimension fs)) g
            (b0, FockSpace.makeONV fs 0))).
Proof.
  intros S1 S2 f g Q a0 b0 Hf Hg H0 Hstep.
  pose proof dimension_range as Hd.
  set (n := Z.to_nat (FockSpace.get_dimension fs)).
  assert (G : forall k, (k <= n)%nat ->
            exists a b onv,
              for_range 0 k f (a0, FockSpace.makeONV fs 0) = (a, onv)
              /\ for_range 0 k g (b0, FockSpace.makeONV fs 0) = (b, onv)
              /\ Q k a b
              /\ ((k < n)%nat ->
                  exists l, onv = onv_of fs l /\ occupation fs l
                            /\ rank 0 l = Z.of_nat k)).
  { induction k as [|k IH]; intros Hk.
    - exists a0, b0, (FockSpace.makeONV fs 0). repeat split; auto.
      intros _. exists (seq 0 (FockSpace.N fs)). split; [apply makeONV_0; exact Hwf|].
      split; [apply first_occupation; exact Hwf|].
      rewrite rank_seq. cbn [Nat.add]. rewrite choose_diag. reflexivity.
    - destruct (IH ltac:(lia)) as (a & b & onv & Ea & Eb & HQ & Honv).
      destruct (Honv ltac:(lia)) as (l & -> & Hocc & Hrank).
      unfold for_range in *. rewrite Nat.sub_0_r in *.
      rewrite seq_S, !fold_left_app, Ea, Eb. cbn [fold_left Nat.add].
      exists (fst (f k (a, onv_of fs l))), (fst (g k (b, onv_of fs l))),
             (next_onv fs k (onv_of fs l)).
      split; [rewrite <- (Hf k a (onv_of fs l)); apply surjective_pairing|].
      split; [rewrite <- (Hg k b (onv_of fs l)); apply surjective_pairing|].
      split; [apply Hstep; auto; lia|].
      intros Hk'. apply next_onv_occupation; auto. lia. }
  destruct (G n (Nat.le_refl n)) as (a & b & onv & Ea & Eb & HQ & _).
  rewrite Ea, Eb. exact HQ.
Qed.

End Traversal.

Lemma for_range_ext : forall (S : Type) (f g : nat -> S -> S) (lo hi : nat) (s : S),
  (forall i s', f i s' = g i s') ->
  for_range lo hi f s = for_range lo hi g s.
Proof.
  intros S f g lo hi s Hfg. unfold for_range. revert s.
  induction (seq lo (hi - lo)) as [|i l IH]; intros s; cbn.
  - reflexivity.
  - rewrite Hfg. apply IH.
Qed.

Section LoopCharacterisation.

Import Linalg.

Context {T : Type} {ST : Scalar T}.

Local Open Scope scalar_scope.

Lemma calculateDiagonal_loop : forall fs ham,
  one_dim (get_h ham) = FockSpace.get_K fs ->
  DOCI.calculateDiagonal fs ham = Ok (diagonal_of fs ham).
Proof.
  intros fs ham HK. unfold DOCI.calculateDiagonal, diagonal_of.
  rewrite HK, Nat.eqb_refl. cbn [negb].
  rewrite (for_range_ext _ _ (diagonal_step fs ham)).
  - destruct (for_range _ _ _ _) as [d o]. reflexivity.
  - intros i [d o]. reflexivity.
Qed.

Lemma constructHamiltonian_loop : forall fs ham,
  one_dim (get_h ham) = FockSpace.get_K fs ->
  DOCI.constructHamiltonian fs ham
  = Ok (fst (for_range 0 (Z.to_nat (FockSpace.get_dimension fs))
               (hamiltonian_step fs ham (diagonal_of fs ham))
               (SquareMatrix_Zero (FockSpace.get_dimension fs),
                FockSpace.makeONV fs 0))).
Proof.
  intros fs ham HK. unfold DOCI.constructHamiltonian.
  rewrite (calculateDiagonal_loop fs ham HK).
  rewrite HK, Nat.eqb_refl. cbn [negb bind].
  rewrite (for_range_ext _ _ (hamiltonian_step fs ham (diagonal_of fs ham))).
  - destruct (for_range _ _ _ _) as [d o]. reflexivity.
  - intros i [M o]. unfold hamiltonian_step. cbn [fst snd].
    rewrite <- HK. rewrite constructHamiltonian_electrons_fold. reflexivity.
Qed.

Lemma matrixVectorProduct_loop : forall fs ham x diagonal,
  one_dim (get_h ham) = FockSpace.get_K fs ->
  DOCI.matrixVectorProduct fs ham x diagonal
  = Ok (fst (for_range 0 (Z.to_nat (FockSpace.get_dimension fs))
               (product_step fs ham x)
               (cwiseProduct diagonal x, FockSpace.makeONV fs 0))).
Proof.
  intros fs ham x diagonal HK. unfold DOCI.matrixVectorProduct.
  rewrite HK, Nat.eqb_refl. cbn [negb].
  rewrite (for_range_ext _ _ (product_step fs ham x)).
  - destruct (for_range _ _ _ _) as [d o]. reflexivity.
  - intros i [v o]. unfold product_step. cbn [fst snd].
    rewrite <- HK. rewrite matrixVectorProduct_electrons_fold.
    destruct (fold_left _ _ _) as [dI v']. reflexivity.
Qed.

End LoopCharacterisation.

Section Agreement.

Import Linalg.

Context {T : Type} {ST : Scalar T}.
Hypothesis Tring : ring_theory zero one add mul sub opp (@eq T).

Add Ring scalar_ring_doci : Tring.

Local Open Scope scalar_scope.

Lemma sum_upto_S : forall n (f : Z -> T),
  sum_upto (S n) f = sum_upto n f + f (Z.of_nat n).
Proof.
  intros n f. unfold sum_upto. rewrite seq_S, fold_left_app. reflexivity.
Qed.

Lemma sum_upto_ext : forall n (f h : Z -> T),
  (forall j, 0 <= j < Z.of_nat n -> h j = f j) ->
  sum_upto n h = sum_upto n f.
Proof.
  induction n as [|n IH]; intros f h Hfh; [reflexivity|].
  rewrite !sum_upto_S, (IH f h), Hfh; [reflexivity|lia|].
  intros j Hj. apply Hfh. lia.
Qed.

Lemma sum_upto_update : forall n (f h : Z -> T) c e,
  0 <= c < Z.of_nat n ->
  (forall j, j <> c -> h j = f j) ->
  h c = f c + e ->
  sum_upto n h = sum_upto n f + e.
Proof.
  induction n as [|n IH]; intros f h c e Hc Hne Hat; [lia|].
  rewrite !sum_upto_S.
  destruct (Z.eq_dec c (Z.of_nat n)) as [->|Hcn].
  - rewrite Hat, (sum_upto_ext n f h); [ring|].
    intros j Hj. apply Hne. lia.
  - rewrite (IH f h c e), (Hne (Z.of_nat n)); [ring|congruence|lia|exact Hne|exact Hat].
Qed.

Lemma row_sum_add_at : forall M x r c y a,
  0 <= c < dim M ->
  row_sum (SquareMatrix_add_at M r c y) x a
  = row_sum M x a + (if a =? r then y * coeff x c else zero).
Proof.
  intros M x r c y a Hc. unfold row_sum, SquareMatrix_mul_vector.
  cbn [coeff dim SquareMatrix_add_at entry].
  destruct (a =? r)%Z.
  - apply sum_upto_update with (c := c).
    + lia.
    + intros j Hj. cbn [andb].
      destruct (Z.eqb_spec j c) as [E|_]; [contradiction|reflexivity].
    + cbn [andb]. rewrite Z.eqb_refl. ring.
  - cbn [andb].
    match goal with |- ?s = _ => transitivity (s + zero); [ring|reflexivity] end.
Qed.

Lemma fold_add_coupling_dim : forall ham I cs (M : SquareMatrix T),
  dim (fold_left (add_coupling ham I) cs M) = dim M.
Proof.
  intros ham I. induction cs as [|[[J p] q] cs IH]; intros M; cbn [fold_left].
  - reflexivity.
  - rewrite IH. reflexivity.
Qed.

Lemma fold_accumulate_size : forall ham x dJ cs (st : T * VectorX T),
  size (snd (fold_left (accumulate_coupling ham x dJ) cs st)) = size (snd st).
Proof.
  intros ham x dJ. induction cs as [|[[J p] q] cs IH]; intros [dI v]; cbn [fold_left].
  - reflexivity.
  - cbn [accumulate_coupling]. rewrite IH. reflexivity.
Qed.

(** The two inner loops keep the matrix and the vector in step. *)
Lemma couplings_in_step : forall ham x I (base : Z -> T) n,
  0 <= I < n ->
  forall cs M dI v,
  (forall J p q, In (J, p, q) cs -> 0 <= J < n) ->
  dim M = n ->
  (forall a, 0 <= a < n ->
     coeff v a + (if a =? I then dI else zero) = base a + row_sum M x a) ->
  forall a, 0 <= a < n ->
    coeff (snd (fold_left (accumulate_coupling ham x (coeff x I)) cs (dI, v))) a
    + (if a =? I then fst (fold_left (accumulate_coupling ham x (coeff x I)) cs (dI, v))
       else zero)
    = base a + row_sum (fold_left (add_coupling ham I) cs M) x a.
Proof.
  intros ham x I base n HI.
  induction cs as [|[[J p] q] cs IH]; intros M dI v Hin Hdim Hinv a Ha;
    cbn [fold_left].
  - cbn [fst snd]. apply Hinv, Ha.
  - cbn [accumulate_coupling add_coupling].
    apply IH; [| reflexivity + (cbn [dim SquareMatrix_add_at]; exact Hdim) | | exact Ha].
    + intros J' p' q' H'. apply (Hin J' p' q'). right. exact H'.
    + intros b Hb.
      assert (HJ : 0 <= J < n) by (apply (Hin J p q); left; reflexivity).
      rewrite !row_sum_add_at
        by (cbn [dim SquareMatrix_add_at]; rewrite ?Hdim; lia).
      cbn [coeff VectorX_add_at].
      specialize (Hinv b Hb).
      destruct (b =? I)%Z, (b =? J)%Z.
      * transitivity ((coeff v b + dI)
                      + (two_entry (get_g ham) p q p q * coeff x I
                         + two_entry (get_g ham) p q p q * coeff x J)); [ring|].
        rewrite Hinv. ring.
      * transitivity ((coeff v b + dI)
                      + two_entry (get_g ham) p q p q * coeff x J); [ring|].
        rewrite Hinv. ring.
      * transitivity ((coeff v b + zero)
                      + two_entry (get_g ham) p q p q * coeff x I); [ring|].
        rewrite Hinv. ring.
      * rewrite Hinv. ring.
Qed.

(** The inner loop of [constructHamiltonian] keeps the matrix symmetric. *)
Lemma couplings_symmetric : forall ham I cs (M : SquareMatrix T),
  (forall a b, entry M a b = entry M b a) ->
  forall a b, entry (fold_left (add_coupling ham I) cs M) a b
              = entry (fold_left (add_coupling ham I) cs M) b a.
Proof.
  intros ham I. induction cs as [|[[J p] q] cs IH]; intros M Hsym; cbn [fold_left].
  - exact Hsym.
  - apply IH. intros a b. cbn [add_coupling entry SquareMatrix_add_at].
    rewrite (Hsym a b).
    destruct (Z.eqb_spec a I), (Z.eqb_spec b J), (Z.eqb_spec a J), (Z.eqb_spec b I);
      cbn [andb]; subst; try reflexivity; try contradiction.
Qed.

(** The inner loop of [constructHamiltonian] leaves the diagonal alone when
    every coupled address differs from [I]. *)
Lemma couplings_diagonal : forall ham I cs (M : SquareMatrix T),
  (forall J p q, In (J, p, q) cs -> J <> I) ->
  forall a, entry (fold_left (add_coupling ham I) cs M) a a = entry M a a.
Proof.
  intros ham I. induction cs as [|[[J p] q] cs IH]; intros M Hin a; cbn [fold_left].
  - reflexivity.
  - rewrite IH by (intros J' p' q' H'; apply (Hin J' p' q'); right; exact H').
    assert (HJ : J <> I) by (apply (Hin J p q); left; reflexivity).
    cbn [add_coupling entry SquareMatrix_add_at].
    destruct (Z.eqb_spec a I), (Z.eqb_spec a J); cbn [andb]; subst;
      try reflexivity; contradiction.
Qed.

Lemma sum_upto_zero : forall n (f : Z -> T),
  (forall j, 0 <= j < Z.of_nat n -> f j = zero) -> sum_upto n f = zero.
Proof.
  induction n as [|n IH]; intros f Hf; [reflexivity|].
  rewrite sum_upto_S, IH, Hf; [ring|lia|].
  intros j Hj. apply Hf. lia.
Qed.

Lemma row_sum_Zero : forall n x a, row_sum (SquareMatrix_Zero n) x a = zero.
Proof.
  intros n x a. unfold row_sum, SquareMatrix_mul_vector.
  cbn [coeff dim entry SquareMatrix_Zero].
  apply sum_upto_zero. intros j _. ring.
Qed.

Lemma diagonal_step_size : forall fs ham lo hi (st : VectorX T * ONV.ONV),
  size (fst (for_range lo hi (diagonal_step fs ham) st)) = size (fst st).
Proof.
  intros fs ham lo hi st. unfold for_range. revert st.
  induction (seq lo (hi - lo)) as [|i l IH]; intros st; cbn [fold_left].
  - reflexivity.
  - rewrite IH. reflexivity.
Qed.

Lemma diagonal_of_size : forall fs (ham : HamiltonianParameters T),
  size (diagonal_of fs ham) = FockSpace.get_dimension fs.
Proof. intros fs ham. unfold diagonal_of. rewrite diagonal_step_size. reflexivity. Qed.

Section Loops.

Variable fs : FockSpace.t.
Variable ham : HamiltonianParameters T.
Hypothesis Hwf : well_formed fs.
Hypothesis HK : one_dim (get_h ham) = FockSpace.get_K fs.

Lemma couplings_range : forall i l J p q,
  occupation fs l -> rank 0 l = Z.of_nat i ->
  In (J, p, q) (onv_couplings fs (one_dim (get_h ham)) (onv_of fs l) (Z.of_nat i)) ->
  Z.of_nat i < J < FockSpace.get_dimension fs.
Proof.
  intros i l J p q Hocc Hrank Hin. rewrite HK, <- Hrank in Hin.
  rewrite <- Hrank. exact (onv_couplings_in_range fs l J p q Hwf Hocc Hin).
Qed.

Lemma hamiltonian_loop_shape : forall d,
  let H := fst (for_range 0 (Z.to_nat (FockSpace.get_dimension fs))
                  (hamiltonian_step fs ham d)
                  (SquareMatrix_Zero (FockSpace.get_dimension fs),
                   FockSpace.makeONV fs 0)) in
  dim H = FockSpace.get_dimension fs
  /\ (forall a b, entry H a b = entry H b a)
  /\ (forall a, 0 <= a < FockSpace.get_dimension fs -> entry H a a = coeff d a).
Proof.
  intros d H.
  pose (Q := fun (i : nat) (M : SquareMatrix T) (_ : unit) =>
    dim M = FockSpace.get_dimension fs
    /\ (forall a b, entry M a b = entry M b a)
    /\ (forall a, 0 <= a < FockSpace.get_dimension fs ->
          entry M a a = if a <? Z.of_nat i then coeff d a else zero)).
  assert (G : Q (Z.to_nat (FockSpace.get_dimension fs)) H
                (fst (for_range 0 (Z.to_nat (FockSpace.get_dimension fs))
                        (fun i (st : unit * ONV.ONV) => (tt, next_onv fs i (snd st)))
                        (tt, FockSpace.makeONV fs 0)))).
  { apply (traversal_ind2 fs Hwf).
    - intros i a onv. reflexivity.
    - intros i b onv. reflexivity.
    - unfold Q. split; [reflexivity|]. split; [reflexivity|].
      intros a Ha. destruct (Z.ltb_spec a (Z.of_nat 0)); [lia|reflexivity].
    - intros i l M u Hi Hocc Hrank (Hdim & Hsym & Hdiag).
      unfold Q, hamiltonian_step. cbn [fst snd].
      split; [|split].
      + rewrite fold_add_coupling_dim. exact Hdim.
      + apply couplings_symmetric. intros a b.
        cbn [entry SquareMatrix_add_at]. rewrite (Hsym a b).
        destruct (Z.eqb_spec a (Z.of_nat i)), (Z.eqb_spec b (Z.of_nat i));
          reflexivity.
      + intros a Ha. rewrite couplings_diagonal.
        * cbn [entry SquareMatrix_add_at]. rewrite (Hdiag a Ha).
          destruct (Z.eqb_spec a (Z.of_nat i)) as [->|Hne]; cbn [andb].
          -- destruct (Z.ltb_spec (Z.of_nat i) (Z.of_nat i)); [lia|].
             destruct (Z.ltb_spec (Z.of_nat i) (Z.of_nat (S i))); [ring|lia].
          -- destruct (Z.ltb_spec a (Z.of_nat i)), (Z.ltb_spec a (Z.of_nat (S i)));
               try reflexivity; lia.
        * intros J p q Hin.
          pose proof (couplings_range i l J p q Hocc Hrank Hin). lia. }
  destruct G as (Hdim & Hsym & Hdiag). split; [exact Hdim|]. split; [exact Hsym|].
  intros a Ha. rewrite (Hdiag a Ha).
  destruct (Z.ltb_spec a (Z.of_nat (Z.to_nat (FockSpace.get_dimension fs))));
    [reflexivity|lia].
Qed.

Lemma product_loop_agrees : forall d x,
  size d = FockSpace.get_dimension fs ->
  let H := fst (for_range 0 (Z.to_nat (FockSpace.get_dimension fs))
                  (hamiltonian_step fs ham d)
                  (SquareMatrix_Zero (FockSpace.get_dimension fs),
                   FockSpace.makeONV fs 0)) in
  let matvec := fst (for_range 0 (Z.to_nat (FockSpace.get_dimension fs))
                  (product_step fs ham x)
                  (cwiseProduct d x, FockSpace.makeONV fs 0)) in
  size matvec = FockSpace.get_dimension fs
  /\ (forall a, 0 <= a < FockSpace.get_dimension fs ->
        coeff matvec a = row_sum H x a).
Proof.
  intros d x Hd H matvec.
  pose (Q := fun (i : nat) (M : SquareMatrix T) (v : VectorX T) =>
    dim M = FockSpace.get_dimension fs
    /\ size v = FockSpace.get_dimension fs
    /\ (forall a, 0 <= a < FockSpace.get_dimension fs ->
          coeff v a = (if a <? Z.of_nat i then zero else coeff d a * coeff x a)
                      + row_sum M x a)).
  assert (G : Q (Z.to_nat (FockSpace.get_dimension fs)) H matvec).
  { apply (traversal_ind2 fs Hwf).
    - intros i a onv. reflexivity.
    - intros i b onv. reflexivity.
    - unfold Q. split; [reflexivity|]. split; [exact Hd|].
      intros a Ha. rewrite row_sum_Zero. cbn [coeff cwiseProduct].
      destruct (Z.ltb_spec a (Z.of_nat 0)); [lia|ring].
    - intros i l M v Hi Hocc Hrank (Hdim & Hsize & Hinv).
      unfold Q, hamiltonian_step, product_step. cbn [fst snd].
      split; [|split].
      + rewrite fold_add_coupling_dim. exact Hdim.
      + cbn [size VectorX_add_at]. rewrite fold_accumulate_size. exact Hsize.
      + intros a Ha.
        pose proof (couplings_in_step ham x (Z.of_nat i)
          (fun a => if a <? Z.of_nat (S i) then zero else coeff d a * coeff x a)
          (FockSpace.get_dimension fs) ltac:(lia)
          (onv_couplings fs (one_dim (get_h ham)) (onv_of fs l) (Z.of_nat i))
          (SquareMatrix_add_at M (Z.of_nat i) (Z.of_nat i) (coeff d (Z.of_nat i)))
          zero v) as Hstep.
        cbv beta in Hstep.
        assert (Hrange : forall J p q,
                  In (J, p, q)
                    (onv_couplings fs (one_dim (get_h ham)) (onv_of fs l) (Z.of_nat i)) ->
                  (0 <= J < FockSpace.get_dimension fs)%Z).
        { intros J p q Hin.
          pose proof (couplings_range i l J p q Hocc Hrank Hin). lia. }
        specialize (Hstep Hrange Hdim).
        assert (Hpre : forall a0 : Z,
                  (0 <= a0 < FockSpace.get_dimension fs)%Z ->
                  coeff v a0 + (if a0 =? Z.of_nat i then zero else zero)
                  = (if a0 <? Z.of_nat (S i) then zero else coeff d a0 * coeff x a0)
                    + row_sum (SquareMatrix_add_at M (Z.of_nat i) (Z.of_nat i)
                                 (coeff d (Z.of_nat i))) x a0).
        { intros b Hb. rewrite row_sum_add_at by lia.
          rewrite (Hinv b Hb).
          destruct (Z.eqb_spec b (Z.of_nat i)) as [->|Hne].
          - destruct (Z.ltb_spec (Z.of_nat i) (Z.of_nat i)); [lia|].
            destruct (Z.ltb_spec (Z.of_nat i) (Z.of_nat (S i))); [ring|lia].
          - destruct (Z.ltb_spec b (Z.of_nat i)), (Z.ltb_spec b (Z.of_nat (S i)));
              try ring; lia. }
        specialize (Hstep Hpre a Ha). rewrite <- Hstep.
        cbn [coeff VectorX_add_at].
        destruct (a =? Z.of_nat i)%Z; [reflexivity|ring]. }
  destruct G as (Hdim & Hsize & Hinv). split; [exact Hsize|].
  intros a Ha. rewrite (Hinv a Ha).
  destruct (Z.ltb_spec a (Z.of_nat (Z.to_nat (FockSpace.get_dimension fs))));
    [ring|lia].
Qed.

End Loops.

(** [constructHamiltonian] returns a symmetric matrix whatever the Fock space
    and the integrals are: every coupling is added at (I, J) and at (J, I). *)
Lemma constructHamiltonian_symmetric :
  forall (fs : FockSpace.t) (ham : HamiltonianParameters T) (H : SquareMatrix T),
    DOCI.constructHamiltonian fs ham = Ok H ->
    forall I J, entry H I J = entry H J I.
Proof.
  intros fs ham H HH.
  destruct (Nat.eq_dec (one_dim (get_h ham)) (FockSpace.get_K fs)) as [HK|HK].
  - rewrite (constructHamiltonian_loop fs ham HK) in HH.
    injection HH as <-.
    apply (for_range_invariant _
             (fun st : SquareMatrix T * ONV.ONV =>
                forall I J, entry (fst st) I J = entry (fst st) J I)).
    + intros I J. reflexivity.
    + intros i [M onv] _ Hsym. unfold hamiltonian_step. cbn [fst snd] in *.
      apply couplings_symmetric. intros a b.
      cbn [entry SquareMatrix_add_at]. rewrite (Hsym a b).
      destruct (Z.eqb_spec a (Z.of_nat i)), (Z.eqb_spec b (Z.of_nat i));
        reflexivity.
  - unfold DOCI.constructHamiltonian in HH.
    apply Nat.eqb_neq in HK. rewrite HK in HH. discriminate HH.
Qed.

(** X29: for a Fock space FockSpace(K, N) with N <= K <= 54 and N <= 31 and
    Hamiltonian parameters over K orbitals, [constructHamiltonian] and
    [calculateDiagonal] both return; the matrix H is symmetric, and at every
    address I its entry H(I, I) is entry I of the vector that
    [calculateDiagonal] returns.  The scalars are any commutative ring. *)
Theorem X29_hamiltonian_symmetric_diagonal_matches_in_range :
  forall (K N : nat) (fs : FockSpace.t) (ham : HamiltonianParameters T),
    (N <= K)%nat -> (K <= 54)%nat -> (N <= 31)%nat ->
    FockSpace.FockSpace K N = Ok fs ->
    one_dim (get_h ham) = K ->
    exists H diagonal,
      DOCI.constructHamiltonian fs ham = Ok H
      /\ DOCI.calculateDiagonal fs ham = Ok diagonal
      /\ dim H = FockSpace.get_dimension fs
      /\ (forall I J, entry H I J = entry H J I)
      /\ (forall I, (0 <= I < FockSpace.get_dimension fs)%Z ->
            entry H I I = coeff diagonal I).
Proof.
  intros K N fs ham HN HK54 HN31 Hfs Hham.
  destruct (constructed_well_formed K N fs HN HK54 HN31 Hfs) as (Hwf & HKfs & _).
  assert (HK : one_dim (get_h ham) = FockSpace.get_K fs).
  { unfold FockSpace.get_K. congruence. }
  eexists. exists (diagonal_of fs ham).
  split; [apply (constructHamiltonian_loop fs ham HK)|].
  split; [apply (calculateDiagonal_loop fs ham HK)|].
  exact (hamiltonian_loop_shape fs ham Hwf HK (diagonal_of fs ham)).
Qed.

(** X28: for a Fock space FockSpace(K, N) with N <= K <= 54 and N <= 31,
    Hamiltonian parameters over K orbitals and a coefficient vector x, the
    three functions return, and [matrixVectorProduct] on x and the diagonal
    of [calculateDiagonal] has the length and, at every address, the
    coefficient of [constructHamiltonian] times x.  The scalars are any
    commutative ring, so sums are exact. *)
Theorem X28_matrix_vector_product_agrees_in_range :
  forall (K N : nat) (fs : FockSpace.t) (ham : HamiltonianParameters T)
         (x : VectorX T),
    (N <= K)%nat -> (K <= 54)%nat -> (N <= 31)%nat ->
    FockSpace.FockSpace K N = Ok fs ->
    one_dim (get_h ham) = K ->
    exists diagonal H matvec,
      DOCI.calculateDiagonal fs ham = Ok diagonal
      /\ DOCI.constructHamiltonian fs ham = Ok H
      /\ DOCI.matrixVectorProduct fs ham x diagonal = Ok matvec
      /\ size matvec = size (SquareMatrix_mul_vector H x)
      /\ (forall a, (0 <= a < FockSpace.get_dimension fs)%Z ->
            coeff matvec a = coeff (SquareMatrix_mul_vector H x) a).
Proof.
  intros K N fs ham x HN HK54 HN31 Hfs Hham.
  destruct (constructed_well_formed K N fs HN HK54 HN31 Hfs) as (Hwf & HKfs & _).
  assert (HK : one_dim (get_h ham) = FockSpace.get_K fs).
  { unfold FockSpace.get_K. congruence. }
  exists (diagonal_of fs ham). eexists. eexists.
  split; [apply (calculateDiagonal_loop fs ham HK)|].
  split; [apply (constructHamiltonian_loop fs ham HK)|].
  split; [apply (matrixVectorProduct_loop fs ham x _ HK)|].
  destruct (product_loop_agrees fs ham Hwf HK (diagonal_of fs ham) x
              (diagonal_of_size fs ham)) as [Hsize Hcoeff].
  destruct (hamiltonian_loop_shape fs ham Hwf HK (diagonal_of fs ham))
    as (Hdim & _ & _).
  split.
  - rewrite Hsize. cbn [size SquareMatrix_mul_vector]. symmetry. exact Hdim.
  - exact Hcoeff.
Qed.

End Agreement.



Lemma X29_hamiltonian_symmetric_diagonal_matches_in_range_witness :
  (2 <= 4)%nat /\ (4 <= 54)%nat /\ (2 <= 31)%nat
  /\ FockSpace.FockSpace 4 2 = Ok (example_fock_space 4 2)
  /\ Linalg.one_dim (Linalg.get_h example_parameters) = 4%nat
  /\ exists H diagonal,
       DOCI.constructHamiltonian (example_fock_space 4 2) example_parameters = Ok H
       /\ DOCI.calculateDiagonal (example_fock_space 4 2) example_parameters
          = Ok diagonal
       /\ Linalg.dim H = FockSpace.get_dimension (example_fock_space 4 2)
       /\ (forall I J, Linalg.entry H I J = Linalg.entry H J I)
       /\ (forall I, 0 <= I < FockSpace.get_dimension (example_fock_space 4 2) ->
             Linalg.entry H I I = Linalg.coeff diagonal I).
Proof.
  split; [lia|]. split; [lia|]. split; [lia|].
  split; [vm_compute; reflexivity|]. split; [reflexivity|].
  apply (X29_hamiltonian_symmetric_diagonal_matches_in_range (T:=Z) (ST:=Scalar_Z) Zth
           4 2 (example_fock_space 4 2) example_parameters).
  - lia.
  - lia.
  - lia.
  - vm_compute. reflexivity.
  - reflexivity.
Defined.

Lemma X28_matrix_vector_product_agrees_in_range_witness :
  (2 <= 4)%nat /\ (4 <= 54)%nat /\ (2 <= 31)%nat
  /\ FockSpace.FockSpace 4 2 = Ok (example_fock_space 4 2)
  /\ Linalg.one_dim (Linalg.get_h example_parameters) = 4%nat
  /\ exists diagonal H matvec,
       DOCI.calculateDiagonal (example_fock_space 4 2) example_parameters
       = Ok diagonal
       /\ DOCI.constructHamiltonian (example_fock_space 4 2) example_parameters
          = Ok H
       /\ DOCI.matrixVectorProduct (example_fock_space 4 2) example_parameters
            example_vector diagonal = Ok matvec
       /\ Linalg.size matvec
          = Linalg.size (Linalg.SquareMatrix_mul_vector H example_vector)
       /\ (forall a, 0 <= a < FockSpace.get_dimension (example_fock_space 4 2) ->
             Linalg.coeff matvec a
             = Linalg.coeff (Linalg.SquareMatrix_mul_vector H example_vector) a).
Proof.
  split; [lia|]. split; [lia|]. split; [lia|].
  split; [vm_compute; reflexivity|]. split; [reflexivity|].
  apply (X28_matrix_vector_product_agrees_in_range (T:=Z) (ST:=Scalar_Z) Zth
           4 2 (example_fock_space 4 2) example_parameters example_vector).
  - lia.
  - lia.
  - lia.
  - vm_compute. reflexivity.
  - reflexivity.
Defined.

(** * Further properties of the code *)

(** ** Fock spaces up to 54 orbitals *)

Lemma constructed_addressable : forall K N fs,
  (N <= K)%nat -> (K <= 54)%nat ->
  FockSpace.FockSpace K N = Ok fs ->
  addressable fs /\ FockSpace.K fs = K /\ FockSpace.N fs = N.
Proof.
  intros K N fs HN HK. unfold FockSpace.FockSpace.
  rewrite (calculateDimension_exact K N HN HK). cbn [bind].
  intros [= <-]. unfold addressable.
  cbn [FockSpace.K FockSpace.N FockSpace.dim FockSpace.vertex_weights].
  repeat split; try reflexivity; lia.
Qed.

Lemma well_formed_addressable : forall fs, well_formed fs -> addressable fs.
Proof.
  intros fs (HN & HK & _ & Hdim & HW). repeat split; assumption.
Qed.

Lemma choose_above_zero : forall n k, (n < k)%nat -> choose n k = 0.
Proof. intros n k H. apply choose_above. exact H. Qed.

Lemma addressable_weight : forall fs p m,
  addressable fs ->
  (p <= FockSpace.K fs)%nat -> (m <= FockSpace.N fs)%nat ->
  FockSpace.get_vertex_weights fs p m
  = weight (FockSpace.K fs) (FockSpace.N fs) p m.
Proof.
  intros fs p m (HN & HK & _ & HW) Hp Hm.
  unfold FockSpace.get_vertex_weights. rewrite HW.
  apply fill_vertex_weights_spec; assumption.
Qed.

Lemma addressable_choose : forall fs p m,
  addressable fs ->
  (p <= FockSpace.K fs)%nat -> (m <= FockSpace.N fs)%nat ->
  (p <= FockSpace.K fs - FockSpace.N fs + m)%nat ->
  FockSpace.get_vertex_weights fs p m = choose p m.
Proof.
  intros fs p m Ha Hp Hm Hband. rewrite addressable_weight by assumption.
  unfold weight.
  destruct (Nat.leb_spec m p); destruct (Nat.leb_spec p (FockSpace.K fs - FockSpace.N fs + m));
    cbn [andb]; try reflexivity; try lia.
  symmetry. apply choose_above. lia.
Qed.

(** The lowest set bit. *)
Lemma lowest_bit : forall (p : nat) (h : Z),
  0 <= h -> 2 ^ Z.of_nat p * (1 + 2 * h) < 2 ^ 64 ->
  Z.land (2 ^ Z.of_nat p * (1 + 2 * h))
         (wrap64 (- (2 ^ Z.of_nat p * (1 + 2 * h))))
  = 2 ^ Z.of_nat p.
Proof.
  intros p h Hh Hx.
  set (x := 2 ^ Z.of_nat p * (1 + 2 * h)).
  assert (Hp : 0 < 2 ^ Z.of_nat p) by (apply pow2_pos; lia).
  assert (Hxpos : 0 < x) by (unfold x; nia).
  assert (Hp64 : Z.of_nat p < 64).
  { destruct (Z.lt_ge_cases (Z.of_nat p) 64) as [|Hge]; [assumption|].
    assert (2 ^ 64 <= 2 ^ Z.of_nat p) by (apply Z.pow_le_mono_r; lia).
    unfold x in *. nia. }
  unfold wrap64. rewrite <- Z.land_ones by lia.
  rewrite Z.land_assoc.
  assert (E : Z.land x (- x) = 2 ^ Z.of_nat p).
  { replace (- x) with (Z.lnot (x - 1)) by (unfold Z.lnot; lia).
    apply Z.bits_inj'. intros i Hi.
    rewrite Z.land_spec, Z.lnot_spec by lia.
    replace (x - 1) with (Z.ones (Z.of_nat p) + 2 ^ Z.of_nat p * (2 * h)).
    2:{ unfold x. rewrite Z.ones_equiv. lia. }
    replace x with (0 + 2 ^ Z.of_nat p * (1 + 2 * h)) by (unfold x; lia).
    rewrite !testbit_split by (try lia; try (split; [lia|apply pow2_pos; lia]);
                               apply ones_range; lia).
    rewrite Z.pow2_bits_eqb by lia.
    destruct (Z.ltb_spec i (Z.of_nat p)).
    - rewrite Z.bits_0. destruct (Z.eqb_spec (Z.of_nat p) i); [lia|reflexivity].
    - destruct (Z.eqb_spec (Z.of_nat p) i) as [<-|Hne].
      + rewrite Z.sub_diag.
        replace (1 + 2 * h) with (2 * h + 1) by lia.
        rewrite Z.testbit_odd_0, Z.testbit_even_0. reflexivity.
      + replace (i - Z.of_nat p) with (Z.succ (i - Z.of_nat p - 1)) by lia.
        replace (1 + 2 * h) with (2 * h + 1) by lia.
        rewrite Z.testbit_odd_succ, Z.testbit_even_succ by lia.
        apply andb_negb_r. }
  rewrite E. rewrite Z.land_ones by lia. apply Z.mod_small.
  split; [lia|]. apply Z.pow_lt_mono_r; lia.
Qed.

Lemma clear_lowest_bit : forall (p : nat) (h : Z),
  0 <= h ->
  Z.lxor (2 ^ Z.of_nat p * (1 + 2 * h)) (2 ^ Z.of_nat p)
  = 2 ^ Z.of_nat (S p) * h.
Proof.
  intros p h Hh. apply Z.bits_inj'. intros i Hi.
  rewrite Z.lxor_spec.
  rewrite (testbit_pow2_mul (Z.of_nat p)), (testbit_pow2_mul (Z.of_nat (S p))) by lia.
  rewrite Z.pow2_bits_eqb by lia.
  replace (1 + 2 * h) with (2 * h + 1) by lia.
  destruct (Z.ltb_spec i (Z.of_nat p)); destruct (Z.ltb_spec i (Z.of_nat (S p)));
    destruct (Z.eqb_spec (Z.of_nat p) i); try lia; try reflexivity.
  - replace (i - Z.of_nat p) with 0 by lia. rewrite Z.testbit_odd_0. reflexivity.
  - replace (i - Z.of_nat p) with (Z.succ (i - Z.of_nat (S p))) by lia.
    rewrite Z.testbit_odd_succ by lia. apply xorb_false_r.
Qed.

(** The loop of [getAddress] adds the weights of the remaining electrons. *)
Lemma getAddress_loop_rank : forall fs,
  addressable fs ->
  forall l lo e address fuel,
    increasing_from lo l -> below (FockSpace.K fs) l ->
    (e + length l = FockSpace.N fs)%nat ->
    0 <= address -> address + rank e l < 2 ^ 64 ->
    (length l <= fuel)%nat ->
    FockSpace.getAddress_loop fuel fs (representation_of l) address e
    = address + rank e l.
Proof.
  intros fs Ha. pose proof Ha as (HN & HK & _ & _).
  induction l as [|p l IH]; intros lo e address fuel Hinc Hb Hlen Haddr Hsum Hfuel.
  - cbn [representation_of rank].
    destruct fuel; cbn [FockSpace.getAddress_loop]; rewrite ?Z.eqb_refl; lia.
  - destruct fuel as [|fuel]; [cbn [length] in Hfuel; lia|].
    cbn [increasing_from] in Hinc. destruct Hinc as [Hlo Hinc].
    inversion Hb as [|? ? Hp Hb']; subst.
    destruct (representation_of_multiple l (S p) Hinc) as (h & Hh & Eh).
    assert (Ex : representation_of (p :: l) = 2 ^ Z.of_nat p * (1 + 2 * h)).
    { cbn [representation_of]. rewrite Eh, Nat2Z.inj_succ, Z.pow_succ_r by lia. lia. }
    assert (Hx64 : 2 ^ Z.of_nat p * (1 + 2 * h) < 2 ^ 64).
    { rewrite <- Ex.
      pose proof (representation_of_range (p :: l) lo (FockSpace.K fs)
                    (conj Hlo Hinc) Hb) as Hr.
      assert (2 ^ Z.of_nat (FockSpace.K fs) <= 2 ^ 64)
        by (apply Z.pow_le_mono_r; lia).
      lia. }
    assert (Hp0 : 0 < 2 ^ Z.of_nat p) by (apply pow2_pos; lia).
    cbn [FockSpace.getAddress_loop]. rewrite Ex.
    destruct (Z.eqb_spec (2 ^ Z.of_nat p * (1 + 2 * h)) 0) as [E0|_]; [nia|].
    rewrite builtin_ctzl_odd_multiple by lia.
    rewrite lowest_bit, clear_lowest_bit by assumption.
    rewrite <- Eh.
    cbn [length] in Hlen, Hfuel.
    assert (Hroom : (p + length (p :: l) <= FockSpace.K fs)%nat).
    { apply (increasing_from_room (p :: l) p).
      - cbn [increasing_from]. split; [lia|exact Hinc].
      - exact Hb.
      - discriminate. }
    cbn [length] in Hroom.
    rewrite addressable_choose by (try assumption; lia).
    cbn [rank] in Hsum |- *.
    pose proof (rank_nonneg l (S e)).
    assert (0 <= choose p (S e)) by apply choose_nonneg.
    rewrite wrap64_small by lia.
    rewrite (IH (S p) (S e)); try assumption; lia.
Qed.

Lemma occupation_rank_range : forall fs l,
  addressable fs -> occupation fs l ->
  0 <= rank 0 l < FockSpace.dim fs.
Proof.
  intros fs l (HN & HK & Hdim & _) (Hinc & Hb & Hlen).
  split; [apply rank_nonneg|].
  rewrite Hdim, <- Hlen.
  apply (rank_lt_choose l 0 (FockSpace.K fs) Hinc Hb). lia.
Qed.

Lemma getAddress_rank : forall fs l,
  addressable fs -> occupation fs l ->
  FockSpace.getAddress fs (representation_of l) = rank 0 l.
Proof.
  intros fs l Ha Hocc.
  pose proof (occupation_rank_range fs l Ha Hocc) as Hr.
  pose proof Ha as (HN & HK & Hdim & _).
  pose proof Hocc as (Hinc & Hb & Hlen).
  unfold FockSpace.getAddress.
  rewrite (getAddress_loop_rank fs Ha l 0 0 0 64); try assumption; try lia.
  rewrite Hdim in Hr.
  pose proof (choose_lt_2_64 (FockSpace.K fs) (FockSpace.N fs) HK). lia.
Qed.

Lemma addressable_first_occupation : forall fs,
  addressable fs -> occupation fs (seq 0 (FockSpace.N fs)).
Proof.
  intros fs (HN & _). repeat split.
  - apply increasing_from_seq. lia.
  - apply below_seq. lia.
  - apply length_seq.
Qed.

Lemma addressable_below_64 : forall fs l,
  addressable fs -> occupation fs l -> below 64 l.
Proof.
  intros fs l (_ & HK & _) (_ & Hb & _).
  apply (below_weaken (FockSpace.K fs)); [lia|exact Hb].
Qed.

(** The occupation after the one of l, when l is not the last. *)
Lemma next_occupation_exists : forall fs l,
  addressable fs -> occupation fs l ->
  rank 0 l < FockSpace.dim fs - 1 ->
  exists l',
    occupation fs l'
    /\ FockSpace.ulongNextPermutation (representation_of l) = representation_of l'
    /\ rank 0 l' = rank 0 l + 1.
Proof.
  intros fs l Ha Hocc Hlast.
  pose proof Ha as (HN & HK & Hdim & _).
  pose proof Hocc as (Hinc & Hb & Hlen).
  assert (Hne : l <> []).
  { intros ->. cbn in Hlen. rewrite <- Hlen in Hdim. cbn in Hdim, Hlast.
    rewrite choose_n_0 in Hdim. lia. }
  destruct (lowest_run l 0 Hne Hinc) as (c & n & rest & E & Hn & _ & Hrest).
  subst l.
  assert (Hroom : (c + n < FockSpace.K fs)%nat).
  { apply (not_last_has_room c n rest); try assumption.
    rewrite Hlen, <- Hdim. lia. }
  exists (next_occupation c n rest). split; [|split].
  - repeat split.
    + apply next_occupation_increasing; assumption.
    + apply next_occupation_below; assumption.
    + rewrite next_occupation_length by assumption. exact Hlen.
  - apply ulongNextPermutation_representation_of; try assumption; try lia.
    destruct (below_app_inv _ _ _ Hb) as [_ Hbr].
    apply (below_weaken (FockSpace.K fs)); [lia|exact Hbr].
  - apply rank_next_occupation. exact Hn.
Qed.

(** Every address below the dimension is the address of an occupation. *)
Lemma rank_surjective : forall fs,
  addressable fs ->
  forall a : nat, Z.of_nat a < FockSpace.dim fs ->
    exists l, occupation fs l /\ rank 0 l = Z.of_nat a.
Proof.
  intros fs Ha. induction a as [|a IH]; intros Hdim.
  - exists (seq 0 (FockSpace.N fs)). split; [apply addressable_first_occupation, Ha|].
    rewrite rank_seq. cbn [Nat.add]. rewrite choose_diag. reflexivity.
  - destruct (IH ltac:(lia)) as (l & Hocc & Hrank).
    destruct (next_occupation_exists fs l Ha Hocc ltac:(lia)) as (l' & Hocc' & _ & Hr').
    exists l'. split; [exact Hocc'|lia].
Qed.

(** The loop of [calculateRepresentation] sets the bits of the occupation
    whose address it is given, as long as the int shift is exact. *)
Lemma calculateRepresentation_loop_rank : forall fs,
  addressable fs -> (FockSpace.K fs <= 31)%nat ->
  forall p low representation,
    increasing_from 0 low -> below p low -> low <> [] ->
    (p <= FockSpace.K fs)%nat ->
    (length low <= FockSpace.N fs)%nat ->
    (FockSpace.N fs - length low <= FockSpace.K fs - p)%nat ->
    FockSpace.calculateRepresentation_loop p fs (rank 0 low) representation
      (length low)
    = Z.lor representation (representation_of low).
Proof.
  intros fs Ha HK31. pose proof Ha as (HN & HK & _ & _).
  induction p as [|p IH]; intros low representation Hinc Hb Hne HpK Hlen Hroom.
  - destruct low as [|x low]; [contradiction|].
    inversion Hb; subst. lia.
  - cbn [FockSpace.calculateRepresentation_loop].
    rewrite addressable_choose by (try assumption; lia).
    destruct (exists_last Hne) as (low' & x & ->).
    rewrite rank_app in *. cbn [rank] in *. rewrite Nat.add_0_l in *.
    rewrite length_app in *. cbn [length] in *.
    replace (length low' + 1)%nat with (S (length low')) in * by lia.
    rewrite Z.add_0_r in *.
    destruct (below_app_inv _ _ _ Hb) as [Hb' Hbx].
    inversion Hbx as [|? ? Hx _]; subst.
    pose proof (increasing_from_prefix _ _ _ Hinc) as Hinc'.
    pose proof (increasing_from_suffix _ _ _ Hinc) as Hincx.
    cbn [increasing_from] in Hincx. destruct Hincx as [Hxlo _].
    pose proof (rank_nonneg low' 0) as Hr0.
    assert (Hbx' : below x low').
    { destruct (increasing_from_middle low' x [] 0 Hinc) as [_ Hm]. exact Hm. }
    assert (Hrlt : rank 0 low' < choose x (length low')).
    { apply (rank_lt_choose low' 0 x Hinc' Hbx'). lia. }
    destruct (Nat.eq_dec x p) as [->|Hxp].
    + (* orbital p is occupied *)
      destruct (Z.leb_spec (choose p (S (length low')))
                  (rank 0 low' + choose p (S (length low')))); [|lia].
      replace (rank 0 low' + choose p (S (length low')) - choose p (S (length low')))
        with (rank 0 low') by lia.
      assert (Hr64 : rank 0 low' < 2 ^ 64).
      { pose proof (choose_lt_2_64 p (length low') ltac:(lia)). lia. }
      rewrite (wrap64_small (rank 0 low')) by lia.
      rewrite int_one_shl_small by lia.
      cbn [Nat.sub]. rewrite Nat.sub_0_r.
      rewrite representation_of_app. cbn [representation_of]. rewrite Z.add_0_r.
      pose proof (representation_of_range low' 0 p Hinc' Hbx') as Hrange.
      assert (El : Z.lor (2 ^ Z.of_nat p) (representation_of low')
                   = representation_of low' + 2 ^ Z.of_nat p).
      { rewrite Z.lor_comm.
        rewrite <- (Z.mul_1_r (2 ^ Z.of_nat p)) at 1.
        rewrite lor_disjoint by lia. lia. }
      destruct (Nat.eqb_spec (length low') 0) as [E0|Hn0].
      * apply length_zero_iff_nil in E0. subst low'.
        cbn [representation_of]. rewrite Z.add_0_l. reflexivity.
      * rewrite (IH low' (Z.lor representation (2 ^ Z.of_nat p)));
          try assumption; try lia.
        -- rewrite <- Z.lor_assoc, El. reflexivity.
        -- intros ->. cbn [length] in Hn0. lia.
    + (* orbital p is empty *)
      assert (Hb2 : below p (low' ++ [x])).
      { apply below_app; [apply (below_weaken x); [lia|exact Hbx']|].
        constructor; [lia|constructor]. }
      pose proof (rank_lt_choose (low' ++ [x]) 0 p Hinc Hb2 ltac:(lia)) as Hlt.
      rewrite rank_app in Hlt. cbn [rank] in Hlt.
      rewrite length_app in Hlt. cbn [length] in Hlt.
      replace (0 + (length low' + 1))%nat with (S (length low')) in Hlt by lia.
      rewrite Nat.add_0_l, Z.add_0_r in Hlt.
      destruct (Z.leb_spec (choose p (S (length low')))
                  (rank 0 low' + choose x (S (length low')))); [lia|].
      pose proof (IH (low' ++ [x]) representation Hinc Hb2 Hne) as IH'.
      rewrite rank_app, length_app in IH'. cbn [rank length] in IH'.
      replace (length low' + 1)%nat with (S (length low')) in IH' by lia.
      rewrite Nat.add_0_l, Z.add_0_r in IH'.
      apply IH'; lia.
Qed.

Lemma calculateRepresentation_rank : forall fs l,
  addressable fs -> (FockSpace.K fs <= 31)%nat -> occupation fs l ->
  FockSpace.calculateRepresentation fs (rank 0 l) = representation_of l.
Proof.
  intros fs l Ha HK31 (Hinc & Hb & Hlen).
  unfold FockSpace.calculateRepresentation.
  destruct (Nat.eqb_spec (FockSpace.N fs) 0) as [E0|Hne].
  - destruct l; [reflexivity|]. cbn [length] in Hlen. lia.
  - rewrite <- Hlen.
    rewrite (calculateRepresentation_loop_rank fs Ha HK31 (FockSpace.K fs) l 0);
      try assumption; try lia.
    + apply Z.lor_0_l.
    + intros ->. cbn [length] in Hlen. lia.
Qed.

(** X1: in a Fock space built by the constructor for N <= K <= 54, the
    vertex weight at row p and column m is the binomial coefficient C(p, m)
    inside the band m <= p <= K - N + m and 0 outside of it. *)
Theorem X1_vertex_weights_are_binomials : forall K N fs p m,
  (N <= K)%nat -> (K <= 54)%nat ->
  FockSpace.FockSpace K N = Ok fs ->
  (p <= K)%nat -> (m <= N)%nat ->
  FockSpace.get_vertex_weights fs p m
  = if (m <=? p)%nat && (p <=? K - N + m)%nat then choose p m else 0.
Proof.
  intros K N fs p m HN HK Hfs Hp Hm.
  destruct (constructed_addressable K N fs HN HK Hfs) as (Ha & <- & <-).
  apply (addressable_weight fs p m Ha Hp Hm).
Qed.

Lemma X1_vertex_weights_are_binomials_witness :
  (2 <= 5)%nat /\ (5 <= 54)%nat
  /\ FockSpace.FockSpace 5 2 = Ok (example_fock_space 5 2)
  /\ (4 <= 5)%nat /\ (2 <= 2)%nat
  /\ FockSpace.get_vertex_weights (example_fock_space 5 2) 4 2
     = if (2 <=? 4)%nat && (4 <=? 5 - 2 + 2)%nat then choose 4 2 else 0.
Proof.
  split; [lia|]. split; [lia|]. split; [vm_compute; reflexivity|].
  split; [lia|]. split; [lia|].
  apply (X1_vertex_weights_are_binomials 5 2 (example_fock_space 5 2) 4 2).
  - lia.
  - lia.
  - vm_compute. reflexivity.
  - lia.
  - lia.
Defined.

(** X2: for N <= K <= 54 the constructor succeeds, and the dimension it
    stores is the binomial coefficient C(K, N). *)
Theorem X2_constructor_dimension : forall K N,
  (N <= K)%nat -> (K <= 54)%nat ->
  exists fs,
    FockSpace.FockSpace K N = Ok fs
    /\ FockSpace.get_dimension fs = choose K N
    /\ FockSpace.get_K fs = K /\ FockSpace.get_N fs = N.
Proof.
  intros K N HN HK. unfold FockSpace.FockSpace.
  rewrite (calculateDimension_exact K N HN HK). cbn [bind].
  eexists. split; [reflexivity|]. repeat split.
Qed.

Lemma X2_constructor_dimension_witness :
  (3 <= 7)%nat /\ (7 <= 54)%nat
  /\ exists fs,
       FockSpace.FockSpace 7 3 = Ok fs
       /\ FockSpace.get_dimension fs = choose 7 3
       /\ FockSpace.get_K fs = 7%nat /\ FockSpace.get_N fs = 3%nat.
Proof.
  split; [lia|]. split; [lia|].
  apply (X2_constructor_dimension 7 3); lia.
Defined.

(** X3: with more electrons than orbitals the constructor throws the
    [std::domain_error] of Boost's binomial coefficient; no Fock space is
    built. *)
Theorem X3_more_electrons_than_orbitals : forall K N,
  (K < N)%nat -> Z.of_nat N < 2 ^ 32 ->
  FockSpace.FockSpace K N = Throw std_domain_error.
Proof.
  intros K N HKN HN. unfold FockSpace.FockSpace.
  rewrite (calculateDimension_N_above_K K N HKN HN). reflexivity.
Qed.

Lemma X3_more_electrons_than_orbitals_witness :
  (2 < 3)%nat /\ Z.of_nat 3 < 2 ^ 32
  /\ FockSpace.FockSpace 2 3 = Throw std_domain_error.
Proof.
  split; [lia|]. split; [vm_compute; reflexivity|].
  apply (X3_more_electrons_than_orbitals 2 3).
  - lia.
  - vm_compute. reflexivity.
Defined.

(** X4: [getAddress] of the bit pattern with the orbitals p_1 < ... < p_N
    occupied is C(p_1, 1) + ... + C(p_N, N), and lies below the dimension. *)
Theorem X4_getAddress_is_the_sum_of_binomials : forall K N fs l,
  (N <= K)%nat -> (K <= 54)%nat ->
  FockSpace.FockSpace K N = Ok fs ->
  occupation fs l ->
  FockSpace.getAddress fs (representation_of l) = rank 0 l
  /\ 0 <= FockSpace.getAddress fs (representation_of l) < FockSpace.get_dimension fs.
Proof.
  intros K N fs l HN HK Hfs Hocc.
  destruct (constructed_addressable K N fs HN HK Hfs) as (Ha & _).
  rewrite (getAddress_rank fs l Ha Hocc). split; [reflexivity|].
  apply (occupation_rank_range fs l Ha Hocc).
Qed.

Lemma X4_getAddress_is_the_sum_of_binomials_witness :
  (2 <= 4)%nat /\ (4 <= 54)%nat
  /\ FockSpace.FockSpace 4 2 = Ok (example_fock_space 4 2)
  /\ occupation (example_fock_space 4 2) [1; 3]%nat
  /\ FockSpace.getAddress (example_fock_space 4 2) (representation_of [1; 3]%nat)
     = rank 0 [1; 3]%nat
  /\ 0 <= FockSpace.getAddress (example_fock_space 4 2)
            (representation_of [1; 3]%nat)
       < FockSpace.get_dimension (example_fock_space 4 2).
Proof.
  assert (Hocc : occupation (example_fock_space 4 2) [1; 3]%nat).
  { vm_compute. repeat split; try lia. repeat constructor. }
  split; [lia|]. split; [lia|]. split; [vm_compute; reflexivity|].
  split; [exact Hocc|].
  apply (X4_getAddress_is_the_sum_of_binomials 4 2 (example_fock_space 4 2)
           [1; 3]%nat).
  - lia.
  - lia.
  - vm_compute. reflexivity.
  - exact Hocc.
Defined.

(** X5: on the bit pattern of an ONV that is not the last of its Fock space,
    [ulongNextPermutation] gives the bit pattern of an ONV of the same Fock
    space, and its address is the next one. *)
Theorem X5_next_permutation_has_the_next_address : forall K N fs l,
  (N <= K)%nat -> (K <= 54)%nat ->
  FockSpace.FockSpace K N = Ok fs ->
  occupation fs l ->
  FockSpace.getAddress fs (representation_of l) < FockSpace.get_dimension fs - 1 ->
  (exists l', occupation fs l'
              /\ FockSpace.ulongNextPermutation (representation_of l)
                 = representation_of l')
  /\ FockSpace.getAddress fs (FockSpace.ulongNextPermutation (representation_of l))
     = FockSpace.getAddress fs (representation_of l) + 1.
Proof.
  intros K N fs l HN HK Hfs Hocc Hlast.
  destruct (constructed_addressable K N fs HN HK Hfs) as (Ha & _).
  rewrite (getAddress_rank fs l Ha Hocc) in *.
  destruct (next_occupation_exists fs l Ha Hocc Hlast) as (l' & Hocc' & E & Hr).
  split; [exists l'; split; assumption|].
  rewrite E, (getAddress_rank fs l' Ha Hocc'). exact Hr.
Qed.

Lemma X5_next_permutation_has_the_next_address_witness :
  (2 <= 4)%nat /\ (4 <= 54)%nat
  /\ FockSpace.FockSpace 4 2 = Ok (example_fock_space 4 2)
  /\ occupation (example_fock_space 4 2) [1; 2]%nat
  /\ FockSpace.getAddress (example_fock_space 4 2) (representation_of [1; 2]%nat)
     < FockSpace.get_dimension (example_fock_space 4 2) - 1
  /\ (exists l', occupation (example_fock_space 4 2) l'
                 /\ FockSpace.ulongNextPermutation (representation_of [1; 2]%nat)
                    = representation_of l')
  /\ FockSpace.getAddress (example_fock_space 4 2)
       (FockSpace.ulongNextPermutation (representation_of [1; 2]%nat))
     = FockSpace.getAddress (example_fock_space 4 2)
         (representation_of [1; 2]%nat) + 1.
Proof.
  assert (Hocc : occupation (example_fock_space 4 2) [1; 2]%nat).
  { vm_compute. repeat split; try lia. repeat constructor. }
  split; [lia|]. split; [lia|]. split; [vm_compute; reflexivity|].
  split; [exact Hocc|]. split; [vm_compute; reflexivity|].
  apply (X5_next_permutation_has_the_next_address 4 2 (example_fock_space 4 2)
           [1; 2]%nat).
  - lia.
  - lia.
  - vm_compute. reflexivity.
  - exact Hocc.
  - vm_compute. reflexivity.
Defined.

(** X6: up to 31 orbitals [calculateRepresentation] undoes [getAddress] on
    the bit pattern of every ONV of the Fock space. *)
Theorem X6_representation_of_the_address : forall K N fs l,
  (N <= K)%nat -> (K <= 31)%nat ->
  FockSpace.FockSpace K N = Ok fs ->
  occupation fs l ->
  FockSpace.calculateRepresentation fs
    (FockSpace.getAddress fs (representation_of l))
  = representation_of l.
Proof.
  intros K N fs l HN HK Hfs Hocc.
  destruct (constructed_addressable K N fs HN ltac:(lia) Hfs) as (Ha & EK & _).
  rewrite (getAddress_rank fs l Ha Hocc).
  apply (calculateRepresentation_rank fs l Ha ltac:(lia) Hocc).
Qed.

Lemma X6_representation_of_the_address_witness :
  (2 <= 4)%nat /\ (4 <= 31)%nat
  /\ FockSpace.FockSpace 4 2 = Ok (example_fock_space 4 2)
  /\ occupation (example_fock_space 4 2) [0; 3]%nat
  /\ FockSpace.calculateRepresentation (example_fock_space 4 2)
       (FockSpace.getAddress (example_fock_space 4 2)
          (representation_of [0; 3]%nat))
     = representation_of [0; 3]%nat.
Proof.
  assert (Hocc : occupation (example_fock_space 4 2) [0; 3]%nat).
  { vm_compute. repeat split; try lia. repeat constructor. }
  split; [lia|]. split; [lia|]. split; [vm_compute; reflexivity|].
  split; [exact Hocc|].
  apply (X6_representation_of_the_address 4 2 (example_fock_space 4 2)
           [0; 3]%nat).
  - lia.
  - lia.
  - vm_compute. reflexivity.
  - exact Hocc.
Defined.

(** X7: up to 31 orbitals [calculateRepresentation] of an address below the
    dimension is the bit pattern of an ONV of the Fock space, and
    [getAddress] gives the address back. *)
Theorem X7_address_of_the_representation : forall K N fs a,
  (N <= K)%nat -> (K <= 31)%nat ->
  FockSpace.FockSpace K N = Ok fs ->
  0 <= a < FockSpace.get_dimension fs ->
  (exists l, occupation fs l
             /\ FockSpace.calculateRepresentation fs a = representation_of l)
  /\ FockSpace.getAddress fs (FockSpace.calculateRepresentation fs a) = a.
Proof.
  intros K N fs a HN HK Hfs Hrange.
  destruct (constructed_addressable K N fs HN ltac:(lia) Hfs) as (Ha & EK & _).
  destruct (rank_surjective fs Ha (Z.to_nat a)) as (l & Hocc & Hr).
  { unfold FockSpace.get_dimension in Hrange. lia. }
  rewrite Z2Nat.id in Hr by lia. rewrite <- Hr.
  rewrite (calculateRepresentation_rank fs l Ha ltac:(lia) Hocc).
  split; [exists l; split; [exact Hocc|reflexivity]|].
  apply (getAddress_rank fs l Ha Hocc).
Qed.

Lemma X7_address_of_the_representation_witness :
  (2 <= 4)%nat /\ (4 <= 31)%nat
  /\ FockSpace.FockSpace 4 2 = Ok (example_fock_space 4 2)
  /\ 0 <= 4 < FockSpace.get_dimension (example_fock_space 4 2)
  /\ (exists l, occupation (example_fock_space 4 2) l
                /\ FockSpace.calculateRepresentation (example_fock_space 4 2) 4
                   = representation_of l)
  /\ FockSpace.getAddress (example_fock_space 4 2)
       (FockSpace.calculateRepresentation (example_fock_space 4 2) 4) = 4.
Proof.
  split; [lia|]. split; [lia|]. split; [vm_compute; reflexivity|].
  split; [vm_compute; split; [discriminate|reflexivity]|].
  apply (X7_address_of_the_representation 4 2 (example_fock_space 4 2) 4).
  - lia.
  - lia.
  - vm_compute. reflexivity.
  - vm_compute. split; [discriminate|reflexivity].
Defined.

(** ** The moves of an electron to a higher empty orbital *)

Lemma occupied_In : forall l q, occupied l q = true <-> In q l.
Proof.
  intros l q. unfold occupied. rewrite existsb_exists. split.
  - intros (x & Hx & E). apply Nat.eqb_eq in E. subst. exact Hx.
  - intros H. exists q. split; [exact H|apply Nat.eqb_refl].
Qed.

Lemma occupied_app : forall l1 l2 q,
  occupied (l1 ++ l2) q = occupied l1 q || occupied l2 q.
Proof. intros. unfold occupied. apply existsb_app. Qed.

Lemma below_not_occupied : forall l q, below q l -> occupied l q = false.
Proof.
  intros l q Hb. destruct (occupied l q) eqn:E; [|reflexivity].
  apply occupied_In in E. unfold below in Hb. rewrite Forall_forall in Hb.
  specialize (Hb q E). lia.
Qed.

Lemma above_not_occupied : forall l q,
  increasing_from (S q) l -> occupied l q = false.
Proof.
  intros l q Hinc. unfold occupied.
  apply (existsb_eqb_below l (S q) q Hinc). lia.
Qed.

Lemma filter_all : forall (A : Type) (f : A -> bool) (l : list A),
  (forall x, In x l -> f x = true) -> filter f l = l.
Proof.
  intros A f. induction l as [|a l IH]; intros H; cbn; [reflexivity|].
  rewrite (H a (or_introl eq_refl)). f_equal. apply IH.
  intros x Hx. apply H. right. exact Hx.
Qed.

Lemma filter_none : forall (A : Type) (f : A -> bool) (l : list A),
  (forall x, In x l -> f x = false) -> filter f l = [].
Proof.
  intros A f. induction l as [|a l IH]; intros H; cbn; [reflexivity|].
  rewrite (H a (or_introl eq_refl)). apply IH.
  intros x Hx. apply H. right. exact Hx.
Qed.

Lemma increasing_from_In : forall l lo x,
  increasing_from lo l -> In x l -> (lo <= x)%nat.
Proof.
  induction l as [|a l IH]; intros lo x Hinc Hin; [contradiction|].
  cbn in Hinc. destruct Hinc as [Ha Hinc]. destruct Hin as [<-|Hin]; [exact Ha|].
  specialize (IH (S a) x Hinc Hin). lia.
Qed.

Lemma below_In : forall l K x, below K l -> In x l -> (x < K)%nat.
Proof.
  intros l K x Hb Hin. unfold below in Hb. rewrite Forall_forall in Hb.
  apply Hb. exact Hin.
Qed.

(** The shape of [excite] on a split occupation list. *)
Lemma excite_split : forall A p B C q,
  increasing_from 0 (A ++ p :: B) -> below q (A ++ p :: B) ->
  increasing_from (S q) C ->
  excite (A ++ p :: B ++ C) p q = (A ++ B) ++ q :: C.
Proof.
  intros A p B C q Hinc Hb HC. unfold excite.
  destruct (below_app_inv _ _ _ Hb) as [HbA HbpB].
  inversion HbpB as [|? ? Hpq HbB]; subst.
  destruct (increasing_from_middle A p B 0 Hinc) as [_ HAp].
  pose proof (increasing_from_suffix A (p :: B) 0 Hinc) as HpB.
  cbn [increasing_from] in HpB. destruct HpB as [_ HB].
  rewrite !filter_app. cbn [filter].
  rewrite Nat.eqb_refl, andb_false_r.
  replace (q <? p)%nat with false by (symmetry; apply Nat.ltb_ge; lia).
  rewrite !filter_app.
  rewrite (filter_all _ _ A), (filter_all _ _ B), (filter_none _ _ C),
          (filter_none _ _ A), (filter_none _ _ B), (filter_all _ _ C).
  - rewrite app_nil_r. reflexivity.
  - intros x Hx. apply Nat.ltb_lt. pose proof (increasing_from_In C (S q) x HC Hx). lia.
  - intros x Hx. apply Nat.ltb_ge. pose proof (below_In B q x HbB Hx). lia.
  - intros x Hx. apply Nat.ltb_ge. pose proof (below_In A q x HbA Hx). lia.
  - intros x Hx. pose proof (increasing_from_In C (S q) x HC Hx).
    replace (x <? q)%nat with false by (symmetry; apply Nat.ltb_ge; lia).
    reflexivity.
  - intros x Hx. pose proof (below_In B q x HbB Hx).
    pose proof (increasing_from_In B _ x HB Hx).
    apply andb_true_intro. split; [apply Nat.ltb_lt; lia|].
    apply negb_true_iff, Nat.eqb_neq. lia.
  - intros x Hx. pose proof (below_In A q x HbA Hx).
    pose proof (below_In A p x HAp Hx).
    apply andb_true_intro. split; [apply Nat.ltb_lt; lia|].
    apply negb_true_iff, Nat.eqb_neq. lia.
Qed.

Lemma virtuals_from_end : forall K l q, (K <= q)%nat -> virtuals_from K l q = [].
Proof.
  intros K l q H. unfold virtuals_from.
  replace (K - q)%nat with O by lia. reflexivity.
Qed.

Lemma virtuals_from_free : forall K l q,
  (q < K)%nat -> occupied l q = false ->
  virtuals_from K l q = q :: virtuals_from K l (S q).
Proof.
  intros K l q H Hq. unfold virtuals_from.
  replace (K - q)%nat with (S (K - S q)) by lia.
  cbn [seq filter]. rewrite Hq. reflexivity.
Qed.

Lemma virtuals_from_run : forall K l n q,
  (forall x, (q <= x < q + n)%nat -> occupied l x = true) ->
  (q + n <= K)%nat ->
  virtuals_from K l q = virtuals_from K l (q + n).
Proof.
  intros K l. induction n as [|n IH]; intros q Hocc Hle.
  - rewrite Nat.add_0_r. reflexivity.
  - unfold virtuals_from at 1.
    replace (K - q)%nat with (S (K - S q)) by lia.
    cbn [seq filter]. rewrite (Hocc q) by lia. cbn [negb].
    fold (virtuals_from K l (S q)).
    rewrite (IH (S q)); [f_equal; lia| |lia].
    intros x Hx. apply Hocc. lia.
Qed.

Section Excitations.

Variable fs : FockSpace.t.
Hypothesis Hwf : well_formed fs.

Variable l : list nat.
Hypothesis Hocc : occupation fs l.

Variables (A : list nat) (p : nat) (T : list nat).
Hypothesis Hsplit : l = A ++ p :: T.

Local Abbreviation K := (FockSpace.K fs).
Local Abbreviation N := (FockSpace.N fs).
Local Abbreviation e1 := (length A).
Local Abbreviation onv := (onv_of fs l).

(** The shift loop passes a run of occupied orbitals. *)
Lemma shift_run : forall C B q address,
  cursor l A p T B C q address ->
  exists n C' address',
    C = seq q n ++ C'
    /\ FockSpace.shiftUntilNextUnoccupiedOrbital_loop (length C) 1 fs onv
         address q (S (e1 + length B))
       = (address', (q + n)%nat, S (e1 + length B + n))
    /\ cursor l A p T (B ++ seq q n) C' (q + n) address'
    /\ increasing_from (S (q + n)) C'.
Proof.
  induction C as [|c0 C IH]; intros B q address Hcur.
  - exists O, [], address. cbn [seq app length FockSpace.shiftUntilNextUnoccupiedOrbital_loop].
    rewrite !Nat.add_0_r, app_nil_r. repeat split; auto; apply Hcur.
  - pose proof Hcur as (HT & Hbq & Hinc & Hadr).
    pose proof (length_split fs l Hocc A p T Hsplit B (c0 :: C) HT) as HN.
    cbn [length] in HN.
    cbn [FockSpace.shiftUntilNextUnoccupiedOrbital_loop length].
    rewrite (occupied_at fs l A p T Hsplit B (c0 :: C) HT). cbn [hd].
    destruct (Nat.ltb_spec (S (e1 + length B)) N) as [_|Hge]; [|lia].
    cbn [andb]. cbn [increasing_from] in Hinc. destruct Hinc as [Hqc Hinc].
    destruct (Nat.eqb_spec q c0) as [<-|Hne].
    + destruct (upper_part fs l Hocc A p T Hsplit B (q :: C) HT) as (Hpre & HbC & HbP).
      assert (Hroom : (q + length (q :: C) <= K)%nat).
      { apply increasing_from_room; [|exact HbC|discriminate].
        cbn. split; [lia|exact Hinc]. }
      cbn [length] in Hroom.
      replace (S (e1 + length B) + 1 - 1)%nat with (S (e1 + length B)) by lia.
      rewrite (cursor_weight fs Hwf l Hocc A p T Hsplit B (q :: C) q
                 (S (e1 + length B)) HT) by (cbn [length]; lia).
      rewrite (cursor_weight fs Hwf l Hocc A p T Hsplit B (q :: C) q
                 (S (e1 + length B) + 1) HT) by (cbn [length]; lia).
      assert (Hcur' : cursor l A p T (B ++ [q]) C (S q)
                (wrap64 (address
                         + wrap64 (choose q (S (e1 + length B))
                                   - choose q (S (e1 + length B) + 1))))).
      { unfold cursor. repeat split.
        - rewrite HT, <- app_assoc. reflexivity.
        - replace (A ++ p :: B ++ [q]) with ((A ++ p :: B) ++ [q])
            by (rewrite <- app_assoc; reflexivity).
          apply below_app; [|constructor; [lia|constructor]].
          apply (below_weaken q); [lia|exact Hbq].
        - exact Hinc.
        - rewrite Hadr, wrap64_add_r, wrap64_add_l. f_equal.
          rewrite !rank_app. cbn [rank].
          replace (S (S e1 + length B)) with (S (e1 + length B) + 1)%nat by lia.
          ring. }
      destruct (IH (B ++ [q]) (S q) _ Hcur') as (n & C' & a' & EC & E & Hc' & Hi').
      exists (S n), C', a'.
      rewrite length_app in E. cbn [length] in E.
      replace (S (e1 + (length B + 1))) with (S (S (e1 + length B))) in E by lia.
      replace (S (e1 + (length B + 1) + n)) with (S (e1 + length B + S n)) in E by lia.
      replace (S q + n)%nat with (q + S n)%nat in * by lia.
      rewrite <- app_assoc in Hc'. cbn [app] in Hc'.
      split; [cbn [seq app]; f_equal; exact EC|].
      split; [exact E|]. split; [exact Hc'|exact Hi'].
    + exists O, (c0 :: C), address. cbn [seq app].
      rewrite !Nat.add_0_r, app_nil_r. split; [reflexivity|].
      split; [reflexivity|]. split; [exact Hcur|].
      cbn [increasing_from]. split; [lia|exact Hinc].
Qed.

(** The address that a creation at the cursor reaches is the address of the
    occupation list after the move. *)
Lemma cursor_target_exact : forall B C q address,
  cursor l A p T B C q address -> increasing_from (S q) C -> (q < K)%nat ->
  wrap64 (address + FockSpace.get_vertex_weights fs q (S (e1 + length B)))
  = rank 0 (excite l p q)
  /\ occupation fs (excite l p q).
Proof.
  intros B C q address (HT & Hbq & Hinc & Hadr) HincS HqK.
  destruct (upper_part fs l Hocc A p T Hsplit B C HT) as (Hpre & HbC & HbP).
  pose proof (length_split fs l Hocc A p T Hsplit B C HT) as HN.
  assert (Hroom : (q + length C <= K)%nat).
  { destruct C as [|c0 C']; [cbn; lia|].
    pose proof (increasing_from_room (c0 :: C') (S q) K HincS HbC ltac:(discriminate)).
    lia. }
  rewrite (cursor_weight fs Hwf l Hocc A p T Hsplit B C q (S (e1 + length B)) HT)
    by lia.
  rewrite Hadr, wrap64_add_l.
  assert (El : excite l p q = (A ++ B) ++ q :: C).
  { rewrite Hsplit, HT. apply excite_split; assumption. }
  rewrite El.
  set (l' := (A ++ B) ++ q :: C).
  assert (Hinc' : increasing_from 0 l').
  { apply (increasing_from_app _ _ 0 q).
    - apply (increasing_from_remove A p B). exact Hpre.
    - apply below_app_inv in Hbq. destruct Hbq as [H1 H2].
      inversion H2; subst. apply below_app; assumption.
    - lia.
    - cbn. split; [lia|exact HincS]. }
  assert (Hb' : below K l').
  { apply below_app_inv in HbP. destruct HbP as [H1 H2]. inversion H2; subst.
    apply below_app; [apply below_app; assumption|].
    constructor; [exact HqK|exact HbC]. }
  assert (Hlen' : length l' = N).
  { unfold l'. rewrite !length_app. cbn [length]. lia. }
  assert (Erank' : rank 0 l'
                   = rank 0 A + rank e1 B + choose q (S (e1 + length B))
                     + rank (S (e1 + length B)) C).
  { unfold l'. rewrite !rank_app. cbn [rank Nat.add].
    rewrite length_app. ring. }
  assert (Erank : rank 0 l
                  = rank 0 A + choose p (S e1) + rank (S e1) B
                    + rank (S (e1 + length B)) C).
  { rewrite Hsplit, HT. rewrite rank_app. cbn [rank Nat.add].
    rewrite rank_app. replace (S e1 + length B)%nat with (S (e1 + length B)) by lia.
    ring. }
  pose proof (rank_lt_choose l' 0 K Hinc' Hb' ltac:(lia)) as Hup.
  rewrite Hlen' in Hup. cbn [Nat.add] in Hup.
  pose proof (rank_nonneg l' 0).
  pose proof (choose_lt_2_64 K N ltac:(destruct Hwf as (_ & ? & _); lia)).
  split; [|repeat split; assumption].
  rewrite <- (wrap64_small (rank 0 l')) by lia. f_equal. lia.
Qed.

(** The creation loop visits the empty orbitals from q on, in order, each
    with the address of the occupation list that the move gives. *)
Lemma creation_couplings_exact : forall fuel B C q address,
  cursor l A p T B C q address -> increasing_from (S q) C -> (K - q <= fuel)%nat ->
  creation_couplings fuel fs K onv address q (S (e1 + length B))
  = map (fun q' => (rank 0 (excite l p q'), q')) (virtuals_from K l q).
Proof.
  induction fuel as [|fuel IH]; intros B C q address Hcur HincS Hfuel.
  - cbn [creation_couplings]. rewrite virtuals_from_end by lia. reflexivity.
  - cbn [creation_couplings].
    destruct (Nat.ltb_spec q K) as [HqK|HqK];
      [|rewrite virtuals_from_end by lia; reflexivity].
    pose proof Hcur as (HT & Hbq & Hinc & Hadr).
    destruct (upper_part fs l Hocc A p T Hsplit B C HT) as (Hpre & HbC & HbP).
    assert (Hfree : occupied l q = false).
    { rewrite Hsplit, HT.
      replace (A ++ p :: B ++ C) with ((A ++ p :: B) ++ C)
        by (rewrite <- app_assoc; reflexivity).
      rewrite occupied_app, (below_not_occupied _ q Hbq),
              (above_not_occupied C q HincS). reflexivity. }
    rewrite (virtuals_from_free K l q HqK Hfree). cbn [map].
    destruct (cursor_target_exact B C q address Hcur HincS HqK) as [EJ _].
    rewrite EJ.
    assert (Hcur1 : cursor l A p T B C (S q) address).
    { unfold cursor. repeat split; try assumption.
      apply (below_weaken q); [lia|exact Hbq]. }
    destruct (shift_run C B (S q) address Hcur1) as (n & C' & a' & EC & E & Hc' & Hi').
    unfold FockSpace.shiftUntilNextUnoccupiedOrbital.
    replace (N - S (e1 + length B))%nat with (length C)
      by (pose proof (length_split fs l Hocc A p T Hsplit B C HT); lia).
    rewrite E. f_equal.
    assert (Hroom : (S q + n <= K)%nat).
    { assert (Hlen : length (seq (S q) n) = n) by apply length_seq.
      destruct n as [|n]; [lia|].
      assert (Hin : In (S q + n)%nat C).
      { rewrite EC. apply in_or_app. left. apply in_seq. lia. }
      pose proof (below_In C K _ HbC Hin). lia. }
    replace (S (e1 + length B + n)) with (S (e1 + length (B ++ seq (S q) n)))
      by (rewrite length_app, length_seq; lia).
    rewrite (IH (B ++ seq (S q) n) C' (S q + n)%nat a' Hc' Hi') by lia.
    f_equal. symmetry. apply virtuals_from_run; [|exact Hroom].
    intros x Hx. apply occupied_In. rewrite Hsplit, HT, EC.
    apply in_or_app. right. right. apply in_or_app. right.
    apply in_or_app. left. apply in_seq. lia.
Qed.

End Excitations.

Lemma electron_couplings_exact : forall fs l e1,
  well_formed fs -> occupation fs l -> (e1 < FockSpace.N fs)%nat ->
  electron_couplings fs (FockSpace.K fs) (onv_of fs l) (rank 0 l) e1
  = map (fun q => (rank 0 (excite l (nth e1 l O) q), nth e1 l O, q))
        (virtuals_from (FockSpace.K fs) l (S (nth e1 l O))).
Proof.
  intros fs l e1 Hwf Hocc He1.
  pose proof Hwf as (HN & HK & HN31 & Hdim & HW).
  pose proof Hocc as (Hinc & Hb & Hlen).
  destruct (nth_split_at l e1 ltac:(lia)) as [Hsplit HlenA].
  unfold electron_couplings.
  assert (Ep : ONV.get_occupation_index (onv_of fs l) e1 = nth e1 l O) by reflexivity.
  rewrite Ep. clear Ep.
  remember (firstn e1 l) as A eqn:HeqA. remember (nth e1 l O) as p0 eqn:Heqp0.
  remember (skipn (S e1) l) as T eqn:HeqT. clear HeqA Heqp0 HeqT.
  assert (Hmid : (0 <= p0)%nat /\ below p0 A).
  { apply (increasing_from_middle A p0 T). rewrite <- Hsplit. exact Hinc. }
  assert (HincT : increasing_from (S p0) T).
  { rewrite Hsplit in Hinc. apply increasing_from_suffix in Hinc.
    cbn in Hinc. apply Hinc. }
  assert (HbT : below (FockSpace.K fs) (p0 :: T)).
  { rewrite Hsplit in Hb. apply below_app_inv in Hb. apply Hb. }
  assert (Hroom : (p0 + length (p0 :: T) <= FockSpace.K fs)%nat).
  { apply increasing_from_room; [|exact HbT|discriminate].
    cbn. split; [lia|exact HincT]. }
  assert (HlenT : length l = (e1 + S (length T))%nat).
  { rewrite Hsplit at 1. rewrite length_app. cbn [length]. lia. }
  cbn [length] in Hroom.
  replace (e1 + 1)%nat with (S e1) by lia.
  replace (p0 + 1)%nat with (S p0) by lia.
  rewrite get_vertex_weights_choose by (try assumption; lia).
  assert (Hcur : cursor l A p0 T [] T (S p0)
                   (wrap64 (rank 0 l - choose p0 (S e1)))).
  { unfold cursor. repeat split.
    - apply below_app; [|constructor; [lia|constructor]].
      apply (below_weaken p0); [lia|apply Hmid].
    - exact HincT.
    - rewrite HlenA. cbn [rank]. f_equal. ring. }
  destruct (shift_run fs Hwf l Hocc A p0 T Hsplit T [] (S p0) _ Hcur)
    as (n & C' & a' & EC & E & Hc' & Hi').
  unfold FockSpace.shiftUntilNextUnoccupiedOrbital.
  replace (FockSpace.N fs - S e1)%nat with (length T) by lia.
  cbn [length app] in E, Hc'. rewrite HlenA, Nat.add_0_r in E.
  rewrite E.
  assert (Hroom' : (S p0 + n <= FockSpace.K fs)%nat).
  { destruct n as [|n]; [lia|].
    assert (Hin : In (S p0 + n)%nat T).
    { rewrite EC. apply in_or_app. left. apply in_seq. lia. }
    pose proof (below_In T _ _ (Forall_inv_tail HbT) Hin). lia. }
  replace (S (e1 + n)) with (S (length A + length (seq (S p0) n)))
    by (rewrite length_seq; lia).
  rewrite (creation_couplings_exact fs Hwf l Hocc A p0 T Hsplit _ _ C' _ a' Hc' Hi')
    by lia.
  rewrite map_map.
  rewrite (virtuals_from_run (FockSpace.K fs) l n (S p0)); [reflexivity| |exact Hroom'].
  intros x Hx. apply occupied_In. rewrite Hsplit, EC.
  apply in_or_app. right. right. apply in_or_app. left. apply in_seq. lia.
Qed.

Lemma flat_map_nth_from : forall (E : Type) (g : nat -> list E) (l pre : list nat),
  flat_map (fun e => g (nth e (pre ++ l) O)) (seq (length pre) (length l))
  = flat_map g l.
Proof.
  intros E g. induction l as [|a l IH]; intros pre; cbn [length seq flat_map].
  - reflexivity.
  - rewrite nth_middle. f_equal.
    replace (pre ++ a :: l) with ((pre ++ [a]) ++ l)
      by (rewrite <- app_assoc; reflexivity).
    replace (S (length pre)) with (length (pre ++ [a]))
      by (rewrite length_app; cbn [length]; lia).
    apply IH.
Qed.

Lemma flat_map_nth : forall (E : Type) (g : nat -> list E) (l : list nat),
  flat_map (fun e => g (nth e l O)) (seq 0 (length l)) = flat_map g l.
Proof. intros E g l. apply (flat_map_nth_from E g l []). Qed.

Lemma flat_map_pointwise : forall (A B : Type) (f g : A -> list B) (l : list A),
  (forall x, In x l -> f x = g x) -> flat_map f l = flat_map g l.
Proof.
  intros A B f g. induction l as [|a l IH]; intros H; cbn; [reflexivity|].
  rewrite (H a (or_introl eq_refl)), IH; [reflexivity|].
  intros x Hx. apply H. right. exact Hx.
Qed.

Lemma map_flat_map_pairs : forall (A B C : Type) (h : A -> B -> C)
    (v : A -> list B) (l : list A),
  flat_map (fun a => map (fun b => h a b) (v a)) l
  = map (fun ab => h (fst ab) (snd ab)) (flat_map (fun a => map (pair a) (v a)) l).
Proof.
  intros A B C h v. induction l as [|a l IH]; cbn; [reflexivity|].
  rewrite map_app, map_map, IH. reflexivity.
Qed.

(** The couplings that the DOCI loops visit at the ONV of l are the moves of
    one electron to a higher empty orbital, each with the address of the
    occupation list it gives. *)
Lemma onv_couplings_exact : forall fs l,
  well_formed fs -> occupation fs l ->
  onv_couplings fs (FockSpace.K fs) (onv_of fs l) (rank 0 l)
  = map (fun pq => (rank 0 (excite l (fst pq) (snd pq)), fst pq, snd pq))
        (excitations (FockSpace.K fs) l).
Proof.
  intros fs l Hwf Hocc. pose proof Hocc as (_ & _ & Hlen).
  unfold onv_couplings, excitations, FockSpace.get_N.
  rewrite <- (map_flat_map_pairs nat nat (Z * nat * nat)
                (fun p q => (rank 0 (excite l p q), p, q))).
  rewrite <- (flat_map_nth _
                (fun p => map (fun q => (rank 0 (excite l p q), p, q))
                              (virtuals_from (FockSpace.K fs) l (S p))) l).
  rewrite Hlen. apply flat_map_pointwise. intros e He. apply in_seq in He.
  apply electron_couplings_exact; [exact Hwf|exact Hocc|lia].
Qed.

Lemma In_virtuals_from : forall K l q x,
  In x (virtuals_from K l q) <-> occupied l x = false /\ (q <= x < K)%nat.
Proof.
  intros K l q x. unfold virtuals_from. rewrite filter_In, in_seq, negb_true_iff.
  split; intros [H1 H2]; split; try assumption; lia.
Qed.

Lemma In_excitations : forall K l p q,
  In (p, q) (excitations K l)
  <-> In p l /\ occupied l q = false /\ (p < q < K)%nat.
Proof.
  intros K l p q. unfold excitations. rewrite in_flat_map. split.
  - intros (p' & Hp' & Hin). apply in_map_iff in Hin.
    destruct Hin as (q' & E & Hq'). inversion E; subst.
    apply In_virtuals_from in Hq'. destruct Hq' as [Hfree Hr].
    split; [exact Hp'|]. split; [exact Hfree|lia].
  - intros (Hp & Hfree & Hr). exists p. split; [exact Hp|].
    apply in_map. apply In_virtuals_from. split; [exact Hfree|lia].
Qed.

(** An increasing list splits at an orbital that is not in it. *)
Lemma split_at_free : forall T lo q,
  increasing_from lo T -> occupied T q = false ->
  exists B C, T = B ++ C /\ below q B /\ increasing_from (S q) C.
Proof.
  induction T as [|a T IH]; intros lo q Hinc Hfree.
  - exists [], []. repeat split; constructor.
  - cbn [increasing_from] in Hinc. destruct Hinc as [Ha Hinc].
    unfold occupied in Hfree. cbn [existsb] in Hfree.
    apply orb_false_iff in Hfree. destruct Hfree as [Hqa Hfree].
    apply Nat.eqb_neq in Hqa.
    destruct (Nat.lt_ge_cases a q) as [Hlt|Hge].
    + destruct (IH (S a) q Hinc Hfree) as (B & C & E & HB & HC).
      exists (a :: B), C. split; [cbn; f_equal; exact E|].
      split; [constructor; assumption|exact HC].
    + exists [], (a :: T). split; [reflexivity|]. split; [constructor|].
      cbn [increasing_from]. split; [lia|exact Hinc].
Qed.

Lemma excitation_split : forall K l p q,
  increasing_from 0 l -> In (p, q) (excitations K l) ->
  exists A B C,
    l = A ++ p :: B ++ C
    /\ increasing_from 0 (A ++ p :: B) /\ below q (A ++ p :: B)
    /\ increasing_from (S q) C.
Proof.
  intros K l p q Hinc Hin. apply In_excitations in Hin.
  destruct Hin as (Hp & Hfree & Hr).
  destruct (in_split p l Hp) as (A & T & E). subst l.
  destruct (increasing_from_middle A p T 0 Hinc) as [_ HA].
  pose proof (increasing_from_suffix A (p :: T) 0 Hinc) as HT.
  cbn [increasing_from] in HT. destruct HT as [_ HT].
  rewrite occupied_app in Hfree. apply orb_false_iff in Hfree.
  destruct Hfree as [_ Hfree]. unfold occupied in Hfree. cbn [existsb] in Hfree.
  apply orb_false_iff in Hfree. destruct Hfree as [_ Hfree].
  destruct (split_at_free T _ q HT Hfree) as (B & C & E & HB & HC).
  subst T. exists A, B, C. split; [reflexivity|].
  split.
  - replace (A ++ p :: B ++ C) with ((A ++ p :: B) ++ C) in Hinc
      by (rewrite <- app_assoc; reflexivity).
    apply (increasing_from_prefix _ C). exact Hinc.
  - split; [|exact HC].
    apply below_app; [apply (below_weaken p); [lia|exact HA]|].
    constructor; [lia|exact HB].
Qed.

Lemma excite_representation : forall K l p q,
  increasing_from 0 l -> In (p, q) (excitations K l) ->
  representation_of (excite l p q)
  = representation_of l - 2 ^ Z.of_nat p + 2 ^ Z.of_nat q.
Proof.
  intros K l p q Hinc Hin.
  destruct (excitation_split K l p q Hinc Hin) as (A & B & C & E & H1 & H2 & H3).
  subst l. rewrite (excite_split A p B C q H1 H2 H3).
  rewrite !representation_of_app. cbn [representation_of].
  rewrite !representation_of_app. lia.
Qed.

Lemma excite_occupation : forall fs l p q,
  well_formed fs -> occupation fs l ->
  In (p, q) (excitations (FockSpace.K fs) l) ->
  occupation fs (excite l p q)
  /\ rank 0 l < rank 0 (excite l p q) < FockSpace.dim fs.
Proof.
  intros fs l p q Hwf Hocc Hin.
  assert (HJ : In (rank 0 (excite l p q), p, q)
                 (onv_couplings fs (FockSpace.K fs) (onv_of fs l) (rank 0 l))).
  { rewrite (onv_couplings_exact fs l Hwf Hocc).
    apply (in_map (fun pq => (rank 0 (excite l (fst pq) (snd pq)), fst pq, snd pq))
             _ (p, q) Hin). }
  split; [|apply (onv_couplings_in_range fs l _ p q Hwf Hocc HJ)].
  pose proof Hocc as (Hinc & Hb & Hlen).
  pose proof Hin as Hin'. apply In_excitations in Hin'.
  destruct Hin' as (_ & _ & Hr).
  destruct (excitation_split _ l p q Hinc Hin) as (A & B & C & E & H1 & H2 & H3).
  subst l. rewrite (excite_split A p B C q H1 H2 H3).
  replace (A ++ p :: B ++ C) with ((A ++ p :: B) ++ C) in Hb, Hlen
    by (rewrite <- app_assoc; reflexivity).
  destruct (below_app_inv _ _ _ Hb) as [HbP HbC].
  destruct (below_app_inv _ _ _ HbP) as [HbA HbpB].
  destruct (below_app_inv _ _ _ H2) as [HqA HqpB].
  repeat split.
  - apply (increasing_from_app _ _ 0 q).
    + apply (increasing_from_remove A p B). exact H1.
    + apply below_app; [exact HqA|apply (Forall_inv_tail HqpB)].
    + lia.
    + cbn [increasing_from]. split; [lia|exact H3].
  - apply below_app; [apply below_app; [exact HbA|apply (Forall_inv_tail HbpB)]|].
    constructor; [lia|exact HbC].
  - rewrite <- Hlen. rewrite !length_app. cbn [length]. rewrite ?length_app. lia.
Qed.

(** Two occupation lists of the same length with the same address are the
    same list. *)
Lemma rank_injective : forall n l1 l2,
  length l1 = n -> length l2 = n ->
  increasing_from 0 l1 -> increasing_from 0 l2 ->
  rank 0 l1 = rank 0 l2 -> l1 = l2.
Proof.
  induction n as [|n IH]; intros l1 l2 Hl1 Hl2 Hi1 Hi2 Hr.
  - apply length_zero_iff_nil in Hl1, Hl2. subst. reflexivity.
  - assert (Hne1 : l1 <> []) by (intros ->; discriminate).
    assert (Hne2 : l2 <> []) by (intros ->; discriminate).
    destruct (exists_last Hne1) as (l1' & x1 & ->).
    destruct (exists_last Hne2) as (l2' & x2 & ->).
    rewrite length_app in Hl1, Hl2. cbn [length] in Hl1, Hl2.
    assert (Hn1 : length l1' = n) by lia. assert (Hn2 : length l2' = n) by lia.
    rewrite !rank_app in Hr. cbn [rank] in Hr.
    rewrite Hn1, Hn2, !Nat.add_0_l, !Z.add_0_r in Hr.
    destruct (increasing_from_middle l1' x1 [] 0 Hi1) as [_ Hb1].
    destruct (increasing_from_middle l2' x2 [] 0 Hi2) as [_ Hb2].
    pose proof (increasing_from_prefix _ _ _ Hi1) as Hi1'.
    pose proof (increasing_from_prefix _ _ _ Hi2) as Hi2'.
    pose proof (rank_lt_choose l1' 0 x1 Hi1' Hb1 ltac:(lia)) as Hlt1.
    pose proof (rank_lt_choose l2' 0 x2 Hi2' Hb2 ltac:(lia)) as Hlt2.
    rewrite Hn1 in Hlt1. rewrite Hn2 in Hlt2. cbn [Nat.add] in Hlt1, Hlt2.
    pose proof (rank_nonneg l1' 0). pose proof (rank_nonneg l2' 0).
    pose proof (choose_S_S x1 n) as P1. pose proof (choose_S_S x2 n) as P2.
    assert (Ex : x1 = x2).
    { destruct (Nat.lt_trichotomy x1 x2) as [Hlt|[E|Hgt]]; [|exact E|].
      - pose proof (choose_mono (S x1) x2 (S n) ltac:(lia)). lia.
      - pose proof (choose_mono (S x2) x1 (S n) ltac:(lia)). lia. }
    subst x2. f_equal. apply IH; try assumption. lia.
Qed.

Lemma excite_from : forall l p q x,
  In x (excite l p q) -> x = q \/ In x l.
Proof.
  intros l p q x Hin. unfold excite in Hin. apply in_app_or in Hin.
  destruct Hin as [Hin|[E|Hin]].
  - apply filter_In in Hin. right. apply Hin.
  - left. symmetry. exact E.
  - apply filter_In in Hin. right. apply Hin.
Qed.

Lemma excite_not_left : forall l p q, (p < q)%nat -> ~ In p (excite l p q).
Proof.
  intros l p q Hpq Hin. unfold excite in Hin. apply in_app_or in Hin.
  destruct Hin as [Hin|[E|Hin]].
  - apply filter_In in Hin. destruct Hin as [_ Hc].
    apply andb_true_iff in Hc. destruct Hc as [_ Hne].
    rewrite Nat.eqb_refl in Hne. discriminate.
  - lia.
  - apply filter_In in Hin. destruct Hin as [_ Hc]. apply Nat.ltb_lt in Hc. lia.
Qed.

Lemma excite_keeps : forall l p q x,
  In x l -> x <> p -> (x < q)%nat -> In x (excite l p q).
Proof.
  intros l p q x Hx Hne Hlt. unfold excite. apply in_or_app. left.
  apply filter_In. split; [exact Hx|].
  apply andb_true_intro. split; [apply Nat.ltb_lt; exact Hlt|].
  apply negb_true_iff, Nat.eqb_neq. exact Hne.
Qed.

Lemma excite_reached : forall l p q, In q (excite l p q).
Proof. intros l p q. unfold excite. apply in_or_app. right. left. reflexivity. Qed.

(** The move is determined by the list it gives. *)
Lemma excite_injective : forall K l p q p' q',
  In (p, q) (excitations K l) -> In (p', q') (excitations K l) ->
  excite l p q = excite l p' q' -> p = p' /\ q = q'.
Proof.
  intros K l p q p' q' H H' E.
  apply In_excitations in H, H'.
  destruct H as (Hp & Hq & Hr). destruct H' as (Hp' & Hq' & Hr').
  assert (Eq : q = q').
  { pose proof (excite_reached l p q) as Hin. rewrite E in Hin.
    destruct (excite_from _ _ _ _ Hin) as [E'|Hl]; [exact E'|].
    apply occupied_In in Hl. congruence. }
  subst q'. split; [|reflexivity].
  destruct (Nat.eq_dec p p') as [Ep|Hne]; [exact Ep|].
  exfalso. apply (excite_not_left l p q ltac:(lia)).
  rewrite E. apply excite_keeps; [exact Hp|exact Hne|lia].
Qed.

Lemma NoDup_virtuals_from : forall K l q, NoDup (virtuals_from K l q).
Proof. intros. unfold virtuals_from. apply NoDup_filter, seq_NoDup. Qed.

Lemma increasing_from_NoDup : forall l lo, increasing_from lo l -> NoDup l.
Proof.
  induction l as [|a l IH]; intros lo H; [constructor|].
  cbn [increasing_from] in H. destruct H as [_ H]. constructor.
  - intros Hin. pose proof (increasing_from_In l (S a) a H Hin). lia.
  - apply (IH (S a)). exact H.
Qed.

Lemma NoDup_map_injective : forall (A B : Type) (f : A -> B) (l : list A),
  (forall x y, f x = f y -> x = y) -> NoDup l -> NoDup (map f l).
Proof.
  intros A B f l Hf H. induction H as [|x l Hx H IH]; cbn [map]; constructor.
  - intros Hin. apply in_map_iff in Hin. destruct Hin as (y & E & Hy).
    apply Hf in E. subst. contradiction.
  - exact IH.
Qed.

Lemma NoDup_map_pair : forall (a : nat) (l : list nat),
  NoDup l -> NoDup (map (pair a) l).
Proof.
  intros a l H. induction H as [|x l Hx H IH]; cbn [map]; constructor.
  - intros Hin. apply in_map_iff in Hin. destruct Hin as (y & E & Hy).
    inversion E; subst. contradiction.
  - exact IH.
Qed.

Lemma NoDup_excitations : forall K l lo,
  increasing_from lo l -> NoDup (excitations K l).
Proof.
  intros K l lo Hinc. pose proof (increasing_from_NoDup l lo Hinc) as Hnd.
  unfold excitations. clear Hinc.
  set (v := fun p => virtuals_from K l (S p)).
  assert (Hv : forall p, NoDup (v p)) by (intros; apply NoDup_virtuals_from).
  change (NoDup (flat_map (fun p => map (pair p) (v p)) l)).
  clearbody v.
  induction Hnd as [|a l Ha Hnd IH]; cbn [flat_map]; [constructor|].
  apply NoDup_app.
  - apply NoDup_map_pair, Hv.
  - exact IH.
  - intros [p q] H1 H2. apply in_map_iff in H1. destruct H1 as (q0 & E & _).
    inversion E; subst. apply in_flat_map in H2. destruct H2 as (p' & Hp' & H2).
    apply in_map_iff in H2. destruct H2 as (q1 & E' & _). inversion E'; subst.
    contradiction.
Qed.

(** ** The elements of the DOCI Hamiltonian *)

Section ElementsProofs.

Import Linalg.

Context {T : Type} {ST : Scalar T}.
Hypothesis Tring : ring_theory zero one add mul sub opp (@eq T).

Add Ring scalar_ring_elements : Tring.

Local Open Scope scalar_scope.

Lemma add_coupling_entry : forall (ham : HamiltonianParameters T) I cs M a b,
  a < b ->
  (forall J p q, In (J, p, q) cs -> I < J) ->
  entry (fold_left (add_coupling ham I) cs M) a b
  = if a =? I then row_value ham cs b (entry M a b) else entry M a b.
Proof.
  intros ham I. induction cs as [|[[J p] q] cs IH]; intros M a b Hab Hcs.
  - cbn. destruct (a =? I)%Z; reflexivity.
  - cbn [fold_left]. rewrite IH; [|exact Hab|].
    2:{ intros J' p' q' H'. apply (Hcs J' p' q'). right. exact H'. }
    assert (HJ : (I < J)%Z) by (apply (Hcs J p q); left; reflexivity).
    assert (E : entry (add_coupling ham I M (J, p, q)) a b
                = if (a =? I) && (b =? J)
                  then entry M a b + two_entry (get_g ham) p q p q
                  else entry M a b).
    { cbn [add_coupling entry SquareMatrix_add_at].
      destruct (Z.eqb_spec a I), (Z.eqb_spec b J), (Z.eqb_spec a J), (Z.eqb_spec b I);
        cbn [andb]; try reflexivity; lia. }
    rewrite E. unfold row_value. cbn [fold_left fst snd].
    rewrite (Z.eqb_sym J b).
    destruct (Z.eqb_spec a I); cbn [andb]; reflexivity.
Qed.

Lemma row_value_none : forall (ham : HamiltonianParameters T) cs J start,
  (forall c, In c cs -> fst (fst c) <> J) ->
  row_value ham cs J start = start.
Proof.
  intros ham. induction cs as [|c cs IH]; intros J start H; [reflexivity|].
  unfold row_value. cbn [fold_left].
  destruct (Z.eqb_spec (fst (fst c)) J) as [E|_].
  - exfalso. apply (H c); [left; reflexivity|exact E].
  - apply IH. intros c' Hc'. apply H. right. exact Hc'.
Qed.

Lemma row_value_single : forall (ham : HamiltonianParameters T) cs J start c0,
  NoDup cs -> In c0 cs -> fst (fst c0) = J ->
  (forall c, In c cs -> fst (fst c) = J -> c = c0) ->
  row_value ham cs J start
  = start + two_entry (get_g ham) (snd (fst c0)) (snd c0) (snd (fst c0)) (snd c0).
Proof.
  intros ham. induction cs as [|c cs IH]; intros J start c0 Hnd Hin HJ Huniq;
    [contradiction|].
  inversion Hnd as [|? ? Hc Hnd']; subst.
  unfold row_value. cbn [fold_left]. destruct Hin as [->|Hin].
  - rewrite Z.eqb_refl. apply row_value_none.
    intros c' Hc' E. apply Hc. rewrite <- (Huniq c' (or_intror Hc') E). exact Hc'.
  - destruct (Z.eqb_spec (fst (fst c)) (fst (fst c0))) as [E|_].
    + exfalso. apply Hc. rewrite (Huniq c (or_introl eq_refl) E). exact Hin.
    + apply (IH _ start c0 Hnd' Hin eq_refl).
      intros c' Hc' E'. apply Huniq; [right; exact Hc'|exact E'].
Qed.

End ElementsProofs.

Section ElementsOfTheLoops.

Import Linalg.

Context {T : Type} {ST : Scalar T}.
Hypothesis Tring : ring_theory zero one add mul sub opp (@eq T).

Add Ring scalar_ring_loops : Tring.

Local Open Scope scalar_scope.

Variable fs : FockSpace.t.
Variable ham : HamiltonianParameters T.
Hypothesis Hwf : well_formed fs.
Hypothesis HK : one_dim (get_h ham) = FockSpace.get_K fs.

Lemma occupation_unique : forall l1 l2,
  occupation fs l1 -> occupation fs l2 -> rank 0 l1 = rank 0 l2 -> l1 = l2.
Proof.
  intros l1 l2 (Hi1 & _ & Hl1) (Hi2 & _ & Hl2) Hr.
  apply (rank_injective (FockSpace.N fs)); assumption.
Qed.

Lemma hamiltonian_rows : forall d l J,
  occupation fs l -> (rank 0 l < J)%Z ->
  entry (fst (for_range 0 (Z.to_nat (FockSpace.get_dimension fs))
                (hamiltonian_step fs ham d)
                (SquareMatrix_Zero (FockSpace.get_dimension fs),
                 FockSpace.makeONV fs 0)))
        (rank 0 l) J
  = row_value ham
      (onv_couplings fs (FockSpace.K fs) (onv_of fs l) (rank 0 l)) J zero.
Proof.
  intros d.
  pose (Q := fun (i : nat) (M : SquareMatrix T) (_ : unit) =>
    forall l J, occupation fs l -> (rank 0 l < J)%Z ->
      entry M (rank 0 l) J
      = if (rank 0 l <? Z.of_nat i)%Z
        then row_value ham
               (onv_couplings fs (FockSpace.K fs) (onv_of fs l) (rank 0 l)) J zero
        else zero).
  assert (G : Q (Z.to_nat (FockSpace.get_dimension fs))
                (fst (for_range 0 (Z.to_nat (FockSpace.get_dimension fs))
                        (hamiltonian_step fs ham d)
                        (SquareMatrix_Zero (FockSpace.get_dimension fs),
                         FockSpace.makeONV fs 0)))
                (fst (for_range 0 (Z.to_nat (FockSpace.get_dimension fs))
                        (fun i (st : unit * ONV.ONV) => (tt, next_onv fs i (snd st)))
                        (tt, FockSpace.makeONV fs 0)))).
  { apply (traversal_ind2 fs Hwf).
    - intros i a onv. reflexivity.
    - intros i b onv. reflexivity.
    - unfold Q. intros l J Hocc HJ. cbn [entry SquareMatrix_Zero].
      pose proof (rank_nonneg l 0).
      destruct (Z.ltb_spec (rank 0 l) (Z.of_nat 0)); [lia|reflexivity].
    - intros i li M u Hi Hocci Hranki HQ.
      unfold Q, hamiltonian_step. cbn [fst snd]. intros l J Hocc HJ.
      rewrite (add_coupling_entry ham (Z.of_nat i)); [|exact HJ|].
      2:{ intros J' p q Hin.
          pose proof (couplings_range fs ham Hwf HK i li J' p q Hocci Hranki Hin).
          lia. }
      cbn [entry SquareMatrix_add_at].
      destruct (Z.eqb_spec (rank 0 l) (Z.of_nat i)) as [E|Hne].
      + assert (El : l = li).
        { apply occupation_unique; try assumption. congruence. }
        subst li.
        destruct (Z.eqb_spec J (Z.of_nat i)) as [EJ|_]; [lia|]. cbn [andb].
        rewrite (HQ l J Hocc HJ). rewrite E.
        destruct (Z.ltb_spec (Z.of_nat i) (Z.of_nat i)); [lia|].
        destruct (Z.ltb_spec (Z.of_nat i) (Z.of_nat (S i))); [|lia].
        rewrite HK. reflexivity.
      + cbn [andb]. rewrite (HQ l J Hocc HJ).
        destruct (Z.ltb_spec (rank 0 l) (Z.of_nat i)),
                 (Z.ltb_spec (rank 0 l) (Z.of_nat (S i))); try reflexivity; lia. }
  intros l J Hocc HJ. rewrite (G l J Hocc HJ).
  pose proof (occupation_rank_range fs l (well_formed_addressable fs Hwf) Hocc) as Hr.
  unfold FockSpace.get_dimension.
  destruct (Z.ltb_spec (rank 0 l) (Z.of_nat (Z.to_nat (FockSpace.dim fs))));
    [reflexivity|lia].
Qed.

Lemma diagonal_entries : forall l,
  occupation fs l ->
  coeff (diagonal_of fs ham) (rank 0 l) = diagonal_value ham l.
Proof.
  pose (Q := fun (i : nat) (d : VectorX T) (_ : unit) =>
    forall l, occupation fs l ->
      coeff d (rank 0 l)
      = if (rank 0 l <? Z.of_nat i)%Z then diagonal_value ham l else zero).
  assert (G : Q (Z.to_nat (FockSpace.get_dimension fs))
                (diagonal_of fs ham)
                (fst (for_range 0 (Z.to_nat (FockSpace.get_dimension fs))
                        (fun i (st : unit * ONV.ONV) => (tt, next_onv fs i (snd st)))
                        (tt, FockSpace.makeONV fs 0)))).
  { unfold diagonal_of. apply (traversal_ind2 fs Hwf).
    - intros i a onv. reflexivity.
    - intros i b onv. reflexivity.
    - unfold Q. intros l Hocc. cbn [coeff VectorX_Zero].
      pose proof (rank_nonneg l 0).
      destruct (Z.ltb_spec (rank 0 l) (Z.of_nat 0)); [lia|reflexivity].
    - intros i li d u Hi Hocci Hranki HQ.
      unfold Q, diagonal_step. cbn [fst snd]. intros l Hocc.
      cbn [coeff VectorX_add_at]. rewrite (HQ l Hocc).
      destruct (Z.eqb_spec (rank 0 l) (Z.of_nat i)) as [E|Hne].
      + assert (El : l = li).
        { apply occupation_unique; try assumption. congruence. }
        subst li. rewrite E.
        destruct (Z.ltb_spec (Z.of_nat i) (Z.of_nat i)); [lia|].
        destruct (Z.ltb_spec (Z.of_nat i) (Z.of_nat (S i))); [|lia].
        destruct Hocc as (_ & _ & Hlen). unfold FockSpace.get_N. rewrite <- Hlen.
        unfold diagonal_value.
        match goal with |- zero + ?a = ?b => change b with a end. ring.
      + destruct (Z.ltb_spec (rank 0 l) (Z.of_nat i)),
                 (Z.ltb_spec (rank 0 l) (Z.of_nat (S i))); try reflexivity; lia. }
  intros l Hocc. rewrite (G l Hocc).
  pose proof (occupation_rank_range fs l (well_formed_addressable fs Hwf) Hocc) as Hr.
  unfold FockSpace.get_dimension.
  destruct (Z.ltb_spec (rank 0 l) (Z.of_nat (Z.to_nat (FockSpace.dim fs))));
    [reflexivity|lia].
Qed.

(** The entry between an ONV and the one that a move of an electron gives. *)
Lemma hamiltonian_element : forall d l p q,
  occupation fs l -> In (p, q) (excitations (FockSpace.K fs) l) ->
  entry (fst (for_range 0 (Z.to_nat (FockSpace.get_dimension fs))
                (hamiltonian_step fs ham d)
                (SquareMatrix_Zero (FockSpace.get_dimension fs),
                 FockSpace.makeONV fs 0)))
        (rank 0 l) (rank 0 (excite l p q))
  = two_entry (get_g ham) p q p q.
Proof.
  intros d l p q Hocc Hin.
  destruct (excite_occupation fs l p q Hwf Hocc Hin) as [Hocc' Hr].
  rewrite (hamiltonian_rows d l (rank 0 (excite l p q)) Hocc (proj1 Hr)).
  rewrite (onv_couplings_exact fs l Hwf Hocc).
  set (f := fun pq : nat * nat =>
              (rank 0 (excite l (fst pq) (snd pq)), fst pq, snd pq)).
  rewrite (row_value_single ham _ _ zero (f (p, q))).
  - cbn [f fst snd]. ring.
  - apply NoDup_map_injective.
    + intros [a b] [a' b'] E. unfold f in E. cbn [fst snd] in E.
      inversion E. reflexivity.
    + destruct Hocc as (Hinc & _). apply (NoDup_excitations _ l 0 Hinc).
  - apply in_map. exact Hin.
  - reflexivity.
  - intros c Hc E. apply in_map_iff in Hc. destruct Hc as ([p' q'] & <- & Hin').
    unfold f in *. cbn [fst snd] in *.
    destruct (excite_occupation fs l p' q' Hwf Hocc Hin') as [Hocc'' _].
    pose proof (occupation_unique _ _ Hocc'' Hocc' E) as El.
    destruct (excite_injective _ l p' q' p q Hin' Hin El) as [-> ->].
    reflexivity.
Qed.

(** The entry between two ONVs that no move of one electron connects. *)
Lemma hamiltonian_zero : forall d l1 l2,
  occupation fs l1 -> occupation fs l2 -> (rank 0 l1 < rank 0 l2)%Z ->
  (forall p q, In (p, q) (excitations (FockSpace.K fs) l1) -> excite l1 p q <> l2) ->
  entry (fst (for_range 0 (Z.to_nat (FockSpace.get_dimension fs))
                (hamiltonian_step fs ham d)
                (SquareMatrix_Zero (FockSpace.get_dimension fs),
                 FockSpace.makeONV fs 0)))
        (rank 0 l1) (rank 0 l2)
  = zero.
Proof.
  intros d l1 l2 Hocc1 Hocc2 Hr Hno.
  rewrite (hamiltonian_rows d l1 _ Hocc1 Hr).
  rewrite (onv_couplings_exact fs l1 Hwf Hocc1).
  apply row_value_none. intros c Hc E.
  apply in_map_iff in Hc. destruct Hc as ([p q] & <- & Hin).
  cbn [fst snd] in E.
  destruct (excite_occupation fs l1 p q Hwf Hocc1 Hin) as [Hocc' _].
  apply (Hno p q Hin). apply occupation_unique; assumption.
Qed.

End ElementsOfTheLoops.

Section ElementsOfDOCI.

Import Linalg.

Context {T : Type} {ST : Scalar T}.
Hypothesis Tring : ring_theory zero one add mul sub opp (@eq T).

Local Open Scope scalar_scope.

(** X8: the entry of [calculateDiagonal] at the address of an ONV is the sum
    that the function forms over the occupied orbitals of that ONV: the
    address loop and [getAddress] number the ONVs in the same way. *)
Theorem X8_diagonal_entry_at_the_address : forall K N fs
    (ham : HamiltonianParameters T) l,
  (N <= K)%nat -> (K <= 54)%nat -> (N <= 31)%nat ->
  FockSpace.FockSpace K N = Ok fs ->
  one_dim (get_h ham) = K ->
  occupation fs l ->
  exists diagonal,
    DOCI.calculateDiagonal fs ham = Ok diagonal
    /\ coeff diagonal (FockSpace.getAddress fs (representation_of l))
       = diagonal_value ham l.
Proof.
  intros K N fs ham l HN HK54 HN31 Hfs Hham Hocc.
  destruct (constructed_well_formed K N fs HN HK54 HN31 Hfs) as (Hwf & HKfs & _).
  assert (HK : one_dim (get_h ham) = FockSpace.get_K fs).
  { unfold FockSpace.get_K. congruence. }
  exists (diagonal_of fs ham).
  split; [apply (calculateDiagonal_loop fs ham HK)|].
  rewrite (getAddress_rank fs l (well_formed_addressable fs Hwf) Hocc).
  apply (diagonal_entries Tring fs ham Hwf HK l Hocc).
Qed.

(** X9: when the electron in orbital p of an ONV x moves to a higher empty
    orbital q, the Hamiltonian has the integral g(p,q,p,q) at the addresses
    of x and of x - 2^p + 2^q, on both sides of the diagonal. *)
Theorem X9_element_of_a_pair_move : forall K N fs
    (ham : HamiltonianParameters T) l p q,
  (N <= K)%nat -> (K <= 54)%nat -> (N <= 31)%nat ->
  FockSpace.FockSpace K N = Ok fs ->
  one_dim (get_h ham) = K ->
  occupation fs l ->
  In p l -> ~ In q l -> (p < q < K)%nat ->
  exists H,
    DOCI.constructHamiltonian fs ham = Ok H
    /\ entry H (FockSpace.getAddress fs (representation_of l))
               (FockSpace.getAddress fs
                  (representation_of l - 2 ^ Z.of_nat p + 2 ^ Z.of_nat q)%Z)
       = two_entry (get_g ham) p q p q
    /\ entry H (FockSpace.getAddress fs
                  (representation_of l - 2 ^ Z.of_nat p + 2 ^ Z.of_nat q)%Z)
               (FockSpace.getAddress fs (representation_of l))
       = two_entry (get_g ham) p q p q.
Proof.
  intros K N fs ham l p q HN HK54 HN31 Hfs Hham Hocc Hp Hq Hr.
  destruct (constructed_well_formed K N fs HN HK54 HN31 Hfs) as (Hwf & HKfs & _).
  assert (HK : one_dim (get_h ham) = FockSpace.get_K fs).
  { unfold FockSpace.get_K. congruence. }
  pose proof (well_formed_addressable fs Hwf) as Ha.
  assert (Hin : In (p, q) (excitations (FockSpace.K fs) l)).
  { apply In_excitations. split; [exact Hp|]. split; [|lia].
    destruct (occupied l q) eqn:E; [|reflexivity].
    apply occupied_In in E. contradiction. }
  destruct (excite_occupation fs l p q Hwf Hocc Hin) as [Hocc' _].
  pose proof Hocc as (Hinc & _).
  rewrite <- (excite_representation _ l p q Hinc Hin).
  rewrite (getAddress_rank fs l Ha Hocc), (getAddress_rank fs _ Ha Hocc').
  eexists. split; [apply (constructHamiltonian_loop fs ham HK)|].
  pose proof (hamiltonian_element Tring fs ham Hwf HK (diagonal_of fs ham) l p q
                Hocc Hin) as E.
  split; [exact E|].
  destruct (hamiltonian_loop_shape Tring fs ham Hwf HK (diagonal_of fs ham))
    as (_ & Hsym & _).
  rewrite Hsym. exact E.
Qed.

(** X10: between two different ONVs that no move of one electron to a higher
    empty orbital connects, in either direction, the Hamiltonian is zero. *)
Theorem X10_element_without_a_move : forall K N fs
    (ham : HamiltonianParameters T) l1 l2,
  (N <= K)%nat -> (K <= 54)%nat -> (N <= 31)%nat ->
  FockSpace.FockSpace K N = Ok fs ->
  one_dim (get_h ham) = K ->
  occupation fs l1 -> occupation fs l2 ->
  l1 <> l2 -> ~ In l2 (moves K l1) -> ~ In l1 (moves K l2) ->
  exists H,
    DOCI.constructHamiltonian fs ham = Ok H
    /\ entry H (FockSpace.getAddress fs (representation_of l1))
               (FockSpace.getAddress fs (representation_of l2))
       = zero.
Proof.
  intros K N fs ham l1 l2 HN HK54 HN31 Hfs Hham Hocc1 Hocc2 Hne H12 H21.
  destruct (constructed_well_formed K N fs HN HK54 HN31 Hfs) as (Hwf & HKfs & _).
  assert (HK : one_dim (get_h ham) = FockSpace.get_K fs).
  { unfold FockSpace.get_K. congruence. }
  pose proof (well_formed_addressable fs Hwf) as Ha.
  rewrite (getAddress_rank fs l1 Ha Hocc1), (getAddress_rank fs l2 Ha Hocc2).
  eexists. split; [apply (constructHamiltonian_loop fs ham HK)|].
  assert (Hno : forall la lb, ~ In lb (moves K la) ->
            forall p q, In (p, q) (excitations (FockSpace.K fs) la) ->
                        excite la p q <> lb).
  { intros la lb Hn p q Hin E. apply Hn. unfold moves. rewrite <- HKfs.
    rewrite <- E.
    apply (in_map (fun pq => excite la (fst pq) (snd pq)) _ (p, q) Hin). }
  destruct (Z.lt_trichotomy (rank 0 l1) (rank 0 l2)) as [Hlt|[Heq|Hgt]].
  - apply (hamiltonian_zero fs ham Hwf HK _ l1 l2 Hocc1 Hocc2 Hlt (Hno l1 l2 H12)).
  - exfalso. apply Hne. apply (occupation_unique fs l1 l2 Hocc1 Hocc2 Heq).
  - destruct (hamiltonian_loop_shape Tring fs ham Hwf HK (diagonal_of fs ham))
      as (_ & Hsym & _).
    rewrite Hsym.
    apply (hamiltonian_zero fs ham Hwf HK _ l2 l1 Hocc2 Hocc1 ltac:(lia) (Hno l2 l1 H21)).
Qed.

End ElementsOfDOCI.

Lemma X8_diagonal_entry_at_the_address_witness :
  (2 <= 4)%nat /\ (4 <= 54)%nat /\ (2 <= 31)%nat
  /\ FockSpace.FockSpace 4 2 = Ok (example_fock_space 4 2)
  /\ Linalg.one_dim (Linalg.get_h example_parameters) = 4%nat
  /\ occupation (example_fock_space 4 2) [1; 3]%nat
  /\ exists diagonal,
       DOCI.calculateDiagonal (example_fock_space 4 2) example_parameters
       = Ok diagonal
       /\ Linalg.coeff diagonal
            (FockSpace.getAddress (example_fock_space 4 2)
               (representation_of [1; 3]%nat))
          = diagonal_value example_parameters [1; 3]%nat.
Proof.
  assert (Hocc : occupation (example_fock_space 4 2) [1; 3]%nat).
  { vm_compute. repeat split; try lia. repeat constructor. }
  split; [lia|]. split; [lia|]. split; [lia|].
  split; [vm_compute; reflexivity|]. split; [reflexivity|]. split; [exact Hocc|].
  apply (X8_diagonal_entry_at_the_address (T:=Z) (ST:=Scalar_Z) Zth
           4 2 (example_fock_space 4 2) example_parameters [1; 3]%nat).
  - lia.
  - lia.
  - lia.
  - vm_compute. reflexivity.
  - reflexivity.
  - exact Hocc.
Defined.

Lemma X9_element_of_a_pair_move_witness :
  (2 <= 4)%nat /\ (4 <= 54)%nat /\ (2 <= 31)%nat
  /\ FockSpace.FockSpace 4 2 = Ok (example_fock_space 4 2)
  /\ Linalg.one_dim (Linalg.get_h example_parameters) = 4%nat
  /\ occupation (example_fock_space 4 2) [0; 1]%nat
  /\ In 1%nat [0; 1]%nat /\ ~ In 3%nat [0; 1]%nat /\ (1 < 3 < 4)%nat
  /\ exists H,
       DOCI.constructHamiltonian (example_fock_space 4 2) example_parameters = Ok H
       /\ Linalg.entry H
            (FockSpace.getAddress (example_fock_space 4 2)
               (representation_of [0; 1]%nat))
            (FockSpace.getAddress (example_fock_space 4 2)
               (representation_of [0; 1]%nat - 2 ^ Z.of_nat 1 + 2 ^ Z.of_nat 3))
          = Linalg.two_entry (Linalg.get_g example_parameters) 1 3 1 3
       /\ Linalg.entry H
            (FockSpace.getAddress (example_fock_space 4 2)
               (representation_of [0; 1]%nat - 2 ^ Z.of_nat 1 + 2 ^ Z.of_nat 3))
            (FockSpace.getAddress (example_fock_space 4 2)
               (representation_of [0; 1]%nat))
          = Linalg.two_entry (Linalg.get_g example_parameters) 1 3 1 3.
Proof.
  assert (Hocc : occupation (example_fock_space 4 2) [0; 1]%nat).
  { vm_compute. repeat split; try lia. repeat constructor. }
  assert (Hp : In 1%nat [0; 1]%nat) by (cbn; lia).
  assert (Hq : ~ In 3%nat [0; 1]%nat) by (cbn; lia).
  split; [lia|]. split; [lia|]. split; [lia|].
  split; [vm_compute; reflexivity|]. split; [reflexivity|]. split; [exact Hocc|].
  split; [exact Hp|]. split; [exact Hq|]. split; [lia|].
  apply (X9_element_of_a_pair_move (T:=Z) (ST:=Scalar_Z) Zth
           4 2 (example_fock_space 4 2) example_parameters [0; 1]%nat 1 3).
  - lia.
  - lia.
  - lia.
  - vm_compute. reflexivity.
  - reflexivity.
  - exact Hocc.
  - exact Hp.
  - exact Hq.
  - lia.
Defined.

Lemma X10_element_without_a_move_witness :
  (2 <= 4)%nat /\ (4 <= 54)%nat /\ (2 <= 31)%nat
  /\ FockSpace.FockSpace 4 2 = Ok (example_fock_space 4 2)
  /\ Linalg.one_dim (Linalg.get_h example_parameters) = 4%nat
  /\ occupation (example_fock_space 4 2) [0; 1]%nat
  /\ occupation (example_fock_space 4 2) [2; 3]%nat
  /\ [0; 1]%nat <> [2; 3]%nat
  /\ ~ In [2; 3]%nat (moves 4 [0; 1]%nat)
  /\ ~ In [0; 1]%nat (moves 4 [2; 3]%nat)
  /\ exists H,
       DOCI.constructHamiltonian (example_fock_space 4 2) example_parameters = Ok H
       /\ Linalg.entry H
            (FockSpace.getAddress (example_fock_space 4 2)
               (representation_of [0; 1]%nat))
            (FockSpace.getAddress (example_fock_space 4 2)
               (representation_of [2; 3]%nat))
          = 0.
Proof.
  assert (Hocc1 : occupation (example_fock_space 4 2) [0; 1]%nat).
  { vm_compute. repeat split; try lia. repeat constructor. }
  assert (Hocc2 : occupation (example_fock_space 4 2) [2; 3]%nat).
  { vm_compute. repeat split; try lia. repeat constructor. }
  assert (Hne : [0; 1]%nat <> [2; 3]%nat) by discriminate.
  assert (H12 : ~ In [2; 3]%nat (moves 4 [0; 1]%nat)).
  { vm_compute. intuition discriminate. }
  assert (H21 : ~ In [0; 1]%nat (moves 4 [2; 3]%nat)).
  { vm_compute. intuition discriminate. }
  split; [lia|]. split; [lia|]. split; [lia|].
  split; [vm_compute; reflexivity|]. split; [reflexivity|].
  split; [exact Hocc1|]. split; [exact Hocc2|]. split; [exact Hne|].
  split; [exact H12|]. split; [exact H21|].
  apply (X10_element_without_a_move (T:=Z) (ST:=Scalar_Z) Zth
           4 2 (example_fock_space 4 2) example_parameters [0; 1]%nat [2; 3]%nat).
  - lia.
  - lia.
  - lia.
  - vm_compute. reflexivity.
  - reflexivity.
  - exact Hocc1.
  - exact Hocc2.
  - exact Hne.
  - exact H12.
  - exact H21.
Defined.

(** ** Counting the couplings *)

Lemma filter_negb_length : forall (A : Type) (f : A -> bool) (l : list A),
  (length (filter (fun x => negb (f x)) l) + length (filter f l) = length l)%nat.
Proof.
  intros A f. induction l as [|a l IH]; cbn [filter length]; [reflexivity|].
  destruct (f a); cbn [negb length]; lia.
Qed.

(** The number of empty orbitals above an occupied one. *)
Lemma virtuals_above_count : forall K A p T,
  increasing_from 0 (A ++ p :: T) -> below K (A ++ p :: T) ->
  (length (virtuals_from K (A ++ p :: T) (S p)) + length T = K - S p)%nat.
Proof.
  intros K A p T Hinc Hb.
  pose proof (increasing_from_suffix A (p :: T) 0 Hinc) as HT.
  cbn [increasing_from] in HT. destruct HT as [_ HT].
  destruct (increasing_from_middle A p T 0 Hinc) as [_ HA].
  destruct (below_app_inv _ _ _ Hb) as [_ HbpT].
  pose proof (Forall_inv HbpT) as HpK. cbn beta in HpK.
  pose proof (Forall_inv_tail HbpT) as HbT.
  unfold virtuals_from.
  pose proof (filter_negb_length nat (occupied (A ++ p :: T)) (seq (S p) (K - S p))) as E.
  rewrite length_seq in E.
  replace (filter (occupied (A ++ p :: T)) (seq (S p) (K - S p))) with T in E.
  - exact E.
  - symmetry. rewrite <- (filter_member_seq T (S p) (K - S p) HT) at 2.
    + apply filter_ext_in. intros x Hx. apply in_seq in Hx.
      rewrite occupied_app. unfold occupied at 2. cbn [existsb].
      rewrite (below_not_occupied A x) by (apply (below_weaken p); [lia|exact HA]).
      destruct (Nat.eqb_spec x p); [lia|]. reflexivity.
    + replace (S p + (K - S p))%nat with K by lia. exact HbT.
Qed.

Lemma firstn_S_nth : forall (l : list nat) e,
  (e < length l)%nat -> firstn (S e) l = firstn e l ++ [nth e l O].
Proof.
  induction l as [|a l IH]; intros e He; cbn [length] in He; [lia|].
  destruct e as [|e]; [reflexivity|].
  cbn [firstn nth app]. f_equal. apply IH. lia.
Qed.

Lemma countOneElectronCouplings_length : forall fs l,
  well_formed fs -> occupation fs l ->
  FockSpaceCounts.countOneElectronCouplings fs (onv_of fs l)
  = Z.of_nat (length (excitations (FockSpace.K fs) l)).
Proof.
  intros fs l Hwf Hocc.
  pose proof Hwf as (HN & HK & _).
  pose proof Hocc as (Hinc & Hb & Hlen).
  unfold FockSpaceCounts.countOneElectronCouplings, excitations.
  set (g := fun p => map (pair p) (virtuals_from (FockSpace.K fs) l (S p))).
  match goal with
  | |- for_range 0 ?n ?body ?s = _ =>
      assert (G : (fun e c =>
                     c = Z.of_nat (length (flat_map g (firstn e l)))
                     /\ 0 <= c <= Z.of_nat e * Z.of_nat (FockSpace.K fs))
                  n (for_range 0 n body s));
      [apply for_range_ind|]
  end.
  4:{ cbv beta in G. destruct G as [G _]. rewrite G.
      rewrite <- Hlen, firstn_all. reflexivity. }
  - lia.
  - split; [reflexivity|lia].
  - intros e c He [Ec Hc].
    change (ONV.get_occupation_index (onv_of fs l) e) with (nth e l O).
    destruct (nth_split_at l e ltac:(lia)) as [Hsplit HlenA].
    set (p := nth e l O) in *.
    pose proof (virtuals_above_count (FockSpace.K fs) (firstn e l) p (skipn (S e) l))
      as Hcount.
    rewrite <- Hsplit in Hcount. specialize (Hcount Hinc Hb).
    assert (HlT : (length (skipn (S e) l) = FockSpace.N fs - S e)%nat).
    { rewrite length_skipn. lia. }
    assert (HpK : (p < FockSpace.K fs)%nat).
    { apply (below_In l _ p Hb). unfold p. apply nth_In. lia. }
    rewrite (firstn_S_nth l e) by lia.
    rewrite flat_map_app, length_app. cbn [flat_map]. rewrite app_nil_r.
    fold p. unfold g at 2. rewrite length_map.
    assert (Hv : Z.of_nat (length (virtuals_from (FockSpace.K fs) l (S p)))
                 = Z.of_nat (FockSpace.K fs) - Z.of_nat (FockSpace.N fs)
                   + Z.of_nat e - Z.of_nat p) by lia.
    rewrite (wrap64_small (Z.of_nat (FockSpace.K fs) - Z.of_nat (FockSpace.N fs)))
      by lia.
    rewrite (wrap64_small (Z.of_nat (FockSpace.K fs) - Z.of_nat (FockSpace.N fs)
                           + Z.of_nat e)) by lia.
    rewrite (wrap64_small (Z.of_nat (FockSpace.K fs) - Z.of_nat (FockSpace.N fs)
                           + Z.of_nat e - Z.of_nat p)) by lia.
    rewrite wrap64_small by nia.
    split; [lia|nia].
Qed.

Lemma sum_over_app : forall (A : Type) (f : A -> Z) l1 l2,
  sum_over f (l1 ++ l2) = sum_over f l1 + sum_over f l2.
Proof.
  intros A f. induction l1 as [|a l1 IH]; intros l2; cbn; [reflexivity|].
  rewrite IH. lia.
Qed.

Lemma sum_over_map : forall (A B : Type) (f : B -> Z) (h : A -> B) l,
  sum_over f (map h l) = sum_over (fun x => f (h x)) l.
Proof.
  intros A B f h. induction l as [|a l IH]; cbn; [reflexivity|].
  rewrite IH. reflexivity.
Qed.

Lemma sum_over_ext : forall (A : Type) (f g : A -> Z) l,
  (forall x, In x l -> f x = g x) -> sum_over f l = sum_over g l.
Proof.
  intros A f g. induction l as [|a l IH]; intros H; cbn; [reflexivity|].
  rewrite (H a (or_introl eq_refl)), IH; [reflexivity|].
  intros x Hx. apply H. right. exact Hx.
Qed.

Lemma sum_over_plus_const : forall (A : Type) (f : A -> Z) c l,
  sum_over (fun x => f x + c) l = sum_over f l + c * Z.of_nat (length l).
Proof.
  intros A f c. induction l as [|a l IH]; cbn [sum_over length]; [lia|].
  rewrite IH. lia.
Qed.

Lemma subsets_spec : forall K N l,
  In l (subsets K N)
  <-> increasing_from 0 l /\ below K l /\ length l = N.
Proof.
  induction K as [|K IH]; intros N l.
  - cbn [subsets]. destruct N as [|N]; cbn [In].
    + split.
      * intros [<-|[]]. repeat split; constructor.
      * intros (_ & _ & Hlen). left. symmetry. apply length_zero_iff_nil. exact Hlen.
    + split; [contradiction|]. intros (_ & Hb & Hlen).
      destruct l as [|a l]; [discriminate|]. inversion Hb; subst. lia.
  - cbn [subsets]. rewrite in_app_iff, IH. split.
    + intros [(Hi & Hb & Hlen)|Hin].
      * repeat split; try assumption. apply (below_weaken K); [lia|exact Hb].
      * destruct N as [|N]; [contradiction|].
        apply in_map_iff in Hin. destruct Hin as (l' & <- & Hl').
        apply IH in Hl'. destruct Hl' as (Hi & Hb & Hlen). repeat split.
        -- apply (increasing_from_app l' [K] 0 K Hi Hb ltac:(lia)).
           cbn. split; [lia|exact I].
        -- apply below_app; [apply (below_weaken K); [lia|exact Hb]|].
           constructor; [lia|constructor].
        -- rewrite length_app. cbn [length]. lia.
    + intros (Hi & Hb & Hlen).
      destruct (list_eq_dec Nat.eq_dec l []) as [->|Hne].
      { left. repeat split; try constructor. exact Hlen. }
      destruct (exists_last Hne) as (l' & x & ->).
      destruct (increasing_from_middle l' x [] 0 Hi) as [_ Hbx].
      destruct (below_app_inv _ _ _ Hb) as [Hb' Hx].
      pose proof (Forall_inv Hx) as HxK. cbn beta in HxK.
      rewrite length_app in Hlen. cbn [length] in Hlen.
      destruct (Nat.eq_dec x K) as [->|HxK'].
      * right. destruct N as [|N]; [lia|].
        apply in_map_iff. exists l'. split; [reflexivity|].
        apply IH. repeat split.
        -- apply (increasing_from_prefix _ _ _ Hi).
        -- exact Hbx.
        -- lia.
      * left. repeat split; [exact Hi| |rewrite length_app; cbn [length]; exact Hlen].
        apply below_app; [apply (below_weaken x); [lia|exact Hbx]|].
        constructor; [lia|constructor].
Qed.

Lemma subsets_NoDup : forall K N, NoDup (subsets K N).
Proof.
  induction K as [|K IH]; intros N.
  - destruct N; cbn [subsets]; repeat constructor. intros [].
  - cbn [subsets]. apply NoDup_app.
    + apply IH.
    + destruct N as [|N]; [constructor|].
      apply NoDup_map_injective; [|apply IH].
      intros x y E. apply app_inj_tail in E. apply E.
    + intros a Ha Hin. apply subsets_spec in Ha. destruct Ha as (_ & Hb & _).
      destruct N as [|N]; [contradiction|].
      apply in_map_iff in Hin. destruct Hin as (l' & <- & _).
      destruct (below_app_inv _ _ _ Hb) as [_ Hx].
      pose proof (Forall_inv Hx) as HxK. cbn beta in HxK. lia.
Qed.

Lemma subsets_length : forall K N, Z.of_nat (length (subsets K N)) = choose K N.
Proof.
  induction K as [|K IH]; intros N.
  - destruct N; reflexivity.
  - cbn [subsets]. rewrite length_app, Nat2Z.inj_add, IH.
    destruct N as [|N].
    + cbn [length]. rewrite !choose_n_0. lia.
    + rewrite length_map, IH, choose_S_S. lia.
Qed.

(** Absorption: (k + 1) C(n, k + 1) = (n - k) C(n, k). *)
Lemma choose_absorption : forall n k,
  Z.of_nat (S k) * choose n (S k) = (Z.of_nat n - Z.of_nat k) * choose n k.
Proof.
  induction n as [|n IH]; intros k.
  - destruct k as [|k]; cbn [choose]; lia.
  - rewrite choose_S_S. destruct k as [|k].
    + rewrite !choose_n_0. pose proof (IH O) as H0. rewrite choose_n_0 in H0. lia.
    + rewrite (choose_S_S n k). pose proof (IH (S k)) as H1. pose proof (IH k) as H2.
      lia.
Qed.

Lemma excitations_length : forall K l0 l,
  Z.of_nat (length (flat_map (fun p => map (pair p) (virtuals_from K l0 (S p))) l))
  = sum_over (fun p => Z.of_nat (length (virtuals_from K l0 (S p)))) l.
Proof.
  intros K l0. induction l as [|a l IH]; cbn [flat_map sum_over]; [reflexivity|].
  rewrite length_app, length_map, Nat2Z.inj_add, IH. reflexivity.
Qed.

(** One more orbital on top gives every electron one more empty orbital. *)
Lemma excitations_more_orbitals : forall K l,
  below K l ->
  Z.of_nat (length (excitations (S K) l))
  = Z.of_nat (length (excitations K l)) + Z.of_nat (length l).
Proof.
  intros K l Hb. unfold excitations. rewrite !excitations_length.
  rewrite <- (Z.mul_1_l (Z.of_nat (length l))), <- sum_over_plus_const.
  apply sum_over_ext. intros p Hp. pose proof (below_In l K p Hb Hp) as HpK.
  unfold virtuals_from.
  replace (S K - S p)%nat with (S (K - S p)) by lia.
  rewrite seq_S, filter_app, length_app.
  replace (S p + (K - S p))%nat with K by lia.
  cbn [filter]. rewrite (below_not_occupied l K Hb). cbn [negb length]. lia.
Qed.

(** An electron in the new top orbital changes nothing for the others. *)
Lemma excitations_top_occupied : forall K l,
  below K l ->
  Z.of_nat (length (excitations (S K) (l ++ [K])))
  = Z.of_nat (length (excitations K l)).
Proof.
  intros K l Hb. unfold excitations. rewrite !excitations_length.
  rewrite sum_over_app. cbn [sum_over].
  rewrite (virtuals_from_end (S K) (l ++ [K]) (S K)) by lia.
  cbn [length]. rewrite !Z.add_0_r.
  apply sum_over_ext. intros p Hp. pose proof (below_In l K p Hb Hp) as HpK.
  unfold virtuals_from.
  replace (S K - S p)%nat with (S (K - S p)) by lia.
  rewrite seq_S, filter_app, length_app.
  replace (S p + (K - S p))%nat with K by lia.
  cbn [filter]. rewrite occupied_app.
  replace (occupied [K] K) with true
    by (unfold occupied; cbn [existsb]; rewrite Nat.eqb_refl; reflexivity).
  rewrite orb_true_r. cbn [negb length]. rewrite Nat.add_0_r.
  f_equal. f_equal. apply filter_ext_in. intros x Hx. apply in_seq in Hx.
  rewrite occupied_app. unfold occupied at 2. cbn [existsb].
  destruct (Nat.eqb_spec x K); [lia|]. rewrite !orb_false_r. reflexivity.
Qed.

(** Twice the number of moves in the whole Fock space. *)
Lemma excitations_total : forall K N,
  2 * sum_over (fun l => Z.of_nat (length (excitations K l))) (subsets K N)
  = (Z.of_nat K - Z.of_nat N) * Z.of_nat N * choose K N.
Proof.
  induction K as [|K IH]; intros N.
  - destruct N as [|N]; cbn [subsets sum_over excitations flat_map length choose]; lia.
  - cbn [subsets]. rewrite sum_over_app.
    rewrite (sum_over_ext _ _
               (fun l => Z.of_nat (length (excitations K l)) + Z.of_nat N)
               (subsets K N)).
    2:{ intros l Hl. apply subsets_spec in Hl. destruct Hl as (_ & Hb & Hlen).
        rewrite (excitations_more_orbitals K l Hb), Hlen. reflexivity. }
    rewrite sum_over_plus_const, subsets_length.
    destruct N as [|N].
    + cbn [sum_over]. pose proof (IH O) as H0. rewrite !choose_n_0 in *. lia.
    + rewrite sum_over_map.
      rewrite (sum_over_ext _ _
                 (fun l => Z.of_nat (length (excitations K l))) (subsets K N)).
      2:{ intros l Hl. apply subsets_spec in Hl. destruct Hl as (_ & Hb & _).
          apply (excitations_top_occupied K l Hb). }
      pose proof (IH (S N)) as H1. pose proof (IH N) as H2.
      pose proof (choose_absorption K N) as Ha.
      rewrite choose_S_S.
      set (a := choose K N) in *. set (b := choose K (S N)) in *.
      set (s1 := sum_over _ (subsets K (S N))) in *.
      set (s2 := sum_over _ (subsets K N)) in *.
      rewrite !Nat2Z.inj_succ in *.
      set (n := Z.of_nat N) in *. set (k := Z.of_nat K) in *.
      assert (E1 : (k - n) * (Z.succ n * b) = (k - n) * ((k - n) * a))
        by (rewrite Ha; reflexivity).
      nia.
Qed.

(** X11: for an ONV of the Fock space, [countOneElectronCouplings] is the
    number of pairs of an occupied orbital p and an empty orbital q above
    it, which is also the number of couplings that the loops of the DOCI
    builder visit at this ONV. *)
Theorem X11_one_electron_couplings_count_the_moves : forall K N fs l,
  (N <= K)%nat -> (K <= 54)%nat -> (N <= 31)%nat ->
  FockSpace.FockSpace K N = Ok fs ->
  occupation fs l ->
  FockSpaceCounts.countOneElectronCouplings fs (onv_of fs l)
  = Z.of_nat (length (excitations K l))
  /\ (forall p q, In (p, q) (excitations K l)
                  <-> In p l /\ ~ In q l /\ (p < q < K)%nat)
  /\ length (onv_couplings fs K (onv_of fs l)
               (FockSpace.getAddress fs (representation_of l)))
     = length (excitations K l).
Proof.
  intros K N fs l HN HK54 HN31 Hfs Hocc.
  destruct (constructed_well_formed K N fs HN HK54 HN31 Hfs) as (Hwf & HKfs & _).
  subst K. split; [apply (countOneElectronCouplings_length fs l Hwf Hocc)|].
  split.
  - intros p q. rewrite In_excitations. split.
    + intros (Hp & Hq & Hr). split; [exact Hp|]. split; [|exact Hr].
      intros Hin. apply occupied_In in Hin. congruence.
    + intros (Hp & Hq & Hr). split; [exact Hp|]. split; [|exact Hr].
      destruct (occupied l q) eqn:E; [|reflexivity].
      apply occupied_In in E. contradiction.
  - rewrite (getAddress_rank fs l (well_formed_addressable fs Hwf) Hocc).
    rewrite (onv_couplings_exact fs l Hwf Hocc). apply length_map.
Qed.

Lemma X11_one_electron_couplings_count_the_moves_witness :
  (2 <= 4)%nat /\ (4 <= 54)%nat /\ (2 <= 31)%nat
  /\ FockSpace.FockSpace 4 2 = Ok (example_fock_space 4 2)
  /\ occupation (example_fock_space 4 2) [0; 2]%nat
  /\ FockSpaceCounts.countOneElectronCouplings (example_fock_space 4 2)
       (onv_of (example_fock_space 4 2) [0; 2]%nat)
     = Z.of_nat (length (excitations 4 [0; 2]%nat))
  /\ (forall p q, In (p, q) (excitations 4 [0; 2]%nat)
                  <-> In p [0; 2]%nat /\ ~ In q [0; 2]%nat /\ (p < q < 4)%nat)
  /\ length (onv_couplings (example_fock_space 4 2) 4
               (onv_of (example_fock_space 4 2) [0; 2]%nat)
               (FockSpace.getAddress (example_fock_space 4 2)
                  (representation_of [0; 2]%nat)))
     = length (excitations 4 [0; 2]%nat).
Proof.
  assert (Hocc : occupation (example_fock_space 4 2) [0; 2]%nat).
  { vm_compute. repeat split; try lia. repeat constructor. }
  split; [lia|]. split; [lia|]. split; [lia|].
  split; [vm_compute; reflexivity|]. split; [exact Hocc|].
  apply (X11_one_electron_couplings_count_the_moves 4 2 (example_fock_space 4 2)
           [0; 2]%nat).
  - lia.
  - lia.
  - lia.
  - vm_compute. reflexivity.
  - exact Hocc.
Defined.

Lemma moves_bound : forall K N : nat,
  (N <= K)%nat -> (K <= 54)%nat ->
  0 <= (Z.of_nat K - Z.of_nat N) * Z.of_nat N <= 729.
Proof.
  intros K N HN HK.
  assert (H : 0 <= (Z.of_nat K - 2 * Z.of_nat N) * (Z.of_nat K - 2 * Z.of_nat N))
    by apply Z.square_nonneg.
  nia.
Qed.

(** X12: [countTotalOneElectronCouplings] is twice the sum of
    [countOneElectronCouplings] over the ONVs of the Fock space, each taken
    once. *)
Theorem X12_total_one_electron_couplings : forall K N fs,
  (N <= K)%nat -> (K <= 54)%nat -> (N <= 31)%nat ->
  FockSpace.FockSpace K N = Ok fs ->
  (forall l, In l (subsets K N) <-> occupation fs l)
  /\ NoDup (subsets K N)
  /\ 2 * sum_over (fun l => FockSpaceCounts.countOneElectronCouplings fs (onv_of fs l))
                  (subsets K N)
     = FockSpaceCounts.countTotalOneElectronCouplings fs.
Proof.
  intros K N fs HN HK54 HN31 Hfs.
  destruct (constructed_well_formed K N fs HN HK54 HN31 Hfs) as (Hwf & HKfs & HNfs).
  pose proof Hwf as (_ & _ & _ & Hdim & _).
  assert (Hspec : forall l, In l (subsets K N) <-> occupation fs l).
  { intros l. rewrite subsets_spec. unfold occupation. rewrite HKfs, HNfs.
    reflexivity. }
  split; [exact Hspec|]. split; [apply subsets_NoDup|].
  rewrite (sum_over_ext _ _ (fun l => Z.of_nat (length (excitations K l)))).
  2:{ intros l Hl. apply Hspec in Hl. rewrite <- HKfs.
      apply (countOneElectronCouplings_length fs l Hwf Hl). }
  rewrite excitations_total.
  unfold FockSpaceCounts.countTotalOneElectronCouplings.
  rewrite Hdim, HKfs, HNfs.
  pose proof (moves_bound K N HN HK54) as Hm.
  pose proof (choose_le_pow2 K N) as Hc. pose proof (choose_nonneg K N) as Hc0.
  assert (Hp : 2 ^ Z.of_nat K <= 2 ^ 54) by (apply Z.pow_le_mono_r; lia).
  rewrite (wrap64_small (Z.of_nat K - Z.of_nat N)) by lia.
  rewrite (wrap64_small ((Z.of_nat K - Z.of_nat N) * Z.of_nat N)) by lia.
  rewrite wrap64_small; [reflexivity|].
  change (2 ^ 64) with (1024 * 2 ^ 54). nia.
Qed.

Lemma X12_total_one_electron_couplings_witness :
  (2 <= 4)%nat /\ (4 <= 54)%nat /\ (2 <= 31)%nat
  /\ FockSpace.FockSpace 4 2 = Ok (example_fock_space 4 2)
  /\ (forall l, In l (subsets 4 2) <-> occupation (example_fock_space 4 2) l)
  /\ NoDup (subsets 4 2)
  /\ 2 * sum_over (fun l => FockSpaceCounts.countOneElectronCouplings
                              (example_fock_space 4 2)
                              (onv_of (example_fock_space 4 2) l))
                  (subsets 4 2)
     = FockSpaceCounts.countTotalOneElectronCouplings (example_fock_space 4 2).
Proof.
  split; [lia|]. split; [lia|]. split; [lia|].
  split; [vm_compute; reflexivity|].
  apply (X12_total_one_electron_couplings 4 2 (example_fock_space 4 2)).
  - lia.
  - lia.
  - lia.
  - vm_compute. reflexivity.
Defined.

(** ** The Gray code *)

Lemma gray_code_testbit : forall S i, 0 <= i ->
  Z.testbit (gray_code S) i = xorb (Z.testbit S i) (Z.testbit S (i + 1)).
Proof.
  intros S i Hi. unfold gray_code. rewrite Z.lxor_spec, Z.shiftr_spec by lia.
  reflexivity.
Qed.

Lemma gray_code_double : forall x (b : bool),
  gray_code (2 * x + Z.b2z b) = 2 * gray_code x + Z.b2z (xorb b (Z.odd x)).
Proof.
  intros x b. apply Z.bits_inj'. intros i Hi.
  rewrite gray_code_testbit by lia.
  destruct (Z.eq_dec i 0) as [->|Hne].
  - change (0 + 1) with (Z.succ 0).
    rewrite !Z.testbit_0_r, Z.testbit_succ_r, Z.bit0_odd by lia.
    reflexivity.
  - replace i with (Z.succ (i - 1)) by lia.
    replace (Z.succ (i - 1) + 1) with (Z.succ (Z.succ (i - 1))) by lia.
    rewrite !Z.testbit_succ_r by lia.
    rewrite gray_code_testbit by lia.
    replace (i - 1 + 1) with (Z.succ (i - 1)) by lia. reflexivity.
Qed.

Lemma lxor_double : forall a b (x y : bool),
  Z.lxor (2 * a + Z.b2z x) (2 * b + Z.b2z y) = 2 * Z.lxor a b + Z.b2z (xorb x y).
Proof.
  intros a b x y. apply Z.bits_inj'. intros i Hi.
  rewrite Z.lxor_spec.
  destruct (Z.eq_dec i 0) as [->|Hne].
  - rewrite !Z.testbit_0_r. reflexivity.
  - replace i with (Z.succ (i - 1)) by lia.
    rewrite !Z.testbit_succ_r by lia. rewrite Z.lxor_spec. reflexivity.
Qed.

Lemma gray_code_step_even : forall x,
  Z.lxor (gray_code (2 * x)) (gray_code (2 * x + 1)) = 2 ^ 0.
Proof.
  intros x.
  replace (2 * x) with (2 * x + Z.b2z false) at 1 by (cbn [Z.b2z]; lia).
  replace (2 * x + 1) with (2 * x + Z.b2z true) by (cbn [Z.b2z]; lia).
  rewrite !gray_code_double, lxor_double, Z.lxor_nilpotent.
  destruct (Z.odd x); reflexivity.
Qed.

Lemma gray_code_step_odd : forall x k,
  0 <= k -> Z.lxor (gray_code x) (gray_code (x + 1)) = 2 ^ k ->
  Z.lxor (gray_code (2 * x + 1)) (gray_code (2 * x + 1 + 1)) = 2 ^ (k + 1).
Proof.
  intros x k Hk E.
  replace (2 * x + 1 + 1) with (2 * (x + 1) + Z.b2z false) by (cbn [Z.b2z]; lia).
  replace (2 * x + 1) with (2 * x + Z.b2z true) by (cbn [Z.b2z]; lia).
  rewrite !gray_code_double, lxor_double, E.
  rewrite Z.add_1_r at 1. rewrite Z.odd_succ, <- Z.negb_odd.
  rewrite Z.pow_add_r by lia.
  destruct (Z.odd x); cbn [xorb negb Z.b2z]; lia.
Qed.

(** The Gray codes of two successive numbers differ in one bit. *)
Lemma gray_code_step : forall S, 0 <= S ->
  exists k, 0 <= k /\ Z.lxor (gray_code S) (gray_code (S + 1)) = 2 ^ k.
Proof.
  assert (H0 : exists k, 0 <= k /\ Z.lxor (gray_code 0) (gray_code (0 + 1)) = 2 ^ k).
  { exists 0. split; [lia|reflexivity]. }
  intros [|p|p] HS; [exact H0| |lia].
  clear HS. induction p as [p IH|p IH|].
  - destruct IH as (k & Hk & E). exists (k + 1). split; [lia|].
    change (Z.pos p~1) with (2 * Z.pos p + 1).
    apply gray_code_step_odd; assumption.
  - exists 0. split; [lia|].
    change (Z.pos p~0) with (2 * Z.pos p). apply gray_code_step_even.
  - destruct H0 as (k & Hk & E). exists (k + 1). split; [lia|].
    change 1 with (2 * 0 + 1) at 1 2. apply gray_code_step_odd; assumption.
Qed.

Lemma gray_code_range : forall (n : nat) S,
  0 <= S < 2 ^ Z.of_nat n -> 0 <= gray_code S < 2 ^ Z.of_nat n.
Proof.
  induction n as [|n IH]; intros S HS.
  - assert (S = 0) by (cbn in HS; lia). subst. cbn. lia.
  - rewrite Nat2Z.inj_succ, Z.pow_succ_r in * by lia.
    rewrite (Z.div2_odd S). rewrite gray_code_double.
    assert (Hx : 0 <= Z.div2 S < 2 ^ Z.of_nat n).
    { pose proof (Z.div2_odd S) as E. destruct (Z.odd S); cbn [Z.b2z] in E; lia. }
    specialize (IH _ Hx).
    destruct (xorb (Z.odd S) (Z.odd (Z.div2 S))); cbn [Z.b2z]; lia.
Qed.

Lemma gray_code_injective_below : forall (n : nat) S S',
  0 <= S < 2 ^ Z.of_nat n -> 0 <= S' < 2 ^ Z.of_nat n ->
  gray_code S = gray_code S' -> S = S'.
Proof.
  induction n as [|n IH]; intros S S' HS HS' E.
  - cbn in HS, HS'. lia.
  - rewrite Nat2Z.inj_succ, Z.pow_succ_r in * by lia.
    rewrite (Z.div2_odd S), (Z.div2_odd S') in E |- *.
    rewrite !gray_code_double in E.
    assert (Hx : 0 <= Z.div2 S < 2 ^ Z.of_nat n).
    { pose proof (Z.div2_odd S) as E0. destruct (Z.odd S); cbn [Z.b2z] in E0; lia. }
    assert (Hx' : 0 <= Z.div2 S' < 2 ^ Z.of_nat n).
    { pose proof (Z.div2_odd S') as E0. destruct (Z.odd S'); cbn [Z.b2z] in E0; lia. }
    assert (Eg : gray_code (Z.div2 S) = gray_code (Z.div2 S')
                 /\ xorb (Z.odd S) (Z.odd (Z.div2 S))
                    = xorb (Z.odd S') (Z.odd (Z.div2 S'))).
    { destruct (xorb (Z.odd S) (Z.odd (Z.div2 S))),
               (xorb (Z.odd S') (Z.odd (Z.div2 S'))); cbn [Z.b2z] in E;
        split; try reflexivity; lia. }
    destruct Eg as [Eg Ec].
    pose proof (IH _ _ Hx Hx' Eg) as Ex. rewrite Ex in *.
    apply (f_equal (fun b => xorb b (Z.odd (Z.div2 S')))) in Ec.
    rewrite !xorb_assoc, !xorb_nilpotent, !xorb_false_r in Ec.
    rewrite Ec. reflexivity.
Qed.

(** X13: the Gray codes of two successive numbers differ in exactly one bit:
    their exclusive or is a power of two. *)
Theorem X13_gray_codes_of_neighbours_differ_in_one_bit : forall S,
  0 <= S ->
  exists k, 0 <= k /\ Z.lxor (gray_code S) (gray_code (S + 1)) = 2 ^ k.
Proof. exact gray_code_step. Qed.

Lemma X13_gray_codes_of_neighbours_differ_in_one_bit_witness :
  0 <= 11
  /\ exists k, 0 <= k /\ Z.lxor (gray_code 11) (gray_code (11 + 1)) = 2 ^ k.
Proof.
  split; [lia|].
  apply (X13_gray_codes_of_neighbours_differ_in_one_bit 11). lia.
Defined.

(** X14: on the numbers below 2^n the Gray code stays below 2^n and never
    gives the same code twice. *)
Theorem X14_gray_code_is_one_to_one : forall (n : nat) S S',
  0 <= S < 2 ^ Z.of_nat n -> 0 <= S' < 2 ^ Z.of_nat n ->
  0 <= gray_code S < 2 ^ Z.of_nat n
  /\ (gray_code S = gray_code S' -> S = S').
Proof.
  intros n S S' HS HS'. split.
  - apply gray_code_range. exact HS.
  - apply (gray_code_injective_below n); assumption.
Qed.

Lemma X14_gray_code_is_one_to_one_witness :
  0 <= 5 < 2 ^ Z.of_nat 3 /\ 0 <= 6 < 2 ^ Z.of_nat 3
  /\ 0 <= gray_code 5 < 2 ^ Z.of_nat 3
  /\ (gray_code 5 = gray_code 6 -> 5 = 6).
Proof.
  split; [vm_compute; split; [discriminate|reflexivity]|].
  split; [vm_compute; split; [discriminate|reflexivity]|].
  apply (X14_gray_code_is_one_to_one 3 5 6).
  - vm_compute. split; [discriminate|reflexivity].
  - vm_compute. split; [discriminate|reflexivity].
Defined.

(** ** The shift with a sign *)

Lemma flip_sign : forall sign,
  sign = 1 \/ sign = -1 ->
  signed32 (sign * -1) = - sign /\ (- sign = 1 \/ - sign = -1).
Proof. intros sign [->| ->]; split; try reflexivity; lia. Qed.

(** Both overloads pass the run of occupied orbitals that starts at q. *)
Lemma shift_sign_run : forall T fs C B q address sign,
  below q B -> increasing_from q C ->
  length (B ++ C) = FockSpace.N fs ->
  sign = 1 \/ sign = -1 ->
  exists n C' address',
    C = seq q n ++ C'
    /\ increasing_from (S (q + n)) C'
    /\ FockSpace.shiftUntilNextUnoccupiedOrbital_loop (length C) T fs
         (onv_of fs (B ++ C)) address q (length B)
       = (address', (q + n)%nat, (length B + n)%nat)
    /\ FockSpaceShifts.shiftUntilNextUnoccupiedOrbital_sign_loop (length C) T fs
         (onv_of fs (B ++ C)) address q (length B) sign
       = (address', (q + n)%nat, (length B + n)%nat, sign * (-1) ^ Z.of_nat n).
Proof.
  intros T fs. induction C as [|c0 C IH]; intros B q address sign HB HC Hlen Hs.
  - exists O, [], address. cbn [seq app length FockSpace.shiftUntilNextUnoccupiedOrbital_loop
      FockSpaceShifts.shiftUntilNextUnoccupiedOrbital_sign_loop increasing_from].
    rewrite !Nat.add_0_r. repeat split. f_equal. cbn. lia.
  - cbn [length FockSpace.shiftUntilNextUnoccupiedOrbital_loop
         FockSpaceShifts.shiftUntilNextUnoccupiedOrbital_sign_loop].
    assert (Eocc : ONV.get_occupation_index (onv_of fs (B ++ c0 :: C)) (length B) = c0).
    { unfold ONV.get_occupation_index, onv_of. cbn [ONV.occupation_indices].
      apply nth_middle. }
    rewrite Eocc.
    rewrite length_app in Hlen. cbn [length] in Hlen.
    destruct (Nat.ltb_spec (length B) (FockSpace.N fs)) as [_|Hge]; [|lia].
    cbn [andb]. cbn [increasing_from] in HC. destruct HC as [Hqc HC].
    destruct (Nat.eqb_spec q c0) as [<-|Hne].
    + destruct (flip_sign sign Hs) as [Ef Hs'].
      assert (HB' : below (S q) (B ++ [q])).
      { apply below_app; [apply (below_weaken q); [lia|exact HB]|].
        constructor; [lia|constructor]. }
      assert (Hlen' : length ((B ++ [q]) ++ C) = FockSpace.N fs).
      { rewrite !length_app. cbn [length]. lia. }
      replace (length B + 1)%nat with (S (length B)) by lia.
      match goal with
      | |- context [FockSpace.shiftUntilNextUnoccupiedOrbital_loop _ _ _ _ ?a _ _] =>
          destruct (IH (B ++ [q]) (S q) a (- sign) HB' HC Hlen' Hs')
            as (n & C' & a' & EC & HC' & E1 & E2)
      end.
      rewrite <- app_assoc in E1, E2. cbn [app] in E1, E2.
      rewrite length_app in E1, E2. cbn [length] in E1, E2.
      replace (length B + 1)%nat with (S (length B)) in E1, E2 by lia.
      exists (S n), C', a'.
      replace (q + S n)%nat with (S q + n)%nat by lia.
      replace (length B + S n)%nat with (S (length B) + n)%nat by lia.
      split; [cbn [seq app]; f_equal; exact EC|].
      split; [exact HC'|]. split; [exact E1|].
      rewrite Ef, E2. f_equal.
      rewrite Nat2Z.inj_succ, Z.pow_succ_r by lia. ring.
    + exists O, (c0 :: C), address. cbn [seq app].
      rewrite !Nat.add_0_r. split; [reflexivity|].
      split; [cbn [increasing_from]; split; [lia|exact HC]|].
      split; [reflexivity|]. f_equal. cbn. lia.
Qed.

(** X15: on an ONV whose electrons below q are the first e, with T <= e + 1,
    both overloads of [shiftUntilNextUnoccupiedOrbital] stop at the first
    empty orbital q + n from q on, with e + n electrons passed and the same
    address; the overload with a sign returns the sign times (-1)^n. *)
Theorem X15_shift_stops_at_the_next_empty_orbital : forall T fs B C q address sign,
  (T <= length B + 1)%nat -> below (FockSpace.K fs) (B ++ C) ->
  below q B -> increasing_from q C ->
  length (B ++ C) = FockSpace.N fs ->
  sign = 1 \/ sign = -1 ->
  exists n address',
    FockSpace.shiftUntilNextUnoccupiedOrbital T fs (onv_of fs (B ++ C))
      address q (length B)
    = (address', (q + n)%nat, (length B + n)%nat)
    /\ FockSpaceShifts.shiftUntilNextUnoccupiedOrbital_sign T fs (onv_of fs (B ++ C))
         address q (length B) sign
       = (address', (q + n)%nat, (length B + n)%nat, sign * (-1) ^ Z.of_nat n)
    /\ (forall x, (q <= x < q + n)%nat -> In x (B ++ C))
    /\ ~ In (q + n)%nat (B ++ C).
Proof.
  intros T fs B C q address sign _ _ HB HC Hlen Hs.
  destruct (shift_sign_run T fs C B q address sign HB HC Hlen Hs)
    as (n & C' & a' & EC & HC' & E1 & E2).
  exists n, a'.
  unfold FockSpace.shiftUntilNextUnoccupiedOrbital,
         FockSpaceShifts.shiftUntilNextUnoccupiedOrbital_sign.
  rewrite length_app in Hlen.
  replace (FockSpace.N fs - length B)%nat with (length C) by lia.
  split; [exact E1|]. split; [exact E2|]. split.
  - intros x Hx. apply in_or_app. right. rewrite EC. apply in_or_app. left.
    apply in_seq. lia.
  - intros Hin. apply in_app_or in Hin. destruct Hin as [Hin|Hin].
    + pose proof (below_In B q _ HB Hin). lia.
    + rewrite EC in Hin. apply in_app_or in Hin. destruct Hin as [Hin|Hin].
      * apply in_seq in Hin. lia.
      * pose proof (increasing_from_In C' _ _ HC' Hin). lia.
Qed.

Lemma X15_shift_stops_at_the_next_empty_orbital_witness :
  (1 <= length [0%nat] + 1)%nat
  /\ below (FockSpace.K (example_fock_space 6 4)) ([0] ++ [1; 2; 4])%nat
  /\ below 1 [0]%nat /\ increasing_from 1 [1; 2; 4]%nat
  /\ length ([0] ++ [1; 2; 4])%nat = FockSpace.N (example_fock_space 6 4)
  /\ (1 = 1 \/ 1 = -1)
  /\ exists n address',
       FockSpace.shiftUntilNextUnoccupiedOrbital 1 (example_fock_space 6 4)
         (onv_of (example_fock_space 6 4) ([0] ++ [1; 2; 4])%nat) 3 1 (length [0%nat])
       = (address', (1 + n)%nat, (length [0%nat] + n)%nat)
       /\ FockSpaceShifts.shiftUntilNextUnoccupiedOrbital_sign 1 (example_fock_space 6 4)
            (onv_of (example_fock_space 6 4) ([0] ++ [1; 2; 4])%nat) 3 1
            (length [0%nat]) 1
          = (address', (1 + n)%nat, (length [0%nat] + n)%nat, 1 * (-1) ^ Z.of_nat n)
       /\ (forall x, (1 <= x < 1 + n)%nat -> In x ([0] ++ [1; 2; 4])%nat)
       /\ ~ In (1 + n)%nat ([0] ++ [1; 2; 4])%nat.
Proof.
  assert (H1 : below 1 [0]%nat) by (repeat constructor).
  assert (H2 : increasing_from 1 [1; 2; 4]%nat) by (cbn; lia).
  assert (H3 : below (FockSpace.K (example_fock_space 6 4)) ([0] ++ [1; 2; 4])%nat)
    by (vm_compute; repeat constructor).
  split; [simpl; lia|]. split; [exact H3|].
  split; [exact H1|]. split; [exact H2|]. split; [vm_compute; reflexivity|].
  split; [left; reflexivity|].
  apply (X15_shift_stops_at_the_next_empty_orbital 1 (example_fock_space 6 4)
           [0]%nat [1; 2; 4]%nat 1%nat 3 1).
  - simpl. lia.
  - exact H3.
  - exact H1.
  - exact H2.
  - vm_compute. reflexivity.
  - left. reflexivity.
Defined.

(** ** Configurations of a selected Fock space *)

Section SelectedConfigurations.

Import SelectedFockSpace.

Lemma dynamic_bitset_chars_app : forall s1 s2 b1 b2,
  dynamic_bitset_chars s1 = Ok b1 -> dynamic_bitset_chars s2 = Ok b2 ->
  dynamic_bitset_chars (s1 ++ s2)%string = Ok (b2 ++ b1).
Proof.
  induction s1 as [|c s1 IH]; intros s2 b1 b2 H1 H2.
  - cbn in H1. injection H1 as <-. cbn [String.append]. rewrite H2, app_nil_r.
    reflexivity.
  - cbn [String.append dynamic_bitset_chars] in H1 |- *.
    destruct (dynamic_bitset_chars s1) as [bits|e] eqn:E1; [|discriminate].
    rewrite (IH s2 bits b2 eq_refl H2). cbn [bind] in H1 |- *.
    destruct (Ascii.eqb c "0"); [injection H1 as <-; rewrite <- app_assoc; reflexivity|].
    destruct (Ascii.eqb c "1"); [injection H1 as <-; rewrite <- app_assoc; reflexivity|].
    discriminate.
Qed.

(** Reading the string of a bit set gives the bit set back. *)
Lemma dynamic_bitset_string : forall b, dynamic_bitset (bitset_string b) = Ok b.
Proof.
  unfold dynamic_bitset. induction b as [|x b IH]; [reflexivity|].
  cbn [bitset_string].
  rewrite (dynamic_bitset_chars_app _ _ b [x] IH); [reflexivity|].
  destruct x; reflexivity.
Qed.

Lemma bitset_value_range : forall b, 0 <= bitset_value b < 2 ^ Z.of_nat (length b).
Proof.
  induction b as [|x b IH]; [cbn; lia|].
  cbn [bitset_value length]. rewrite Nat2Z.inj_succ, Z.pow_succ_r by lia.
  destruct x; cbn [Z.b2z]; lia.
Qed.

Lemma to_ulong_fits : forall b, (length b <= 64)%nat -> to_ulong b = Ok (bitset_value b).
Proof.
  intros b Hb. unfold to_ulong. pose proof (bitset_value_range b) as Hr.
  assert (2 ^ Z.of_nat (length b) <= 2 ^ 64) by (apply Z.pow_le_mono_r; lia).
  destruct (Z.ltb_spec (bitset_value b) (2 ^ 64)); [reflexivity|lia].
Qed.

Lemma makeConfiguration_strings : forall fs a b,
  (K fs <= 64)%nat ->
  makeConfiguration fs (bitset_string a) (bitset_string b)
  = if fits fs a b then Ok (configuration_of fs a b) else Throw std_invalid_argument.
Proof.
  intros fs a b HK. unfold makeConfiguration, fits, configuration_of.
  rewrite !dynamic_bitset_string. cbn [bind]. unfold bitset_size.
  destruct (Nat.eqb_spec (length a) (K fs)) as [Ea|_]; cbn [negb orb andb];
    [|reflexivity].
  destruct (Nat.eqb_spec (length b) (K fs)) as [Eb|_]; cbn [negb orb andb];
    [|reflexivity].
  destruct (bitset_count a =? N_alpha fs)%nat; cbn [negb orb andb]; [|reflexivity].
  destruct (bitset_count b =? N_beta fs)%nat; cbn [negb orb andb]; [|reflexivity].
  rewrite !to_ulong_fits by lia. reflexivity.
Qed.

Lemma nth_map_default : forall (A B : Type) (f : A -> B) (l : list A) i d d',
  (i < length l)%nat -> nth i (map f l) d' = f (nth i l d).
Proof.
  intros A B f l i d d' Hi.
  rewrite (nth_indep (map f l) d' (f d)) by (rewrite length_map; exact Hi).
  apply map_nth.
Qed.

Lemma addConfiguration_step : forall fs added a b,
  (K fs <= 64)%nat ->
  dim fs + Z.of_nat (length added) + 1 < 2 ^ 64 -> 0 <= dim fs ->
  addConfiguration (after_adding fs added) (bitset_string a) (bitset_string b)
  = if fits fs a b
    then (after_adding fs (added ++ [(a, b)]), Ok tt)
    else (Build (K fs) (dim fs + Z.of_nat (length added) + 1) (N_alpha fs)
                (N_beta fs)
                (configurations fs
                 ++ map (fun ab => configuration_of fs (fst ab) (snd ab)) added),
          Throw std_invalid_argument).
Proof.
  intros fs added a b HK Hd H0. unfold addConfiguration, after_adding.
  cbn [K dim N_alpha N_beta configurations].
  rewrite makeConfiguration_strings by (cbn [K]; exact HK).
  unfold fits, configuration_of. cbn [K dim N_alpha N_beta configurations].
  rewrite wrap64_small by lia.
  destruct (((length a =? K fs)%nat && (length b =? K fs)%nat)
            && ((bitset_count a =? N_alpha fs)%nat
                && (bitset_count b =? N_beta fs)%nat)).
  - rewrite length_app, map_app, <- app_assoc. cbn [length map fst snd].
    rewrite Nat2Z.inj_add, Z.add_assoc. reflexivity.
  - reflexivity.
Qed.

Lemma firstn_S_nth_pairs : forall (A : Type) (l : list A) i d,
  (i < length l)%nat -> firstn (S i) l = firstn i l ++ [nth i l d].
Proof.
  intros A. induction l as [|a l IH]; intros i d Hi; cbn [length] in Hi; [lia|].
  destruct i as [|i]; [reflexivity|].
  cbn [firstn nth app]. f_equal. apply IH. lia.
Qed.

(** Adding many pairs that all fit. *)
Lemma addConfigurations_all_fit : forall fs pairs,
  (K fs <= 64)%nat -> 0 <= dim fs ->
  dim fs + Z.of_nat (length pairs) < 2 ^ 64 ->
  forallb (fun ab => fits fs (fst ab) (snd ab)) pairs = true ->
  SelectedFockSpaceMethods.addConfigurations fs
    (map (fun ab => bitset_string (fst ab)) pairs)
    (map (fun ab => bitset_string (snd ab)) pairs)
  = (after_adding fs pairs, Ok tt).
Proof.
  intros fs pairs HK H0 Hd Hfit.
  unfold SelectedFockSpaceMethods.addConfigurations.
  rewrite !length_map, Nat.eqb_refl. cbn [negb].
  rewrite forallb_forall in Hfit.
  match goal with
  | |- for_range 0 ?n ?body ?s = _ =>
      assert (G : (fun i st => st = (after_adding fs (firstn i pairs), Ok tt))
                  n (for_range 0 n body s));
      [apply for_range_ind|]
  end.
  - lia.
  - unfold after_adding. cbn [firstn length map]. rewrite Z.add_0_r, app_nil_r.
    destruct fs; reflexivity.
  - intros i st Hi ->. cbn [fst snd].
    rewrite (nth_map_default _ _ (fun ab => bitset_string (fst ab)) pairs i ([], []))
      by lia.
    rewrite (nth_map_default _ _ (fun ab => bitset_string (snd ab)) pairs i ([], []))
      by lia.
    rewrite addConfiguration_step; try assumption.
    + rewrite (Hfit (nth i pairs ([], []))) by (apply nth_In; lia).
      rewrite <- surjective_pairing.
      rewrite <- (firstn_S_nth_pairs _ pairs i) by lia. reflexivity.
    + rewrite length_firstn. lia.
  - cbv beta in G. rewrite G, firstn_all. reflexivity.
Qed.

(** Adding many pairs of which one does not fit. *)
Lemma addConfigurations_first_misfit : forall fs good a b rest,
  (K fs <= 64)%nat -> 0 <= dim fs ->
  dim fs + Z.of_nat (length good) + 1 < 2 ^ 64 ->
  forallb (fun ab => fits fs (fst ab) (snd ab)) good = true ->
  fits fs a b = false ->
  SelectedFockSpaceMethods.addConfigurations fs
    (map (fun ab => bitset_string (fst ab)) (good ++ (a, b) :: rest))
    (map (fun ab => bitset_string (snd ab)) (good ++ (a, b) :: rest))
  = (Build (K fs) (dim fs + Z.of_nat (length good) + 1) (N_alpha fs) (N_beta fs)
           (configurations fs
            ++ map (fun ab => configuration_of fs (fst ab) (snd ab)) good),
     Throw std_invalid_argument).
Proof.
  intros fs good a b rest HK H0 Hd Hfit Hmis.
  unfold SelectedFockSpaceMethods.addConfigurations.
  rewrite !length_map, Nat.eqb_refl. cbn [negb].
  rewrite forallb_forall in Hfit.
  set (pairs := good ++ (a, b) :: rest).
  set (failed := (Build (K fs) (dim fs + Z.of_nat (length good) + 1) (N_alpha fs)
                        (N_beta fs)
                        (configurations fs
                         ++ map (fun ab => configuration_of fs (fst ab) (snd ab)) good),
                  @Throw unit std_invalid_argument)).
  assert (Hlen : length pairs = (length good + S (length rest))%nat).
  { unfold pairs. rewrite length_app. reflexivity. }
  match goal with
  | |- for_range 0 ?n ?body ?s = _ =>
      assert (G : (fun i st =>
                     ((i <= length good)%nat ->
                      st = (after_adding fs (firstn i good), Ok tt))
                     /\ ((length good < i)%nat -> st = failed))
                  n (for_range 0 n body s));
      [apply for_range_ind|]
  end.
  - lia.
  - split; [|lia]. intros _. unfold after_adding. cbn [firstn length map].
    rewrite Z.add_0_r, app_nil_r. destruct fs; reflexivity.
  - intros i st Hi [Hok Hfail].
    destruct (Nat.lt_ge_cases (length good) i) as [Hgt|Hle].
    + rewrite (Hfail Hgt). split; [lia|]. intros _. reflexivity.
    + rewrite (Hok Hle). cbn [fst snd].
      rewrite (nth_map_default _ _ (fun ab => bitset_string (fst ab)) pairs i ([], []))
        by lia.
      rewrite (nth_map_default _ _ (fun ab => bitset_string (snd ab)) pairs i ([], []))
        by lia.
      rewrite addConfiguration_step; try assumption;
        [|rewrite length_firstn; lia].
      destruct (Nat.eq_dec i (length good)) as [->|Hne].
      * unfold pairs. rewrite nth_middle. cbn [fst snd]. rewrite Hmis.
        split; [lia|]. intros _. rewrite firstn_all. reflexivity.
      * assert (Hnth : nth i pairs ([], []) = nth i good ([], [])).
        { unfold pairs. apply app_nth1. lia. }
        rewrite Hnth, (Hfit (nth i good ([], []))) by (apply nth_In; lia).
        rewrite <- surjective_pairing.
        rewrite <- (firstn_S_nth_pairs _ good i) by lia.
        split; [intros _; reflexivity|lia].
  - cbv beta in G. destruct G as [_ G]. apply G. lia.
Qed.

(** X16: for two bit sets written as strings, [makeConfiguration] returns
    the configuration whose ONVs carry the values of the bit sets when both
    have K bits and the right numbers of set bits, and throws
    [std::invalid_argument] otherwise (K at most 64). *)
Theorem X16_makeConfiguration_on_bit_strings : forall fs a b,
  (K fs <= 64)%nat ->
  makeConfiguration fs (bitset_string a) (bitset_string b)
  = if ((length a =? K fs)%nat && (length b =? K fs)%nat)
       && ((bitset_count a =? N_alpha fs)%nat && (bitset_count b =? N_beta fs)%nat)
    then Ok (BuildConfiguration
               (ONV.make (K fs) (N_alpha fs) (bitset_value a))
               (ONV.make (K fs) (N_beta fs) (bitset_value b)))
    else Throw std_invalid_argument.
Proof. intros fs a b HK. apply (makeConfiguration_strings fs a b HK). Qed.

Lemma X16_makeConfiguration_on_bit_strings_witness :
  (K (SelectedFockSpace 3 1 2) <= 64)%nat
  /\ makeConfiguration (SelectedFockSpace 3 1 2)
       (bitset_string [false; true; false]) (bitset_string [true; true; false])
     = if ((length [false; true; false] =? K (SelectedFockSpace 3 1 2))%nat
           && (length [true; true; false] =? K (SelectedFockSpace 3 1 2))%nat)
          && ((bitset_count [false; true; false]
               =? N_alpha (SelectedFockSpace 3 1 2))%nat
              && (bitset_count [true; true; false]
                  =? N_beta (SelectedFockSpace 3 1 2))%nat)
       then Ok (BuildConfiguration
                  (ONV.make (K (SelectedFockSpace 3 1 2))
                     (N_alpha (SelectedFockSpace 3 1 2))
                     (bitset_value [false; true; false]))
                  (ONV.make (K (SelectedFockSpace 3 1 2))
                     (N_beta (SelectedFockSpace 3 1 2))
                     (bitset_value [true; true; false])))
       else Throw std_invalid_argument.
Proof.
  split; [cbn; lia|].
  apply (X16_makeConfiguration_on_bit_strings (SelectedFockSpace 3 1 2)
           [false; true; false] [true; true; false]).
  cbn. lia.
Defined.

(** X17: when every pair of bit strings fits the selected Fock space, the
    vector overload of [addConfiguration] appends their configurations in
    order and raises the dimension by their number. *)
Theorem X17_adding_pairs_that_fit : forall fs pairs,
  (K fs <= 64)%nat -> 0 <= dim fs ->
  dim fs + Z.of_nat (length pairs) < 2 ^ 64 ->
  forallb (fun ab => fits fs (fst ab) (snd ab)) pairs = true ->
  SelectedFockSpaceMethods.addConfigurations fs
    (map (fun ab => bitset_string (fst ab)) pairs)
    (map (fun ab => bitset_string (snd ab)) pairs)
  = (Build (K fs) (dim fs + Z.of_nat (length pairs)) (N_alpha fs) (N_beta fs)
           (configurations fs
            ++ map (fun ab => configuration_of fs (fst ab) (snd ab)) pairs),
     Ok tt).
Proof.
  intros fs pairs HK H0 Hd Hfit.
  apply (addConfigurations_all_fit fs pairs HK H0 Hd Hfit).
Qed.

Lemma X17_adding_pairs_that_fit_witness :
  (K (SelectedFockSpace 2 1 1) <= 64)%nat
  /\ 0 <= dim (SelectedFockSpace 2 1 1)
  /\ dim (SelectedFockSpace 2 1 1)
     + Z.of_nat (length [([true; false], [false; true]);
                         ([false; true], [false; true])]) < 2 ^ 64
  /\ forallb (fun ab => fits (SelectedFockSpace 2 1 1) (fst ab) (snd ab))
       [([true; false], [false; true]); ([false; true], [false; true])] = true
  /\ SelectedFockSpaceMethods.addConfigurations (SelectedFockSpace 2 1 1)
       (map (fun ab => bitset_string (fst ab))
            [([true; false], [false; true]); ([false; true], [false; true])])
       (map (fun ab => bitset_string (snd ab))
            [([true; false], [false; true]); ([false; true], [false; true])])
     = (Build (K (SelectedFockSpace 2 1 1))
              (dim (SelectedFockSpace 2 1 1)
               + Z.of_nat (length [([true; false], [false; true]);
                                   ([false; true], [false; true])]))
              (N_alpha (SelectedFockSpace 2 1 1)) (N_beta (SelectedFockSpace 2 1 1))
              (configurations (SelectedFockSpace 2 1 1)
               ++ map (fun ab => configuration_of (SelectedFockSpace 2 1 1)
                                   (fst ab) (snd ab))
                    [([true; false], [false; true]); ([false; true], [false; true])]),
        Ok tt).
Proof.
  split; [cbn; lia|]. split; [cbn; lia|]. split; [vm_compute; reflexivity|].
  split; [reflexivity|].
  apply (X17_adding_pairs_that_fit (SelectedFockSpace 2 1 1)
           [([true; false], [false; true]); ([false; true], [false; true])]).
  - cbn. lia.
  - cbn. lia.
  - vm_compute. reflexivity.
  - reflexivity.
Defined.

(** X18: when a pair of bit strings does not fit, the vector overload of
    [addConfiguration] throws [std::invalid_argument] at that pair and undoes
    nothing: the configurations of the pairs before it stay, and the
    dimension is one more than their number. *)
Theorem X18_adding_stops_at_the_first_misfit : forall fs good a b rest,
  (K fs <= 64)%nat -> 0 <= dim fs ->
  dim fs + Z.of_nat (length good) + 1 < 2 ^ 64 ->
  forallb (fun ab => fits fs (fst ab) (snd ab)) good = true ->
  fits fs a b = false ->
  SelectedFockSpaceMethods.addConfigurations fs
    (map (fun ab => bitset_string (fst ab)) (good ++ (a, b) :: rest))
    (map (fun ab => bitset_string (snd ab)) (good ++ (a, b) :: rest))
  = (Build (K fs) (dim fs + Z.of_nat (length good) + 1) (N_alpha fs) (N_beta fs)
           (configurations fs
            ++ map (fun ab => configuration_of fs (fst ab) (snd ab)) good),
     Throw std_invalid_argument).
Proof.
  intros fs good a b rest HK H0 Hd Hfit Hmis.
  apply (addConfigurations_first_misfit fs good a b rest HK H0 Hd Hfit Hmis).
Qed.

Lemma X18_adding_stops_at_the_first_misfit_witness :
  (K (SelectedFockSpace 2 1 1) <= 64)%nat
  /\ 0 <= dim (SelectedFockSpace 2 1 1)
  /\ dim (SelectedFockSpace 2 1 1)
     + Z.of_nat (length [([true; false], [false; true])]) + 1 < 2 ^ 64
  /\ forallb (fun ab => fits (SelectedFockSpace 2 1 1) (fst ab) (snd ab))
       [([true; false], [false; true])] = true
  /\ fits (SelectedFockSpace 2 1 1) [true; true] [false; true] = false
  /\ SelectedFockSpaceMethods.addConfigurations (SelectedFockSpace 2 1 1)
       (map (fun ab => bitset_string (fst ab))
            ([([true; false], [false; true])]
             ++ ([true; true], [false; true]) :: [([false; true], [true; false])]))
       (map (fun ab => bitset_string (snd ab))
            ([([true; false], [false; true])]
             ++ ([true; true], [false; true]) :: [([false; true], [true; false])]))
     = (Build (K (SelectedFockSpace 2 1 1))
              (dim (SelectedFockSpace 2 1 1)
               + Z.of_nat (length [([true; false], [false; true])]) + 1)
              (N_alpha (SelectedFockSpace 2 1 1)) (N_beta (SelectedFockSpace 2 1 1))
              (configurations (SelectedFockSpace 2 1 1)
               ++ map (fun ab => configuration_of (SelectedFockSpace 2 1 1)
                                   (fst ab) (snd ab))
                    [([true; false], [false; true])]),
        Throw std_invalid_argument).
Proof.
  split; [cbn; lia|]. split; [cbn; lia|]. split; [vm_compute; reflexivity|].
  split; [reflexivity|]. split; [reflexivity|].
  apply (X18_adding_stops_at_the_first_misfit (SelectedFockSpace 2 1 1)
           [([true; false], [false; true])] [true; true] [false; true]
           [([false; true], [true; false])]).
  - cbn. lia.
  - cbn. lia.
  - vm_compute. reflexivity.
  - reflexivity.
  - reflexivity.
Defined.

End SelectedConfigurations.

(** ** The frozen-core builder over a DOCI builder *)

Section FrozenCoreOverDOCI.

Import Linalg.

Context {T : Type} {ST : Scalar T}.
Hypothesis Tring : ring_theory zero one add mul sub opp (@eq T).

Add Ring scalar_ring_frozen_doci : Tring.

Local Open Scope scalar_scope.

Variable fs : FockSpace.t.
Variable ham : HamiltonianParameters T.
Hypothesis Hwf : well_formed fs.
Hypothesis HK : one_dim (get_h ham) = FockSpace.get_K fs.

(** Off the diagonal the matrix of the address loop does not depend on the
    diagonal it is given. *)
Lemma hamiltonian_off_diagonal : forall d1 d2 a b,
  (0 <= a < FockSpace.get_dimension fs)%Z ->
  (0 <= b < FockSpace.get_dimension fs)%Z -> a <> b ->
  entry (fst (for_range 0 (Z.to_nat (FockSpace.get_dimension fs))
                (hamiltonian_step fs ham d1)
                (SquareMatrix_Zero (FockSpace.get_dimension fs),
                 FockSpace.makeONV fs 0))) a b
  = entry (fst (for_range 0 (Z.to_nat (FockSpace.get_dimension fs))
                (hamiltonian_step fs ham d2)
                (SquareMatrix_Zero (FockSpace.get_dimension fs),
                 FockSpace.makeONV fs 0))) a b.
Proof.
  assert (Hlow : forall d1 d2 a b,
            (0 <= a < FockSpace.get_dimension fs)%Z -> (a < b)%Z ->
            entry (fst (for_range 0 (Z.to_nat (FockSpace.get_dimension fs))
                          (hamiltonian_step fs ham d1)
                          (SquareMatrix_Zero (FockSpace.get_dimension fs),
                           FockSpace.makeONV fs 0))) a b
            = entry (fst (for_range 0 (Z.to_nat (FockSpace.get_dimension fs))
                          (hamiltonian_step fs ham d2)
                          (SquareMatrix_Zero (FockSpace.get_dimension fs),
                           FockSpace.makeONV fs 0))) a b).
  { intros d1 d2 a b Ha Hab.
    destruct (rank_surjective fs (well_formed_addressable fs Hwf) (Z.to_nat a))
      as (l & Hocc & Hr).
    { rewrite Z2Nat.id by lia. apply Ha. }
    rewrite Z2Nat.id in Hr by lia. rewrite <- Hr in Hab |- *.
    rewrite (hamiltonian_rows fs ham Hwf HK d1 l b Hocc Hab).
    rewrite (hamiltonian_rows fs ham Hwf HK d2 l b Hocc Hab).
    reflexivity. }
  intros d1 d2 a b Ha Hb Hab.
  destruct (Z.lt_total a b) as [Hlt|[Heq|Hgt]].
  - apply Hlow; assumption.
  - contradiction.
  - destruct (hamiltonian_loop_shape Tring fs ham Hwf HK d1) as (_ & Hs1 & _).
    destruct (hamiltonian_loop_shape Tring fs ham Hwf HK d2) as (_ & Hs2 & _).
    rewrite (Hs1 a b), (Hs2 a b). apply Hlow; assumption.
Qed.

(** The diagonal that [FrozenCoreCI::calculateDiagonal] returns over a DOCI
    builder, and the Hamiltonian of [FrozenCoreCI::constructHamiltonian]. *)
Lemma frozen_core_over_doci : forall X (full : HamiltonianParameters T),
  FrozenCoreCI.freezeHamiltonianParameters full X = ham ->
  let d0 := diagonal_of fs ham in
  let c := FrozenCoreCI.calculateFrozenCoreDiagonal (FockSpace.get_dimension fs)
             full X in
  let H0 := fst (for_range 0 (Z.to_nat (FockSpace.get_dimension fs))
                   (hamiltonian_step fs ham d0)
                   (SquareMatrix_Zero (FockSpace.get_dimension fs),
                    FockSpace.makeONV fs 0)) in
  FrozenCoreCIMethods.calculateDiagonal (DOCI.calculateDiagonal fs)
    (FockSpace.get_dimension fs) X full = Ok (VectorX_add d0 c)
  /\ FrozenCoreCI.constructHamiltonian (DOCI.constructHamiltonian fs)
       (FockSpace.get_dimension fs) X full = Ok (add_asDiagonal H0 c)
  /\ (forall x,
        FrozenCoreCIMethods.matrixVectorProduct (DOCI.matrixVectorProduct fs) X
          full x (VectorX_add d0 c)
        = Ok (fst (for_range 0 (Z.to_nat (FockSpace.get_dimension fs))
                     (product_step fs ham x)
                     (cwiseProduct (VectorX_add d0 c) x, FockSpace.makeONV fs 0)))).
Proof.
  intros X full Hfull d0 c H0.
  unfold FrozenCoreCIMethods.calculateDiagonal, FrozenCoreCI.constructHamiltonian,
    FrozenCoreCIMethods.matrixVectorProduct.
  rewrite Hfull.
  rewrite (calculateDiagonal_loop fs ham HK), (constructHamiltonian_loop fs ham HK).
  cbn [bind]. split; [reflexivity|]. split; [reflexivity|].
  intros x. apply (matrixVectorProduct_loop fs ham x _ HK).
Qed.

Lemma frozen_core_coefficient : forall n (full : HamiltonianParameters T) X a,
  coeff (FrozenCoreCI.calculateFrozenCoreDiagonal n full X) a
  = FrozenCoreCI.frozen_core_value full X.
Proof.
  intros n full X a. unfold FrozenCoreCI.calculateFrozenCoreDiagonal.
  cbn [coeff VectorX_scale VectorX_Ones]. ring.
Qed.

(** The product loop on the shifted diagonal gives the rows of the shifted
    matrix. *)
Lemma frozen_product_rows : forall (c x : VectorX T) a,
  (0 <= a < FockSpace.get_dimension fs)%Z ->
  let d0 := diagonal_of fs ham in
  let H0 := fst (for_range 0 (Z.to_nat (FockSpace.get_dimension fs))
                   (hamiltonian_step fs ham d0)
                   (SquareMatrix_Zero (FockSpace.get_dimension fs),
                    FockSpace.makeONV fs 0)) in
  coeff (fst (for_range 0 (Z.to_nat (FockSpace.get_dimension fs))
                (product_step fs ham x)
                (cwiseProduct (VectorX_add d0 c) x, FockSpace.makeONV fs 0))) a
  = coeff (SquareMatrix_mul_vector (add_asDiagonal H0 c) x) a.
Proof.
  intros c x a Ha d0 H0.
  destruct (product_loop_agrees Tring fs ham Hwf HK (VectorX_add d0 c) x)
    as [_ Hrows].
  { cbn [size VectorX_add]. apply diagonal_of_size. }
  rewrite (Hrows a Ha). unfold row_sum.
  destruct (hamiltonian_loop_shape Tring fs ham Hwf HK (VectorX_add d0 c))
    as (Hdim1 & _ & Hdiag1).
  destruct (hamiltonian_loop_shape Tring fs ham Hwf HK d0) as (Hdim0 & _ & Hdiag0).
  fold H0 in Hdim0, Hdiag0.
  cbn [coeff SquareMatrix_mul_vector dim add_asDiagonal entry].
  rewrite Hdim1, Hdim0.
  apply sum_upto_ext. intros j Hj.
  destruct (Z.eqb_spec a j) as [<-|Hne].
  - rewrite (Hdiag1 a Ha), (Hdiag0 a Ha). cbn [coeff VectorX_add]. reflexivity.
  - rewrite (hamiltonian_off_diagonal (VectorX_add d0 c) d0 a j Ha); [reflexivity| |exact Hne].
    rewrite Z2Nat.id in Hj by lia. exact Hj.
Qed.

End FrozenCoreOverDOCI.

Section FrozenCoreComposition.

Import Linalg.

Context {T : Type} {ST : Scalar T}.
Hypothesis Tring : ring_theory zero one add mul sub opp (@eq T).

Local Open Scope scalar_scope.

Lemma frozen_parameters_fit : forall (K N X : nat) (fs : FockSpace.t)
    (ham_par : HamiltonianParameters T),
  (N <= K)%nat -> (K <= 54)%nat -> (N <= 31)%nat ->
  FockSpace.FockSpace K N = Ok fs ->
  get_K ham_par = (K + X)%nat -> (Z.of_nat (K + X) < 2 ^ 64)%Z ->
  well_formed fs
  /\ one_dim (get_h (FrozenCoreCI.freezeHamiltonianParameters ham_par X))
     = FockSpace.get_K fs.
Proof.
  intros K N X fs ham_par HN HK54 HN31 Hfs Hham Hsize.
  destruct (constructed_well_formed K N fs HN HK54 HN31 Hfs) as (Hwf & HKfs & _).
  split; [exact Hwf|].
  change (one_dim (get_h (FrozenCoreCI.freezeHamiltonianParameters ham_par X)))
    with (get_K (FrozenCoreCI.freezeHamiltonianParameters ham_par X)).
  rewrite (freeze_orbital_count ham_par X), Hham.
  unfold FockSpace.get_K. rewrite HKfs. unfold wrap64.
  rewrite Z.mod_small by lia. lia.
Qed.

(** X19: a frozen-core builder over a DOCI builder of FockSpace(K, N), with
    N <= K <= 54 and N <= 31, on Hamiltonian parameters over K + X orbitals:
    [FrozenCoreCI::calculateDiagonal] returns the DOCI diagonal of the frozen
    parameters with the frozen-core energy added to every entry, and this
    is the diagonal of the matrix of [FrozenCoreCI::constructHamiltonian];
    the value added is the frozen-core energy in closed form. *)
Theorem X19_frozen_core_diagonal_matches :
  forall (K N X : nat) (fs : FockSpace.t) (ham_par : HamiltonianParameters T),
    (N <= K)%nat -> (K <= 54)%nat -> (N <= 31)%nat ->
    FockSpace.FockSpace K N = Ok fs ->
    get_K ham_par = (K + X)%nat -> (Z.of_nat (K + X) < 2 ^ 64)%Z ->
    exists active_diagonal diagonal H,
      DOCI.calculateDiagonal fs (FrozenCoreCI.freezeHamiltonianParameters ham_par X)
      = Ok active_diagonal
      /\ FrozenCoreCIMethods.calculateDiagonal (DOCI.calculateDiagonal fs)
           (FockSpace.get_dimension fs) X ham_par = Ok diagonal
      /\ FrozenCoreCI.constructHamiltonian (DOCI.constructHamiltonian fs)
           (FockSpace.get_dimension fs) X ham_par = Ok H
      /\ size diagonal = FockSpace.get_dimension fs
      /\ (forall I, (0 <= I < FockSpace.get_dimension fs)%Z ->
            coeff diagonal I
            = coeff active_diagonal I + FrozenCoreCI.frozen_core_value ham_par X
            /\ entry H I I = coeff diagonal I)
      /\ FrozenCoreCI.frozen_core_value ham_par X = frozen_core_energy ham_par X.
Proof.
  intros K N X fs ham_par HN HK54 HN31 Hfs Hham Hsize.
  destruct (frozen_parameters_fit K N X fs ham_par HN HK54 HN31 Hfs Hham Hsize)
    as [Hwf HK].
  destruct (frozen_core_over_doci fs
              (FrozenCoreCI.freezeHamiltonianParameters ham_par X) HK X ham_par
              eq_refl) as (Hd & HH & _).
  eexists. eexists. eexists.
  split; [apply (calculateDiagonal_loop fs _ HK)|].
  split; [exact Hd|]. split; [exact HH|].
  split; [cbn [size VectorX_add]; apply diagonal_of_size|].
  split; [|apply (frozen_core_value_closed_form Tring)].
  intros I HI.
  destruct (hamiltonian_loop_shape Tring fs _ Hwf HK
              (diagonal_of fs (FrozenCoreCI.freezeHamiltonianParameters ham_par X)))
    as (_ & _ & Hdiag).
  cbn [coeff VectorX_add entry add_asDiagonal].
  rewrite Z.eqb_refl, (Hdiag I HI), frozen_core_coefficient by exact Tring.
  split; reflexivity.
Qed.

(** X20: a frozen-core builder over a DOCI builder of FockSpace(K, N), with
    N <= K <= 54 and N <= 31, on Hamiltonian parameters over K + X orbitals:
    [FrozenCoreCI::matrixVectorProduct] on a vector x and the diagonal of
    [FrozenCoreCI::calculateDiagonal] has the
    length and, at every address, the coefficient of the matrix of
    [FrozenCoreCI::constructHamiltonian] times x.  The scalars are any
    commutative ring, so sums are exact. *)
Theorem X20_frozen_core_matrix_vector_product_agrees :
  forall (K N X : nat) (fs : FockSpace.t) (ham_par : HamiltonianParameters T)
         (x : VectorX T),
    (N <= K)%nat -> (K <= 54)%nat -> (N <= 31)%nat ->
    FockSpace.FockSpace K N = Ok fs ->
    get_K ham_par = (K + X)%nat -> (Z.of_nat (K + X) < 2 ^ 64)%Z ->
    exists diagonal H matvec,
      FrozenCoreCIMethods.calculateDiagonal (DOCI.calculateDiagonal fs)
        (FockSpace.get_dimension fs) X ham_par = Ok diagonal
      /\ FrozenCoreCI.constructHamiltonian (DOCI.constructHamiltonian fs)
           (FockSpace.get_dimension fs) X ham_par = Ok H
      /\ FrozenCoreCIMethods.matrixVectorProduct (DOCI.matrixVectorProduct fs) X
           ham_par x diagonal = Ok matvec
      /\ size matvec = size (SquareMatrix_mul_vector H x)
      /\ (forall a, (0 <= a < FockSpace.get_dimension fs)%Z ->
            coeff matvec a = coeff (SquareMatrix_mul_vector H x) a).
Proof.
  intros K N X fs ham_par x HN HK54 HN31 Hfs Hham Hsize.
  destruct (frozen_parameters_fit K N X fs ham_par HN HK54 HN31 Hfs Hham Hsize)
    as [Hwf HK].
  destruct (frozen_core_over_doci fs
              (FrozenCoreCI.freezeHamiltonianParameters ham_par X) HK X ham_par
              eq_refl) as (Hd & HH & Hm).
  eexists. eexists. eexists.
  split; [exact Hd|]. split; [exact HH|]. split; [apply (Hm x)|].
  split.
  - destruct (product_loop_agrees Tring fs _ Hwf HK
                (VectorX_add
                   (diagonal_of fs (FrozenCoreCI.freezeHamiltonianParameters ham_par X))
                   (FrozenCoreCI.calculateFrozenCoreDiagonal
                      (FockSpace.get_dimension fs) ham_par X)) x) as [Hs _].
    { cbn [size VectorX_add]. apply diagonal_of_size. }
    rewrite Hs. cbn [size SquareMatrix_mul_vector dim add_asDiagonal].
    destruct (hamiltonian_loop_shape Tring fs _ Hwf HK
                (diagonal_of fs (FrozenCoreCI.freezeHamiltonianParameters ham_par X)))
      as (Hdim & _ & _).
    symmetry. exact Hdim.
  - intros a Ha.
    apply (frozen_product_rows Tring fs _ Hwf HK _ x a Ha).
Qed.

End FrozenCoreComposition.

Lemma X19_frozen_core_diagonal_matches_witness :
  (1 <= 3)%nat /\ (3 <= 54)%nat /\ (1 <= 31)%nat
  /\ FockSpace.FockSpace 3 1 = Ok (example_fock_space 3 1)
  /\ Linalg.get_K example_real_parameters = (3 + 1)%nat
  /\ Z.of_nat (3 + 1) < 2 ^ 64
  /\ exists active_diagonal diagonal H,
       DOCI.calculateDiagonal (example_fock_space 3 1)
         (FrozenCoreCI.freezeHamiltonianParameters example_real_parameters 1)
       = Ok active_diagonal
       /\ FrozenCoreCIMethods.calculateDiagonal
            (DOCI.calculateDiagonal (example_fock_space 3 1))
            (FockSpace.get_dimension (example_fock_space 3 1)) 1 example_real_parameters
          = Ok diagonal
       /\ FrozenCoreCI.constructHamiltonian
            (DOCI.constructHamiltonian (example_fock_space 3 1))
            (FockSpace.get_dimension (example_fock_space 3 1)) 1 example_real_parameters
          = Ok H
       /\ Linalg.size diagonal = FockSpace.get_dimension (example_fock_space 3 1)
       /\ (forall I, 0 <= I < FockSpace.get_dimension (example_fock_space 3 1) ->
             Linalg.coeff diagonal I
             = (Linalg.coeff active_diagonal I
                + FrozenCoreCI.frozen_core_value example_real_parameters 1)%R
             /\ Linalg.entry H I I = Linalg.coeff diagonal I)
       /\ FrozenCoreCI.frozen_core_value example_real_parameters 1
          = frozen_core_energy example_real_parameters 1.
Proof.
  split; [lia|]. split; [lia|]. split; [lia|].
  split; [vm_compute; reflexivity|]. split; [reflexivity|].
  split; [vm_compute; reflexivity|].
  apply (X19_frozen_core_diagonal_matches (T:=R) (ST:=Scalar_R) RTheory
           3 1 1 (example_fock_space 3 1) example_real_parameters).
  - lia.
  - lia.
  - lia.
  - vm_compute. reflexivity.
  - reflexivity.
  - vm_compute. reflexivity.
Defined.

Lemma X20_frozen_core_matrix_vector_product_agrees_witness :
  (1 <= 3)%nat /\ (3 <= 54)%nat /\ (1 <= 31)%nat
  /\ FockSpace.FockSpace 3 1 = Ok (example_fock_space 3 1)
  /\ Linalg.get_K example_real_parameters = (3 + 1)%nat
  /\ Z.of_nat (3 + 1) < 2 ^ 64
  /\ exists diagonal H matvec,
       FrozenCoreCIMethods.calculateDiagonal
         (DOCI.calculateDiagonal (example_fock_space 3 1))
         (FockSpace.get_dimension (example_fock_space 3 1)) 1 example_real_parameters
       = Ok diagonal
       /\ FrozenCoreCI.constructHamiltonian
            (DOCI.constructHamiltonian (example_fock_space 3 1))
            (FockSpace.get_dimension (example_fock_space 3 1)) 1 example_real_parameters
          = Ok H
       /\ FrozenCoreCIMethods.matrixVectorProduct
            (DOCI.matrixVectorProduct (example_fock_space 3 1)) 1
            example_real_parameters example_real_vector diagonal = Ok matvec
       /\ Linalg.size matvec
          = Linalg.size (Linalg.SquareMatrix_mul_vector H example_real_vector)
       /\ (forall a, 0 <= a < FockSpace.get_dimension (example_fock_space 3 1) ->
             Linalg.coeff matvec a
             = Linalg.coeff (Linalg.SquareMatrix_mul_vector H example_real_vector) a).
Proof.
  split; [lia|]. split; [lia|]. split; [lia|].
  split; [vm_compute; reflexivity|]. split; [reflexivity|].
  split; [vm_compute; reflexivity|].
  apply (X20_frozen_core_matrix_vector_product_agrees (T:=R) (ST:=Scalar_R) RTheory
           3 1 1 (example_fock_space 3 1) example_real_parameters example_real_vector).
  - lia.
  - lia.
  - lia.
  - vm_compute. reflexivity.
  - reflexivity.
  - vm_compute. reflexivity.
Defined.

(** ** The rounds of the Davidson solver *)

Section DavidsonRounds.

Import Davidson.

Variable Subspace : Type.
Variable initial_subspace : DavidsonSolver -> Subspace.
Variable residuals_converged : Subspace -> bool.
Variable ritz_pairs : Subspace -> list Eigenpair.
Variable enlarge : Subspace -> Subspace.

Local Abbreviation rounds := (solve_loop Subspace residuals_converged ritz_pairs enlarge).

Lemma count_iterations_fields : forall k s,
  _is_solved (Nat.iter k count_iteration s) = _is_solved s
  /\ eigenpairs (Nat.iter k count_iteration s) = eigenpairs s
  /\ maximum_number_of_iterations (Nat.iter k count_iteration s)
     = maximum_number_of_iterations s
  /\ number_of_iterations (Nat.iter k count_iteration s)
     = (number_of_iterations s + k)%nat.
Proof.
  induction k as [|k IH]; intros s.
  - change (Nat.iter 0 count_iteration s) with s. repeat split. lia.
  - destruct (IH s) as (H1 & H2 & H3 & H4). rewrite Nat.iter_succ.
    repeat split; try assumption.
    transitivity (S (number_of_iterations (Nat.iter k count_iteration s)));
      [reflexivity|lia].
Qed.

(** k rounds without convergence, within the allowed number, lead to round
    k with the counter raised by k. *)
Lemma solve_loop_rounds : forall k fuel s sub,
  _is_solved s = false ->
  (forall j, (j < k)%nat -> residuals_converged (Nat.iter j enlarge sub) = false) ->
  (number_of_iterations s + k < maximum_number_of_iterations s \/ k = 0)%nat ->
  rounds (k + fuel) s sub
  = rounds fuel (Nat.iter k count_iteration s) (Nat.iter k enlarge sub).
Proof.
  induction k as [|k IH]; intros fuel s sub Hs Hnot Hmax; [reflexivity|].
  cbn [Nat.add solve_loop]. rewrite Hs.
  assert (H0 : residuals_converged sub = false) by (apply (Hnot O); lia).
  rewrite H0.
  assert (Hc : maximum_number_of_iterations (count_iteration s)
               = maximum_number_of_iterations s) by reflexivity.
  assert (Hn : number_of_iterations (count_iteration s)
               = S (number_of_iterations s)) by reflexivity.
  destruct (Nat.leb_spec (maximum_number_of_iterations (count_iteration s))
                         (number_of_iterations (count_iteration s))) as [Hle|Hlt];
    [lia|].
  rewrite (IH fuel (count_iteration s) (enlarge sub)).
  - rewrite <- !Nat.iter_succ_r. reflexivity.
  - exact Hs.
  - intros j Hj. rewrite <- Nat.iter_succ_r. apply Hnot. lia.
  - left. lia.
Qed.

(** X21: a solver that has not been solved and has counted no iteration,
    whose residuals are first found converged in round k (counted from 0),
    with k = 0 or k below the maximum number of iterations: [solve]
    returns normally, the number of iterations is k and the Ritz pairs of
    that round are appended to the eigenpairs. *)
Theorem X21_solve_converges_in_round : forall (s : DavidsonSolver) (k : nat),
  _is_solved s = false -> number_of_iterations s = O ->
  (forall j, (j < k)%nat ->
     residuals_converged (Nat.iter j enlarge (initial_subspace s)) = false) ->
  residuals_converged (Nat.iter k enlarge (initial_subspace s)) = true ->
  (k = 0 \/ k < maximum_number_of_iterations s)%nat ->
  exists s',
    solve Subspace initial_subspace residuals_converged ritz_pairs enlarge s
    = Some (s', Ok tt)
    /\ get_number_of_iterations s' = Ok k
    /\ eigenpairs s'
       = eigenpairs s ++ ritz_pairs (Nat.iter k enlarge (initial_subspace s)).
Proof.
  intros s k Hs Hn Hnot Hconv Hk. unfold solve. rewrite Hn, Nat.sub_0_r.
  destruct (count_iterations_fields k s) as (F1 & F2 & F3 & F4).
  assert (Hfuel : exists fuel, S (maximum_number_of_iterations s) = (k + S fuel)%nat).
  { exists (maximum_number_of_iterations s - k)%nat. lia. }
  destruct Hfuel as [fuel ->].
  rewrite (solve_loop_rounds k (S fuel) s (initial_subspace s) Hs Hnot) by lia.
  cbn [solve_loop]. rewrite F1, Hs, Hconv.
  eexists. split; [reflexivity|].
  unfold get_number_of_iterations, set_solved.
  cbn [_is_solved number_of_iterations eigenpairs].
  rewrite F2, F4, Hn. split; reflexivity.
Qed.

(** X22: when the residuals are not converged in any of the first
    max(1, maximum_number_of_iterations) rounds, [solve] throws
    [std::runtime_error] after counting exactly that many iterations; the
    solver stays unsolved and its eigenpairs are not touched.  With a
    maximum of 0 one round is still made. *)
Theorem X22_solve_gives_up : forall (s : DavidsonSolver),
  _is_solved s = false -> number_of_iterations s = O ->
  (forall j, (j < Nat.max 1 (maximum_number_of_iterations s))%nat ->
     residuals_converged (Nat.iter j enlarge (initial_subspace s)) = false) ->
  exists s',
    solve Subspace initial_subspace residuals_converged ritz_pairs enlarge s
    = Some (s', Throw std_runtime_error)
    /\ number_of_iterations s' = Nat.max 1 (maximum_number_of_iterations s)
    /\ _is_solved s' = false
    /\ eigenpairs s' = eigenpairs s.
Proof.
  intros s Hs Hn Hnot. unfold solve. rewrite Hn, Nat.sub_0_r.
  set (m := maximum_number_of_iterations s) in *.
  set (k := (Nat.max 1 m - 1)%nat).
  destruct (count_iterations_fields k s) as (F1 & F2 & F3 & F4).
  assert (Hfuel : S m = (k + S (m - k))%nat) by lia.
  rewrite Hfuel.
  rewrite (solve_loop_rounds k (S (m - k)) s (initial_subspace s) Hs).
  - cbn [solve_loop]. rewrite F1, Hs, (Hnot k) by lia.
    assert (Hc : maximum_number_of_iterations
                   (count_iteration (Nat.iter k count_iteration s)) = m).
    { exact F3. }
    assert (Hi : number_of_iterations
                   (count_iteration (Nat.iter k count_iteration s)) = S k).
    { change (S (number_of_iterations (Nat.iter k count_iteration s)) = S k).
      rewrite F4, Hn. reflexivity. }
    destruct (Nat.leb_spec (maximum_number_of_iterations
                              (count_iteration (Nat.iter k count_iteration s)))
                           (number_of_iterations
                              (count_iteration (Nat.iter k count_iteration s))))
      as [Hle|Hlt]; [|lia].
    eexists. split; [reflexivity|].
    split; [rewrite Hi; lia|].
    split; [exact F1 || (cbn [_is_solved count_iteration]; rewrite F1; exact Hs)|].
    exact F2.
  - intros j Hj. apply Hnot. lia.
  - fold m. lia.
Qed.

End DavidsonRounds.

Lemma X21_solve_converges_in_round_witness :
  let s := Davidson.Build 2 1 false [] (fun v => v) [1%R; 2%R]
             (Davidson.BuildMatrixX 2 1 (fun _ _ => 1%R)) 1%R 1%R 5 3 10 0 in
  let pairs := fun n : nat => [Davidson.BuildEigenpair 1%R (repeat 0%R n)] in
  exists s',
    Davidson.solve nat (fun _ => O) (fun n => (2 <=? n)%nat) pairs S s
    = Some (s', Ok tt)
    /\ Davidson.get_number_of_iterations s' = Ok 2%nat
    /\ Davidson.eigenpairs s' = Davidson.eigenpairs s ++ pairs (Nat.iter 2 S O).
Proof.
  intros s pairs.
  apply (X21_solve_converges_in_round nat (fun _ => O) (fun n => (2 <=? n)%nat)
           pairs S s 2).
  - reflexivity.
  - reflexivity.
  - intros j Hj. destruct j as [|[|j]]; [reflexivity|reflexivity|lia].
  - reflexivity.
  - right. simpl. lia.
Defined.

Lemma X22_solve_gives_up_witness :
  let s := Davidson.Build 2 1 false [] (fun v => v) [1%R; 2%R]
             (Davidson.BuildMatrixX 2 1 (fun _ _ => 1%R)) 1%R 1%R 5 3 2 0 in
  exists s',
    Davidson.solve nat (fun _ => O) (fun n => (2 <=? n)%nat)
      (fun n => [Davidson.BuildEigenpair 1%R (repeat 0%R n)]) S s
    = Some (s', Throw std_runtime_error)
    /\ Davidson.number_of_iterations s'
       = Nat.max 1 (Davidson.maximum_number_of_iterations s)
    /\ Davidson._is_solved s' = false
    /\ Davidson.eigenpairs s' = Davidson.eigenpairs s.
Proof.
  intros s.
  apply (X22_solve_gives_up nat (fun _ => O) (fun n => (2 <=? n)%nat)
           (fun n => [Davidson.BuildEigenpair 1%R (repeat 0%R n)]) S s).
  - reflexivity.
  - reflexivity.
  - intros j Hj. simpl in Hj. destruct j as [|[|j]]; [reflexivity|reflexivity|lia].
Defined.

(** ** The selected Fock space of a Fock space *)

Section SelectedFromFockSpace.

Import SelectedFockSpace.

Lemma configurations_of_the_traversal : forall fs,
  well_formed fs ->
  let configurations :=
    fst (for_range 0 (Z.to_nat (FockSpace.get_dimension fs))
           (fun i '(configurations, onv) =>
              let I := Z.of_nat i in
              let configurations := configurations ++ [BuildConfiguration onv onv] in
              let onv :=
                if I <? wrap64 (FockSpace.get_dimension fs - 1)
                then FockSpace.setNextONV fs onv else onv in
              (configurations, onv)) ([], FockSpace.makeONV fs 0)) in
  length configurations = Z.to_nat (FockSpace.get_dimension fs)
  /\ forall l, occupation fs l ->
       nth_error configurations (Z.to_nat (rank 0 l)) = Some (doubly_occupied fs l).
Proof.
  intros fs Hwf configurations.
  pose proof (well_formed_addressable fs Hwf) as Hadd.
  pose (Q := fun (i : nat) (cs : list Configuration) (_ : unit) =>
    length cs = i
    /\ forall l, occupation fs l -> rank 0 l < Z.of_nat i ->
         nth_error cs (Z.to_nat (rank 0 l)) = Some (doubly_occupied fs l)).
  assert (G : Q (Z.to_nat (FockSpace.get_dimension fs)) configurations
                (fst (for_range 0 (Z.to_nat (FockSpace.get_dimension fs))
                        (fun i (st : unit * ONV.ONV) => (tt, next_onv fs i (snd st)))
                        (tt, FockSpace.makeONV fs 0)))).
  { apply (traversal_ind2 fs Hwf).
    - intros i a onv. reflexivity.
    - intros i b onv. reflexivity.
    - split; [reflexivity|]. intros l Hocc Hr.
      pose proof (occupation_rank_range fs l Hadd Hocc). lia.
    - intros i l cs u Hi Hocc Hrank [Hlen Hnth]. cbn [fst snd].
      split; [rewrite length_app, Hlen; cbn [length]; lia|].
      intros l' Hocc' Hr'.
      pose proof (occupation_rank_range fs l' Hadd Hocc') as Hrange.
      destruct (Z.eq_dec (rank 0 l') (Z.of_nat i)) as [Heq|Hne].
      + assert (l' = l) as ->.
        { apply (occupation_unique fs); try assumption. congruence. }
        rewrite Hrank, Nat2Z.id, nth_error_app2 by lia.
        rewrite Hlen, Nat.sub_diag. reflexivity.
      + rewrite nth_error_app1 by lia. apply Hnth; [assumption|lia]. }
  destruct G as [Hlen Hnth]. split; [exact Hlen|].
  intros l Hocc. apply Hnth; [exact Hocc|].
  pose proof (occupation_rank_range fs l Hadd Hocc) as Hrange.
  unfold FockSpace.get_dimension. lia.
Qed.

(** X23: the selected Fock space made from FockSpace(K, N), with
    N <= K <= 54 and N <= 31, has K orbitals, N alpha and N beta electrons
    and the dimension of the Fock space; it stores as many configurations as
    its dimension, and at the address of every ONV of the Fock space stands
    the configuration with that ONV for both spins. *)
Theorem X23_selected_space_of_a_fock_space :
  forall (K N : nat) (fs : FockSpace.t),
    (N <= K)%nat -> (K <= 54)%nat -> (N <= 31)%nat ->
    FockSpace.FockSpace K N = Ok fs ->
    let selected := SelectedFockSpaceMethods.SelectedFockSpace_from_FockSpace fs in
    SelectedFockSpace.K selected = K
    /\ N_alpha selected = N /\ N_beta selected = N
    /\ dim selected = choose K N
    /\ Z.of_nat (length (configurations selected)) = dim selected
    /\ forall l, occupation fs l ->
         nth_error (configurations selected)
                   (Z.to_nat (FockSpace.getAddress fs (representation_of l)))
         = Some (doubly_occupied fs l).
Proof.
  intros K N fs HN HK54 HN31 Hfs selected.
  destruct (constructed_well_formed K N fs HN HK54 HN31 Hfs) as (Hwf & HKfs & HNfs).
  pose proof (well_formed_addressable fs Hwf) as Hadd.
  destruct (configurations_of_the_traversal fs Hwf) as [Hlen Hnth].
  cbv zeta in Hlen, Hnth.
  assert (Hdim : 0 <= FockSpace.get_dimension fs).
  { pose proof (occupation_rank_range fs (seq 0 (FockSpace.N fs)) Hadd
                  (addressable_first_occupation fs Hadd)).
    unfold FockSpace.get_dimension. lia. }
  unfold selected, SelectedFockSpaceMethods.SelectedFockSpace_from_FockSpace.
  destruct (for_range _ _ _ _) as [cs onv] eqn:E. cbn [fst] in Hlen, Hnth.
  cbn [SelectedFockSpace.K N_alpha N_beta dim configurations SelectedFockSpace].
  unfold FockSpace.get_K, FockSpace.get_N.
  split; [exact HKfs|]. split; [exact HNfs|]. split; [exact HNfs|].
  split.
  { destruct Hwf as (_ & _ & _ & Hd & _). unfold FockSpace.get_dimension.
    rewrite Hd, HKfs, HNfs. reflexivity. }
  split; [rewrite Hlen; lia|].
  intros l Hocc. rewrite (getAddress_rank fs l Hadd Hocc). apply Hnth, Hocc.
Qed.

Lemma X23_selected_space_of_a_fock_space_witness :
  (2 <= 4)%nat /\ (4 <= 54)%nat /\ (2 <= 31)%nat
  /\ FockSpace.FockSpace 4 2 = Ok (example_fock_space 4 2)
  /\ let selected :=
       SelectedFockSpaceMethods.SelectedFockSpace_from_FockSpace
         (example_fock_space 4 2) in
     SelectedFockSpace.K selected = 4%nat
     /\ N_alpha selected = 2%nat /\ N_beta selected = 2%nat
     /\ dim selected = choose 4 2
     /\ Z.of_nat (length (configurations selected)) = dim selected
     /\ forall l, occupation (example_fock_space 4 2) l ->
          nth_error (configurations selected)
                    (Z.to_nat (FockSpace.getAddress (example_fock_space 4 2)
                                 (representation_of l)))
          = Some (doubly_occupied (example_fock_space 4 2) l).
Proof.
  split; [lia|]. split; [lia|]. split; [lia|].
  split; [vm_compute; reflexivity|].
  apply (X23_selected_space_of_a_fock_space 4 2 (example_fock_space 4 2)).
  - lia.
  - lia.
  - lia.
  - vm_compute. reflexivity.
Defined.

End SelectedFromFockSpace.

(** ** The frozen one-electron integrals *)

Section FrozenOneElectron.

Import Linalg.

Context {T : Type} {ST : Scalar T}.
Hypothesis Tring : ring_theory zero one add mul sub opp (@eq T).

Add Ring scalar_ring_freeze : Tring.

Local Open Scope scalar_scope.

(** The loop over the frozen orbitals that adds to one element. *)
Lemma one_add_run : forall X (f : nat -> T) i j (h : OneElectronOperator T),
  let h' := for_range 0 X (fun l h => one_add_at h i j (f l)) h in
  one_dim h' = one_dim h
  /\ forall a b,
       one_entry h' a b
       = if (a =? i)%nat && (b =? j)%nat then one_entry h a b + sum_terms X f
         else one_entry h a b.
Proof.
  intros X f i j h h'. unfold h'.
  apply (for_range_ind _
           (fun n (h' : OneElectronOperator T) =>
              one_dim h' = one_dim h
              /\ forall a b,
                   one_entry h' a b
                   = if (a =? i)%nat && (b =? j)%nat
                     then one_entry h a b + sum_terms n f
                     else one_entry h a b)).
  - lia.
  - split; [reflexivity|]. intros a b.
    destruct ((a =? i)%nat && (b =? j)%nat); [|reflexivity].
    unfold sum_terms, for_range. cbn [Nat.sub seq fold_left]. ring.
  - intros l s' _ [Hdim Hent]. split; [exact Hdim|]. intros a b.
    cbn [one_entry one_add_at]. rewrite (Hent a b), sum_terms_S.
    destruct ((a =? i)%nat && (b =? j)%nat); [ring|reflexivity].
Qed.

(** The loop over the frozen orbitals that adds to the elements (i, j) and
    (j, i). *)
Lemma one_add_pair_run : forall X (f f' : nat -> T) i j (h : OneElectronOperator T),
  i <> j ->
  let h' := for_range 0 X
              (fun l h => one_add_at (one_add_at h i j (f l)) j i (f' l)) h in
  one_dim h' = one_dim h
  /\ forall a b,
       one_entry h' a b
       = if (a =? i)%nat && (b =? j)%nat then one_entry h a b + sum_terms X f
         else if (a =? j)%nat && (b =? i)%nat then one_entry h a b + sum_terms X f'
         else one_entry h a b.
Proof.
  intros X f f' i j h Hij h'. unfold h'.
  apply (for_range_ind _
           (fun n (h' : OneElectronOperator T) =>
              one_dim h' = one_dim h
              /\ forall a b,
                   one_entry h' a b
                   = if (a =? i)%nat && (b =? j)%nat
                     then one_entry h a b + sum_terms n f
                     else if (a =? j)%nat && (b =? i)%nat
                     then one_entry h a b + sum_terms n f'
                     else one_entry h a b)).
  - lia.
  - split; [reflexivity|]. intros a b.
    assert (Z0 : forall k : nat -> T, sum_terms 0 k = zero) by reflexivity.
    rewrite !Z0.
    destruct ((a =? i)%nat && (b =? j)%nat); [ring|].
    destruct ((a =? j)%nat && (b =? i)%nat); [ring|reflexivity].
  - intros l s' _ [Hdim Hent]. split; [exact Hdim|]. intros a b.
    cbn [one_entry one_add_at]. rewrite (Hent a b), !sum_terms_S.
    repeat match goal with
           | |- context [Nat.eqb ?x ?y] => destruct (Nat.eqb_spec x y); subst
           end; cbn [andb]; try congruence; ring.
Qed.

Ltac split_tests :=
  repeat match goal with
         | |- context [Nat.eqb ?x ?y] => destruct (Nat.eqb_spec x y)
         | |- context [Nat.ltb ?x ?y] => destruct (Nat.ltb_spec x y)
         end;
  cbn [andb].

(** The loop over the orbitals j above i. *)
Lemma one_add_column_run : forall X Ka (F : nat -> nat -> nat -> T) i
    (h : OneElectronOperator T),
  (i < Ka)%nat ->
  let h' := for_range (i + 1) Ka
              (fun j h =>
                 for_range 0 X
                   (fun l h => one_add_at (one_add_at h i j (F i j l)) j i (F j i l))
                   h) h in
  one_dim h' = one_dim h
  /\ forall a b,
       one_entry h' a b
       = if (a =? i)%nat && ((i <? b)%nat && (b <? Ka)%nat)
         then one_entry h a b + sum_terms X (F a b)
         else if (b =? i)%nat && ((i <? a)%nat && (a <? Ka)%nat)
         then one_entry h a b + sum_terms X (F a b)
         else one_entry h a b.
Proof.
  intros X Ka F i h Hi h'. unfold h'.
  apply (for_range_ind _
           (fun n (h' : OneElectronOperator T) =>
              one_dim h' = one_dim h
              /\ forall a b,
                   one_entry h' a b
                   = if (a =? i)%nat && ((i <? b)%nat && (b <? n)%nat)
                     then one_entry h a b + sum_terms X (F a b)
                     else if (b =? i)%nat && ((i <? a)%nat && (a <? n)%nat)
                     then one_entry h a b + sum_terms X (F a b)
                     else one_entry h a b)).
  - lia.
  - split; [reflexivity|]. intros a b.
    split_tests; try reflexivity; exfalso; lia.
  - intros j s' Hj [Hdim Hent].
    destruct (one_add_pair_run X (F i j) (F j i) i j s' ltac:(lia)) as [Hd He].
    cbv zeta in Hd, He. split; [rewrite Hd; exact Hdim|].
    intros a b. rewrite (He a b), (Hent a b).
    split_tests; subst; try reflexivity; try ring; exfalso; lia.
Qed.

(** The three nested loops of [freezeHamiltonianParameters]. *)
Lemma frozen_loops : forall X Ka (F : nat -> nat -> nat -> T)
    (h : OneElectronOperator T),
  let h' := for_range 0 Ka
              (fun i h =>
                 let h := for_range 0 X (fun l h => one_add_at h i i (F i i l)) h in
                 for_range (i + 1) Ka
                   (fun j h =>
                      for_range 0 X
                        (fun l h =>
                           one_add_at (one_add_at h i j (F i j l)) j i (F j i l))
                        h) h) h in
  one_dim h' = one_dim h
  /\ forall a b, (a < Ka)%nat -> (b < Ka)%nat ->
       one_entry h' a b = one_entry h a b + sum_terms X (F a b).
Proof.
  intros X Ka F h h'.
  pose (P := fun n (h' : OneElectronOperator T) =>
                 one_dim h' = one_dim h
                 /\ forall a b, (a < Ka)%nat -> (b < Ka)%nat ->
                      one_entry h' a b
                      = if (Nat.min a b <? n)%nat
                        then one_entry h a b + sum_terms X (F a b)
                        else one_entry h a b).
  assert (G : P Ka h').
  { unfold h'. apply (for_range_ind _ P); unfold P.
    - lia.
    - split; [reflexivity|]. intros a b _ _. reflexivity.
    - intros i s' Hi [Hdim Hent]. cbv zeta.
      destruct (one_add_run X (F i i) i i s') as [Hd1 He1]. cbv zeta in Hd1, He1.
      destruct (one_add_column_run X Ka F i
                  (for_range 0 X (fun l h => one_add_at h i i (F i i l)) s')
                  ltac:(lia)) as [Hd2 He2].
      cbv zeta in Hd2, He2.
      split; [rewrite Hd2, Hd1; exact Hdim|].
      intros a b Ha Hb. rewrite (He2 a b), (He1 a b), (Hent a b Ha Hb).
      destruct (Nat.min_spec a b) as [[Hab ->]|[Hab ->]];
        split_tests; subst; try reflexivity; try ring; exfalso; lia. }
  destruct G as [Hdim Hent]. split; [exact Hdim|].
  intros a b Ha Hb. rewrite (Hent a b Ha Hb).
  destruct (Nat.ltb_spec (Nat.min a b) Ka); [reflexivity|lia].
Qed.

(** X24: the one-electron integrals that [freezeHamiltonianParameters]
    returns are, at the active orbitals a and b, the integral of the
    orbitals a + X and b + X with the terms of the X frozen orbitals added,
    and there are K - X active orbitals. *)
Theorem X24_frozen_one_electron_integrals :
  forall (ham_par : HamiltonianParameters T) (X a b : nat),
    (X <= get_K ham_par)%nat -> (Z.of_nat (get_K ham_par) < 2 ^ 64)%Z ->
    (a < get_K ham_par - X)%nat -> (b < get_K ham_par - X)%nat ->
    get_K (FrozenCoreCI.freezeHamiltonianParameters ham_par X)
    = (get_K ham_par - X)%nat
    /\ one_entry (get_h (FrozenCoreCI.freezeHamiltonianParameters ham_par X)) a b
       = one_entry (get_h ham_par) (a + X) (b + X)
         + sum_terms X (frozen_term (two_entry (get_g ham_par)) (a + X) (b + X)).
Proof.
  intros ham_par X a b HX HK Ha Hb.
  assert (HKa : Z.to_nat (wrap64 (Z.of_nat (get_K ham_par) - Z.of_nat X))
                = (get_K ham_par - X)%nat).
  { unfold wrap64. rewrite Z.mod_small by lia. lia. }
  split.
  - rewrite (freeze_orbital_count ham_par X). exact HKa.
  - unfold FrozenCoreCI.freezeHamiltonianParameters.
    cbn [get_h]. rewrite HKa.
    destruct (frozen_loops X (get_K ham_par - X)
                (fun i j l => frozen_term (two_entry (get_g ham_par)) (i + X) (j + X) l)
                (block (get_h ham_par) X (get_K ham_par - X))) as [_ Hent].
    cbv zeta in Hent. unfold frozen_term in Hent at 1 2 3.
    rewrite (Hent a b Ha Hb). cbn [one_entry block].
    rewrite (Nat.add_comm X a), (Nat.add_comm X b). reflexivity.
Qed.

End FrozenOneElectron.

Lemma X24_frozen_one_electron_integrals_witness :
  (1 <= Linalg.get_K example_real_parameters)%nat
  /\ Z.of_nat (Linalg.get_K example_real_parameters) < 2 ^ 64
  /\ (0 < Linalg.get_K example_real_parameters - 1)%nat
  /\ (2 < Linalg.get_K example_real_parameters - 1)%nat
  /\ Linalg.get_K (FrozenCoreCI.freezeHamiltonianParameters example_real_parameters 1)
     = (Linalg.get_K example_real_parameters - 1)%nat
  /\ Linalg.one_entry
       (Linalg.get_h (FrozenCoreCI.freezeHamiltonianParameters example_real_parameters 1))
       0 2
     = (Linalg.one_entry (Linalg.get_h example_real_parameters) (0 + 1) (2 + 1)
        + sum_terms 1
            (frozen_term (Linalg.two_entry (Linalg.get_g example_real_parameters))
               (0 + 1) (2 + 1)))%R.
Proof.
  split; [vm_compute; lia|]. split; [vm_compute; reflexivity|].
  split; [vm_compute; lia|]. split; [vm_compute; lia|].
  apply (X24_frozen_one_electron_integrals (T:=R) (ST:=Scalar_R) RTheory
           example_real_parameters 1 0 2).
  - vm_compute. lia.
  - vm_compute. reflexivity.
  - vm_compute. lia.
  - vm_compute. lia.
Defined.

(** ** The iterations of the orbital optimizer *)

Section OptimizerIterations.

Import DOCINewtonOrbitalOptimizer.

Variable iterations : nat -> iteration.
Variable maximum_number_of_iterations : nat.

Local Abbreviation turns := (solve_loop iterations maximum_number_of_iterations).

Lemma optimizer_loop_failure : forall fuel k o n o' e,
  turns fuel k o n = Some (o', Throw e) -> o' = o.
Proof.
  induction fuel as [|fuel IH]; intros k o n o' e; cbn [solve_loop]; [discriminate|].
  destruct (is_converged o); [discriminate|].
  destruct (ci_solve (iterations k)) as [pairs|e1]; [|intros [= <- _]; reflexivity].
  destruct (gradient_below_threshold (iterations k)
            && negb (hessian_has_negative_eigenvalue (iterations k)));
    [discriminate|].
  destruct (negb _ && _); [intros [= <- _]; reflexivity|].
  destruct (rotate (iterations k)); [apply IH|intros [= <- _]; reflexivity].
Qed.

(** X25: when [solve] of the orbital optimizer ends with an exception,
    whichever it is, the stored eigenpairs are those of before the call and
    the optimizer is not converged: [get_eigenpairs] throws
    [std::logic_error], also when an earlier call had converged. *)
Theorem X25_failed_solve_keeps_the_eigenpairs : forall fuel o o' e,
  solve iterations maximum_number_of_iterations fuel o = Some (o', Throw e) ->
  eigenpairs o' = eigenpairs o
  /\ is_converged o' = false
  /\ get_eigenpairs o' = Throw std_logic_error.
Proof.
  intros fuel o o' e Hs. unfold solve in Hs.
  apply optimizer_loop_failure in Hs. subst o'.
  unfold get_eigenpairs. cbn [eigenpairs is_converged]. repeat split.
Qed.



(** X27: the iterations that find the gradient norm below the threshold and
    a negative Hessian eigenvalue are not counted: as long as they follow
    one another [solve] does not return, whatever the maximum number of
    iterations is. *)
Theorem X27_saddle_points_are_not_counted : forall o,
  (forall j,
     (exists pairs, ci_solve (iterations j) = Ok pairs)
     /\ gradient_below_threshold (iterations j) = true
     /\ hessian_has_negative_eigenvalue (iterations j) = true
     /\ rotate (iterations j) = Ok tt) ->
  forall fuel, solve iterations maximum_number_of_iterations fuel o = None.
Proof.
  intros o Hturn fuel. unfold solve.
  assert (G : forall fuel k n o1, is_converged o1 = false -> turns fuel k o1 n = None).
  { clear fuel. induction fuel as [|fuel IH]; intros k n o1 Ho1; [reflexivity|].
    cbn [solve_loop]. rewrite Ho1.
    destruct (Hturn k) as ([pairs Hci] & Hg & Hh & Hr).
    rewrite Hci, Hg, Hh, Hr. cbn [andb negb]. apply IH, Ho1. }
  apply G. reflexivity.
Qed.

End OptimizerIterations.

Lemma X25_failed_solve_keeps_the_eigenpairs_witness :
  let o := DOCINewtonOrbitalOptimizer.Build true
             [Davidson.BuildEigenpair 1%R [1%R; 0%R]] in
  let turn := fun _ : nat =>
    DOCINewtonOrbitalOptimizer.BuildIteration (Ok []) false false (Ok tt) in
  DOCINewtonOrbitalOptimizer.solve turn 2 5 o
  = Some (DOCINewtonOrbitalOptimizer.Build false
            [Davidson.BuildEigenpair 1%R [1%R; 0%R]], Throw std_runtime_error)
  /\ DOCINewtonOrbitalOptimizer.eigenpairs
       (DOCINewtonOrbitalOptimizer.Build false
          [Davidson.BuildEigenpair 1%R [1%R; 0%R]])
     = DOCINewtonOrbitalOptimizer.eigenpairs o
  /\ DOCINewtonOrbitalOptimizer.is_converged
       (DOCINewtonOrbitalOptimizer.Build false
          [Davidson.BuildEigenpair 1%R [1%R; 0%R]]) = false
  /\ DOCINewtonOrbitalOptimizer.get_eigenpairs
       (DOCINewtonOrbitalOptimizer.Build false
          [Davidson.BuildEigenpair 1%R [1%R; 0%R]]) = Throw std_logic_error.
Proof.
  intros o turn. split; [reflexivity|].
  apply (X25_failed_solve_keeps_the_eigenpairs turn 2 5 o _ std_runtime_error).
  reflexivity.
Defined.


Lemma X27_saddle_points_are_not_counted_witness :
  let turn := fun _ : nat =>
    DOCINewtonOrbitalOptimizer.BuildIteration (Ok []) true true (Ok tt) in
  DOCINewtonOrbitalOptimizer.solve turn 3 7 (DOCINewtonOrbitalOptimizer.Build false [])
  = None.
Proof.
  intros turn.
  apply (X27_saddle_points_are_not_counted turn 3
           (DOCINewtonOrbitalOptimizer.Build false [])).
  intros j. split; [exists []; reflexivity|]. repeat split; reflexivity.
Defined.
